(** * AppleUSBUHCI: the schedule builder, the descriptor pools, the
      completion scavenger and the completion dispatcher

    A shallow embedding of [AppleUSBUHCI.cpp] (HardwareInit, GlobalReset,
    Reset, Run, GetFrameNumber, GetFrameNumber32,
    ProcessCompletedTransactions, scavengeIsochTransactions,
    scavengeAnIsochTD, PutTDonDoneQueue, scavengeQueueHeads,
    UHCIUIMDoDoneQueueProcessing, AllocateTD, DeallocateTD, AllocateQH,
    DeallocateQH) and the properties of the controller core proved about
    it.

    Conventions of the embedding
    - a C++ pointer to a list element is a [ptr]; a nullable pointer is an
      [option ptr] with [None] for NULL;
    - the objects the driver shares with the hardware live in one store
      ([heap]) of tagged elements, so that [OSDynamicCast] is a tag test;
    - 32-bit words are [Z] with the wrap-around written out ([wrap32]);
    - the host is little-endian (the i386 build), so [HostToUSBLong] and
      [USBToHostLong] are the identity;
    - a function returns [None] when it dereferences a pointer that holds
      no object of the expected class, or when a loop that has no bound in
      the source does not finish within the fuel it was given;
    - what the driver does to the outside world (register writes, error
      logs, completion callbacks, calls into the superclass) is recorded,
      in order, in [trace]. *)

From stdpp Require Import base option list gmap.
From Stdlib Require Import ZArith Lia.

Local Open Scope Z_scope.
Set Warnings "-clear-no-such-hyp".
Set Warnings "-abstract-large-number".

(** ** Machine words *)

Definition wrap32 (x : Z) : Z := x mod 2 ^ 32.
Definition wrap16 (x : Z) : Z := x mod 2 ^ 16.

(** [~x] on a [UInt32]. *)
Definition not32 (x : Z) : Z := wrap32 (Z.lnot x).

(** USB descriptors are little-endian, and so is the host. *)
Definition HostToUSBLong (x : Z) : Z := x.
Definition USBToHostLong (x : Z) : Z := x.

(** A C condition on an integer. *)
Definition nonzero (x : Z) : bool := negb (x =? 0).

Definition kIOReturnSuccess : Z := 0.

Global Arguments wrap32 : simpl never.
Global Arguments wrap16 : simpl never.
Global Arguments not32 : simpl never.
Global Arguments nonzero : simpl never.

(** ** What the headers provide

    [AppleUSBUHCI.h], [UHCI.h] and [USB.h] are not part of the sources at
    hand.  Their constants and macros, the error translation
    [TDToUSBError] and the physical-address accessors of the list elements
    are taken as parameters of the development. *)

Class Header := {
  kIOReturnNoMemory : Z;
  kIOReturnTimeout : Z;
  (* command, status and interrupt-enable register bits *)
  kUHCI_CMD_RS : Z;
  kUHCI_CMD_MAXP : Z;
  kUHCI_CMD_CF : Z;
  kUHCI_STS_HCH : Z;
  kUHCI_INTR_TIE : Z;
  kUHCI_INTR_RIE : Z;
  kUHCI_INTR_IOCE : Z;
  kUHCI_INTR_SPIE : Z;
  (* frame number register *)
  kUHCI_FRNUM_MASK : Z;
  kUHCI_FRNUM_COUNT : Z;
  (* the schedule *)
  kUHCI_NVFRAMES : nat;
  kUHCI_NINTR_QHS : nat;
  (* link words *)
  kUHCI_QH_T : Z;
  (* transfer descriptor words *)
  kUHCI_TD_ACTIVE : Z;
  kUHCI_TD_STALLED : Z;
  kUHCI_TD_BABBLE : Z;
  kUHCI_TD_SPD : Z;
  kUHCI_TD_D : Z;
  UHCI_TD_GET_ACTLEN : Z → Z;
  UHCI_TD_GET_MAXLEN : Z → Z;
  (* queue head types and directions *)
  kQHTypeDummy : Z;
  kUSBControl : Z;
  kUSBBulk : Z;
  kUSBOut : Z;
  (* AppleUSBUHCI::TDToUSBError *)
  TDToUSBError : Z → Z;
  (* AppleUHCIQueueHead::GetPhysicalAddrWithType and
     AppleUHCITransferDescriptor::GetPhysicalAddrWithType, as functions of
     the physical address of the shared memory *)
  QH_PhysicalAddrWithType : Z → Z;
  TD_PhysicalAddrWithType : Z → Z;
}.

(** The constants of [UHCI.h] that only the reset path uses, and the
    default argument of [Reset] in [AppleUSBUHCI.h]
    ([Reset(bool enableInterrupts = ...)]). *)
Class ResetHeader := {
  kUHCI_CMD_GRESET : Z;
  kUHCI_CMD_HCRESET : Z;
  kUHCI_RESET_DELAY : nat;
  Reset_enableInterrupts : bool;
}.

(** ** The data model *)

Definition ptr := nat.

(** An [IOUSBCommand], as far as the scavenger and the dispatcher look
    into it: the action of its completion ([GetUSLCompletion().action],
    [None] for a null action) and whether [GetDMACommand()] is an
    [AppleUSBUHCIDMACommand] that has a memory descriptor. *)
Record IOUSBCommand := mkCommand {
  completion_action : option nat;
  dmaCommand : option nat;
}.

(** [AppleUHCITransferDescriptor]: the four words of the shared memory
    ([GetSharedLogical()] and [SetPhysicalLink]) and the software fields. *)
Record TD := mkTD {
  td_ctrlStatus : Z;
  td_link : Z;
  td_token : Z;
  td_buffer : Z;
  td_phys : Z;
  td_logicalNext : option ptr;
  td_lastTDofTransaction : bool;
  td_alignBuffer : option ptr;
  td_command : option IOUSBCommand;
  td_pQH : option ptr;
  td_direction : Z;
  td_lastFrame : Z;
  td_lastRemaining : Z;
  td_logicalBuffer : option ptr;
}.

(** [AppleUHCIQueueHead]. *)
Record QH := mkQH {
  qh_elink : Z;
  qh_hlink : Z;
  qh_phys : Z;
  qh_logicalNext : option ptr;
  qh_firstTD : option ptr;
  qh_lastTD : option ptr;
  qh_type : Z;
  qh_stalled : bool;
  qh_functionNumber : Z;
  qh_endpointNumber : Z;
  qh_direction : Z;
  qh_speed : Z;
  qh_maxPacketSize : Z;
}.

(** [AppleUHCIIsochTransferDescriptor]. *)
Record ITD := mkITD {
  itd_logicalNext : option ptr;
  itd_doneQueueLink : option ptr;
  itd_pEndpoint : option ptr;
  itd_lowLatency : bool;
  itd_alignBuffer : option (ptr * option nat);
}.

(** The classes of [IOUSBControllerListElement] the driver casts to. *)
Inductive Elem :=
  | ElemQH (q : QH)
  | ElemTD (t : TD)
  | ElemITD (t : ITD).

(** [IOUSBControllerIsochEndpoint]: the counters the scavenger maintains. *)
Record IsochEndpoint := mkEP {
  onProducerQ : Z;
  onReversedList : Z;
  nextEP : option ptr;
  ep_direction : Z;
}.

Inductive Reg := kUHCI_CMD | kUHCI_STS | kUHCI_INTR | kUHCI_FRNUM | kUHCI_FRBASEADDR.

(** What the driver does to its environment. *)
Inductive Event :=
  (* register writes *)
  | EvIoWrite16 (r : Reg) (v : Z)
  | EvIoWrite32 (r : Reg) (v : Z)
  | EvCommand (v : Z)
  (* USBError logs *)
  | ErrInvalidHeadOrTail (qHead qEnd : option ptr)
  | ErrNullTD
  | ErrMissingUSBCommand
  | ErrMissingDMACommand (td : ptr)
  | ErrCommandIsNull (td : ptr)
  | ErrCompletionActionIsNull
  | ErrControlBulkUnderrun
  | ErrNoEndpointForITD
  | ErrNoMemoryBlock
  | ErrRanOutOfTDs
  | ErrInitializeBufferMemory (status : Z)
  (* the USBLog lines of level 1 that report an anomaly *)
  | LogBadEDQueue (leCount : Z)
  | LogStillOnReversedList (ep : ptr) (n : Z)
  (* the USBLog line that announces the return of a descriptor to the pool *)
  | LogDeallocatingTD (td : ptr)
  (* calls out of the controller core *)
  | EvComplete (action : nat) (status : Z) (bufferSizeRemaining : Z)
  | EvRootHubStatusChange
  | EvStoreAlignBuffer (ab : ptr) (dma : nat) (actCount : Z)
  | EvReleaseIsochAlignmentBuffer (ab : ptr)
  | EvStoreIsochAlignBuffer (ab : ptr) (dma : nat)
  | EvUpdateFrameList (itd : ptr)
  | EvPutTDonDoneQueue (ep itd : ptr)
  | EvReturnIsochDoneQueue (ep : ptr)
  | EvAddIsochFramesToSchedule (ep : ptr).

(** A memory block as [NewMemoryBlock] hands it out: for every descriptor
    slot, the object [WithSharedMemory] creates for it (its address and
    the object as constructed), or [None] when the creation fails. *)
Definition MemoryBlock (A : Type) := list (option (ptr * A)).

(** ** The controller *)

Record UHCI := mkUHCI {
  heap : gmap ptr Elem;
  isochEPs : gmap ptr IsochEndpoint;
  (* frame number *)
  _lastFrameNumberLow : Z;
  _lastFrameNumberHigh : Z;
  _idleSuspend : bool;
  (* isochronous done queue *)
  _savedDoneQueueHead : option ptr;
  _producerCount : Z;
  _consumerCount : Z;
  _isochEPList : option ptr;
  (* descriptor pools *)
  _pFreeTD : option ptr;
  _pLastFreeTD : option ptr;
  _tdMBHead : list (MemoryBlock TD);
  _pFreeQH : option ptr;
  _pLastFreeQH : option ptr;
  _qhMBHead : list (MemoryBlock QH);
  (* schedule *)
  _framesPaddr : Z;
  _frameList : list Z;
  _logicalFrameList : list (option ptr);
  _intrQH : list (option ptr);
  _lastQH : option ptr;
  _bulkQHStart : option ptr;
  _bulkQHEnd : option ptr;
  _fsControlQHStart : option ptr;
  _fsControlQHEnd : option ptr;
  _lsControlQHStart : option ptr;
  _lsControlQHEnd : option ptr;
  (* transfers *)
  _controlBulkTransactionsOut : Z;
  _cbiAlignmentBuffers : list ptr;
  (* the environment: the blocks the next calls of
     AppleUHCItdMemoryBlock::NewMemoryBlock and
     AppleUHCIqhMemoryBlock::NewMemoryBlock return (none left: NULL) *)
  tdBlockSupply : list (MemoryBlock TD);
  qhBlockSupply : list (MemoryBlock QH);
  (* what has been done to the environment, oldest first *)
  trace : list Event;
}.

(** Field updates. *)

Definition set_td_ctrlStatus v (r : TD) : TD :=
  mkTD v (td_link r) (td_token r) (td_buffer r) (td_phys r) (td_logicalNext
    r) (td_lastTDofTransaction r) (td_alignBuffer r) (td_command r) (td_pQH
    r) (td_direction r) (td_lastFrame r) (td_lastRemaining r)
    (td_logicalBuffer r).
Definition set_td_token v (r : TD) : TD :=
  mkTD (td_ctrlStatus r) (td_link r) v (td_buffer r) (td_phys r)
    (td_logicalNext r) (td_lastTDofTransaction r) (td_alignBuffer r)
    (td_command r) (td_pQH r) (td_direction r) (td_lastFrame r)
    (td_lastRemaining r) (td_logicalBuffer r).
Definition set_td_logicalNext v (r : TD) : TD :=
  mkTD (td_ctrlStatus r) (td_link r) (td_token r) (td_buffer r) (td_phys r)
    v (td_lastTDofTransaction r) (td_alignBuffer r) (td_command r) (td_pQH
    r) (td_direction r) (td_lastFrame r) (td_lastRemaining r)
    (td_logicalBuffer r).
Definition set_td_lastTDofTransaction v (r : TD) : TD :=
  mkTD (td_ctrlStatus r) (td_link r) (td_token r) (td_buffer r) (td_phys r)
    (td_logicalNext r) v (td_alignBuffer r) (td_command r) (td_pQH r)
    (td_direction r) (td_lastFrame r) (td_lastRemaining r) (td_logicalBuffer
    r).
Definition set_td_alignBuffer v (r : TD) : TD :=
  mkTD (td_ctrlStatus r) (td_link r) (td_token r) (td_buffer r) (td_phys r)
    (td_logicalNext r) (td_lastTDofTransaction r) v (td_command r) (td_pQH
    r) (td_direction r) (td_lastFrame r) (td_lastRemaining r)
    (td_logicalBuffer r).
Definition set_td_logicalBuffer v (r : TD) : TD :=
  mkTD (td_ctrlStatus r) (td_link r) (td_token r) (td_buffer r) (td_phys r)
    (td_logicalNext r) (td_lastTDofTransaction r) (td_alignBuffer r)
    (td_command r) (td_pQH r) (td_direction r) (td_lastFrame r)
    (td_lastRemaining r) v.
Definition set_qh_elink v (r : QH) : QH :=
  mkQH v (qh_hlink r) (qh_phys r) (qh_logicalNext r) (qh_firstTD r)
    (qh_lastTD r) (qh_type r) (qh_stalled r) (qh_functionNumber r)
    (qh_endpointNumber r) (qh_direction r) (qh_speed r) (qh_maxPacketSize r).
Definition set_qh_hlink v (r : QH) : QH :=
  mkQH (qh_elink r) v (qh_phys r) (qh_logicalNext r) (qh_firstTD r)
    (qh_lastTD r) (qh_type r) (qh_stalled r) (qh_functionNumber r)
    (qh_endpointNumber r) (qh_direction r) (qh_speed r) (qh_maxPacketSize r).
Definition set_qh_logicalNext v (r : QH) : QH :=
  mkQH (qh_elink r) (qh_hlink r) (qh_phys r) v (qh_firstTD r) (qh_lastTD r)
    (qh_type r) (qh_stalled r) (qh_functionNumber r) (qh_endpointNumber r)
    (qh_direction r) (qh_speed r) (qh_maxPacketSize r).
Definition set_qh_firstTD v (r : QH) : QH :=
  mkQH (qh_elink r) (qh_hlink r) (qh_phys r) (qh_logicalNext r) v (qh_lastTD
    r) (qh_type r) (qh_stalled r) (qh_functionNumber r) (qh_endpointNumber
    r) (qh_direction r) (qh_speed r) (qh_maxPacketSize r).
Definition set_qh_stalled v (r : QH) : QH :=
  mkQH (qh_elink r) (qh_hlink r) (qh_phys r) (qh_logicalNext r) (qh_firstTD
    r) (qh_lastTD r) (qh_type r) v (qh_functionNumber r) (qh_endpointNumber
    r) (qh_direction r) (qh_speed r) (qh_maxPacketSize r).
Definition set_itd_logicalNext v (r : ITD) : ITD :=
  mkITD v (itd_doneQueueLink r) (itd_pEndpoint r) (itd_lowLatency r)
    (itd_alignBuffer r).
Definition set_itd_alignBuffer v (r : ITD) : ITD :=
  mkITD (itd_logicalNext r) (itd_doneQueueLink r) (itd_pEndpoint r)
    (itd_lowLatency r) v.
Definition set_onProducerQ v (r : IsochEndpoint) : IsochEndpoint :=
  mkEP v (onReversedList r) (nextEP r) (ep_direction r).
Definition set_onReversedList v (r : IsochEndpoint) : IsochEndpoint :=
  mkEP (onProducerQ r) v (nextEP r) (ep_direction r).

Definition set_heap v (s : UHCI) : UHCI :=
  mkUHCI v (isochEPs s) (_lastFrameNumberLow s) (_lastFrameNumberHigh s)
    (_idleSuspend s) (_savedDoneQueueHead s) (_producerCount s)
    (_consumerCount s) (_isochEPList s) (_pFreeTD s) (_pLastFreeTD s)
    (_tdMBHead s) (_pFreeQH s) (_pLastFreeQH s) (_qhMBHead s) (_framesPaddr
    s) (_frameList s) (_logicalFrameList s) (_intrQH s) (_lastQH s)
    (_bulkQHStart s) (_bulkQHEnd s) (_fsControlQHStart s) (_fsControlQHEnd
    s) (_lsControlQHStart s) (_lsControlQHEnd s)
    (_controlBulkTransactionsOut s) (_cbiAlignmentBuffers s) (tdBlockSupply
    s) (qhBlockSupply s) (trace s).
Definition set_isochEPs v (s : UHCI) : UHCI :=
  mkUHCI (heap s) v (_lastFrameNumberLow s) (_lastFrameNumberHigh s)
    (_idleSuspend s) (_savedDoneQueueHead s) (_producerCount s)
    (_consumerCount s) (_isochEPList s) (_pFreeTD s) (_pLastFreeTD s)
    (_tdMBHead s) (_pFreeQH s) (_pLastFreeQH s) (_qhMBHead s) (_framesPaddr
    s) (_frameList s) (_logicalFrameList s) (_intrQH s) (_lastQH s)
    (_bulkQHStart s) (_bulkQHEnd s) (_fsControlQHStart s) (_fsControlQHEnd
    s) (_lsControlQHStart s) (_lsControlQHEnd s)
    (_controlBulkTransactionsOut s) (_cbiAlignmentBuffers s) (tdBlockSupply
    s) (qhBlockSupply s) (trace s).
Definition set_lastFrameNumberLow v (s : UHCI) : UHCI :=
  mkUHCI (heap s) (isochEPs s) v (_lastFrameNumberHigh s) (_idleSuspend s)
    (_savedDoneQueueHead s) (_producerCount s) (_consumerCount s)
    (_isochEPList s) (_pFreeTD s) (_pLastFreeTD s) (_tdMBHead s) (_pFreeQH
    s) (_pLastFreeQH s) (_qhMBHead s) (_framesPaddr s) (_frameList s)
    (_logicalFrameList s) (_intrQH s) (_lastQH s) (_bulkQHStart s)
    (_bulkQHEnd s) (_fsControlQHStart s) (_fsControlQHEnd s)
    (_lsControlQHStart s) (_lsControlQHEnd s) (_controlBulkTransactionsOut
    s) (_cbiAlignmentBuffers s) (tdBlockSupply s) (qhBlockSupply s) (trace
    s).
Definition set_lastFrameNumberHigh v (s : UHCI) : UHCI :=
  mkUHCI (heap s) (isochEPs s) (_lastFrameNumberLow s) v (_idleSuspend s)
    (_savedDoneQueueHead s) (_producerCount s) (_consumerCount s)
    (_isochEPList s) (_pFreeTD s) (_pLastFreeTD s) (_tdMBHead s) (_pFreeQH
    s) (_pLastFreeQH s) (_qhMBHead s) (_framesPaddr s) (_frameList s)
    (_logicalFrameList s) (_intrQH s) (_lastQH s) (_bulkQHStart s)
    (_bulkQHEnd s) (_fsControlQHStart s) (_fsControlQHEnd s)
    (_lsControlQHStart s) (_lsControlQHEnd s) (_controlBulkTransactionsOut
    s) (_cbiAlignmentBuffers s) (tdBlockSupply s) (qhBlockSupply s) (trace
    s).
Definition set_consumerCount v (s : UHCI) : UHCI :=
  mkUHCI (heap s) (isochEPs s) (_lastFrameNumberLow s) (_lastFrameNumberHigh
    s) (_idleSuspend s) (_savedDoneQueueHead s) (_producerCount s) v
    (_isochEPList s) (_pFreeTD s) (_pLastFreeTD s) (_tdMBHead s) (_pFreeQH
    s) (_pLastFreeQH s) (_qhMBHead s) (_framesPaddr s) (_frameList s)
    (_logicalFrameList s) (_intrQH s) (_lastQH s) (_bulkQHStart s)
    (_bulkQHEnd s) (_fsControlQHStart s) (_fsControlQHEnd s)
    (_lsControlQHStart s) (_lsControlQHEnd s) (_controlBulkTransactionsOut
    s) (_cbiAlignmentBuffers s) (tdBlockSupply s) (qhBlockSupply s) (trace
    s).
Definition set_pFreeTD v (s : UHCI) : UHCI :=
  mkUHCI (heap s) (isochEPs s) (_lastFrameNumberLow s) (_lastFrameNumberHigh
    s) (_idleSuspend s) (_savedDoneQueueHead s) (_producerCount s)
    (_consumerCount s) (_isochEPList s) v (_pLastFreeTD s) (_tdMBHead s)
    (_pFreeQH s) (_pLastFreeQH s) (_qhMBHead s) (_framesPaddr s) (_frameList
    s) (_logicalFrameList s) (_intrQH s) (_lastQH s) (_bulkQHStart s)
    (_bulkQHEnd s) (_fsControlQHStart s) (_fsControlQHEnd s)
    (_lsControlQHStart s) (_lsControlQHEnd s) (_controlBulkTransactionsOut
    s) (_cbiAlignmentBuffers s) (tdBlockSupply s) (qhBlockSupply s) (trace
    s).
Definition set_pLastFreeTD v (s : UHCI) : UHCI :=
  mkUHCI (heap s) (isochEPs s) (_lastFrameNumberLow s) (_lastFrameNumberHigh
    s) (_idleSuspend s) (_savedDoneQueueHead s) (_producerCount s)
    (_consumerCount s) (_isochEPList s) (_pFreeTD s) v (_tdMBHead s)
    (_pFreeQH s) (_pLastFreeQH s) (_qhMBHead s) (_framesPaddr s) (_frameList
    s) (_logicalFrameList s) (_intrQH s) (_lastQH s) (_bulkQHStart s)
    (_bulkQHEnd s) (_fsControlQHStart s) (_fsControlQHEnd s)
    (_lsControlQHStart s) (_lsControlQHEnd s) (_controlBulkTransactionsOut
    s) (_cbiAlignmentBuffers s) (tdBlockSupply s) (qhBlockSupply s) (trace
    s).
Definition set_tdMBHead v (s : UHCI) : UHCI :=
  mkUHCI (heap s) (isochEPs s) (_lastFrameNumberLow s) (_lastFrameNumberHigh
    s) (_idleSuspend s) (_savedDoneQueueHead s) (_producerCount s)
    (_consumerCount s) (_isochEPList s) (_pFreeTD s) (_pLastFreeTD s) v
    (_pFreeQH s) (_pLastFreeQH s) (_qhMBHead s) (_framesPaddr s) (_frameList
    s) (_logicalFrameList s) (_intrQH s) (_lastQH s) (_bulkQHStart s)
    (_bulkQHEnd s) (_fsControlQHStart s) (_fsControlQHEnd s)
    (_lsControlQHStart s) (_lsControlQHEnd s) (_controlBulkTransactionsOut
    s) (_cbiAlignmentBuffers s) (tdBlockSupply s) (qhBlockSupply s) (trace
    s).
Definition set_pFreeQH v (s : UHCI) : UHCI :=
  mkUHCI (heap s) (isochEPs s) (_lastFrameNumberLow s) (_lastFrameNumberHigh
    s) (_idleSuspend s) (_savedDoneQueueHead s) (_producerCount s)
    (_consumerCount s) (_isochEPList s) (_pFreeTD s) (_pLastFreeTD s)
    (_tdMBHead s) v (_pLastFreeQH s) (_qhMBHead s) (_framesPaddr s)
    (_frameList s) (_logicalFrameList s) (_intrQH s) (_lastQH s)
    (_bulkQHStart s) (_bulkQHEnd s) (_fsControlQHStart s) (_fsControlQHEnd
    s) (_lsControlQHStart s) (_lsControlQHEnd s)
    (_controlBulkTransactionsOut s) (_cbiAlignmentBuffers s) (tdBlockSupply
    s) (qhBlockSupply s) (trace s).
Definition set_pLastFreeQH v (s : UHCI) : UHCI :=
  mkUHCI (heap s) (isochEPs s) (_lastFrameNumberLow s) (_lastFrameNumberHigh
    s) (_idleSuspend s) (_savedDoneQueueHead s) (_producerCount s)
    (_consumerCount s) (_isochEPList s) (_pFreeTD s) (_pLastFreeTD s)
    (_tdMBHead s) (_pFreeQH s) v (_qhMBHead s) (_framesPaddr s) (_frameList
    s) (_logicalFrameList s) (_intrQH s) (_lastQH s) (_bulkQHStart s)
    (_bulkQHEnd s) (_fsControlQHStart s) (_fsControlQHEnd s)
    (_lsControlQHStart s) (_lsControlQHEnd s) (_controlBulkTransactionsOut
    s) (_cbiAlignmentBuffers s) (tdBlockSupply s) (qhBlockSupply s) (trace
    s).
Definition set_qhMBHead v (s : UHCI) : UHCI :=
  mkUHCI (heap s) (isochEPs s) (_lastFrameNumberLow s) (_lastFrameNumberHigh
    s) (_idleSuspend s) (_savedDoneQueueHead s) (_producerCount s)
    (_consumerCount s) (_isochEPList s) (_pFreeTD s) (_pLastFreeTD s)
    (_tdMBHead s) (_pFreeQH s) (_pLastFreeQH s) v (_framesPaddr s)
    (_frameList s) (_logicalFrameList s) (_intrQH s) (_lastQH s)
    (_bulkQHStart s) (_bulkQHEnd s) (_fsControlQHStart s) (_fsControlQHEnd
    s) (_lsControlQHStart s) (_lsControlQHEnd s)
    (_controlBulkTransactionsOut s) (_cbiAlignmentBuffers s) (tdBlockSupply
    s) (qhBlockSupply s) (trace s).
Definition set_framesPaddr v (s : UHCI) : UHCI :=
  mkUHCI (heap s) (isochEPs s) (_lastFrameNumberLow s) (_lastFrameNumberHigh
    s) (_idleSuspend s) (_savedDoneQueueHead s) (_producerCount s)
    (_consumerCount s) (_isochEPList s) (_pFreeTD s) (_pLastFreeTD s)
    (_tdMBHead s) (_pFreeQH s) (_pLastFreeQH s) (_qhMBHead s) v
    (_frameList s) (_logicalFrameList s) (_intrQH s) (_lastQH s)
    (_bulkQHStart s) (_bulkQHEnd s) (_fsControlQHStart s) (_fsControlQHEnd
    s) (_lsControlQHStart s) (_lsControlQHEnd s)
    (_controlBulkTransactionsOut s) (_cbiAlignmentBuffers s) (tdBlockSupply
    s) (qhBlockSupply s) (trace s).
Definition set_frameList v (s : UHCI) : UHCI :=
  mkUHCI (heap s) (isochEPs s) (_lastFrameNumberLow s) (_lastFrameNumberHigh
    s) (_idleSuspend s) (_savedDoneQueueHead s) (_producerCount s)
    (_consumerCount s) (_isochEPList s) (_pFreeTD s) (_pLastFreeTD s)
    (_tdMBHead s) (_pFreeQH s) (_pLastFreeQH s) (_qhMBHead s) (_framesPaddr
    s) v (_logicalFrameList s) (_intrQH s) (_lastQH s) (_bulkQHStart s)
    (_bulkQHEnd s) (_fsControlQHStart s) (_fsControlQHEnd s)
    (_lsControlQHStart s) (_lsControlQHEnd s) (_controlBulkTransactionsOut
    s) (_cbiAlignmentBuffers s) (tdBlockSupply s) (qhBlockSupply s) (trace
    s).
Definition set_logicalFrameList v (s : UHCI) : UHCI :=
  mkUHCI (heap s) (isochEPs s) (_lastFrameNumberLow s) (_lastFrameNumberHigh
    s) (_idleSuspend s) (_savedDoneQueueHead s) (_producerCount s)
    (_consumerCount s) (_isochEPList s) (_pFreeTD s) (_pLastFreeTD s)
    (_tdMBHead s) (_pFreeQH s) (_pLastFreeQH s) (_qhMBHead s) (_framesPaddr
    s) (_frameList s) v (_intrQH s) (_lastQH s) (_bulkQHStart s) (_bulkQHEnd
    s) (_fsControlQHStart s) (_fsControlQHEnd s) (_lsControlQHStart s)
    (_lsControlQHEnd s) (_controlBulkTransactionsOut s)
    (_cbiAlignmentBuffers s) (tdBlockSupply s) (qhBlockSupply s) (trace s).
Definition set_intrQH v (s : UHCI) : UHCI :=
  mkUHCI (heap s) (isochEPs s) (_lastFrameNumberLow s) (_lastFrameNumberHigh
    s) (_idleSuspend s) (_savedDoneQueueHead s) (_producerCount s)
    (_consumerCount s) (_isochEPList s) (_pFreeTD s) (_pLastFreeTD s)
    (_tdMBHead s) (_pFreeQH s) (_pLastFreeQH s) (_qhMBHead s) (_framesPaddr
    s) (_frameList s) (_logicalFrameList s) v (_lastQH s) (_bulkQHStart s)
    (_bulkQHEnd s) (_fsControlQHStart s) (_fsControlQHEnd s)
    (_lsControlQHStart s) (_lsControlQHEnd s) (_controlBulkTransactionsOut
    s) (_cbiAlignmentBuffers s) (tdBlockSupply s) (qhBlockSupply s) (trace
    s).
Definition set_lastQH v (s : UHCI) : UHCI :=
  mkUHCI (heap s) (isochEPs s) (_lastFrameNumberLow s) (_lastFrameNumberHigh
    s) (_idleSuspend s) (_savedDoneQueueHead s) (_producerCount s)
    (_consumerCount s) (_isochEPList s) (_pFreeTD s) (_pLastFreeTD s)
    (_tdMBHead s) (_pFreeQH s) (_pLastFreeQH s) (_qhMBHead s) (_framesPaddr
    s) (_frameList s) (_logicalFrameList s) (_intrQH s) v (_bulkQHStart s)
    (_bulkQHEnd s) (_fsControlQHStart s) (_fsControlQHEnd s)
    (_lsControlQHStart s) (_lsControlQHEnd s) (_controlBulkTransactionsOut
    s) (_cbiAlignmentBuffers s) (tdBlockSupply s) (qhBlockSupply s) (trace
    s).
Definition set_bulkQHStart v (s : UHCI) : UHCI :=
  mkUHCI (heap s) (isochEPs s) (_lastFrameNumberLow s) (_lastFrameNumberHigh
    s) (_idleSuspend s) (_savedDoneQueueHead s) (_producerCount s)
    (_consumerCount s) (_isochEPList s) (_pFreeTD s) (_pLastFreeTD s)
    (_tdMBHead s) (_pFreeQH s) (_pLastFreeQH s) (_qhMBHead s) (_framesPaddr
    s) (_frameList s) (_logicalFrameList s) (_intrQH s) (_lastQH s) v
    (_bulkQHEnd s) (_fsControlQHStart s) (_fsControlQHEnd s)
    (_lsControlQHStart s) (_lsControlQHEnd s) (_controlBulkTransactionsOut
    s) (_cbiAlignmentBuffers s) (tdBlockSupply s) (qhBlockSupply s) (trace
    s).
Definition set_bulkQHEnd v (s : UHCI) : UHCI :=
  mkUHCI (heap s) (isochEPs s) (_lastFrameNumberLow s) (_lastFrameNumberHigh
    s) (_idleSuspend s) (_savedDoneQueueHead s) (_producerCount s)
    (_consumerCount s) (_isochEPList s) (_pFreeTD s) (_pLastFreeTD s)
    (_tdMBHead s) (_pFreeQH s) (_pLastFreeQH s) (_qhMBHead s) (_framesPaddr
    s) (_frameList s) (_logicalFrameList s) (_intrQH s) (_lastQH s)
    (_bulkQHStart s) v (_fsControlQHStart s) (_fsControlQHEnd s)
    (_lsControlQHStart s) (_lsControlQHEnd s) (_controlBulkTransactionsOut
    s) (_cbiAlignmentBuffers s) (tdBlockSupply s) (qhBlockSupply s) (trace
    s).
Definition set_fsControlQHStart v (s : UHCI) : UHCI :=
  mkUHCI (heap s) (isochEPs s) (_lastFrameNumberLow s) (_lastFrameNumberHigh
    s) (_idleSuspend s) (_savedDoneQueueHead s) (_producerCount s)
    (_consumerCount s) (_isochEPList s) (_pFreeTD s) (_pLastFreeTD s)
    (_tdMBHead s) (_pFreeQH s) (_pLastFreeQH s) (_qhMBHead s) (_framesPaddr
    s) (_frameList s) (_logicalFrameList s) (_intrQH s) (_lastQH s)
    (_bulkQHStart s) (_bulkQHEnd s) v (_fsControlQHEnd s) (_lsControlQHStart
    s) (_lsControlQHEnd s) (_controlBulkTransactionsOut s)
    (_cbiAlignmentBuffers s) (tdBlockSupply s) (qhBlockSupply s) (trace s).
Definition set_fsControlQHEnd v (s : UHCI) : UHCI :=
  mkUHCI (heap s) (isochEPs s) (_lastFrameNumberLow s) (_lastFrameNumberHigh
    s) (_idleSuspend s) (_savedDoneQueueHead s) (_producerCount s)
    (_consumerCount s) (_isochEPList s) (_pFreeTD s) (_pLastFreeTD s)
    (_tdMBHead s) (_pFreeQH s) (_pLastFreeQH s) (_qhMBHead s) (_framesPaddr
    s) (_frameList s) (_logicalFrameList s) (_intrQH s) (_lastQH s)
    (_bulkQHStart s) (_bulkQHEnd s) (_fsControlQHStart s) v
    (_lsControlQHStart s) (_lsControlQHEnd s) (_controlBulkTransactionsOut
    s) (_cbiAlignmentBuffers s) (tdBlockSupply s) (qhBlockSupply s) (trace
    s).
Definition set_lsControlQHStart v (s : UHCI) : UHCI :=
  mkUHCI (heap s) (isochEPs s) (_lastFrameNumberLow s) (_lastFrameNumberHigh
    s) (_idleSuspend s) (_savedDoneQueueHead s) (_producerCount s)
    (_consumerCount s) (_isochEPList s) (_pFreeTD s) (_pLastFreeTD s)
    (_tdMBHead s) (_pFreeQH s) (_pLastFreeQH s) (_qhMBHead s) (_framesPaddr
    s) (_frameList s) (_logicalFrameList s) (_intrQH s) (_lastQH s)
    (_bulkQHStart s) (_bulkQHEnd s) (_fsControlQHStart s) (_fsControlQHEnd
    s) v (_lsControlQHEnd s) (_controlBulkTransactionsOut s)
    (_cbiAlignmentBuffers s) (tdBlockSupply s) (qhBlockSupply s) (trace s).
Definition set_lsControlQHEnd v (s : UHCI) : UHCI :=
  mkUHCI (heap s) (isochEPs s) (_lastFrameNumberLow s) (_lastFrameNumberHigh
    s) (_idleSuspend s) (_savedDoneQueueHead s) (_producerCount s)
    (_consumerCount s) (_isochEPList s) (_pFreeTD s) (_pLastFreeTD s)
    (_tdMBHead s) (_pFreeQH s) (_pLastFreeQH s) (_qhMBHead s) (_framesPaddr
    s) (_frameList s) (_logicalFrameList s) (_intrQH s) (_lastQH s)
    (_bulkQHStart s) (_bulkQHEnd s) (_fsControlQHStart s) (_fsControlQHEnd
    s) (_lsControlQHStart s) v (_controlBulkTransactionsOut s)
    (_cbiAlignmentBuffers s) (tdBlockSupply s) (qhBlockSupply s) (trace s).
Definition set_controlBulkTransactionsOut v (s : UHCI) : UHCI :=
  mkUHCI (heap s) (isochEPs s) (_lastFrameNumberLow s) (_lastFrameNumberHigh
    s) (_idleSuspend s) (_savedDoneQueueHead s) (_producerCount s)
    (_consumerCount s) (_isochEPList s) (_pFreeTD s) (_pLastFreeTD s)
    (_tdMBHead s) (_pFreeQH s) (_pLastFreeQH s) (_qhMBHead s) (_framesPaddr
    s) (_frameList s) (_logicalFrameList s) (_intrQH s) (_lastQH s)
    (_bulkQHStart s) (_bulkQHEnd s) (_fsControlQHStart s) (_fsControlQHEnd
    s) (_lsControlQHStart s) (_lsControlQHEnd s) v (_cbiAlignmentBuffers s)
    (tdBlockSupply s) (qhBlockSupply s) (trace s).
Definition set_cbiAlignmentBuffers v (s : UHCI) : UHCI :=
  mkUHCI (heap s) (isochEPs s) (_lastFrameNumberLow s) (_lastFrameNumberHigh
    s) (_idleSuspend s) (_savedDoneQueueHead s) (_producerCount s)
    (_consumerCount s) (_isochEPList s) (_pFreeTD s) (_pLastFreeTD s)
    (_tdMBHead s) (_pFreeQH s) (_pLastFreeQH s) (_qhMBHead s) (_framesPaddr
    s) (_frameList s) (_logicalFrameList s) (_intrQH s) (_lastQH s)
    (_bulkQHStart s) (_bulkQHEnd s) (_fsControlQHStart s) (_fsControlQHEnd
    s) (_lsControlQHStart s) (_lsControlQHEnd s)
    (_controlBulkTransactionsOut s) v (tdBlockSupply s) (qhBlockSupply s)
    (trace s).
Definition set_tdBlockSupply v (s : UHCI) : UHCI :=
  mkUHCI (heap s) (isochEPs s) (_lastFrameNumberLow s) (_lastFrameNumberHigh
    s) (_idleSuspend s) (_savedDoneQueueHead s) (_producerCount s)
    (_consumerCount s) (_isochEPList s) (_pFreeTD s) (_pLastFreeTD s)
    (_tdMBHead s) (_pFreeQH s) (_pLastFreeQH s) (_qhMBHead s) (_framesPaddr
    s) (_frameList s) (_logicalFrameList s) (_intrQH s) (_lastQH s)
    (_bulkQHStart s) (_bulkQHEnd s) (_fsControlQHStart s) (_fsControlQHEnd
    s) (_lsControlQHStart s) (_lsControlQHEnd s)
    (_controlBulkTransactionsOut s) (_cbiAlignmentBuffers s) v
    (qhBlockSupply s) (trace s).
Definition set_qhBlockSupply v (s : UHCI) : UHCI :=
  mkUHCI (heap s) (isochEPs s) (_lastFrameNumberLow s) (_lastFrameNumberHigh
    s) (_idleSuspend s) (_savedDoneQueueHead s) (_producerCount s)
    (_consumerCount s) (_isochEPList s) (_pFreeTD s) (_pLastFreeTD s)
    (_tdMBHead s) (_pFreeQH s) (_pLastFreeQH s) (_qhMBHead s) (_framesPaddr
    s) (_frameList s) (_logicalFrameList s) (_intrQH s) (_lastQH s)
    (_bulkQHStart s) (_bulkQHEnd s) (_fsControlQHStart s) (_fsControlQHEnd
    s) (_lsControlQHStart s) (_lsControlQHEnd s)
    (_controlBulkTransactionsOut s) (_cbiAlignmentBuffers s) (tdBlockSupply
    s) v (trace s).
Definition set_trace v (s : UHCI) : UHCI :=
  mkUHCI (heap s) (isochEPs s) (_lastFrameNumberLow s) (_lastFrameNumberHigh
    s) (_idleSuspend s) (_savedDoneQueueHead s) (_producerCount s)
    (_consumerCount s) (_isochEPList s) (_pFreeTD s) (_pLastFreeTD s)
    (_tdMBHead s) (_pFreeQH s) (_pLastFreeQH s) (_qhMBHead s) (_framesPaddr
    s) (_frameList s) (_logicalFrameList s) (_intrQH s) (_lastQH s)
    (_bulkQHStart s) (_bulkQHEnd s) (_fsControlQHStart s) (_fsControlQHEnd
    s) (_lsControlQHStart s) (_lsControlQHEnd s)
    (_controlBulkTransactionsOut s) (_cbiAlignmentBuffers s) (tdBlockSupply
    s) (qhBlockSupply s) v.

Definition add_trace (evs : list Event) (s : UHCI) : UHCI :=
  set_trace (trace s ++ evs) s.

(** ** Access to the list elements *)

Definition getTD (h : gmap ptr Elem) (p : ptr) : option TD :=
  match h !! p with Some (ElemTD t) => Some t | _ => None end.

Definition getQH (h : gmap ptr Elem) (p : ptr) : option QH :=
  match h !! p with Some (ElemQH q) => Some q | _ => None end.

Definition getITD (h : gmap ptr Elem) (p : ptr) : option ITD :=
  match h !! p with Some (ElemITD t) => Some t | _ => None end.

(** [OSDynamicCast(AppleUHCITransferDescriptor, p)] and its siblings: the
    pointer when it holds an object of the class, NULL otherwise. *)
Definition castTD (h : gmap ptr Elem) (o : option ptr) : option ptr :=
  p ← o; _ ← getTD h p; Some p.

Definition castQH (h : gmap ptr Elem) (o : option ptr) : option ptr :=
  p ← o; _ ← getQH h p; Some p.

Definition castITD (h : gmap ptr Elem) (o : option ptr) : option ptr :=
  p ← o; _ ← getITD h p; Some p.

(** [_logicalNext] of any list element. *)
Definition logicalNext (e : Elem) : option ptr :=
  match e with
  | ElemQH q => qh_logicalNext q
  | ElemTD t => td_logicalNext t
  | ElemITD t => itd_logicalNext t
  end.

(** A write through a pointer to a transfer descriptor, a queue head or an
    isochronous descriptor. *)
Definition updTD (p : ptr) (f : TD → TD) (s : UHCI) : option UHCI :=
  t ← getTD (heap s) p; Some (set_heap (<[p := ElemTD (f t)]> (heap s)) s).

Definition updQH (p : ptr) (f : QH → QH) (s : UHCI) : option UHCI :=
  q ← getQH (heap s) p; Some (set_heap (<[p := ElemQH (f q)]> (heap s)) s).

Definition updITD (p : ptr) (f : ITD → ITD) (s : UHCI) : option UHCI :=
  t ← getITD (heap s) p; Some (set_heap (<[p := ElemITD (f t)]> (heap s)) s).

Definition updEP (p : ptr) (f : IsochEndpoint → IsochEndpoint) (s : UHCI) : option UHCI :=
  e ← isochEPs s !! p; Some (set_isochEPs (<[p := f e]> (isochEPs s)) s).

Section Model.
Context `{Header} `{ResetHeader}.

(** ** Frame number *)

(** [OSCompareAndSwap(oldValue, newValue, &word)] on a word that holds
    [cur]: whether it swapped, and the word afterwards. *)
Definition OSCompareAndSwap (oldValue newValue cur : Z) : bool * Z :=
  if cur =? oldValue then (true, newValue) else (false, cur).

(** The [do ... while (!OSCompareAndSwap(...))] loop of [GetFrameNumber].
    [thisFrame i] is what the [i]-th call of [ReadFrameNumberRegister]
    returns.  The result is [newFrame] and the controller. *)
Fixpoint frameNumberCAS (fuel : nat) (thisFrame : nat → Z) (i : nat) (s : UHCI)
    : option (Z * UHCI) :=
  match fuel with
  | O => None
  | S fuel' =>
      let lastFrameNumber := _lastFrameNumberLow s in
      let overflow := Z.land lastFrameNumber (not32 kUHCI_FRNUM_MASK) in
      let lastFrame := Z.land lastFrameNumber kUHCI_FRNUM_MASK in
      let newFrame :=
        if lastFrame <=? thisFrame i
        then wrap32 (overflow + thisFrame i)
        else wrap32 (overflow + thisFrame i + kUHCI_FRNUM_COUNT) in
      let '(swapped, low) :=
        OSCompareAndSwap lastFrameNumber newFrame (_lastFrameNumberLow s) in
      let s' := set_lastFrameNumberLow low s in
      if swapped then Some (newFrame, s')
      else frameNumberCAS fuel' thisFrame (S i) s'
  end.

(** [AppleUSBUHCI::GetFrameNumber].  [sts] is what [ioRead16(kUHCI_STS)]
    returns. *)
Definition GetFrameNumber (fuel : nat) (sts : Z) (thisFrame : nat → Z) (s : UHCI)
    : option (Z * UHCI) :=
  if nonzero (Z.land sts kUHCI_STS_HCH) then
    (* the controller is halted: bail out *)
    Some (0, s)
  else
    '(newFrame, s') ←
      (if not32 kUHCI_FRNUM_MASK <=? _lastFrameNumberLow s then
         let lastFrameNumber := _lastFrameNumberLow s in
         let overflow := Z.land lastFrameNumber (not32 kUHCI_FRNUM_MASK) in
         let lastFrame := Z.land lastFrameNumber kUHCI_FRNUM_MASK in
         if lastFrame <=? thisFrame O
         then
           let newFrame := wrap32 (overflow + thisFrame O) in
           Some (newFrame, set_lastFrameNumberLow newFrame s)
         else
           let newFrame := wrap32 (overflow + thisFrame O + kUHCI_FRNUM_COUNT) in
           Some (newFrame,
                 set_lastFrameNumberLow newFrame
                   (set_lastFrameNumberHigh (wrap32 (_lastFrameNumberHigh s + 1)) s))
       else frameNumberCAS fuel thisFrame O s);
    Some (Z.lor newFrame (Z.shiftl (_lastFrameNumberHigh s') 32), s').

(** [AppleUSBUHCI::GetFrameNumber32]: the 64-bit frame number, cast to
    [UInt32]. *)
Definition GetFrameNumber32 (fuel : nat) (sts : Z) (thisFrame : nat → Z) (s : UHCI)
    : option (Z * UHCI) :=
  '(frame, s') ← GetFrameNumber fuel sts thisFrame s;
  Some (wrap32 frame, s').

(** ** Descriptor pools *)

(** The loop of [AllocateTD] that threads the descriptors of a new block,
    from slot 1 on, onto the free list.  [freeTD] is the local variable of
    that name. *)
Fixpoint threadTDs (slots : MemoryBlock TD) (freeTD : option ptr) (s : UHCI)
    : option ptr * UHCI :=
  match slots with
  | [] => (freeTD, s)
  | None :: _ => (_pFreeTD s, add_trace [ErrRanOutOfTDs] s)
  | Some (p, t) :: slots' =>
      let s1 := set_heap (<[p := ElemTD (set_td_logicalNext (_pFreeTD s) t)]> (heap s)) s in
      threadTDs slots' (Some p) (set_pFreeTD (Some p) s1)
  end.

(** [WithSharedMemory] on slot 0 of a block. *)
Definition firstSlot {A} (inj : A → Elem) (memBlock : MemoryBlock A) (s : UHCI)
    : option ptr * UHCI :=
  match memBlock with
  | Some (p, t) :: _ => (Some p, set_heap (<[p := inj t]> (heap s)) s)
  | _ => (None, s)
  end.

(** The tail of [AllocateTD]: [if (freeTD) { ... } return freeTD;]. *)
Definition popFreeTD (pQH : option ptr) (freeTD : option ptr) (s : UHCI)
    : option (option ptr * UHCI) :=
  match freeTD with
  | Some p =>
      t ← getTD (heap s) p;
      let next := castTD (heap s) (td_logicalNext t) in
      let s1 := set_pFreeTD next s in
      (* if we use the last one, the end pointer is zeroed as well *)
      let s2 := if next is None then set_pLastFreeTD None s1 else s1 in
      let t' :=
        mkTD 0 (HostToUSBLong 0) 0 0 (td_phys t) None (td_lastTDofTransaction t)
          None None pQH (td_direction t) 0 0 (td_logicalBuffer t) in
      Some (Some p, set_heap (<[p := ElemTD t']> (heap s2)) s2)
  | None => Some (None, s)
  end.

Definition AllocateTD (pQH : option ptr) (s : UHCI) : option (option ptr * UHCI) :=
  match _pFreeTD s with
  | Some p => popFreeTD pQH (Some p) s
  | None =>
      (* another block of descriptors is needed *)
      match tdBlockSupply s with
      | [] => Some (None, add_trace [ErrNoMemoryBlock] s)
      | memBlock :: supply =>
          let s1 := set_tdMBHead (memBlock :: _tdMBHead s) (set_tdBlockSupply supply s) in
          let '(first, s2) := firstSlot ElemTD memBlock s1 in
          let s3 := set_pFreeTD first (set_pLastFreeTD first s2) in
          let '(freeTD, s4) := threadTDs (tail memBlock) None s3 in
          popFreeTD pQH freeTD s4
      end
  end.

Definition DeallocateTD (pTD : ptr) (s : UHCI) : option UHCI :=
  s1 ← updTD pTD (λ t, set_td_logicalNext None (set_td_ctrlStatus 0 t)) s;
  match _pLastFreeTD s1 with
  | Some last =>
      s2 ← updTD last (set_td_logicalNext (Some pTD)) s1;
      Some (set_pLastFreeTD (Some pTD) s2)
  | None =>
      (* the list is currently empty *)
      Some (set_pFreeTD (Some pTD) (set_pLastFreeTD (Some pTD) s1))
  end.

(** The threading loop of [AllocateQH]. *)
Fixpoint threadQHs (slots : MemoryBlock QH) (freeQH : option ptr) (s : UHCI)
    : option ptr * UHCI :=
  match slots with
  | [] => (freeQH, s)
  | None :: _ => (_pFreeQH s, s)
  | Some (p, q) :: slots' =>
      let s1 := set_heap (<[p := ElemQH (set_qh_logicalNext (_pFreeQH s) q)]> (heap s)) s in
      threadQHs slots' (Some p) (set_pFreeQH (Some p) s1)
  end.

Definition popFreeQH (functionNumber endpointNumber direction speed maxPacketSize type : Z)
    (freeQH : option ptr) (s : UHCI) : option (option ptr * UHCI) :=
  match freeQH with
  | Some p =>
      q ← getQH (heap s) p;
      let next := castQH (heap s) (qh_logicalNext q) in
      let s1 := set_pFreeQH next s in
      let s2 := if next is None then set_pLastFreeQH None s1 else s1 in
      let q' :=
        mkQH (qh_elink q) (qh_hlink q) (qh_phys q) None (qh_firstTD q) (qh_lastTD q)
          type false functionNumber endpointNumber direction speed maxPacketSize in
      Some (Some p, set_heap (<[p := ElemQH q']> (heap s2)) s2)
  | None => Some (None, s)
  end.

Definition AllocateQH (functionNumber endpointNumber direction speed maxPacketSize type : Z)
    (s : UHCI) : option (option ptr * UHCI) :=
  match _pFreeQH s with
  | Some p =>
      popFreeQH functionNumber endpointNumber direction speed maxPacketSize type (Some p) s
  | None =>
      match qhBlockSupply s with
      | [] => Some (None, s)
      | memBlock :: supply =>
          let s1 := set_qhMBHead (memBlock :: _qhMBHead s) (set_qhBlockSupply supply s) in
          let '(first, s2) := firstSlot ElemQH memBlock s1 in
          let s3 := set_pFreeQH first (set_pLastFreeQH first s2) in
          let '(freeQH, s4) := threadQHs (tail memBlock) None s3 in
          popFreeQH functionNumber endpointNumber direction speed maxPacketSize type freeQH s4
      end
  end.

(** [AppleUSBUHCI::DeallocateQH].  The test is on the head of the free
    list, the write goes through its tail. *)
Definition DeallocateQH (pQH : ptr) (s : UHCI) : option UHCI :=
  s1 ← updQH pQH (set_qh_logicalNext None) s;
  match _pFreeQH s1 with
  | Some _ =>
      last ← _pLastFreeQH s1;
      s2 ← updQH last (set_qh_logicalNext (Some pQH)) s1;
      Some (set_pLastFreeQH (Some pQH) s2)
  | None =>
      (* list is currently empty *)
      Some (set_pFreeQH (Some pQH) (set_pLastFreeQH (Some pQH) s1))
  end.

(** ** Resetting the controller *)

(** [AppleUSBUHCI::GlobalReset]: the global reset is held for
    [kUHCI_RESET_DELAY] milliseconds and released. *)
Definition GlobalReset (s : UHCI) : UHCI :=
  add_trace [EvCommand kUHCI_CMD_GRESET; EvCommand 0] s.

(** The loop of [Reset] that waits for the controller to clear the reset
    bit, with [n] of the [kUHCI_RESET_DELAY] turns to go: whether the loop
    ends with [i < kUHCI_RESET_DELAY].  [cmdReads i] is what the [i]-th
    [ioRead16(kUHCI_CMD)] of the loop returns. *)
Fixpoint waitForReset (n i : nat) (cmdReads : nat → Z) : bool :=
  match n with
  | O => false
  | S n' =>
      if nonzero (Z.land (cmdReads i) kUHCI_CMD_HCRESET)
      then waitForReset n' (S i) cmdReads
      else true
  end.

(** [AppleUSBUHCI::Reset(enableInterrupts)]. *)
Definition Reset (enableInterrupts : bool) (cmdReads : nat → Z) (s : UHCI) : Z * UHCI :=
  let s := add_trace [EvCommand kUHCI_CMD_HCRESET] s in
  if negb (waitForReset kUHCI_RESET_DELAY 0 cmdReads) then
    (* controller reset failed *)
    (kIOReturnTimeout, s)
  else
    let s :=
      if nonzero (_framesPaddr s) then
        let s :=
          add_trace [EvIoWrite32 kUHCI_FRBASEADDR (_framesPaddr s);
                     EvIoWrite16 kUHCI_FRNUM
                       (wrap16 (Z.land (_lastFrameNumberLow s) kUHCI_FRNUM_MASK));
                     (* 64-byte packets, and the controller is configured *)
                     EvCommand (Z.lor kUHCI_CMD_MAXP kUHCI_CMD_CF)] s in
        if enableInterrupts : bool then
          add_trace [EvIoWrite16 kUHCI_INTR
                       (Z.lor (Z.lor (Z.lor kUHCI_INTR_TIE kUHCI_INTR_RIE) kUHCI_INTR_IOCE)
                          kUHCI_INTR_SPIE)] s
        else s
      else s in
    (kIOReturnSuccess, s).

(** ** Bringing the schedule up *)

(** [AppleUSBUHCI::Run(run)].  [cmd] is what [ioRead16(kUHCI_CMD)]
    returns and [sts i] what the [i]-th poll of the status register
    returns. *)
Fixpoint waitForController (n i : nat) (run : bool) (sts : nat → Z) : Z :=
  match n with
  | O => kIOReturnTimeout
  | S n' =>
      let state := Z.land (sts i) kUHCI_STS_HCH =? 0 in
      if Bool.eqb run state then kIOReturnSuccess
      else waitForController n' (S i) run sts
  end.

Definition Run (run : bool) (cmd : Z) (sts : nat → Z) (s : UHCI) : Z * UHCI :=
  let cmd' :=
    if run then Z.lor cmd kUHCI_CMD_RS
    else wrap16 (Z.land cmd (Z.lnot kUHCI_CMD_RS)) in
  (waitForController 20 0 run sts, add_trace [EvCommand cmd'] s).

(** What [HardwareInit] does to every queue head of the schedule: the
    software link, [SetPhysicalLink], an empty chain and a terminated
    element link. *)
Definition scheduleQH (next : option ptr) (link : Z) (q : QH) : QH :=
  set_qh_elink (HostToUSBLong kUHCI_QH_T)
    (set_qh_firstTD None
       (set_qh_hlink (HostToUSBLong link)
          (set_qh_logicalNext next q))).

(** [for (j = frame_period - 1; j < kUHCI_NVFRAMES; j += frame_period)]. *)
Fixpoint frameLoop (fuel j frame_period : nat) (pQH : ptr) (link : Z) (s : UHCI) : UHCI :=
  match fuel with
  | O => s
  | S fuel' =>
      if (j <? kUHCI_NVFRAMES)%nat then
        frameLoop fuel' (j + frame_period)%nat frame_period pQH link
          (set_logicalFrameList (<[j := Some pQH]> (_logicalFrameList s))
             (set_frameList (<[j := HostToUSBLong link]> (_frameList s)) s))
      else s
  end.

(** [for (i = 0; i < kUHCI_NINTR_QHS; i++)], with [n] iterations to go.
    The result is [Some status] when the loop returns from
    [HardwareInit]. *)
Fixpoint intrLoop (n i : nat) (lastQH : ptr) (s : UHCI) : option (option Z * UHCI) :=
  match n with
  | O => Some (None, s)
  | S n' =>
      '(pQH, s) ← AllocateQH 0 0 0 0 0 kQHTypeDummy s;
      match pQH with
      | None => Some (Some kIOReturnNoMemory, s)
      | Some pQH =>
          let s := set_intrQH (<[i := Some pQH]> (_intrQH s)) s in
          last ← getQH (heap s) lastQH;
          s ← updQH pQH (scheduleQH (Some lastQH) (QH_PhysicalAddrWithType (qh_phys last))) s;
          q ← getQH (heap s) pQH;
          (* the most frequent queue head goes first: the later ones
             overwrite some of its slots *)
          let frame_period := (2 ^ i)%nat in
          let s := frameLoop kUHCI_NVFRAMES (frame_period - 1) frame_period pQH
                     (QH_PhysicalAddrWithType (qh_phys q)) s in
          intrLoop n' (S i) pQH s
      end
  end.

(** What [InitializeBufferMemory] leaves.  The function works on the
    buffer and DMA objects of IOKit; it is represented by the status it
    returns and by the values its assignments leave in the members the
    model has, when it returns: the frame list ([_frameList], a page it
    gets from the kernel), the physical address of the frame list
    ([_framesPaddr]) and the queue of the alignment buffers
    ([_cbiAlignmentBuffers]).  Its own log lines are not recorded. *)
Record BufferMemory := mkBufferMemory {
  bm_frameList : list Z;
  bm_framesPaddr : Z;
  bm_cbiAlignmentBuffers : list ptr;
}.

(** [AppleUSBUHCI::HardwareInit].  [cmdReads] are the register reads of
    [Reset], [statusBuffers] and [buffers] what [InitializeBufferMemory]
    returns and leaves, and [cmd] and [sts] are the register reads of
    [Run]. *)
Definition HardwareInit (cmdReads : nat → Z) (statusBuffers : Z) (buffers : BufferMemory)
    (cmd : Z) (sts : nat → Z) (s : UHCI) : option (Z * UHCI) :=
  (* disable interrupts *)
  let s := add_trace [EvIoWrite16 kUHCI_INTR 0] s in
  let s := GlobalReset s in
  let '(status, s) := Reset Reset_enableInterrupts cmdReads s in
  if negb (status =? kIOReturnSuccess) then Some (status, s) else
  (* InitializeBufferMemory *)
  let s := set_cbiAlignmentBuffers (bm_cbiAlignmentBuffers buffers)
             (set_framesPaddr (bm_framesPaddr buffers)
                (set_frameList (bm_frameList buffers) s)) in
  if negb (statusBuffers =? kIOReturnSuccess)
  then Some (statusBuffers, add_trace [ErrInitializeBufferMemory statusBuffers] s) else
  (* set frame number and physical frame address *)
  let s := add_trace [EvIoWrite16 kUHCI_FRNUM 0;
                      EvIoWrite32 kUHCI_FRBASEADDR (_framesPaddr s)] s in
  (* dummy queue head at the end of the list *)
  '(lastQH, s) ← AllocateQH 0 0 0 0 0 kQHTypeDummy s;
  match lastQH with None => Some (kIOReturnNoMemory, s) | Some lastQH =>
  s ← updQH lastQH (scheduleQH None kUHCI_QH_T) s;
  let s := set_lastQH (Some lastQH) s in
  (* bulk traffic queue *)
  '(bulkQH, s) ← AllocateQH 0 0 0 0 0 kQHTypeDummy s;
  match bulkQH with None => Some (kIOReturnNoMemory, s) | Some bulkQH =>
  last ← getQH (heap s) lastQH;
  s ← updQH bulkQH (scheduleQH (Some lastQH) (QH_PhysicalAddrWithType (qh_phys last))) s;
  let s := set_bulkQHStart (Some bulkQH) (set_bulkQHEnd (Some bulkQH) s) in
  (* full speed control queue *)
  '(fsQH, s) ← AllocateQH 0 0 0 0 0 kQHTypeDummy s;
  match fsQH with None => Some (kIOReturnNoMemory, s) | Some fsQH =>
  bulk ← getQH (heap s) bulkQH;
  s ← updQH fsQH (scheduleQH (Some bulkQH) (QH_PhysicalAddrWithType (qh_phys bulk))) s;
  let s := set_fsControlQHStart (Some fsQH) (set_fsControlQHEnd (Some fsQH) s) in
  (* low speed control queue *)
  '(lsQH, s) ← AllocateQH 0 0 0 0 0 kQHTypeDummy s;
  match lsQH with None => Some (kIOReturnNoMemory, s) | Some lsQH =>
  fs ← getQH (heap s) fsQH;
  s ← updQH lsQH (scheduleQH (Some fsQH) (QH_PhysicalAddrWithType (qh_phys fs))) s;
  let s := set_lsControlQHStart (Some lsQH) (set_lsControlQHEnd (Some lsQH) s) in
  (* interrupt queue head tree *)
  '(returned, s) ← intrLoop kUHCI_NINTR_QHS 0 lsQH s;
  match returned with Some status => Some (status, s) | None =>
  (* bandwidth reclamation: the hardware link of the last queue head goes
     back to the full speed queue head; the software pointer does not *)
  last ← _lastQH s;
  fs ← getQH (heap s) fsQH;
  s ← updQH last
        (set_qh_hlink (HostToUSBLong (Z.lor (QH_PhysicalAddrWithType (qh_phys fs)) kUHCI_QH_T))) s;
  let s := add_trace [EvCommand (Z.lor kUHCI_CMD_MAXP kUHCI_CMD_CF);
                      EvIoWrite16 kUHCI_INTR
                        (Z.lor (Z.lor (Z.lor kUHCI_INTR_TIE kUHCI_INTR_RIE) kUHCI_INTR_IOCE)
                           kUHCI_INTR_SPIE)] s in
  Some (Run true cmd sts s)
  end end end end end.

(** ** The isochronous done queue *)

(** [IOUSBControllerV2::PutTDonDoneQueue] is the superclass's; the
    override releases or hands over the alignment buffer first.  The
    alignment buffer of a descriptor is given with its [dmaCommand]. *)
Definition PutTDonDoneQueue (pED pTD : ptr) (s : UHCI) : option UHCI :=
  s ←
    match getITD (heap s) pTD with
    | Some itd =>
        match itd_alignBuffer itd with
        | Some (ab, dma) =>
            ep ← isochEPs s !! pED;
            let s :=
              if ep_direction ep =? kUSBOut
              then add_trace [EvReleaseIsochAlignmentBuffer ab] s
              else match dma with
                   | Some d => add_trace [EvStoreIsochAlignBuffer ab d] s
                   | None => s
                   end in
            updITD pTD (set_itd_alignBuffer None) s
        | None => Some s
        end
    | None => Some s
    end;
  Some (add_trace [EvPutTDonDoneQueue pED pTD] s).

Definition scavengeAnIsochTD (pTD : ptr) (s : UHCI) : option UHCI :=
  itd ← getITD (heap s) pTD;
  match itd_pEndpoint itd with
  | None => Some (add_trace [ErrNoEndpointForITD] s)
  | Some pEP =>
      let s := if itd_lowLatency itd then s else add_trace [EvUpdateFrameList pTD] s in
      PutTDonDoneQueue pEP pTD s
  end.

(** The first loop of [scavengeIsochTransactions]: the done queue is
    reversed while the consumer count catches up with the producer count.
    The loop ends when the two counts meet; [n] bounds its iterations.
    The result is [pDoneEl], [cachedConsumer] and the controller. *)
Fixpoint reverseDoneQueue (n : nat) (pDoneEl : ptr) (prevEl : option ptr)
    (cachedConsumer cachedProducer : Z) (s : UHCI) : option (ptr * Z * UHCI) :=
  match n with
  | O => None
  | S n' =>
      itd ← getITD (heap s) pDoneEl;
      s ← updITD pDoneEl (set_itd_logicalNext prevEl) s;
      let cachedConsumer := wrap32 (cachedConsumer + 1) in
      s ←
        match itd_pEndpoint itd with
        | Some ep =>
            updEP ep (λ e, set_onReversedList (wrap32 (onReversedList e + 1))
                             (set_onProducerQ (wrap32 (onProducerQ e - 1)) e)) s
        | None => Some s
        end;
      if cachedProducer =? cachedConsumer then Some (pDoneEl, cachedConsumer, s)
      else
        next ← castITD (heap s) (itd_doneQueueLink itd);
        reverseDoneQueue n' next (Some pDoneEl) cachedConsumer cachedProducer s
  end.

(** The second loop: the reversed list is handed over, element by
    element. *)
Fixpoint drainDoneQueue (fuel : nat) (pDoneEl : option ptr) (s : UHCI) : option UHCI :=
  match pDoneEl with
  | None => Some s
  | Some p =>
      match fuel with
      | O => None
      | S fuel' =>
          itd ← getITD (heap s) p;
          let nextEl := castITD (heap s) (itd_logicalNext itd) in
          s ← updITD p (set_itd_logicalNext None) s;
          s ←
            match itd_pEndpoint itd with
            | Some ep => updEP ep (λ e, set_onReversedList (wrap32 (onReversedList e - 1)) e) s
            | None => Some s
            end;
          s ← scavengeAnIsochTD p s;
          drainDoneQueue fuel' nextEl s
      end
  end.

(** The last loop, over the isochronous endpoints. *)
Fixpoint isochEndpointLoop (fuel : nat) (pEP : option ptr) (s : UHCI) : option UHCI :=
  match pEP with
  | None => Some s
  | Some p =>
      match fuel with
      | O => None
      | S fuel' =>
          ep ← isochEPs s !! p;
          let s :=
            if nonzero (onReversedList ep)
            then add_trace [LogStillOnReversedList p (onReversedList ep)] s else s in
          let s := add_trace [EvReturnIsochDoneQueue p; EvAddIsochFramesToSchedule p] s in
          isochEndpointLoop fuel' (nextEP ep) s
      end
  end.

(** [AppleUSBUHCI::scavengeIsochTransactions].  The reversal needs as many
    iterations as the counts are apart. *)
Definition scavengeIsochTransactions (fuel : nat) (s : UHCI) : option (Z * UHCI) :=
  let pDoneEl := _savedDoneQueueHead s in
  let cachedProducer := _producerCount s in
  let cachedConsumer := _consumerCount s in
  s ←
    match pDoneEl with
    | Some p =>
        if negb (cachedConsumer =? cachedProducer) then
          (* there is real work to do - first reverse the list *)
          '(pDoneEl, cachedConsumer, s) ←
            reverseDoneQueue (Z.to_nat (wrap32 (cachedProducer - cachedConsumer)))
              p None cachedConsumer cachedProducer s;
          (* update the consumer count *)
          let s := set_consumerCount cachedConsumer s in
          drainDoneQueue fuel (Some pDoneEl) s
        else Some s
    | None => Some s
    end;
  s ← isochEndpointLoop fuel (_isochEPList s) s;
  Some (kIOReturnSuccess, s).

(** ** The completion dispatcher *)

(** The bookkeeping of [UHCIUIMDoDoneQueueProcessing] after a completion
    on a control or bulk queue: when no control or bulk transaction is
    left, the list of the last queue head is terminated again. *)
Definition controlBulkDone (pQH : ptr) (s : UHCI) : option UHCI :=
  qh ← getQH (heap s) pQH;
  if (qh_type qh =? kUSBControl) || (qh_type qh =? kUSBBulk) then
    if _controlBulkTransactionsOut s =? 0 then
      Some (add_trace [ErrControlBulkUnderrun] s)
    else
      let s := set_controlBulkTransactionsOut
                 (wrap32 (_controlBulkTransactionsOut s - 1)) s in
      if _controlBulkTransactionsOut s =? 0 then
        lastQH ← _lastQH s;
        last ← getQH (heap s) lastQH;
        let link := USBToHostLong (qh_hlink last) in
        updQH lastQH (set_qh_hlink (HostToUSBLong (Z.lor link kUHCI_QH_T))) s
      else Some s
  else Some s.

(** The status of the descriptor in the loop of
    [UHCIUIMDoDoneQueueProcessing]: [errStatus], the new [accumErr], and
    the controller after the report of a babble. *)
Definition doneQueueStatus (td : TD) (forceErr accumErr : Z) (s : UHCI) : Z * Z * UHCI :=
  let ctrlStatus := USBToHostLong (td_ctrlStatus td) in
  if negb (forceErr =? kIOReturnSuccess) then (forceErr, accumErr, s)
  else if negb (accumErr =? kIOReturnSuccess) then (accumErr, accumErr, s)
  else
    let errStatus := TDToUSBError ctrlStatus in
    (errStatus, errStatus,
     if nonzero errStatus && nonzero (Z.land ctrlStatus kUHCI_TD_BABBLE)
     then add_trace [EvRootHubStatusChange] s else s).

(** What the loop does for a descriptor that may be the last of its
    transaction; the result has the new [bufferSizeRemaining] and
    [accumErr]. *)
Definition doneQueueComplete (p : ptr) (td : TD) (errStatus bufferSizeRemaining accumErr : Z)
    (s : UHCI) : option (Z * Z * UHCI) :=
  if td_lastTDofTransaction td then
    match td_command td with
    | None => Some (bufferSizeRemaining, accumErr, add_trace [ErrCommandIsNull p] s)
    | Some command =>
        match completion_action command with
        | Some action =>
            (* remove flag before completing *)
            s ← updTD p (set_td_lastTDofTransaction false) s;
            let s := add_trace [EvComplete action errStatus bufferSizeRemaining] s in
            pQH ← td_pQH td;
            s ← controlBulkDone pQH s;
            (* so next transaction starts afresh *)
            Some (0, kIOReturnSuccess, s)
        | None =>
            Some (bufferSizeRemaining, accumErr, add_trace [ErrCompletionActionIsNull] s)
        end
    end
  else Some (bufferSizeRemaining, accumErr, s).

(** The body of the loop for the descriptor [p], read as [td], with the
    locals [bufferSizeRemaining] and [accumErr]. *)
Definition doneQueueBody (p : ptr) (td : TD) (forceErr : Z)
    (bufferSizeRemaining accumErr : Z) (s : UHCI) : option (Z * Z * UHCI) :=
  let ctrlStatus := USBToHostLong (td_ctrlStatus td) in
  let token := USBToHostLong (td_token td) in
  let '(errStatus, accumErr, s) := doneQueueStatus td forceErr accumErr s in
  let bufferSizeRemaining :=
    wrap32 (bufferSizeRemaining
            + (UHCI_TD_GET_MAXLEN token - UHCI_TD_GET_ACTLEN ctrlStatus)) in
  '(bufferSizeRemaining, accumErr, s) ←
    doneQueueComplete p td errStatus bufferSizeRemaining accumErr s;
  s ← updTD p (set_td_logicalBuffer None) s;
  s ← DeallocateTD p (add_trace [LogDeallocatingTD p] s);
  Some (bufferSizeRemaining, accumErr, s).

(** The loop of [UHCIUIMDoDoneQueueProcessing]. *)
Fixpoint doneQueueLoop (fuel : nat) (pHCDoneTD : option ptr) (forceErr : Z)
    (stopAt : option ptr) (bufferSizeRemaining accumErr : Z) (s : UHCI) : option UHCI :=
  match pHCDoneTD with
  | None => Some s
  | Some p =>
      if decide (Some p = stopAt) then Some s
      else
        match fuel with
        | O => None
        | S fuel' =>
            td ← getTD (heap s) p;
            let nextTD := castTD (heap s) (td_logicalNext td) in
            '(bufferSizeRemaining, accumErr, s) ←
              doneQueueBody p td forceErr bufferSizeRemaining accumErr s;
            doneQueueLoop fuel' nextTD forceErr stopAt bufferSizeRemaining accumErr s
        end
  end.

Definition UHCIUIMDoDoneQueueProcessing (fuel : nat) (pHCDoneTD : option ptr)
    (forceErr : Z) (stopAt : option ptr) (s : UHCI) : option (Z * UHCI) :=
  s ← doneQueueLoop fuel pHCDoneTD forceErr stopAt 0 kIOReturnSuccess s;
  Some (kIOReturnSuccess, s).

(** ** The queue head scavenger *)

(** The bound of the two loops of [scavengeQueueHeads]. *)
Definition kScavengeBound : nat := Z.to_nat 150000.

(** The locals of [scavengeQueueHeads] that live across iterations. *)
Record Scan := mkScan {
  qTD : option ptr;
  qHead : option ptr;
  TDisHalted : bool;
  shortTransfer : bool;
  lastToggle : Z;
  doneQueue : option ptr;
  doneTail : option ptr;
}.

(** The toggle bits of the descriptors from [tempTD] on are swapped. *)
Fixpoint flipToggles (fuel : nat) (tempTD : option ptr) (lastToggle : Z) (s : UHCI)
    : option (Z * UHCI) :=
  match tempTD with
  | None => Some (lastToggle, s)
  | Some p =>
      match fuel with
      | O => None
      | S fuel' =>
          td ← getTD (heap s) p;
          let token := td_token td in
          let lastToggle := if nonzero lastToggle then 0 else HostToUSBLong kUHCI_TD_D in
          let token := Z.land token (not32 (HostToUSBLong kUHCI_TD_D)) in
          s ← updTD p (set_td_token (Z.lor token lastToggle)) s;
          flipToggles fuel' (castTD (heap s) (td_logicalNext td)) lastToggle s
      end
  end.

(** The alignment buffer of a descriptor the scan has passed. *)
Definition scavengeAlignBuffer (p : ptr) (actLength : Z) (s : UHCI) : option UHCI :=
  td ← getTD (heap s) p;
  match td_alignBuffer td with
  | None => Some s
  | Some ab =>
      if (td_direction td =? kUSBOut) || (actLength =? 0) then
        (* ReleaseCBIAlignmentBuffer *)
        let s := set_cbiAlignmentBuffers (_cbiAlignmentBuffers s ++ [ab]) s in
        updTD p (set_td_alignBuffer None) s
      else
        match td_command td with
        | None => Some (add_trace [ErrMissingUSBCommand] s)
        | Some command =>
            match dmaCommand command with
            | Some dma =>
                let s := add_trace [EvStoreAlignBuffer ab dma actLength] s in
                updTD p (set_td_alignBuffer None) s
            | None => Some (add_trace [ErrMissingDMACommand p] s)
            end
        end
  end.

(** The status of a descriptor, looked at only while the transaction is
    neither halted nor short.  [None]: the descriptor is still active and
    the scan of the queue breaks off. *)
Definition scanStatus (pQH p : ptr) (sc : Scan) (s : UHCI) : option (option (Scan * UHCI)) :=
  td ← getTD (heap s) p;
  let ctrlStatus := USBToHostLong (td_ctrlStatus td) in
  let actLength := wrap16 (UHCI_TD_GET_ACTLEN ctrlStatus) in
  if negb (TDisHalted sc) && negb (shortTransfer sc) then
    if nonzero (Z.land ctrlStatus kUHCI_TD_ACTIVE) then Some None
    else if nonzero (Z.land ctrlStatus kUHCI_TD_STALLED) then
      s ← updQH pQH (set_qh_stalled true) s;
      Some (Some (mkScan (qTD sc) (qHead sc) true (shortTransfer sc) (lastToggle sc)
                    (doneQueue sc) (doneTail sc), s))
    else if nonzero (Z.land ctrlStatus kUHCI_TD_SPD)
            && (actLength <? UHCI_TD_GET_MAXLEN (USBToHostLong (td_token td))) then
      Some (Some (mkScan (qTD sc) (qHead sc) false true
                    (Z.land (USBToHostLong (td_token td)) kUHCI_TD_D)
                    (doneQueue sc) (doneTail sc), s))
    else
      Some (Some (mkScan (qTD sc) (qHead sc) false (shortTransfer sc) (lastToggle sc)
                    (doneQueue sc) (doneTail sc), s))
  else Some (Some (sc, s)).

(** The last descriptor of a transaction: the transaction goes to the done
    queue, the rest of the queue is adjusted and [firstTD] advances.  The
    boolean tells whether the scan of the queue goes on. *)
Definition scanLastTD (fuel : nat) (pQH p : ptr) (sc : Scan) (s : UHCI)
    : option (bool * Scan * UHCI) :=
  s ←
    match doneQueue sc with
    | None => Some s
    | Some _ => tail ← doneTail sc; updTD tail (set_td_logicalNext (qHead sc)) s
    end;
  let doneQueue' := if doneQueue sc is None then qHead sc else doneQueue sc in
  td ← getTD (heap s) p;
  let next := castTD (heap s) (td_logicalNext td) in
  s ← updTD p (set_td_logicalNext None) s;
  match next with
  | None =>
      Some (false,
            mkScan None None (TDisHalted sc) (shortTransfer sc) (lastToggle sc)
              doneQueue' (Some p),
            add_trace [ErrNullTD] s)
  | Some q =>
      qh ← getQH (heap s) pQH;
      '(lastToggle', s) ←
        (if negb (TDisHalted sc) && shortTransfer sc then
           tdq ← getTD (heap s) q;
           '(lastToggle', s) ←
             (if negb (qh_type qh =? kUSBControl)
                 && (Z.land (USBToHostLong (td_token tdq)) kUHCI_TD_D =? lastToggle sc)
              then flipToggles fuel (Some q) (lastToggle sc) s
              else Some (lastToggle sc, s));
           (* the element link was not advanced on the short packet *)
           s ← updQH pQH (set_qh_elink (HostToUSBLong (TD_PhysicalAddrWithType (td_phys tdq)))) s;
           Some (lastToggle', s)
         else if TDisHalted sc then
           s ← updQH pQH (set_qh_elink (HostToUSBLong kUHCI_QH_T)) s;
           Some (lastToggle sc, s)
         else Some (lastToggle sc, s));
      s ← updQH pQH (set_qh_firstTD (Some q)) s;
      Some (true, mkScan (Some q) (Some q) false false lastToggle' doneQueue' (Some p), s)
  end.

(** One iteration of the loop over the descriptors of a queue head. *)
Definition scanTD (fuel : nat) (pQH p : ptr) (sc : Scan) (s : UHCI)
    : option (bool * Scan * UHCI) :=
  td ← getTD (heap s) p;
  let actLength := wrap16 (UHCI_TD_GET_ACTLEN (USBToHostLong (td_ctrlStatus td))) in
  r ← scanStatus pQH p sc s;
  match r with
  | None => Some (false, sc, s)
  | Some (sc, s) =>
      s ← scavengeAlignBuffer p actLength s;
      if td_lastTDofTransaction td then scanLastTD fuel pQH p sc s
      else
        match castTD (heap s) (td_logicalNext td) with
        | None =>
            Some (false,
                  mkScan None (qHead sc) (TDisHalted sc) (shortTransfer sc) (lastToggle sc)
                    (doneQueue sc) (doneTail sc),
                  add_trace [ErrNullTD] s)
        | Some q =>
            Some (true,
                  mkScan (Some q) (qHead sc) (TDisHalted sc) (shortTransfer sc) (lastToggle sc)
                    (doneQueue sc) (doneTail sc), s)
        end
  end.

(** [while (qTD && (qTD != qEnd) && (tdCount++ < 150000))], with [n]
    iterations left before the bound. *)
Fixpoint scanTDs (fuel n : nat) (pQH : ptr) (qEnd : option ptr) (sc : Scan) (s : UHCI)
    : option (Scan * UHCI) :=
  match qTD sc with
  | None => Some (sc, s)
  | Some p =>
      if decide (Some p = qEnd) then Some (sc, s)
      else
        match n with
        | O => Some (sc, s)
        | S n' =>
            '(goOn, sc, s) ← scanTD fuel pQH p sc s;
            if goOn : bool then scanTDs fuel n' pQH qEnd sc s else Some (sc, s)
        end
  end.

(** The body of the loop over the list elements, for a queue head that is
    neither a dummy nor stalled. *)
Definition scavengeQueueHead (fuel : nat) (pQH : ptr) (qh : QH) (sc : Scan) (s : UHCI)
    : option (Scan * UHCI) :=
  let qHead := qh_firstTD qh in
  let qEnd := qh_lastTD qh in
  let s :=
    if (bool_decide (qHead = None) || bool_decide (qEnd = None))
       && negb (bool_decide (qHead = qEnd))
    then add_trace [ErrInvalidHeadOrTail qHead qEnd] s else s in
  scanTDs fuel kScavengeBound pQH qEnd
    (mkScan (qh_firstTD qh) qHead false false (lastToggle sc) (doneQueue sc) (doneTail sc)) s.

(** [while ((pLE != NULL) && (leCount++ < 150000))], with [n] iterations
    left before the bound. *)
Fixpoint scanListElements (fuel n : nat) (pLE : option ptr) (leCount : Z) (sc : Scan)
    (s : UHCI) : option (Z * Scan * UHCI) :=
  match pLE with
  | None => Some (leCount, sc, s)
  | Some p =>
      match n with
      | O => Some (leCount + 1, sc, s)
      | S n' =>
          e ← heap s !! p;
          '(sc, s) ←
            match e with
            | ElemQH qh =>
                if negb (qh_type qh =? kQHTypeDummy) && negb (qh_stalled qh)
                then scavengeQueueHead fuel p qh sc s
                else Some (sc, s)
            | _ => Some (sc, s)
            end;
          e ← heap s !! p;
          scanListElements fuel n' (logicalNext e) (leCount + 1) sc s
      end
  end.

Definition scavengeQueueHeads (fuel : nat) (pLE : option ptr) (s : UHCI)
    : option (Z * UHCI) :=
  '(leCount, sc, s) ←
    scanListElements fuel kScavengeBound pLE 0 (mkScan None None false false 0 None None) s;
  s ←
    match doneQueue sc with
    | Some _ =>
        '(_, s) ← UHCIUIMDoDoneQueueProcessing fuel (doneQueue sc) kIOReturnSuccess None s;
        Some s
    | None => Some s
    end;
  let s := if 1000 <? leCount then add_trace [LogBadEDQueue leCount] s else s in
  Some (kIOReturnSuccess, s).

(** [AppleUSBUHCI::ProcessCompletedTransactions]. *)
Definition ProcessCompletedTransactions (fuel : nat) (s : UHCI) : option UHCI :=
  '(_, s) ← scavengeIsochTransactions fuel s;
  pLE ← _intrQH s !! (kUHCI_NINTR_QHS - 1)%nat;
  '(_, s) ← scavengeQueueHeads fuel pLE s;
  Some s.
End Model.

(** ** Sample values

    A header with the bit assignments of the UHCI design guide, a schedule
    of 1024 frames with 11 interrupt queue heads, and a plain error
    translation.  It serves to run the model on examples; the theorems
    hold for every header. *)

#[export] Instance sampleHeader : Header := {|
  kIOReturnNoMemory := 0xe00002bd;
  kIOReturnTimeout := 0xe00002d6;
  kUHCI_CMD_RS := 0x0001;
  kUHCI_CMD_MAXP := 0x0080;
  kUHCI_CMD_CF := 0x0040;
  kUHCI_STS_HCH := 0x0020;
  kUHCI_INTR_TIE := 0x0001;
  kUHCI_INTR_RIE := 0x0002;
  kUHCI_INTR_IOCE := 0x0004;
  kUHCI_INTR_SPIE := 0x0008;
  kUHCI_FRNUM_MASK := 0x7FF;
  kUHCI_FRNUM_COUNT := 0x800;
  kUHCI_NVFRAMES := 1024;
  kUHCI_NINTR_QHS := 11;
  kUHCI_QH_T := 0x1;
  kUHCI_TD_ACTIVE := 0x00800000;
  kUHCI_TD_STALLED := 0x00400000;
  kUHCI_TD_BABBLE := 0x00100000;
  kUHCI_TD_SPD := 0x20000000;
  kUHCI_TD_D := 0x00080000;
  UHCI_TD_GET_ACTLEN := λ n, Z.land (n + 1) 0x7FF;
  UHCI_TD_GET_MAXLEN := λ n, Z.land (Z.shiftr n 21 + 1) 0x7FF;
  kQHTypeDummy := 0xFF;
  kUSBControl := 0;
  kUSBBulk := 2;
  kUSBOut := 0;
  TDToUSBError := λ ctrlStatus,
    if nonzero (Z.land ctrlStatus 0x00400000) then 0xe000404f
    else if nonzero (Z.land ctrlStatus 0x007E0000) then 0xe0004051
    else 0;
  QH_PhysicalAddrWithType := λ phys, Z.lor phys 0x2;
  TD_PhysicalAddrWithType := λ phys, phys;
|}.

(** The reset bits of the command register, as the UHCI design guide has
    them, a wait of 100 turns, and a [Reset] that leaves the interrupts
    alone unless asked. *)
#[export] Instance sampleResetHeader : ResetHeader := {|
  kUHCI_CMD_GRESET := 0x0004;
  kUHCI_CMD_HCRESET := 0x0002;
  kUHCI_RESET_DELAY := 100;
  Reset_enableInterrupts := false;
|}.

(** The controller as [init] leaves it, with nothing allocated. *)
Definition initialUHCI : UHCI :=
  {| heap := ∅; isochEPs := ∅;
     _lastFrameNumberLow := 0; _lastFrameNumberHigh := 0; _idleSuspend := false;
     _savedDoneQueueHead := None; _producerCount := 1; _consumerCount := 1;
     _isochEPList := None;
     _pFreeTD := None; _pLastFreeTD := None; _tdMBHead := [];
     _pFreeQH := None; _pLastFreeQH := None; _qhMBHead := [];
     _framesPaddr := 0x10000;
     _frameList := replicate 1024 0;
     _logicalFrameList := replicate 1024 None;
     _intrQH := replicate 11 None;
     _lastQH := None; _bulkQHStart := None; _bulkQHEnd := None;
     _fsControlQHStart := None; _fsControlQHEnd := None;
     _lsControlQHStart := None; _lsControlQHEnd := None;
     _controlBulkTransactionsOut := 0; _cbiAlignmentBuffers := [];
     tdBlockSupply := []; qhBlockSupply := []; trace := [] |}.

(** What [InitializeBufferMemory] leaves on the sample controllers: a
    page of 1024 stale words at the address 0x20000, and two alignment
    buffers. *)
Definition sampleBuffers : BufferMemory :=
  {| bm_frameList := replicate 1024 0xFFFFFFFF; bm_framesPaddr := 0x20000;
     bm_cbiAlignmentBuffers := [900; 901]%nat |}.

(** A transfer descriptor as [WithSharedMemory] constructs it, with stale
    words in its shared memory. *)
Definition freshTD (phys : Z) : TD :=
  {| td_ctrlStatus := 0x00800000; td_link := 0x1; td_token := 0xFFE00069;
     td_buffer := 0x2000; td_phys := phys; td_logicalNext := None;
     td_lastTDofTransaction := false; td_alignBuffer := None;
     td_command := None; td_pQH := None; td_direction := 0;
     td_lastFrame := 0; td_lastRemaining := 0; td_logicalBuffer := None |}.

(** A queue head as [WithSharedMemory] constructs it. *)
Definition freshQH (phys : Z) : QH :=
  {| qh_elink := 0; qh_hlink := 0; qh_phys := phys; qh_logicalNext := None;
     qh_firstTD := None; qh_lastTD := None; qh_type := 0; qh_stalled := false;
     qh_functionNumber := 0; qh_endpointNumber := 0; qh_direction := 0;
     qh_speed := 0; qh_maxPacketSize := 0 |}.

(** [n] descriptors at the addresses [p], [p+1], ... *)
Definition tdBlock (p : ptr) (phys : Z) (n : nat) : MemoryBlock TD :=
  imap (λ i _, Some ((p + i)%nat, freshTD (phys + 32 * Z.of_nat i))) (replicate n ()).

Definition qhBlock (p : ptr) (phys : Z) (n : nat) : MemoryBlock QH :=
  imap (λ i _, Some ((p + i)%nat, freshQH (phys + 16 * Z.of_nat i))) (replicate n ()).

(** A controller with an empty pool that can get two blocks of three
    transfer descriptors. *)
Definition poolUHCI : UHCI :=
  set_tdBlockSupply [tdBlock 100%nat 0x4000 3; tdBlock 200%nat 0x5000 3] initialUHCI.

(** A controller that can get one block of sixteen queue heads, and one
    that can get a block of five only. *)
Definition schedUHCI : UHCI :=
  set_qhBlockSupply [qhBlock 10%nat 0x8000 16] initialUHCI.

Definition shortUHCI : UHCI :=
  set_qhBlockSupply [qhBlock 10%nat 0x8000 5] initialUHCI.

(** Three isochronous descriptors on the done queue, the latest first:
    3, 2 and 1, of the endpoints 10, 11 and 10; the producer count has
    gone from 2 to 5, with wrap-around in sight for neither. *)
Definition sampleITD (link ep : option ptr) : ITD :=
  {| itd_logicalNext := None; itd_doneQueueLink := link; itd_pEndpoint := ep;
     itd_lowLatency := false; itd_alignBuffer := None |}.

Definition isochUHCI : UHCI :=
  {| heap := <[1%nat := ElemITD (sampleITD None (Some 10%nat))]>
             (<[2%nat := ElemITD (sampleITD (Some 1%nat) (Some 11%nat))]>
             (<[3%nat := ElemITD (sampleITD (Some 2%nat) (Some 10%nat))]> ∅));
     isochEPs := <[10%nat := mkEP 2 0 (Some 11%nat) 1]>
                 (<[11%nat := mkEP 1 0 None 1]> ∅);
     _lastFrameNumberLow := 0; _lastFrameNumberHigh := 0; _idleSuspend := false;
     _savedDoneQueueHead := Some 3%nat; _producerCount := 5; _consumerCount := 2;
     _isochEPList := Some 10%nat;
     _pFreeTD := None; _pLastFreeTD := None; _tdMBHead := [];
     _pFreeQH := None; _pLastFreeQH := None; _qhMBHead := [];
     _framesPaddr := 0x10000;
     _frameList := replicate 1024 0;
     _logicalFrameList := replicate 1024 None;
     _intrQH := replicate 11 None;
     _lastQH := None; _bulkQHStart := None; _bulkQHEnd := None;
     _fsControlQHStart := None; _fsControlQHEnd := None;
     _lsControlQHStart := None; _lsControlQHEnd := None;
     _controlBulkTransactionsOut := 0; _cbiAlignmentBuffers := [];
     tdBlockSupply := []; qhBlockSupply := []; trace := [] |}.

(** A transaction of two descriptors on a done chain: 1, with 8 of 64
    bytes moved, and 2, the last of the transaction, stalled with 4 of 64
    bytes moved; the command of 2 completes with the action 7.  The queue
    head 20, a control queue head, is also the last of the schedule. *)
Definition sampleTD (ctrlStatus : Z) (next : option ptr) (last : bool)
    (command : option IOUSBCommand) : TD :=
  {| td_ctrlStatus := ctrlStatus; td_link := 0x1; td_token := 0x07E00069;
     td_buffer := 0x2000; td_phys := 0x4000; td_logicalNext := next;
     td_lastTDofTransaction := last; td_alignBuffer := None;
     td_command := command; td_pQH := Some 20%nat; td_direction := 0;
     td_lastFrame := 0; td_lastRemaining := 0; td_logicalBuffer := None |}.

Definition doneTD1 : TD := sampleTD 7 (Some 2%nat) false None.

Definition doneTD2 : TD :=
  sampleTD 0x00400003 None true
    (Some {| completion_action := Some 7%nat; dmaCommand := None |}).

Definition doneUHCI : UHCI :=
  set_heap (<[1%nat := ElemTD doneTD1]>
            (<[2%nat := ElemTD doneTD2]>
            (<[20%nat := ElemQH (freshQH 0x8000)]> ∅)))
    (set_lastQH (Some 20%nat)
       (set_controlBulkTransactionsOut 1 initialUHCI)).

(** A queue head with a halted transaction: the descriptor 1 is done, 2
    is halted, 3 is the last of the transaction and was not executed, and
    4 is the end of the queue. *)
Definition haltedTD1 : TD := sampleTD 0x3F (Some 2%nat) false None.
Definition haltedTD2 : TD := sampleTD 0x004007FF (Some 3%nat) false None.
Definition haltedTD3 : TD :=
  sampleTD 0x00800000 (Some 4%nat) true
    (Some {| completion_action := Some 7%nat; dmaCommand := None |}).
Definition haltedTD4 : TD := sampleTD 0 None false None.

Definition haltedQH : QH :=
  set_qh_firstTD (Some 1%nat)
    {| qh_elink := 0x4000; qh_hlink := 0x1; qh_phys := 0x8000; qh_logicalNext := None;
       qh_firstTD := None; qh_lastTD := Some 4%nat; qh_type := 2; qh_stalled := false;
       qh_functionNumber := 1; qh_endpointNumber := 2; qh_direction := 1;
       qh_speed := 0; qh_maxPacketSize := 64 |}.

Definition haltedUHCI : UHCI :=
  set_heap (<[1%nat := ElemTD haltedTD1]>
            (<[2%nat := ElemTD haltedTD2]>
            (<[3%nat := ElemTD haltedTD3]>
            (<[4%nat := ElemTD haltedTD4]>
            (<[20%nat := ElemQH haltedQH]> ∅)))))
    (set_lastQH (Some 20%nat)
       (set_controlBulkTransactionsOut 1 initialUHCI)).

(** A queue head with a short transaction: the descriptor 1 has moved 8
    of 64 bytes with short-packet detect and the toggle 1, 2 is the last
    of the transaction and was skipped by the controller, 3 begins the
    next transaction with the toggle 1, and 4 is the end of the queue. *)
Definition physTD (phys ctrlStatus token : Z) (next : option ptr) (last : bool) : TD :=
  {| td_ctrlStatus := ctrlStatus; td_link := 0x1; td_token := token;
     td_buffer := 0x2000; td_phys := phys; td_logicalNext := next;
     td_lastTDofTransaction := last; td_alignBuffer := None;
     td_command := Some {| completion_action := Some 7%nat; dmaCommand := None |};
     td_pQH := Some 20%nat; td_direction := 1;
     td_lastFrame := 0; td_lastRemaining := 0; td_logicalBuffer := None |}.

Definition spdTD1 : TD := physTD 0x4000 0x20000007 0x07E80069 (Some 2%nat) false.
Definition spdTD2 : TD := physTD 0x4020 0x00800000 0x07E00069 (Some 3%nat) true.
Definition spdTD3 : TD := physTD 0x4040 0x00800000 0x07E80069 (Some 4%nat) false.
Definition spdTD4 : TD := physTD 0x4060 0 0x07E00069 None false.

Definition spdUHCI : UHCI :=
  set_heap (<[1%nat := ElemTD spdTD1]>
            (<[2%nat := ElemTD spdTD2]>
            (<[3%nat := ElemTD spdTD3]>
            (<[4%nat := ElemTD spdTD4]>
            (<[20%nat := ElemQH haltedQH]> ∅)))))
    (set_lastQH (Some 20%nat)
       (set_controlBulkTransactionsOut 1 initialUHCI)).

(** A pool of two free transfer descriptors, 1 and 2, with the descriptor
    3 in use; and a pool of two free queue heads, 21 and 22, with the
    queue head 20 in use. *)
Definition recycleUHCI : UHCI :=
  set_heap (<[1%nat := ElemTD (sampleTD 0 (Some 2%nat) false None)]>
            (<[2%nat := ElemTD (sampleTD 0 None false None)]>
            (<[3%nat := ElemTD doneTD2]>
            (<[20%nat := ElemQH haltedQH]>
            (<[21%nat := ElemQH (set_qh_logicalNext (Some 22%nat) (freshQH 0x8010))]>
            (<[22%nat := ElemQH (freshQH 0x8020)]> ∅))))))
    (set_pFreeTD (Some 1%nat)
       (set_pLastFreeTD (Some 2%nat)
          (set_pFreeQH (Some 21%nat)
             (set_pLastFreeQH (Some 22%nat) initialUHCI)))).


(** A controller whose frame number is one frame short of 2^32. *)
Definition lateUHCI : UHCI := set_lastFrameNumberLow 0xFFFFFFFF initialUHCI.

(** Queue heads the scavenger passes: the dummy 30, linked to 31, which
    is stalled and has the queue of [haltedQH]; and the dummy 32, linked
    to itself. *)
Definition dummyQH (next : option ptr) : QH :=
  {| qh_elink := 0x1; qh_hlink := 0x1; qh_phys := 0x8100; qh_logicalNext := next;
     qh_firstTD := None; qh_lastTD := None; qh_type := 0xFF; qh_stalled := false;
     qh_functionNumber := 0; qh_endpointNumber := 0; qh_direction := 0;
     qh_speed := 0; qh_maxPacketSize := 0 |}.

Definition restUHCI : UHCI :=
  set_heap (<[30%nat := ElemQH (dummyQH (Some 31%nat))]>
            (<[31%nat := ElemQH (set_qh_stalled true haltedQH)]>
            (<[32%nat := ElemQH (dummyQH (Some 32%nat))]> (heap haltedUHCI))))
    haltedUHCI.

(** A queue head whose transaction is under way: the descriptor 1 is
    done, 2 is the last of the transaction and still active, and 3 is the
    end of the queue. *)
Definition waitingQH : QH :=
  {| qh_elink := 0x4000; qh_hlink := 0x1; qh_phys := 0x8000; qh_logicalNext := None;
     qh_firstTD := Some 1%nat; qh_lastTD := Some 3%nat; qh_type := 2;
     qh_stalled := false; qh_functionNumber := 1; qh_endpointNumber := 2;
     qh_direction := 1; qh_speed := 0; qh_maxPacketSize := 64 |}.

Definition waitingUHCI : UHCI :=
  set_heap (<[1%nat := ElemTD (sampleTD 0x3F (Some 2%nat) false None)]>
            (<[2%nat := ElemTD (sampleTD 0x00800000 (Some 3%nat) true
                                  (Some {| completion_action := Some 7%nat;
                                           dmaCommand := None |}))]>
            (<[3%nat := ElemTD (sampleTD 0 None false None)]>
            (<[20%nat := ElemQH waitingQH]> ∅))))
    (set_lastQH (Some 20%nat)
       (set_controlBulkTransactionsOut 1 initialUHCI)).

(** An interrupt with work of both kinds: the isochronous descriptors 42
    and 41 are new on the done queue, the latest first, of the endpoints
    11 and 10; and the schedule is the queue head 20 with the short
    transaction of [spdUHCI]. *)
Definition busyUHCI : UHCI :=
  {| heap := <[41%nat := ElemITD (sampleITD None (Some 10%nat))]>
             (<[42%nat := ElemITD (sampleITD (Some 41%nat) (Some 11%nat))]>
             (heap spdUHCI));
     isochEPs := <[10%nat := mkEP 1 0 (Some 11%nat) 1]>
                 (<[11%nat := mkEP 1 0 None 1]> ∅);
     _lastFrameNumberLow := 0; _lastFrameNumberHigh := 0; _idleSuspend := false;
     _savedDoneQueueHead := Some 42%nat; _producerCount := 5; _consumerCount := 3;
     _isochEPList := Some 10%nat;
     _pFreeTD := None; _pLastFreeTD := None; _tdMBHead := [];
     _pFreeQH := None; _pLastFreeQH := None; _qhMBHead := [];
     _framesPaddr := 0x10000;
     _frameList := replicate 1024 0;
     _logicalFrameList := replicate 1024 None;
     _intrQH := <[10%nat := Some 20%nat]> (replicate 11 None);
     _lastQH := Some 20%nat; _bulkQHStart := None; _bulkQHEnd := None;
     _fsControlQHStart := None; _fsControlQHEnd := None;
     _lsControlQHStart := None; _lsControlQHEnd := None;
     _controlBulkTransactionsOut := 1; _cbiAlignmentBuffers := [];
     tdBlockSupply := []; qhBlockSupply := []; trace := [] |}.

(** ** Notions used to state the properties *)

(** The addresses of the descriptors of a block. *)
Definition blockPtrs {A} (b : MemoryBlock A) : list ptr :=
  omap (M := list) (λ slot : option (ptr * A), fst <$> slot) b.

(** [linked get next h o l]: the list that starts at [o] and follows the
    [next] pointers consists of the elements at the addresses [l], all of
    the class [get] reads, and ends with a null pointer. *)
Fixpoint linked {A} (get : gmap ptr Elem → ptr → option A) (next : A → option ptr)
    (h : gmap ptr Elem) (o : option ptr) (l : list ptr) : Prop :=
  match l with
  | [] => o = None
  | p :: l' => o = Some p ∧ ∃ t, get h p = Some t ∧ linked get next h (next t) l'
  end.

Abbreviation tdList := (linked getTD td_logicalNext).
Abbreviation qhList := (linked getQH qh_logicalNext).

(** The free list of queue heads holds [l], or it is empty and the next
    block, threaded onto it, makes it hold [l]. *)
Definition qhReady (s : UHCI) (l : list ptr) : Prop :=
  qhList (heap s) (_pFreeQH s) l
  ∨ (_pFreeQH s = None
     ∧ ∃ p0 q0 b supply,
         qhBlockSupply s = (Some (p0, q0) :: b) :: supply
         ∧ Forall is_Some b ∧ b ≠ []
         ∧ NoDup (p0 :: blockPtrs b)
         ∧ qh_logicalNext q0 = None
         ∧ l = rev (p0 :: blockPtrs b)).


(** The queue head [q] is among those the software links lead to from
    frame slot [j]. *)
Definition reachesQH (s : UHCI) (j : nat) (q : ptr) : Prop :=
  ∃ path, qhList (heap s) (mjoin (_logicalFrameList s !! j)) path ∧ q ∈ path.

(** What [HardwareInit] builds on, apart from the pools and the store. *)
Definition scheduleFields (s : UHCI) :=
  (trace s, _framesPaddr s, _frameList s, _logicalFrameList s, _intrQH s, _lastQH s,
   _fsControlQHStart s).

Section ResetDefs.
Context `{Header} `{ResetHeader}.

(** What [Reset] writes when the controller comes out of the reset: the
    reset command and, on a driver that has a frame list, the base of the
    frame list, the frame number and the configuration, with the
    interrupt enable after them when it is asked for. *)
Definition resetWrites (enableInterrupts : bool) (s : UHCI) : list Event :=
  EvCommand kUHCI_CMD_HCRESET
  :: (if nonzero (_framesPaddr s) then
        [EvIoWrite32 kUHCI_FRBASEADDR (_framesPaddr s);
         EvIoWrite16 kUHCI_FRNUM
           (wrap16 (Z.land (_lastFrameNumberLow s) kUHCI_FRNUM_MASK));
         EvCommand (Z.lor kUHCI_CMD_MAXP kUHCI_CMD_CF)]
        ++ (if enableInterrupts : bool
            then [EvIoWrite16 kUHCI_INTR
                    (Z.lor (Z.lor (Z.lor kUHCI_INTR_TIE kUHCI_INTR_RIE) kUHCI_INTR_IOCE)
                       kUHCI_INTR_SPIE)]
            else [])
      else []).

(** What [HardwareInit] writes before it builds the schedule: the
    interrupts are disabled, the controller is reset twice, and the frame
    number and the base of the new frame list are set. *)
Definition resetPhase (buffers : BufferMemory) (s : UHCI) : list Event :=
  [EvIoWrite16 kUHCI_INTR 0; EvCommand kUHCI_CMD_GRESET; EvCommand 0]
  ++ resetWrites Reset_enableInterrupts s
  ++ [EvIoWrite16 kUHCI_FRNUM 0; EvIoWrite32 kUHCI_FRBASEADDR (bm_framesPaddr buffers)].
End ResetDefs.

Global Arguments resetWrites : simpl never.
Global Arguments resetPhase : simpl never.

Section SpecDefs.
Context `{Header}.

(** [n] calls of [AllocateTD] in a row, none of which returns NULL. *)
Fixpoint allocateTDs (n : nat) (pQH : option ptr) (s : UHCI) : option (list ptr * UHCI) :=
  match n with
  | O => Some ([], s)
  | S n' =>
      '(r, s) ← AllocateTD pQH s;
      p ← r;
      '(l, s) ← allocateTDs n' pQH s;
      Some (p :: l, s)
  end.

(** The highest of the levels [i], ..., [i + n - 1] whose queue head is
    written into frame slot [k], if there is one: the later levels
    overwrite the earlier ones. *)
Fixpoint slotLevelFrom (i n k : nat) : option nat :=
  match n with
  | O => None
  | S n' =>
      match slotLevelFrom (S i) n' k with
      | Some m => Some m
      | None => if bool_decide (k mod 2 ^ i = 2 ^ i - 1)%nat then Some i else None
      end
  end.

(** The queue heads [qs] are scheduled one after the other, the first
    after [pred]: each is a terminated dummy whose links, the software
    one and the hardware one, lead to its predecessor. *)
Fixpoint scheduledAfter (h : gmap ptr Elem) (pred : ptr) (qs : list ptr) : Prop :=
  match qs with
  | [] => True
  | q :: qs' =>
      (∃ r rp, getQH h q = Some r ∧ getQH h pred = Some rp
               ∧ qh_logicalNext r = Some pred
               ∧ qh_hlink r = HostToUSBLong (QH_PhysicalAddrWithType (qh_phys rp))
               ∧ qh_elink r = HostToUSBLong kUHCI_QH_T
               ∧ qh_firstTD r = None
               ∧ qh_type r = kQHTypeDummy)
      ∧ scheduledAfter h q qs'
  end.

(** The hardware links lead from the link word [w] through the queue
    heads [path], one after the other, to the link word [w']: every word
    on the way is the address, with type, of the next queue head, as it
    is: it has no terminate bit put on top of it. *)
Fixpoint hwLinked (h : gmap ptr Elem) (w : Z) (path : list ptr) (w' : Z) : Prop :=
  match path with
  | [] => w = w'
  | q :: path' =>
      ∃ r, getQH h q = Some r
           ∧ w = HostToUSBLong (QH_PhysicalAddrWithType (qh_phys r))
           ∧ hwLinked h (qh_hlink r) path' w'
  end.

(** The interrupt ladder over [2 ^ N] frames: the queue heads [intr], one
    per level [0 .. N]; every frame slot holds the queue head of the
    largest level [i] with [j ≡ 2^i - 1 (mod 2^i)], in the logical and in
    the hardware frame list; the queue head of level [i] is reached from
    exactly the slots [j ≡ 2^i - 1 (mod 2^i)], that is once every [2 ^ i]
    frames; and the controller is led the same way: from the word of the
    hardware frame list the hardware links go through the queue heads the
    software links go through, one after the other, and end in the link
    of the last queue head, which is the terminated way back to the full
    speed control queue head. *)
Definition interruptLadder (N : nat) (intr : list ptr) (s : UHCI) : Prop :=
  length intr = S N ∧ NoDup intr
  ∧ _intrQH s = Some <$> intr
  ∧ (∀ j i q,
       (j < 2 ^ N)%nat → (i ≤ N)%nat → (j mod 2 ^ i = 2 ^ i - 1)%nat →
       (∀ i', (i' ≤ N)%nat → (j mod 2 ^ i' = 2 ^ i' - 1)%nat → (i' ≤ i)%nat) →
       intr !! i = Some q →
       _logicalFrameList s !! j = Some (Some q)
       ∧ ∃ r, getQH (heap s) q = Some r
              ∧ _frameList s !! j
                = Some (HostToUSBLong (QH_PhysicalAddrWithType (qh_phys r))))
  ∧ (∀ j i q,
       (j < 2 ^ N)%nat → intr !! i = Some q →
       reachesQH s j q ↔ (j mod 2 ^ i = 2 ^ i - 1)%nat)
  ∧ (∀ j path,
       (j < 2 ^ N)%nat → qhList (heap s) (mjoin (_logicalFrameList s !! j)) path →
       ∃ w fs qf,
         _frameList s !! j = Some w
         ∧ _fsControlQHStart s = Some fs ∧ getQH (heap s) fs = Some qf
         ∧ hwLinked (heap s) w path
             (HostToUSBLong (Z.lor (QH_PhysicalAddrWithType (qh_phys qf)) kUHCI_QH_T))).

(** *** The isochronous done queue *)

(** The first descriptors of the done queue, newest first: following
    [_doneQueueLink] from [o] leads through [l]. *)
Fixpoint donePath (h : gmap ptr Elem) (o : option ptr) (l : list ptr) : Prop :=
  match l with
  | [] => True
  | p :: l' =>
      o = Some p ∧ ∃ t, getITD h p = Some t ∧ donePath h (itd_doneQueueLink t) l'
  end.

(** The list of the isochronous endpoints. *)
Fixpoint endpointList (eps : gmap ptr IsochEndpoint) (o : option ptr) (l : list ptr) : Prop :=
  match l with
  | [] => o = None
  | p :: l' => o = Some p ∧ ∃ e, eps !! p = Some e ∧ endpointList eps (nextEP e) l'
  end.

(** What the reversal does to the descriptors [l], taken in this order:
    each is linked to the one before it and moves, in the books of its
    endpoint, from the producer queue to the reversed list. *)
Fixpoint reverseITDs (l : list ptr) (prevEl : option ptr) (s : UHCI) : option UHCI :=
  match l with
  | [] => Some s
  | p :: l' =>
      itd ← getITD (heap s) p;
      s ← updITD p (set_itd_logicalNext prevEl) s;
      s ←
        match itd_pEndpoint itd with
        | Some ep =>
            updEP ep (λ e, set_onReversedList (wrap32 (onReversedList e + 1))
                             (set_onProducerQ (wrap32 (onProducerQ e - 1)) e)) s
        | None => Some s
        end;
      reverseITDs l' (Some p) s
  end.

(** The hand-over of one descriptor: it leaves the reversed list and goes
    to [scavengeAnIsochTD]. *)
Definition deliverITD (p : ptr) (s : UHCI) : option UHCI :=
  itd ← getITD (heap s) p;
  s ← updITD p (set_itd_logicalNext None) s;
  s ←
    match itd_pEndpoint itd with
    | Some ep => updEP ep (λ e, set_onReversedList (wrap32 (onReversedList e - 1)) e) s
    | None => Some s
    end;
  scavengeAnIsochTD p s.

(** The hand-over of the descriptors [l], in this order. *)
Fixpoint deliverITDs (l : list ptr) (s : UHCI) : option UHCI :=
  match l with
  | [] => Some s
  | p :: l' => s ← deliverITD p s; deliverITDs l' s
  end.

(** How many of the descriptors [l] belong to the endpoint [e]. *)
Definition countFor (h : gmap ptr Elem) (e : ptr) (l : list ptr) : Z :=
  Z.of_nat (length (filter (λ p, (getITD h p ≫= itd_pEndpoint) = Some e) l)).


(** The endpoint of a descriptor, if it is one and has one. *)
Definition endpointOf (h : gmap ptr Elem) (p : ptr) : option ptr :=
  getITD h p ≫= itd_pEndpoint.

(** The endpoints of the descriptors [l] are endpoints of the controller. *)
Definition endpointsKnown (s : UHCI) (l : list ptr) : Prop :=
  ∀ x e, x ∈ l → endpointOf (heap s) x = Some e → is_Some (isochEPs s !! e).

(** The counters of the endpoints are [UInt32] values. *)
Definition countersInRange (s : UHCI) : Prop :=
  map_Forall (λ _ ep, 0 ≤ onProducerQ ep < 2 ^ 32 ∧ 0 ≤ onReversedList ep < 2 ^ 32)
    (isochEPs s).

(** The descriptors of [l] that have an endpoint. *)
Definition withEndpoint (h : gmap ptr Elem) (l : list ptr) : list ptr :=
  filter (λ x, is_Some (endpointOf h x)) l.

(** One pass over the done queue [l], as the specification has it: the
    reversal, the new consumer count, the hand-over in the opposite order,
    and the round of the endpoints. *)
Definition isochPass (fuel : nat) (l : list ptr) (s : UHCI) : option (Z * UHCI) :=
  s ← reverseITDs l None s;
  s ← deliverITDs (rev l) (set_consumerCount (_producerCount s) s);
  s ← isochEndpointLoop fuel (_isochEPList s) s;
  Some (kIOReturnSuccess, s).

(** The descriptors that were put on the done queue of their endpoint,
    as the trace has them. *)
Definition delivered (tr : list Event) : list ptr :=
  omap (λ ev, match ev with EvPutTDonDoneQueue _ p => Some p | _ => None end) tr.

(** *** The dispatch of the done chain *)

(** What a descriptor has left of its buffer. *)
Definition residual (td : TD) : Z :=
  UHCI_TD_GET_MAXLEN (USBToHostLong (td_token td))
  - UHCI_TD_GET_ACTLEN (USBToHostLong (td_ctrlStatus td)).

(** The residual length of the descriptors [tds], as a [UInt32]. *)
Definition residualSum (tds : list TD) : Z :=
  wrap32 (foldr (λ td acc, residual td + acc) 0 tds).

(** The first status of the descriptors [tds] that is not success. *)
Fixpoint firstError (tds : list TD) : Z :=
  match tds with
  | [] => kIOReturnSuccess
  | td :: tds' =>
      let e := TDToUSBError (USBToHostLong (td_ctrlStatus td)) in
      if e =? kIOReturnSuccess then firstError tds' else e
  end.

(** The status a callback is given for the descriptors [tds]. *)
Definition statusOf (forceErr : Z) (tds : list TD) : Z :=
  if negb (forceErr =? kIOReturnSuccess) then forceErr else firstError tds.

(** The callback of a descriptor: it is the last of its transaction and
    its command has a completion action. *)
Definition completionOf (td : TD) : option nat :=
  if td_lastTDofTransaction td
  then command ← td_command td; completion_action command
  else None.

(** What is logged for a descriptor without callback. *)
Definition quietLog (p : ptr) (td : TD) : list Event :=
  (if td_lastTDofTransaction td then
     match td_command td with
     | None => [ErrCommandIsNull p]
     | Some command =>
         match completion_action command with
         | Some _ => []
         | None => [ErrCompletionActionIsNull]
         end
     end
   else [])
  ++ [LogDeallocatingTD p].

(** The callbacks, the reports of a missing handle and the returns to the
    pool for the done chain [c], where [cur] are the descriptors since the
    last callback: a callback gets the status and the residual length of
    the descriptors since the one before. *)
Fixpoint dispatchLog (forceErr : Z) (cur : list TD) (c : list (ptr * TD)) : list Event :=
  match c with
  | [] => []
  | (p, td) :: c' =>
      match completionOf td with
      | Some action =>
          [EvComplete action (statusOf forceErr (cur ++ [td])) (residualSum (cur ++ [td]));
           LogDeallocatingTD p]
          ++ dispatchLog forceErr [] c'
      | None => quietLog p td ++ dispatchLog forceErr (cur ++ [td]) c'
      end
  end.

(** The events of the dispatch in a trace. *)
Definition dispatchEvents (tr : list Event) : list Event :=
  omap (λ ev, match ev with
              | EvComplete _ _ _ | LogDeallocatingTD _
              | ErrCommandIsNull _ | ErrCompletionActionIsNull => Some ev
              | _ => None
              end) tr.

(** The chain [c] from [o] on, with its descriptors as they are in the
    store. *)
Definition doneChain (s : UHCI) (o : option ptr) (c : list (ptr * TD)) : Prop :=
  tdList (heap s) o c.*1 ∧ Forall (λ x, getTD (heap s) x.1 = Some x.2) c.

(** The descriptors at [l] from [o] on, linked up to [o']. *)
Fixpoint tdSegment (h : gmap ptr Elem) (o : option ptr) (l : list ptr)
    (o' : option ptr) : Prop :=
  match l with
  | [] => o = o'
  | p :: l' => o = Some p ∧ ∃ td, getTD h p = Some td ∧ tdSegment h (td_logicalNext td) l' o'
  end.

(** The queue heads the dispatch looks at are there: the one of every
    descriptor with a callback, and the last of the schedule. *)
Definition queueHeadsKnown (s : UHCI) (c : list (ptr * TD)) : Prop :=
  (∀ x, x ∈ c → is_Some (completionOf x.2) →
        ∃ q, td_pQH x.2 = Some q ∧ is_Some (getQH (heap s) q))
  ∧ ∃ lq, _lastQH s = Some lq ∧ is_Some (getQH (heap s) lq).

(** The free list ends in a descriptor that is not one of [l]. *)
Definition freeTailAway (s : UHCI) (l : list ptr) : Prop :=
  ∀ f, _pLastFreeTD s = Some f → is_Some (getTD (heap s) f) ∧ f ∉ l.

(** *** The scan of a queue *)

(** The status bits of a descriptor the scan looks at. *)
Definition isActive (td : TD) : bool :=
  nonzero (Z.land (USBToHostLong (td_ctrlStatus td)) kUHCI_TD_ACTIVE).

Definition isHalted (td : TD) : bool :=
  nonzero (Z.land (USBToHostLong (td_ctrlStatus td)) kUHCI_TD_STALLED).

(** Short: the short-packet-detect bit is set and less than the maximum
    has been moved. *)
Definition isShort (td : TD) : bool :=
  nonzero (Z.land (USBToHostLong (td_ctrlStatus td)) kUHCI_TD_SPD)
  && (wrap16 (UHCI_TD_GET_ACTLEN (USBToHostLong (td_ctrlStatus td)))
      <? UHCI_TD_GET_MAXLEN (USBToHostLong (td_token td))).

(** The data toggle of a descriptor. *)
Definition toggleOf (td : TD) : Z := Z.land (USBToHostLong (td_token td)) kUHCI_TD_D.

(** The other data toggle. *)
Definition otherToggle (toggle : Z) : Z :=
  if nonzero toggle then 0 else HostToUSBLong kUHCI_TD_D.

(** The token with the data toggle [toggle]. *)
Definition withToggle (toggle : Z) (td : TD) : TD :=
  set_td_token (Z.lor (Z.land (td_token td) (not32 (HostToUSBLong kUHCI_TD_D))) toggle) td.

(** What the scan knows of the transaction it is in: halted, short, and
    the toggle of the short descriptor. *)
Definition Modes : Type := bool * bool * Z.

Definition modes (sc : Scan) : Modes := (TDisHalted sc, shortTransfer sc, lastToggle sc).

Definition withModes (m : Modes) (sc : Scan) : Scan :=
  mkScan (qTD sc) (qHead sc) m.1.1 m.1.2 m.2 (doneQueue sc) (doneTail sc).

(** What the scan learns from a descriptor; [None] when it is still
    active, which is looked at in a transaction that is neither halted nor
    short only. *)
Definition examine (td : TD) (m : Modes) : option Modes :=
  if negb m.1.1 && negb m.1.2 then
    if isActive td then None
    else if isHalted td then Some (true, m.1.2, m.2)
    else if isShort td then Some (false, true, toggleOf td)
    else Some (false, m.1.2, m.2)
  else Some m.

(** The controller without its store, its trace and its list of free
    alignment buffers: what the scan of the queues leaves alone. *)
Definition scanFrame (s : UHCI) : UHCI :=
  set_heap ∅ (set_trace [] (set_cbiAlignmentBuffers [] s)).

(** At the end of a short transaction, the toggles of the descriptors
    that follow are swapped: on a queue that is not a control queue, when
    the next descriptor [tdq] has the toggle of the short one. *)
Definition flipsAfter (m : Modes) (qh : QH) (tdq : TD) : bool :=
  negb m.1.1 && m.1.2 && negb (qh_type qh =? kUSBControl) && (toggleOf tdq =? m.2).

(** The element link at the end of a transaction, where [tdq] is the
    next descriptor: it goes to [tdq] after a short transaction, is
    terminated after a halted one, and is left alone otherwise. *)
Definition elinkAfter (m : Modes) (tdq : TD) (qh : QH) : QH :=
  if negb m.1.1 && m.1.2
  then set_qh_elink (HostToUSBLong (TD_PhysicalAddrWithType (td_phys tdq))) qh
  else if m.1.1 then set_qh_elink (HostToUSBLong kUHCI_QH_T) qh
  else qh.

(** The tail of the done queue, when there is a done queue. *)
Definition tailOf (sc : Scan) : list ptr :=
  match doneQueue sc, doneTail sc with
  | Some _, Some t => [t]
  | _, _ => []
  end.



(** The scan after a descriptor that does not end a transaction. *)
Definition advance (q : option ptr) (m : Modes) (sc : Scan) : Scan :=
  mkScan q (qHead sc) m.1.1 m.1.2 m.2 (doneQueue sc) (doneTail sc).


(** *** A queue with nothing to harvest *)

(** What the scan learns from a descriptor, without the toggle. *)
Definition examineB (td : TD) (m : bool * bool) : option (bool * bool) :=
  (λ m' : Modes, (m'.1.1, m'.1.2)) <$> examine td (m.1, m.2, 0).

(** The scan passes the descriptors at [l], none of which is the end of
    the queue or ends a transaction, and none of which makes it break
    off. *)
Fixpoint walks (h : gmap ptr Elem) (qEnd : option ptr) (l : list ptr) (m : bool * bool)
    : option (bool * bool) :=
  match l with
  | [] => Some m
  | p :: l' =>
      if decide (Some p = qEnd) then None
      else
        td ← getTD h p;
        if td_lastTDofTransaction td then None
        else m' ← examineB td m; walks h qEnd l' m'
  end.

(** The scan stops at the descriptor [x]: it is the end of the queue, or
    it is still active in a transaction that is neither halted nor
    short. *)
Definition stopsAt (h : gmap ptr Elem) (qEnd : option ptr) (x : ptr) (m : bool * bool)
    : Prop :=
  Some x = qEnd ∨ ∃ td, getTD h x = Some td ∧ examineB td m = None.

(** The queue of the queue head [qh] has nothing to harvest: from its
    first descriptor the scan passes the descriptors [pend] and stops at
    [x], before the last descriptor of any transaction; [F] are [pend]
    and [x]. *)
Definition nothingToHarvest (h : gmap ptr Elem) (qh : QH) (F : list ptr) : Prop :=
  ∃ pend x m o,
    F = pend ++ [x]
    ∧ tdSegment h (qh_firstTD qh) F o
    ∧ walks h (qh_lastTD qh) pend (false, false) = Some m
    ∧ stopsAt h (qh_lastTD qh) x m
    ∧ (length pend < kScavengeBound)%nat.

(** The scan of the queue head at [k] harvests nothing: it is a dummy, it
    is stalled, its queue is empty, or its queue has nothing to harvest. *)
Definition quietAt (s : UHCI) (k : ptr) (F : list ptr) : Prop :=
  ∃ qh, getQH (heap s) k = Some qh
    ∧ (qh_type qh = kQHTypeDummy ∨ qh_stalled qh = true ∨ qh_firstTD qh = None
       ∨ nothingToHarvest (heap s) qh F).

(** The queue of the queue head at [k] is the list [C], which has the
    end of the queue in it. *)
Definition readyAt (s : UHCI) (k : ptr) (C : list ptr) : Prop :=
  ∃ qh, getQH (heap s) k = Some qh
    ∧ tdList (heap s) (qh_firstTD qh) C
    ∧ (C ≠ [] → ∃ e, qh_lastTD qh = Some e ∧ e ∈ C).

(** The done queue of the scan is the list [D]. *)
Definition doneOK (s : UHCI) (sc : Scan) (D : list ptr) : Prop :=
  tdList (heap s) (doneQueue sc) D
  ∧ (is_Some (doneQueue sc) → doneTail sc = last D).

(** The schedule as the scavenger needs it: the queue heads [qs] from
    the last interrupt queue head on, fewer than the bound of the scan;
    the queue of each, [C k], with the end of the queue in it, no longer
    than the bound and than the fuel; no descriptor in two queues, and
    the tail of the free list in none. *)
Definition scheduleWF (fuel : nat) (s : UHCI) (qs : list ptr) (C : ptr → list ptr) : Prop :=
  (∃ pLE, _intrQH s !! (kUHCI_NINTR_QHS - 1)%nat = Some pLE ∧ qhList (heap s) pLE qs)
  ∧ (length qs ≤ kScavengeBound)%nat
  ∧ (∀ k, k ∈ qs → readyAt s k (C k)
                   ∧ (length (C k) ≤ kScavengeBound)%nat ∧ (length (C k) ≤ fuel)%nat)
  ∧ (∀ k1 k2 x, k1 ∈ qs → k2 ∈ qs → k1 ≠ k2 → x ∈ C k1 → x ∉ C k2)
  ∧ (∀ f k, _pLastFreeTD s = Some f → k ∈ qs → f ∉ C k).

(** The callbacks in a trace: the completions of the dispatch and the
    isochronous descriptors put on the done queue of their endpoint. *)
Definition callbacks (tr : list Event) : list Event :=
  omap (λ ev, match ev with
              | EvComplete _ _ _ | EvPutTDonDoneQueue _ _ => Some ev
              | _ => None
              end) tr.

(** The four words of a descriptor that the hardware reads are zero. *)
Definition zeroedTD (t : TD) : Prop :=
  td_ctrlStatus t = 0 ∧ td_link t = 0 ∧ td_token t = 0 ∧ td_buffer t = 0.
End SpecDefs.

(** *** The pools as queues *)

(** The free list of transfer descriptors is [l], the next to be handed
    out first: the descriptors at [l] are linked from [_pFreeTD], and
    [_pLastFreeTD] is at the last of them. *)
Definition tdPool (s : UHCI) (l : list ptr) : Prop :=
  tdList (heap s) (_pFreeTD s) l ∧ _pLastFreeTD s = last l.

(** The same for the free list of queue heads. *)
Definition qhPool (s : UHCI) (l : list ptr) : Prop :=
  qhList (heap s) (_pFreeQH s) l ∧ _pLastFreeQH s = last l.

(** The controller without its store and without the ends of the free
    list of transfer descriptors, or of queue heads: what a return to the
    pool and an allocation from it leave alone. *)
Definition tdPoolFrame (s : UHCI) : UHCI :=
  set_pLastFreeTD None (set_pFreeTD None (set_heap ∅ s)).

Definition qhPoolFrame (s : UHCI) : UHCI :=
  set_pLastFreeQH None (set_pFreeQH None (set_heap ∅ s)).

(** The descriptors at [l] are returned to the pool, one after the
    other. *)
Fixpoint deallocateTDs (l : list ptr) (s : UHCI) : option UHCI :=
  match l with
  | [] => Some s
  | p :: l' => s ← DeallocateTD p s; deallocateTDs l' s
  end.

(** *** The frame number *)

(** The 64-bit frame number the driver keeps in two words. *)
Definition frame64 (s : UHCI) : Z :=
  _lastFrameNumberLow s + 2 ^ 32 * _lastFrameNumberHigh s.

(** The controller without the two words of the frame number. *)
Definition frameRest (s : UHCI) : UHCI :=
  set_lastFrameNumberHigh 0 (set_lastFrameNumberLow 0 s).

(** *** A schedule at rest *)

(** What the isochronous pass works on. *)
Definition isochFields (s : UHCI) :=
  (_savedDoneQueueHead s, _producerCount s, _consumerCount s, _isochEPList s, isochEPs s).

Section RestDefs.
Context `{Header}.

(** The queue head at [q] is one the scavenger passes without a look at
    its queue: a dummy, or a stalled queue head. *)
Definition passedOver (h : gmap ptr Elem) (q : ptr) : Prop :=
  ∃ r, getQH h q = Some r ∧ (qh_type r = kQHTypeDummy ∨ qh_stalled r = true).

(** The queue head at [q] is a dummy and its element link is terminated:
    the controller finds no descriptor under it. *)
Definition terminatedDummy (h : gmap ptr Elem) (q : ptr) : Prop :=
  ∃ r, getQH h q = Some r ∧ qh_type r = kQHTypeDummy
       ∧ qh_elink r = HostToUSBLong kUHCI_QH_T.
End RestDefs.

(** *** The pool under the dispatch *)

(** A step of the dispatch at the descriptor [p], as the pool sees it:
    the other descriptors and the two ends of the free list are as they
    were, and [p] still is a descriptor. *)
Record poolStep (p : ptr) (s s' : UHCI) : Prop := {
  ps_others : ∀ x, x ≠ p → getTD (heap s') x = getTD (heap s) x;
  ps_self : is_Some (getTD (heap s) p) → is_Some (getTD (heap s') p);
  ps_free : _pFreeTD s' = _pFreeTD s;
  ps_last : _pLastFreeTD s' = _pLastFreeTD s;
}.

(** *** Bandwidth reclamation under the dispatch *)

(** A step that leaves the queue heads, the count of the control and bulk
    transactions under way and the tail of the schedule alone. *)
Record qhSame (s s' : UHCI) : Prop := {
  qs_qh : ∀ q, getQH (heap s') q = getQH (heap s) q;
  qs_count : _controlBulkTransactionsOut s' = _controlBulkTransactionsOut s;
  qs_last : _lastQH s' = _lastQH s;
}.

Section ReclaimDefs.
Context `{Header}.

(** The descriptor completes a transaction of a control or a bulk queue
    head: it has a callback, and its queue head is of one of these
    types. *)
Definition onControlBulk (h : gmap ptr Elem) (td : TD) : bool :=
  match completionOf td, td_pQH td ≫= getQH h with
  | Some _, Some qh => (qh_type qh =? kUSBControl) || (qh_type qh =? kUSBBulk)
  | _, _ => false
  end.

(** The number of such descriptors in the chain [c]. *)
Fixpoint controlBulkCompletions (h : gmap ptr Elem) (c : list (ptr * TD)) : Z :=
  match c with
  | [] => 0
  | x :: c' => (if onControlBulk h x.2 then 1 else 0) + controlBulkCompletions h c'
  end.

(** The queue head with the terminate bit set in its hardware link. *)
Definition terminated (qh : QH) : QH :=
  set_qh_hlink (HostToUSBLong (Z.lor (USBToHostLong (qh_hlink qh)) kUHCI_QH_T)) qh.

(** What the completion of a descriptor does to the count and to the
    tail of the schedule. *)
Definition reclaimed (k : bool) (lq : ptr) (ql : QH) (s s' : UHCI) : Prop :=
  let N := _controlBulkTransactionsOut s in
  _lastQH s' = Some lq
  ∧ _controlBulkTransactionsOut s' = (if k && (0 <? N) then N - 1 else N)
  ∧ getQH (heap s') lq = Some (if k && (N =? 1) then terminated ql else ql)
  ∧ (∀ q, q ≠ lq → getQH (heap s') q = getQH (heap s) q).
End ReclaimDefs.

(** *** A pass that harvests nothing *)

Section IdleDefs.
Context `{Header}.

(** A pass of the scavenger that harvests nothing: the descriptors keep
    all but their alignment buffer, the queue heads all but their stalled
    flag, which is not taken back; no callback fires, no descriptor is
    returned to the pool, and everything else is as it was. *)
Record idlePass (s s' : UHCI) : Prop := {
  ip_td : ∀ x td, getTD (heap s) x = Some td →
                  ∃ ab, getTD (heap s') x = Some (set_td_alignBuffer ab td);
  ip_qh : ∀ q qh, getQH (heap s) q = Some qh →
                  ∃ st, getQH (heap s') q = Some (set_qh_stalled st qh)
                        ∧ (qh_stalled qh = true → st = true);
  ip_events : dispatchEvents (trace s') = dispatchEvents (trace s);
  ip_callbacks : callbacks (trace s') = callbacks (trace s);
  ip_frame : scanFrame s' = scanFrame s;
}.
End IdleDefs.

(** *** The round of the isochronous endpoints *)

(** What the round does for the endpoints [l]: each has its done queue
    returned and its frames added to the schedule, after a report when
    descriptors are left on its reversed list. *)
Definition isochRound (eps : gmap ptr IsochEndpoint) (l : list ptr) : list Event :=
  l ≫= λ p,
    match eps !! p with
    | Some ep =>
        (if nonzero (onReversedList ep)
         then [LogStillOnReversedList p (onReversedList ep)] else [])
        ++ [EvReturnIsochDoneQueue p; EvAddIsochFramesToSchedule p]
    | None => []
    end.

(** *** Two passes in a row *)

(** What neither the scan nor the dispatch changes in a descriptor that
    is in use: its command, its queue head and, for the scan, the flag of
    the last descriptor of a transaction. *)
Definition tdFixed (td : TD) : option IOUSBCommand * option ptr * bool :=
  (td_command td, td_pQH td, td_lastTDofTransaction td).

(** The scan keeps the descriptors, with what is fixed in them, and the
    queue heads. *)
Record scanKeeps (s s' : UHCI) : Prop := {
  sk_td : ∀ x td, getTD (heap s) x = Some td →
                  ∃ td', getTD (heap s') x = Some td' ∧ tdFixed td' = tdFixed td;
  sk_qh : ∀ q, is_Some (getQH (heap s) q) → is_Some (getQH (heap s') q);
}.

(** The dispatch changes nothing in a queue head but its hardware
    link. *)
Definition qhLinks (s s' : UHCI) : Prop :=
  ∀ q qh, getQH (heap s) q = Some qh →
          ∃ hlink, getQH (heap s') q = Some (set_qh_hlink hlink qh).

(** What the isochronous pass leaves alone: the transfer descriptors, the
    queue heads, the pool of free descriptors, the last queue head and
    the interrupt queue heads. *)
Record asyncSame (s s' : UHCI) : Prop := {
  as_td : ∀ x, getTD (heap s') x = getTD (heap s) x;
  as_qh : ∀ x, getQH (heap s') x = getQH (heap s) x;
  as_fields : (_pFreeTD s', _pLastFreeTD s', _lastQH s', _intrQH s')
              = (_pFreeTD s, _pLastFreeTD s, _lastQH s, _intrQH s);
}.

(** What an interrupt starts from, the queues apart. *)
Definition interruptSide (s : UHCI) := (isochFields s, _intrQH s).

(** The news of the isochronous done queue are the descriptors [l], the
    latest first, as many as the producer count is ahead of the consumer
    count, with endpoints the controller has; with no news, there is no
    done queue or the consumer count is at the producer count. *)
Definition isochNews (fuel : nat) (s : UHCI) (l : list ptr) : Prop :=
  match l with
  | [] => _savedDoneQueueHead s = None ∨ _consumerCount s = _producerCount s
  | p :: _ =>
      _savedDoneQueueHead s = Some p
      ∧ 0 ≤ _producerCount s < 2 ^ 32
      ∧ Z.of_nat (length l) = wrap32 (_producerCount s - _consumerCount s)
      ∧ donePath (heap s) (Some p) l ∧ NoDup l ∧ endpointsKnown s l
      ∧ (length l ≤ fuel)%nat
  end.

(** ** The store of list elements *)

Section Heap.
Implicit Types (h : gmap ptr Elem) (p q : ptr).

Lemma getTD_insert h p q e :
  getTD (<[p := e]> h) q
  = if decide (p = q) then match e with ElemTD t => Some t | _ => None end
    else getTD h q.
Proof.
  unfold getTD. rewrite lookup_insert. by case_decide.
Qed.

Lemma getQH_insert h p q e :
  getQH (<[p := e]> h) q
  = if decide (p = q) then match e with ElemQH t => Some t | _ => None end
    else getQH h q.
Proof.
  unfold getQH. rewrite lookup_insert. by case_decide.
Qed.

Lemma getITD_insert h p q e :
  getITD (<[p := e]> h) q
  = if decide (p = q) then match e with ElemITD t => Some t | _ => None end
    else getITD h q.
Proof.
  unfold getITD. rewrite lookup_insert. by case_decide.
Qed.

Lemma getTD_insert_eq h p t : getTD (<[p := ElemTD t]> h) p = Some t.
Proof. rewrite getTD_insert. by case_decide. Qed.

Lemma getTD_insert_ne h p q e : p ≠ q → getTD (<[p := e]> h) q = getTD h q.
Proof. intros. rewrite getTD_insert. by case_decide. Qed.

Lemma getQH_insert_eq h p t : getQH (<[p := ElemQH t]> h) p = Some t.
Proof. rewrite getQH_insert. by case_decide. Qed.

Lemma getQH_insert_ne h p q e : p ≠ q → getQH (<[p := e]> h) q = getQH h q.
Proof. intros. rewrite getQH_insert. by case_decide. Qed.

Lemma getITD_insert_eq h p t : getITD (<[p := ElemITD t]> h) p = Some t.
Proof. rewrite getITD_insert. by case_decide. Qed.

Lemma getITD_insert_ne h p q e : p ≠ q → getITD (<[p := e]> h) q = getITD h q.
Proof. intros. rewrite getITD_insert. by case_decide. Qed.

(** Two classes never share an address. *)
Lemma getTD_getQH h p t : getTD h p = Some t → getQH h p = None.
Proof. unfold getTD, getQH. by destruct (h !! p) as [[]|]. Qed.

Lemma getQH_getTD h p t : getQH h p = Some t → getTD h p = None.
Proof. unfold getTD, getQH. by destruct (h !! p) as [[]|]. Qed.

Lemma getTD_getITD h p t : getTD h p = Some t → getITD h p = None.
Proof. unfold getTD, getITD. by destruct (h !! p) as [[]|]. Qed.

Lemma getTD_lookup h p t : getTD h p = Some t ↔ h !! p = Some (ElemTD t).
Proof.
  unfold getTD. destruct (h !! p) as [[]|]; split; congruence.
Qed.

Lemma getQH_lookup h p t : getQH h p = Some t ↔ h !! p = Some (ElemQH t).
Proof.
  unfold getQH. destruct (h !! p) as [[]|]; split; congruence.
Qed.

Lemma getITD_lookup h p t : getITD h p = Some t ↔ h !! p = Some (ElemITD t).
Proof.
  unfold getITD. destruct (h !! p) as [[]|]; split; congruence.
Qed.

(** A write to a transfer descriptor leaves the queue heads alone, and the
    other way round. *)
Lemma getQH_insert_TD h p q t t' :
  getTD h p = Some t → getQH (<[p := ElemTD t']> h) q = getQH h q.
Proof.
  intros Hp. rewrite getQH_insert. case_decide; [subst|done].
  by rewrite (getTD_getQH _ _ _ Hp).
Qed.

Lemma getTD_insert_QH h p q t t' :
  getQH h p = Some t → getTD (<[p := ElemQH t']> h) q = getTD h q.
Proof.
  intros Hp. rewrite getTD_insert. case_decide; [subst|done].
  by rewrite (getQH_getTD _ _ _ Hp).
Qed.

Lemma castTD_Some h o p : castTD h o = Some p ↔ o = Some p ∧ is_Some (getTD h p).
Proof.
  unfold castTD. destruct o as [q|]; simpl.
  - destruct (getTD h q) eqn:E; simpl; split.
    + intros [= ->]. eauto.
    + intros [[= ->] _]. done.
    + done.
    + intros [[= ->] [? ?]]. congruence.
  - split; [done | by intros [? _]].
Qed.

Lemma castTD_None h : castTD h None = None.
Proof. done. Qed.

Lemma castTD_is_TD h p t : getTD h p = Some t → castTD h (Some p) = Some p.
Proof. intros Hp. unfold castTD. simpl. by rewrite Hp. Qed.

Lemma castTD_not_TD h p : getTD h p = None → castTD h (Some p) = None.
Proof. intros Hp. unfold castTD. simpl. by rewrite Hp. Qed.

(** The cast depends on the class of the target only. *)
Lemma castTD_insert_TD h p t t' o :
  getTD h p = Some t → castTD (<[p := ElemTD t']> h) o = castTD h o.
Proof.
  intros Hp. destruct o as [q|]; [|done]. unfold castTD. simpl.
  rewrite getTD_insert. case_decide; [subst; by rewrite Hp|done].
Qed.

Lemma castTD_insert_QH h p t t' o :
  getQH h p = Some t → castTD (<[p := ElemQH t']> h) o = castTD h o.
Proof.
  intros Hp. destruct o as [q|]; [|done]. unfold castTD. simpl.
  by rewrite (getTD_insert_QH _ _ _ _ _ Hp).
Qed.

End Heap.

(** ** Linked lists in the store *)

Section Linked.
Context {A : Type} (get : gmap ptr Elem → ptr → option A) (next : A → option ptr).
Implicit Types (h : gmap ptr Elem) (p q : ptr).
Local Abbreviation linked := (linked get next).

Lemma linked_head h o l : linked h o l → o = head l.
Proof. destruct l; simpl; [done|by intros [-> _]]. Qed.

(** A list is kept by every change of the store that keeps the links of
    its elements. *)
Lemma linked_agree h h' o l :
  (∀ p t, p ∈ l → get h p = Some t → ∃ t', get h' p = Some t' ∧ next t' = next t) →
  linked h o l → linked h' o l.
Proof.
  revert o. induction l as [|p l IH]; intros o Hg; [done|].
  intros [-> (t & Ht & Hl)]. split; [done|].
  destruct (Hg p t) as (t' & Ht' & En); [by left|done|].
  exists t'. split; [done|]. rewrite En.
  apply IH; [|done]. intros. apply Hg; [by right|done].
Qed.

Lemma linked_functional h o l l' : linked h o l → linked h o l' → l = l'.
Proof.
  revert o l'. induction l as [|p l IH]; intros o [|p' l']; simpl.
  - done.
  - intros -> [? _]. done.
  - intros [-> _] ?. done.
  - intros [-> (t & Ht & Hl)] [[= <-] (t' & Ht' & Hl')].
    rewrite Ht in Ht'. injection Ht' as <-. f_equal. eauto.
Qed.

Lemma linked_app h o l1 l2 : linked h o (l1 ++ l2) → ∃ o', linked h o' l2.
Proof.
  revert o. induction l1 as [|p l1 IH]; intros o; simpl; [eauto|].
  intros [-> (t & Ht & Hl)]. eauto.
Qed.

(** A list visits no element twice. *)
Lemma linked_NoDup h o l : linked h o l → NoDup l.
Proof.
  revert o. induction l as [|p l IH]; intros o; [constructor|].
  intros Hc. pose proof Hc as [-> (t & Ht & Hl)].
  constructor; [|eauto].
  intros Hin. apply list_elem_of_split in Hin as (l1 & l2 & ->).
  destruct (linked_app _ _ _ _ Hl) as (o' & Ho').
  pose proof (linked_head _ _ _ Ho') as ->.
  pose proof (linked_functional _ _ _ _ Hc Ho') as E.
  apply (f_equal length) in E. simpl in E. rewrite length_app in E.
  simpl in E. lia.
Qed.

Lemma linked_lookup h o l p : linked h o l → p ∈ l → is_Some (get h p).
Proof.
  revert o. induction l as [|q l IH]; intros o; [by intros _ ?%elem_of_nil|].
  intros [-> (t & Ht & Hl)] [->|Hin]%elem_of_cons; eauto.
Qed.
End Linked.

Section Lists.
Implicit Types (h : gmap ptr Elem) (p q : ptr).

(** On a list the casts of the scans are the identity. *)
Lemma tdList_cast h o l : tdList h o l → castTD h o = o.
Proof.
  destruct l; simpl; [by intros ->|].
  intros [-> (t & Ht & _)]. by eapply castTD_is_TD.
Qed.

Lemma qhList_cast h o l : qhList h o l → castQH h o = o.
Proof.
  destruct l; simpl; [by intros ->|].
  intros [-> (t & Ht & _)]. unfold castQH. simpl. by rewrite Ht.
Qed.

Lemma tdList_insert_away h o l p e :
  p ∉ l → tdList h o l → tdList (<[p := e]> h) o l.
Proof.
  intros Hp. apply linked_agree. intros q t Hq Ht. exists t.
  split; [|done]. rewrite getTD_insert_ne; [done|]. by intros ->.
Qed.

Lemma qhList_insert_away h o l p e :
  p ∉ l → qhList h o l → qhList (<[p := e]> h) o l.
Proof.
  intros Hp. apply linked_agree. intros q t Hq Ht. exists t.
  split; [|done]. rewrite getQH_insert_ne; [done|]. by intros ->.
Qed.

Lemma tdList_insert_QH h o l p t t' :
  getQH h p = Some t → tdList h o l → tdList (<[p := ElemQH t']> h) o l.
Proof.
  intros Hp. apply linked_agree. intros q tq Hq Htq. exists tq.
  split; [|done]. by rewrite (getTD_insert_QH _ _ _ _ _ Hp).
Qed.
End Lists.

(** * Properties *)

(** ** The frame number *)

Section FrameNumber.
Context `{Header}.

(** In a sequential run the compare-and-swap of [GetFrameNumber] succeeds
    at once: one turn of the loop is enough. *)
Lemma frameNumberCAS_one fuel thisFrame i s :
  ∃ r, frameNumberCAS (S fuel) thisFrame i s = Some r.
Proof.
  unfold frameNumberCAS, OSCompareAndSwap. rewrite Z.eqb_refl. eauto.
Qed.

(** C10: when the status register has the host-controller-halted bit set,
    [GetFrameNumber] returns 0 at once and leaves the controller, and with
    it the stored 64-bit frame number, as it was. *)
Theorem GetFrameNumber_halted fuel sts thisFrame s :
  Z.land sts kUHCI_STS_HCH ≠ 0 →
  GetFrameNumber fuel sts thisFrame s = Some (0, s).
Proof.
  intros Hh. unfold GetFrameNumber, nonzero.
  apply Z.eqb_neq in Hh. by rewrite Hh.
Qed.

(** The other direction: the stored counters change only in a call that
    found the controller running. *)
Lemma GetFrameNumber_update_only_running fuel sts thisFrame s r s' :
  GetFrameNumber fuel sts thisFrame s = Some (r, s') →
  (_lastFrameNumberLow s', _lastFrameNumberHigh s')
    ≠ (_lastFrameNumberLow s, _lastFrameNumberHigh s) →
  Z.land sts kUHCI_STS_HCH = 0.
Proof.
  unfold GetFrameNumber, nonzero.
  destruct (Z.land sts kUHCI_STS_HCH =? 0) eqn:E.
  - intros _ _. by apply Z.eqb_eq.
  - intros [= _ <-] Hne. by destruct Hne.
Qed.

(** When the controller runs, the frame number is recomputed and stored. *)
Lemma GetFrameNumber_running fuel sts thisFrame s :
  Z.land sts kUHCI_STS_HCH = 0 →
  ∃ newFrame s',
    GetFrameNumber (S fuel) sts thisFrame s
      = Some (Z.lor newFrame (Z.shiftl (_lastFrameNumberHigh s') 32), s')
    ∧ _lastFrameNumberLow s' = newFrame.
Proof.
  intros Hr. unfold GetFrameNumber, nonzero. rewrite Hr.
  change (negb (0 =? 0)) with false. cbv iota.
  destruct (not32 kUHCI_FRNUM_MASK <=? _lastFrameNumberLow s).
  - destruct (_ <=? thisFrame O); eexists _, _; split; reflexivity.
  - unfold frameNumberCAS, OSCompareAndSwap. rewrite Z.eqb_refl.
    eexists _, _; split; reflexivity.
Qed.
End FrameNumber.

Lemma GetFrameNumber_halted_witness :
  Z.land 0x20 (@kUHCI_STS_HCH sampleHeader) ≠ 0
  ∧ GetFrameNumber 1 0x20 (λ _, 5) initialUHCI = Some (0, initialUHCI).
Proof.
  split; [ | apply (GetFrameNumber_halted 1 0x20 (λ _, 5) initialUHCI) ];
    vm_compute; discriminate.
Defined.

(** ** The descriptor pool *)

Section Pool.
Context `{Header}.

Lemma popFreeTD_zeroed pQH freeTD s p s' :
  popFreeTD pQH freeTD s = Some (Some p, s') →
  ∃ t, getTD (heap s') p = Some t ∧ zeroedTD t.
Proof.
  unfold popFreeTD. destruct freeTD as [q|]; [|done].
  destruct (getTD (heap s) q) as [t|]; [|done]. simpl.
  intros [= <- <-]. eexists. split.
  - destruct (castTD _ _); cbn; apply getTD_insert_eq.
  - done.
Qed.

Lemma blockPtrs_length {A} (b : MemoryBlock A) :
  Forall is_Some b → length (blockPtrs b) = length b.
Proof.
  induction 1 as [|x b [y ->] _ IH]; [done|].
  change (blockPtrs (Some y :: b)) with (y.1 :: blockPtrs b).
  simpl. by rewrite IH.
Qed.

(** Taking the head off a well-formed free list. *)
Lemma popFreeTD_list pQH s p l :
  tdList (heap s) (Some p) (p :: l) →
  ∃ s', popFreeTD pQH (Some p) s = Some (Some p, s')
        ∧ _pFreeTD s' = head l
        ∧ tdList (heap s') (head l) l
        ∧ tdBlockSupply s' = tdBlockSupply s.
Proof.
  intros Hl. pose proof (linked_NoDup _ _ _ _ _ Hl) as Hnd.
  destruct Hl as [_ (t & Ht & Hl)].
  unfold popFreeTD. rewrite Ht. simpl.
  rewrite (tdList_cast _ _ _ Hl), (linked_head _ _ _ _ _ Hl).
  eexists. split; [reflexivity|].
  apply NoDup_cons in Hnd as [Hp _].
  rewrite (linked_head _ _ _ _ _ Hl) in Hl.
  destruct (head l); cbn; (split; [done|]); (split; [|done]);
    by apply tdList_insert_away.
Qed.

(** Threading a block whose descriptors were all created. *)
Lemma threadTDs_whole slots freeTD s :
  Forall is_Some slots →
  ∃ s', threadTDs slots freeTD s
        = (if slots is [] then freeTD else _pFreeTD s', s')
        ∧ (slots ≠ [] → ∃ p, _pFreeTD s' = Some p ∧ is_Some (getTD (heap s') p))
        ∧ tdBlockSupply s' = tdBlockSupply s
        ∧ _tdMBHead s' = _tdMBHead s.
Proof.
  revert freeTD s. induction slots as [|slot slots IH]; intros freeTD s Hall.
  - exists s. done.
  - apply Forall_cons in Hall as [[[p t] ->] Hall]. simpl.
    edestruct (IH (Some p)) as (s' & E & Hp & Hs & Hm); [done|].
    exists s'. rewrite E. split; [|split; [|split]].
    + destruct slots; [|done]. simpl in E. by injection E as <-.
    + intros _. destruct slots as [|slot slots].
      * simpl in E. injection E as <-. exists p. cbn.
        split; [done|]. rewrite getTD_insert_eq. eauto.
      * apply Hp. done.
    + rewrite Hs. done.
    + rewrite Hm. done.
Qed.

Lemma threadTDs_list slots freeTD s l :
  Forall is_Some slots →
  NoDup (blockPtrs slots ++ l) →
  tdList (heap s) (_pFreeTD s) l →
  ∃ s', threadTDs slots freeTD s
        = (if slots is [] then freeTD else _pFreeTD s', s')
        ∧ tdList (heap s') (_pFreeTD s') (rev (blockPtrs slots) ++ l)
        ∧ tdBlockSupply s' = tdBlockSupply s.
Proof.
  revert freeTD s l. induction slots as [|slot slots IH]; intros freeTD s l Hall Hnd Hl.
  - exists s. done.
  - apply Forall_cons in Hall as [[[p t] ->] Hall]. simpl.
    change (blockPtrs (Some (p, t) :: slots)) with (p :: blockPtrs slots) in *.
    simpl in Hnd. apply NoDup_cons in Hnd as [Hp Hnd].
    edestruct (IH (Some p)
                 (set_pFreeTD (Some p)
                    (set_heap (<[p := ElemTD (set_td_logicalNext (_pFreeTD s) t)]> (heap s)) s))
                 (p :: l)) as (s' & E & Hl' & Hs); [done| |..].
    + apply NoDup_app. apply NoDup_app in Hnd as (Hn1 & Hn2 & Hn3).
      split; [done|]. split.
      * intros x Hx [->|Hxl]%elem_of_cons.
        -- apply Hp. apply elem_of_app. by left.
        -- by apply (Hn2 x).
      * apply NoDup_cons. split; [|done].
        intros Hpl. apply Hp. apply elem_of_app. by right.
    + cbn. split; [done|]. eexists. rewrite getTD_insert_eq. split; [done|].
      cbn. apply tdList_insert_away; [|done].
      intros Hpl. apply Hp. apply elem_of_app. by right.
    + exists s'. rewrite E. split; [|split].
      * destruct slots; [|done]. simpl in E. by injection E as <-.
      * simpl. by rewrite <- app_assoc.
      * rewrite Hs. done.
Qed.

(** An allocation from a free list that is not empty. *)
Lemma AllocateTD_list pQH s p l :
  tdList (heap s) (_pFreeTD s) (p :: l) →
  ∃ s', AllocateTD pQH s = Some (Some p, s')
        ∧ tdList (heap s') (_pFreeTD s') l
        ∧ tdBlockSupply s' = tdBlockSupply s.
Proof.
  intros Hl. pose proof (linked_head _ _ _ _ _ Hl) as E. simpl in E.
  rewrite E in Hl. unfold AllocateTD. rewrite E.
  destruct (popFreeTD_list pQH s p l Hl) as (s' & -> & E' & Hl' & Hs).
  exists s'. by rewrite E'.
Qed.

(** An allocation that has to take a new block. *)
Lemma AllocateTD_grow pQH s b supply :
  _pFreeTD s = None → tdBlockSupply s = b :: supply →
  Forall is_Some b → (2 ≤ length b)%nat →
  ∃ p s', AllocateTD pQH s = Some (Some p, s')
          ∧ tdBlockSupply s' = supply
          ∧ _tdMBHead s' = b :: _tdMBHead s.
Proof.
  intros Hf Hs Hall Hlen. unfold AllocateTD. rewrite Hf, Hs.
  destruct b as [|slot0 [|slot1 b]]; [simpl in Hlen; lia..|].
  apply Forall_cons in Hall as [[[p0 t0] ->] Hall].
  cbn [firstSlot tail].
  match goal with |- context [threadTDs ?sl ?f ?st] =>
    destruct (threadTDs_whole sl f st Hall) as (s4 & -> & Hp & Hs4 & Hm4) end.
  destruct Hp as (p & Hp & [t Ht]); [done|].
  rewrite Hp. unfold popFreeTD. rewrite Ht. simpl.
  eexists _, _. split; [reflexivity|].
  destruct (castTD _ _); cbn; rewrite ?Hs4, ?Hm4; done.
Qed.

Lemma AllocateTD_grow_list pQH s p0 t0 b supply :
  _pFreeTD s = None → tdBlockSupply s = (Some (p0, t0) :: b) :: supply →
  Forall is_Some b → b ≠ [] →
  NoDup (p0 :: blockPtrs b) → td_logicalNext t0 = None →
  ∃ p l s', rev (p0 :: blockPtrs b) = p :: l
            ∧ AllocateTD pQH s = Some (Some p, s')
            ∧ tdList (heap s') (_pFreeTD s') l
            ∧ tdBlockSupply s' = supply.
Proof.
  intros Hf Hs Hall Hne Hnd Hn0. unfold AllocateTD. rewrite Hf, Hs.
  cbn [firstSlot tail].
  match goal with |- context [threadTDs ?sl ?f ?st] =>
    destruct (threadTDs_list sl f st [p0] Hall) as (s4 & -> & Hl & Hs4) end.
  - apply NoDup_app. apply NoDup_cons in Hnd as [Hp0 Hnd].
    split; [done|]. split; [|apply NoDup_singleton].
    intros x Hx ->%list_elem_of_singleton. done.
  - cbn. split; [done|]. eexists. rewrite getTD_insert_eq. by split.
  - destruct b as [|slot b]; [done|].
    cbn [rev]. destruct (rev (blockPtrs (slot :: b)) ++ [p0]) as [|p l] eqn:El.
    { by destruct (rev (blockPtrs (slot :: b))). }
    pose proof (linked_head _ _ _ _ _ Hl) as E. simpl in E.
    rewrite E in Hl |- *.
    destruct (popFreeTD_list pQH s4 p l Hl) as (s' & -> & E' & Hl' & Hs').
    exists p, l, s'. rewrite E', Hs', Hs4. done.
Qed.

(** Allocations in a row take the free list from its head. *)
Lemma allocateTDs_list pQH l1 l2 s :
  tdList (heap s) (_pFreeTD s) (l1 ++ l2) →
  ∃ s', allocateTDs (length l1) pQH s = Some (l1, s')
        ∧ tdList (heap s') (_pFreeTD s') l2
        ∧ tdBlockSupply s' = tdBlockSupply s.
Proof.
  revert s. induction l1 as [|p l1 IH]; intros s Hl; [by exists s|].
  destruct (AllocateTD_list pQH s p (l1 ++ l2) Hl) as (s1 & E1 & Hl1 & Hs1).
  destruct (IH s1 Hl1) as (s2 & E2 & Hl2 & Hs2).
  exists s2. cbn [length allocateTDs]. rewrite E1. simpl. rewrite E2. simpl.
  rewrite Hs2, Hs1. done.
Qed.

Lemma allocateTDs_S pQH n s :
  allocateTDs (S n) pQH s
  = '(r, s) ← AllocateTD pQH s; p ← r; '(l, s) ← allocateTDs n pQH s; Some (p :: l, s).
Proof. done. Qed.

Lemma allocateTDs_snoc pQH n s l s1 p s2 :
  allocateTDs n pQH s = Some (l, s1) →
  AllocateTD pQH s1 = Some (Some p, s2) →
  allocateTDs (S n) pQH s = Some (l ++ [p], s2).
Proof.
  revert s l. induction n as [|n IH]; intros s l.
  - intros [= <- <-] E. simpl. rewrite E. done.
  - rewrite (allocateTDs_S pQH (S n)), (allocateTDs_S pQH n).
    destruct (AllocateTD pQH s) as [[[q|] s']|]; [|done..].
    cbn -[allocateTDs AllocateTD].
    destruct (allocateTDs n pQH s') as [[l' s'']|] eqn:E'; [|done].
    cbn -[allocateTDs AllocateTD].
    intros [= <- <-] E. rewrite (IH _ _ E' E). done.
Qed.

(** C8: [AllocateTD] takes a new block when the free list is empty and
    still succeeds (the block has its descriptors, at least two of them);
    it returns NULL when no block can be had; the descriptor it returns
    has its control/status, link, token and buffer words zeroed; and after
    a block has been used up, without any deallocation, the next
    allocation takes the next block and succeeds. *)
Theorem AllocateTD_postcondition pQH s :
  (∀ b supply,
     _pFreeTD s = None → tdBlockSupply s = b :: supply →
     Forall is_Some b → (2 ≤ length b)%nat →
     ∃ p s', AllocateTD pQH s = Some (Some p, s')
             ∧ tdBlockSupply s' = supply ∧ _tdMBHead s' = b :: _tdMBHead s)
  ∧ (_pFreeTD s = None → tdBlockSupply s = [] →
     ∃ s', AllocateTD pQH s = Some (None, s') ∧ heap s' = heap s)
  ∧ (∀ p s', AllocateTD pQH s = Some (Some p, s') →
     ∃ t, getTD (heap s') p = Some t ∧ zeroedTD t)
  ∧ (∀ p0 t0 b1 b2 supply,
     _pFreeTD s = None →
     tdBlockSupply s = (Some (p0, t0) :: b1) :: b2 :: supply →
     Forall is_Some b1 → b1 ≠ [] → NoDup (p0 :: blockPtrs b1) →
     td_logicalNext t0 = None →
     Forall is_Some b2 → (2 ≤ length b2)%nat →
     ∃ l p s', allocateTDs (S (S (length b1))) pQH s = Some (l ++ [p], s')
               ∧ l = rev (p0 :: blockPtrs b1)
               ∧ tdBlockSupply s' = supply).
Proof.
  split; [|split; [|split]].
  - intros b supply. apply AllocateTD_grow.
  - intros Hf Hs. unfold AllocateTD. rewrite Hf, Hs. eauto.
  - intros p s'. unfold AllocateTD.
    destruct (_pFreeTD s) as [q|]; [apply popFreeTD_zeroed|].
    destruct (tdBlockSupply s) as [|b supply]; [done|].
    destruct (firstSlot _ _ _) as [first s2].
    destruct (threadTDs _ _ _) as [freeTD s4]. apply popFreeTD_zeroed.
  - intros p0 t0 b1 b2 supply Hf Hs Hall1 Hne Hnd Hn0 Hall2 Hlen2.
    destruct (AllocateTD_grow_list pQH s p0 t0 b1 (b2 :: supply))
      as (p & l & s1 & El & E1 & Hl1 & Hs1); [done..|].
    destruct (allocateTDs_list pQH l [] s1) as (s2 & E2 & Hl2 & Hs2).
    { by rewrite app_nil_r. }
    simpl in Hl2.
    destruct (AllocateTD_grow pQH s2 b2 supply) as (q & s3 & E3 & Hs3 & _);
      [done|by rewrite Hs2|done..|].
    assert (Hlen : length b1 = length l).
    { apply (f_equal length) in El. rewrite length_rev in El.
      cbn [length] in El. rewrite (blockPtrs_length _ Hall1) in El. lia. }
    exists (p :: l), q, s3. split; [|by rewrite Hs3, <- El].
    rewrite Hlen.
    apply (allocateTDs_snoc pQH (S (length l)) s (p :: l) s2 q s3); [|done].
    cbn [allocateTDs]. rewrite E1. simpl. rewrite E2. done.
Qed.
End Pool.

(** Four allocations from two blocks of three descriptors. *)
Lemma AllocateTD_postcondition_witness :
  ∃ l p s',
    allocateTDs (S (S (length (tail (tdBlock 100%nat 0x4000 3))))) (Some 7%nat) poolUHCI
      = Some (l ++ [p], s')
    ∧ l = rev (100%nat :: blockPtrs (tail (tdBlock 100%nat 0x4000 3)))
    ∧ tdBlockSupply s' = [].
Proof.
  refine (proj2 (proj2 (proj2 (AllocateTD_postcondition (Some 7%nat) poolUHCI)))
            100%nat (freshTD 0x4000) (tail (tdBlock 100%nat 0x4000 3))
            (tdBlock 200%nat 0x5000 3) [] _ _ _ _ _ _ _ _).
  - reflexivity.
  - reflexivity.
  - repeat constructor; eauto.
  - discriminate.
  - by apply (bool_decide_unpack _).
  - reflexivity.
  - repeat constructor; eauto.
  - vm_compute. lia.
Defined.

Example AllocateTD_no_memory :
  AllocateTD None initialUHCI = Some (None, add_trace [ErrNoMemoryBlock] initialUHCI).
Proof. reflexivity. Qed.

Example AllocateTD_zeroes :
  (λ r, match r with
        | Some (Some p, s') => Some (p, getTD (heap s') p)
        | _ => None
        end) (AllocateTD (Some 7%nat) poolUHCI)
  = Some (102%nat,
          Some (mkTD 0 0 0 0 0x4040 None false None None (Some 7%nat) 0 0 0 None)).
Proof. vm_compute. reflexivity. Qed.

(** ** The reset of the controller *)

Section ResetFacts.
Context `{Header} `{ResetHeader}.

(** The wait loop of [Reset]. *)
Lemma waitForReset_spec cmdReads n : ∀ i,
  waitForReset n i cmdReads = true
  ↔ ∃ j, (i ≤ j < i + n)%nat ∧ Z.land (cmdReads j) kUHCI_CMD_HCRESET = 0.
Proof.
  induction n as [|n IH]; intros i; cbn [waitForReset].
  - split; [done|]. intros (j & Hj & _). lia.
  - unfold nonzero. destruct (Z.eqb_spec (Z.land (cmdReads i) kUHCI_CMD_HCRESET) 0) as [E|E];
      cbn [negb].
    + split; [|done]. intros _. exists i. split; [lia|done].
    + rewrite IH. split.
      * intros (j & Hj & Ej). exists j. split; [lia|done].
      * intros (j & Hj & Ej). exists j. split; [|done].
        destruct (decide (j = i)) as [->|]; [done|lia].
Qed.

(** What a reset that succeeds on a driver with a frame list writes. *)
Lemma Reset_writes enableInterrupts cmdReads s :
  (Reset enableInterrupts cmdReads s).1 = kIOReturnSuccess →
  kIOReturnTimeout ≠ kIOReturnSuccess ∨ waitForReset kUHCI_RESET_DELAY 0 cmdReads = true →
  _framesPaddr s ≠ 0 →
  (Reset enableInterrupts cmdReads s).2
  = add_trace
      ([EvCommand kUHCI_CMD_HCRESET;
        EvIoWrite32 kUHCI_FRBASEADDR (_framesPaddr s);
        EvIoWrite16 kUHCI_FRNUM
          (wrap16 (Z.land (_lastFrameNumberLow s) kUHCI_FRNUM_MASK));
        EvCommand (Z.lor kUHCI_CMD_MAXP kUHCI_CMD_CF)]
       ++ if enableInterrupts
          then [EvIoWrite16 kUHCI_INTR
                  (Z.lor (Z.lor (Z.lor kUHCI_INTR_TIE kUHCI_INTR_RIE)
                            kUHCI_INTR_IOCE) kUHCI_INTR_SPIE)]
          else []) s.
Proof.
  unfold Reset.
  destruct (waitForReset kUHCI_RESET_DELAY 0 cmdReads); cbn [negb fst snd].
  - intros _ _ Hp. change (_framesPaddr (add_trace _ s)) with (_framesPaddr s).
    unfold nonzero. apply Z.eqb_neq in Hp. rewrite Hp. cbn [negb].
    unfold add_trace. destruct enableInterrupts; destruct s; cbn;
      by rewrite <- ?app_assoc.
  - intros E [Hne|Hw]; [by symmetry in E|done].
Qed.

(** A reset the controller comes out of, and one it does not come out
    of. *)
Lemma Reset_comes_out enableInterrupts cmdReads s :
  waitForReset kUHCI_RESET_DELAY 0 cmdReads = true →
  Reset enableInterrupts cmdReads s
  = (kIOReturnSuccess, add_trace (resetWrites enableInterrupts s) s).
Proof.
  intros Hw. unfold Reset, resetWrites. rewrite Hw. cbn [negb].
  change (_framesPaddr (add_trace _ s)) with (_framesPaddr s).
  change (_lastFrameNumberLow (add_trace _ s)) with (_lastFrameNumberLow s).
  f_equal. unfold add_trace.
  destruct (nonzero (_framesPaddr s)), enableInterrupts; destruct s; cbn;
    by rewrite <- ?app_assoc.
Qed.

Lemma Reset_stays_in enableInterrupts cmdReads s :
  waitForReset kUHCI_RESET_DELAY 0 cmdReads = false →
  Reset enableInterrupts cmdReads s
  = (kIOReturnTimeout, add_trace [EvCommand kUHCI_CMD_HCRESET] s).
Proof. intros Hw. unfold Reset. by rewrite Hw. Qed.
End ResetFacts.

(** ** The schedule *)

Section Schedule.
Context `{Header} `{ResetHeader}.

Lemma updQH_Some p f s q :
  getQH (heap s) p = Some q →
  updQH p f s = Some (set_heap (<[p := ElemQH (f q)]> (heap s)) s).
Proof. intros Hq. unfold updQH. by rewrite Hq. Qed.

Lemma updTD_Some p f s t :
  getTD (heap s) p = Some t →
  updTD p f s = Some (set_heap (<[p := ElemTD (f t)]> (heap s)) s).
Proof. intros Ht. unfold updTD. by rewrite Ht. Qed.

(** *** The pool of queue heads *)

Lemma popFreeQH_list fn en dir sp mps ty s p l :
  qhList (heap s) (Some p) (p :: l) →
  ∃ q s', popFreeQH fn en dir sp mps ty (Some p) s = Some (Some p, s')
          ∧ getQH (heap s') p = Some q
          ∧ qh_type q = ty ∧ qh_logicalNext q = None
          ∧ _pFreeQH s' = head l
          ∧ qhList (heap s') (head l) l
          ∧ (∀ x, x ≠ p → heap s' !! x = heap s !! x)
          ∧ scheduleFields s' = scheduleFields s
          ∧ qhBlockSupply s' = qhBlockSupply s.
Proof.
  intros Hl. pose proof (linked_NoDup _ _ _ _ _ Hl) as Hnd.
  destruct Hl as [_ (q & Hq & Hl)].
  unfold popFreeQH. rewrite Hq. simpl.
  rewrite (qhList_cast _ _ _ Hl), (linked_head _ _ _ _ _ Hl).
  eexists _, _. split; [reflexivity|].
  apply NoDup_cons in Hnd as [Hp _].
  rewrite (linked_head _ _ _ _ _ Hl) in Hl.
  destruct (head l); cbn; rewrite getQH_insert_eq;
    (split; [done|]); (split; [done|]); (split; [done|]); (split; [done|]);
    (split; [by apply qhList_insert_away|]);
    (split; [|done]); intros x Hx; by rewrite lookup_insert_ne.
Qed.

Lemma threadQHs_list slots freeQH s l :
  Forall is_Some slots →
  NoDup (blockPtrs slots ++ l) →
  qhList (heap s) (_pFreeQH s) l →
  ∃ s', threadQHs slots freeQH s
        = (if slots is [] then freeQH else _pFreeQH s', s')
        ∧ qhList (heap s') (_pFreeQH s') (rev (blockPtrs slots) ++ l)
        ∧ (∀ x, x ∉ blockPtrs slots → heap s' !! x = heap s !! x)
        ∧ scheduleFields s' = scheduleFields s
        ∧ qhBlockSupply s' = qhBlockSupply s.
Proof.
  revert freeQH s l. induction slots as [|slot slots IH]; intros freeQH s l Hall Hnd Hl.
  - exists s. done.
  - apply Forall_cons in Hall as [[[p t] ->] Hall]. simpl.
    change (blockPtrs (Some (p, t) :: slots)) with (p :: blockPtrs slots) in *.
    simpl in Hnd. apply NoDup_cons in Hnd as [Hp Hnd].
    edestruct (IH (Some p)
                 (set_pFreeQH (Some p)
                    (set_heap (<[p := ElemQH (set_qh_logicalNext (_pFreeQH s) t)]> (heap s)) s))
                 (p :: l)) as (s' & E & Hl' & Hh & Hf & Hsu); [done| |..].
    + apply NoDup_app. apply NoDup_app in Hnd as (Hn1 & Hn2 & Hn3).
      split; [done|]. split.
      * intros x Hx [->|Hxl]%elem_of_cons.
        -- apply Hp. apply elem_of_app. by left.
        -- by apply (Hn2 x).
      * apply NoDup_cons. split; [|done].
        intros Hpl. apply Hp. apply elem_of_app. by right.
    + cbn. split; [done|]. eexists. rewrite getQH_insert_eq. split; [done|].
      cbn. apply qhList_insert_away; [|done].
      intros Hpl. apply Hp. apply elem_of_app. by right.
    + exists s'. rewrite E. split; [|split; [|split; [|split]]].
      * destruct slots; [|done]. simpl in E. by injection E as <-.
      * simpl. by rewrite <- app_assoc.
      * intros x Hx. apply not_elem_of_cons in Hx as [Hx1 Hx2].
        rewrite Hh by done. cbn. by rewrite lookup_insert_ne.
      * rewrite Hf. done.
      * rewrite Hsu. done.
Qed.

(** An allocation when the free list holds [p :: l], or will hold it once
    the next block is threaded. *)
Lemma AllocateQH_ready fn en dir sp mps ty s p l :
  qhReady s (p :: l) →
  ∃ q s', AllocateQH fn en dir sp mps ty s = Some (Some p, s')
          ∧ getQH (heap s') p = Some q
          ∧ qh_type q = ty ∧ qh_logicalNext q = None
          ∧ qhList (heap s') (_pFreeQH s') l
          ∧ (∀ x, x ∉ p :: l → heap s' !! x = heap s !! x)
          ∧ scheduleFields s' = scheduleFields s
          ∧ qhBlockSupply s'
            = (if _pFreeQH s is None then tail (qhBlockSupply s) else qhBlockSupply s).
Proof.
  intros [Hl|(Hf & p0 & q0 & b & supply & Hs & Hall & Hne & Hnd & Hn0 & El)].
  - pose proof (linked_head _ _ _ _ _ Hl) as E. simpl in E. rewrite E in Hl.
    unfold AllocateQH. rewrite E.
    destruct (popFreeQH_list fn en dir sp mps ty s p l Hl)
      as (q & s' & -> & Hq & Hty & Hn & E' & Hl' & Hh & Hsf & Hsu).
    exists q, s'. rewrite E'. repeat split; try done.
    intros x Hx. apply Hh. intros ->. apply Hx. by left.
  - unfold AllocateQH. rewrite Hf, Hs. cbn [firstSlot tail].
    match goal with |- context [threadQHs ?sl ?f ?st] =>
      destruct (threadQHs_list sl f st [p0] Hall) as (s4 & -> & Hl & Hh4 & Hf4 & Hsu4) end.
    + apply NoDup_app. apply NoDup_cons in Hnd as [Hp0 Hnd].
      split; [done|]. split; [|apply NoDup_singleton].
      intros x Hx ->%list_elem_of_singleton. done.
    + cbn. split; [done|]. eexists. rewrite getQH_insert_eq. by split.
    + destruct b as [|slot b]; [done|].
      cbn [rev] in El. rewrite <- El in Hl.
      pose proof (linked_head _ _ _ _ _ Hl) as E. simpl in E.
      rewrite E in Hl |- *.
      destruct (popFreeQH_list fn en dir sp mps ty s4 p l Hl)
        as (q & s' & -> & Hq & Hty & Hn & E' & Hl' & Hh & Hsf & Hsu).
      exists q, s'. rewrite E', Hsf, Hf4, Hsu, Hsu4.
      repeat split; try done.
      intros x Hx. rewrite Hh by (intros ->; apply Hx; by left).
      rewrite Hh4.
      * cbn. rewrite lookup_insert_ne; [done|]. intros <-. apply Hx.
        rewrite El. apply elem_of_app. right. by apply list_elem_of_singleton.
      * intros Hxb. apply Hx. rewrite El. apply elem_of_app. left.
        apply list_elem_of_In. apply -> in_rev. by apply list_elem_of_In.
Qed.

(** In list mode only the head of the free list is touched. *)
Lemma AllocateQH_list fn en dir sp mps ty s p l :
  qhList (heap s) (_pFreeQH s) (p :: l) →
  ∃ q s', AllocateQH fn en dir sp mps ty s = Some (Some p, s')
          ∧ getQH (heap s') p = Some q
          ∧ qh_type q = ty ∧ qh_logicalNext q = None
          ∧ (∃ q0, getQH (heap s) p = Some q0 ∧ qh_phys q = qh_phys q0)
          ∧ qhList (heap s') (_pFreeQH s') l
          ∧ (∀ x, x ≠ p → heap s' !! x = heap s !! x)
          ∧ scheduleFields s' = scheduleFields s
          ∧ qhBlockSupply s' = qhBlockSupply s.
Proof.
  intros Hl. pose proof (linked_head _ _ _ _ _ Hl) as E. simpl in E. rewrite E in Hl.
  unfold AllocateQH. rewrite E.
  pose proof (linked_NoDup _ _ _ _ _ Hl) as Hnd.
  destruct Hl as [_ (q & Hq & Hl)].
  unfold popFreeQH. rewrite Hq. simpl.
  rewrite (qhList_cast _ _ _ Hl), (linked_head _ _ _ _ _ Hl).
  eexists _, _. split; [reflexivity|].
  apply NoDup_cons in Hnd as [Hp _].
  rewrite (linked_head _ _ _ _ _ Hl) in Hl.
  destruct (head l); cbn; rewrite getQH_insert_eq;
    (split; [done|]); (split; [done|]); (split; [done|]);
    (split; [by exists q|]);
    (split; [by apply qhList_insert_away|]);
    (split; [|done]); intros x Hx; by rewrite lookup_insert_ne.
Qed.

Lemma AllocateQH_none fn en dir sp mps ty s :
  _pFreeQH s = None → qhBlockSupply s = [] →
  AllocateQH fn en dir sp mps ty s = Some (None, s).
Proof. intros Hf Hs. unfold AllocateQH. by rewrite Hf, Hs. Qed.

(** *** The frame list *)

Lemma mod_pred_next (j k p : nat) :
  (0 < p)%nat → (j mod p = p - 1)%nat → (k mod p = p - 1)%nat → (j < k)%nat →
  (j + p ≤ k)%nat.
Proof.
  intros Hp Hj Hk Hlt.
  pose proof (Nat.div_mod_eq j p). pose proof (Nat.div_mod_eq k p).
  assert (j `div` p < k `div` p)%nat by nia. nia.
Qed.

Lemma mod_pred_add (j p : nat) : ((j + p) mod p = j mod p)%nat.
Proof.
  replace (j + p)%nat with (j + 1 * p)%nat by lia. apply Nat.Div0.mod_add.
Qed.

Lemma mod_pred_ge (k p : nat) : (0 < p)%nat → (k mod p = p - 1)%nat → (p - 1 ≤ k)%nat.
Proof.
  intros Hp Hk. pose proof (Nat.Div0.mod_le k p). lia.
Qed.

Lemma pow2_pos (i : nat) : (0 < 2 ^ i)%nat.
Proof. induction i; simpl; lia. Qed.

Lemma pow2_pred_mod (i : nat) : ((2 ^ i - 1) mod 2 ^ i = 2 ^ i - 1)%nat.
Proof. apply Nat.mod_small. pose proof (pow2_pos i). lia. Qed.

Lemma frameLoop_fields fuel j period pQH link s :
  let s' := frameLoop fuel j period pQH link s in
  heap s' = heap s ∧ _pFreeQH s' = _pFreeQH s ∧ _intrQH s' = _intrQH s
  ∧ trace s' = trace s ∧ _lastQH s' = _lastQH s ∧ _framesPaddr s' = _framesPaddr s
  ∧ length (_frameList s') = length (_frameList s)
  ∧ length (_logicalFrameList s') = length (_logicalFrameList s)
  ∧ qhBlockSupply s' = qhBlockSupply s
  ∧ _fsControlQHStart s' = _fsControlQHStart s.
Proof.
  revert j s. induction fuel as [|fuel IH]; intros j s; [done|].
  cbn [frameLoop]. destruct (j <? kUHCI_NVFRAMES)%nat; [|done].
  match goal with |- context [frameLoop fuel ?j' period pQH link ?s1] =>
    destruct (IH j' s1) as (E1 & E2 & E3 & E4 & E5 & E6 & E7 & E8 & E9 & E10) end.
  cbn zeta. rewrite E1, E2, E3, E4, E5, E6, E7, E8, E9, E10. cbn.
  by rewrite !length_insert.
Qed.

(** The loop writes the queue head into the slots [j], [j + period], ...
    below [kUHCI_NVFRAMES]. *)
Lemma frameLoop_slots fuel j period pQH link s k :
  (0 < period)%nat → (j mod period = period - 1)%nat →
  (kUHCI_NVFRAMES ≤ j + fuel)%nat →
  length (_frameList s) = kUHCI_NVFRAMES →
  length (_logicalFrameList s) = kUHCI_NVFRAMES →
  (k < kUHCI_NVFRAMES)%nat →
  let s' := frameLoop fuel j period pQH link s in
  let hit := bool_decide (j ≤ k ∧ k mod period = period - 1)%nat in
  _logicalFrameList s' !! k = (if hit then Some (Some pQH) else _logicalFrameList s !! k)
  ∧ _frameList s' !! k = (if hit then Some (HostToUSBLong link) else _frameList s !! k).
Proof.
  intros Hp. revert j s. induction fuel as [|fuel IH]; intros j s Hj Hfuel Hl1 Hl2 Hk.
  - cbn. rewrite bool_decide_eq_false_2 by lia. done.
  - cbn [frameLoop]. destruct (j <? kUHCI_NVFRAMES)%nat eqn:Ej.
    + apply Nat.ltb_lt in Ej.
      match goal with |- context [frameLoop fuel ?j' period pQH link ?s1] =>
        destruct (IH j' s1) as (E1 & E2) end.
      * by rewrite mod_pred_add.
      * lia.
      * cbn. by rewrite length_insert.
      * cbn. by rewrite length_insert.
      * done.
      * cbn zeta. rewrite E1, E2. cbn.
        destruct (decide (k = j)) as [->|Hne].
        -- rewrite bool_decide_eq_false_2 by lia.
           rewrite bool_decide_eq_true_2 by (split; [lia|done]).
           rewrite !list_lookup_insert_eq by lia. done.
        -- rewrite !list_lookup_insert_ne by done.
           case_bool_decide as Hc1; case_bool_decide as Hc2; try done.
           ++ destruct Hc2. split; [lia|tauto].
           ++ destruct Hc1. destruct Hc2 as [Hc2 Hc3]. split; [|done].
              apply mod_pred_next; [done..|lia].
    + apply Nat.ltb_ge in Ej. cbn. rewrite bool_decide_eq_false_2 by lia. done.
Qed.

(** *** Which level a slot ends up with *)

Lemma slotLevelFrom_Some i n k m :
  slotLevelFrom i n k = Some m ↔
  (i ≤ m < i + n)%nat ∧ (k mod 2 ^ m = 2 ^ m - 1)%nat
  ∧ ∀ m', (i ≤ m' < i + n)%nat → (k mod 2 ^ m' = 2 ^ m' - 1)%nat → (m' ≤ m)%nat.
Proof.
  revert i m. induction n as [|n IH]; intros i m.
  - simpl. split; [done|]. intros [? _]. lia.
  - cbn [slotLevelFrom].
    destruct (slotLevelFrom (S i) n k) as [m0|] eqn:E.
    + apply IH in E as (Hr & Hm0 & Hmax). split.
      * intros [= <-]. split; [lia|]. split; [done|].
        intros m' Hm' Hk'. destruct (decide (m' = i)) as [->|]; [lia|].
        apply Hmax; [lia|done].
      * intros (Hr' & Hm & Hmax'). f_equal.
        assert (m0 ≤ m)%nat by (apply Hmax'; [lia|done]).
        destruct (decide (m = i)) as [->|]; [lia|].
        assert (m ≤ m0)%nat by (apply Hmax; [lia|done]). lia.
    + assert (Hnone : ∀ m', (S i ≤ m' < S i + n)%nat → (k mod 2 ^ m' ≠ 2 ^ m' - 1)%nat).
      { intros m' Hm' Hk'. clear IH.
        revert i E Hm'. induction n as [|n IHn]; intros i E Hm'; [lia|].
        cbn [slotLevelFrom] in E.
        destruct (slotLevelFrom (S (S i)) n k) eqn:E'; [done|].
        case_bool_decide as Hd; [done|].
        destruct (decide (m' = S i)) as [->|]; [done|].
        apply (IHn (S i)); [done|lia]. }
      case_bool_decide as Hd; split.
      * intros [= <-]. split; [lia|]. split; [done|].
        intros m' Hm' Hk'. destruct (decide (m' = i)) as [->|]; [lia|].
        destruct (Hnone m'); [lia|done].
      * intros (Hr' & Hm & Hmax'). f_equal.
        destruct (decide (m = i)) as [->|]; [done|].
        destruct (Hnone m); [lia|done].
      * done.
      * intros (Hr' & Hm & Hmax').
        destruct (decide (m = i)) as [->|]; [done|].
        destruct (Hnone m); [lia|done].
Qed.

Lemma slotLevelFrom_ge i n k m : slotLevelFrom i n k = Some m → (i ≤ m < i + n)%nat.
Proof. intros Hm. by apply slotLevelFrom_Some in Hm as [? _]. Qed.

Lemma scheduleFields_eq s s' :
  scheduleFields s' = scheduleFields s →
  trace s' = trace s ∧ _framesPaddr s' = _framesPaddr s
  ∧ _frameList s' = _frameList s ∧ _logicalFrameList s' = _logicalFrameList s
  ∧ _intrQH s' = _intrQH s ∧ _lastQH s' = _lastQH s
  ∧ _fsControlQHStart s' = _fsControlQHStart s.
Proof. unfold scheduleFields. intros [= -> -> -> -> -> -> ->]. done. Qed.

(** *** The interrupt queue heads *)

Lemma intrLoop_spec qs : ∀ extra i lastQH s rest rp,
  qhList (heap s) (_pFreeQH s) (qs ++ rest) →
  (extra ≠ O → rest = [] ∧ qhBlockSupply s = []) →
  lastQH ∉ qs →
  getQH (heap s) lastQH = Some rp →
  length (_frameList s) = kUHCI_NVFRAMES →
  length (_logicalFrameList s) = kUHCI_NVFRAMES →
  (i + length qs ≤ length (_intrQH s))%nat →
  ∃ s', intrLoop (length qs + extra) i lastQH s
        = Some (if extra is O then None else Some kIOReturnNoMemory, s')
    ∧ qhList (heap s') (_pFreeQH s') rest
    ∧ (∀ x, x ∉ qs → heap s' !! x = heap s !! x)
    ∧ scheduledAfter (heap s') lastQH qs
    ∧ (∀ k, (k < kUHCI_NVFRAMES)%nat →
         _logicalFrameList s' !! k
           = match slotLevelFrom i (length qs) k with
             | Some m => Some (qs !! (m - i)%nat)
             | None => _logicalFrameList s !! k
             end
         ∧ _frameList s' !! k
           = match slotLevelFrom i (length qs) k with
             | Some m =>
                 q ← qs !! (m - i)%nat; r ← getQH (heap s') q;
                 Some (HostToUSBLong (QH_PhysicalAddrWithType (qh_phys r)))
             | None => _frameList s !! k
             end)
    ∧ (∀ m, _intrQH s' !! m
            = if bool_decide (i ≤ m < i + length qs)%nat
              then Some (qs !! (m - i)%nat) else _intrQH s !! m)
    ∧ length (_intrQH s') = length (_intrQH s)
    ∧ trace s' = trace s ∧ _lastQH s' = _lastQH s ∧ _framesPaddr s' = _framesPaddr s
    ∧ _fsControlQHStart s' = _fsControlQHStart s.
Proof.
  induction qs as [|p qs IH];
    intros extra i lastQH s rest rp Hl Hex Hlast Hrp Hf1 Hf2 Hlen.
  - exists s. split.
    { destruct extra as [|extra]; [done|]. destruct Hex as [-> Hs]; [done|].
      cbn -[AllocateQH]. rewrite AllocateQH_none; [done|exact Hl|exact Hs]. }
    cbn. repeat split; try done.
    intros m. rewrite bool_decide_eq_false_2 by lia. done.
  - cbn [length Nat.add intrLoop]. cbn [length] in Hlen.
    pose proof (linked_NoDup _ _ _ _ _ Hl) as Hnd.
    change ((p :: qs) ++ rest) with (p :: (qs ++ rest)) in Hl, Hnd.
    apply NoDup_cons in Hnd as [Hp Hnd].
    destruct (AllocateQH_list 0 0 0 0 0 kQHTypeDummy s p (qs ++ rest) Hl)
      as (q & s1 & -> & Hq & Hty & Hn & (q0 & _ & _) & Hl1 & Hh1 & Hsf & Hsup).
    apply scheduleFields_eq in Hsf as (Et & Ep & Ef1 & Ef2 & Ei & Ela & Efs).
    cbn -[intrLoop frameLoop].
    assert (Hpl : lastQH ≠ p) by (intros ->; apply Hlast; by left).
    rewrite (f_equal (λ o, match o with Some (ElemQH t) => Some t | _ => None end)
               (Hh1 lastQH Hpl) : getQH (heap s1) lastQH = getQH (heap s) lastQH).
    rewrite Hrp. cbn -[intrLoop frameLoop].
    unfold updQH. cbn -[intrLoop frameLoop]. rewrite Hq.
    cbn -[intrLoop frameLoop]. rewrite getQH_insert_eq.
    cbn -[intrLoop frameLoop].
    set (q' := scheduleQH (Some lastQH) (QH_PhysicalAddrWithType (qh_phys rp)) q).
    match goal with |- context [frameLoop ?fu ?j ?per p ?lk ?st] =>
      set (s3 := st);
      pose proof (frameLoop_fields fu j per p lk s3)
        as (E1 & E2 & E3 & E4 & E5 & E6 & E7 & E8 & E9 & E10);
      pose proof (λ k, frameLoop_slots fu j per p lk s3 k (pow2_pos i) (pow2_pred_mod i)) as Hslots;
      cbn -[frameLoop Nat.pow] in E1, E2, E3, E4, E5, E6, E7, E8, E9, E10;
      set (s4 := frameLoop fu j per p lk s3) in *
    end.
    assert (Hq4 : getQH (heap s4) p = Some q') by (rewrite E1; apply getQH_insert_eq).
    destruct (IH extra (S i) p s4 rest q') as
      (s' & -> & Hl' & Hh' & Hsch & Hsl & Hint & Hlen' & Ht' & Hla' & Hpa' & Hfs');
      [| | |done| | | |].
    { rewrite E1, E2. apply qhList_insert_away; [done|done]. }
    { intros Hne. destruct (Hex Hne) as [-> Hs]. split; [done|].
      by rewrite E9, Hsup. }
    { intros Hin. apply Hp. apply elem_of_app. by left. }
    { rewrite E7. cbn. by rewrite Ef1. }
    { rewrite E8. cbn. by rewrite Ef2. }
    { rewrite E3. cbn. rewrite length_insert, Ei. lia. }
    assert (Hp' : getQH (heap s') p = Some q').
    { rewrite <- Hq4. unfold getQH. rewrite Hh'; [done|].
      intros Hin. apply Hp. apply elem_of_app. by left. }
    exists s'. split; [done|]. split; [done|]. split; [|split; [|split; [|split]]].
    + intros x Hx. apply not_elem_of_cons in Hx as [Hx1 Hx2].
      rewrite Hh' by done. rewrite E1. cbn.
      rewrite lookup_insert_ne by done. by apply Hh1.
    + cbn [scheduledAfter]. split; [|done].
      exists q', rp. split; [done|]. split; [|done].
      unfold getQH. rewrite Hh'.
      * rewrite E1. cbn. rewrite lookup_insert_ne by done.
        rewrite Hh1 by done. exact Hrp.
      * intros Hin. apply Hlast. by right.
    + intros k Hk.
      destruct (Hsl k Hk) as (Hs1 & Hs2).
      destruct (Hslots k) as (Hs3 & Hs4); [lia|by cbn; rewrite Ef1|by cbn; rewrite Ef2|done|].
      cbn [slotLevelFrom]. rewrite Hs1, Hs2.
      destruct (slotLevelFrom (S i) (length qs) k) as [m|] eqn:Em.
      * apply slotLevelFrom_ge in Em.
        replace (m - i)%nat with (S (m - S i)) by lia. done.
      * fold s4 in Hs3, Hs4. rewrite Hs3, Hs4. cbn -[Nat.pow Nat.modulo].
        rewrite Ef1, Ef2.
        case_bool_decide as Hd1; case_bool_decide as Hd2.
        -- rewrite Nat.sub_diag. cbn. rewrite Hp'. done.
        -- destruct Hd2. tauto.
        -- destruct Hd1. split; [|done].
           apply mod_pred_ge; [apply pow2_pos|done].
        -- done.
    + intros m. rewrite Hint, E3. cbn.
      rewrite Ei.
      destruct (decide (m = i)) as [->|Hne].
      * rewrite bool_decide_eq_false_2 by lia.
        rewrite bool_decide_eq_true_2 by lia.
        rewrite list_lookup_insert_eq by lia. by rewrite Nat.sub_diag.
      * rewrite list_lookup_insert_ne by done.
        case_bool_decide; case_bool_decide; try lia; try done.
        replace (m - i)%nat with (S (m - S i)) by lia. done.
    + split; [rewrite Hlen', E3; cbn; by rewrite length_insert, Ei|].
      rewrite Ht', Hla', Hpa', Hfs', E4, E5, E6, E10. cbn. by rewrite Et, Ela, Ep, Efs.
Qed.

Lemma qhReady_NoDup s l : qhReady s l → NoDup l.
Proof.
  intros [Hl|(_ & p0 & q0 & b & supply & _ & _ & _ & Hnd & _ & ->)].
  - by eapply linked_NoDup.
  - apply NoDup_ListNoDup, List.NoDup_rev, NoDup_ListNoDup. done.
Qed.

Lemma scheduledAfter_agree h h' pred qs :
  (∀ x, x ∈ pred :: qs → getQH h' x = getQH h x) →
  scheduledAfter h pred qs → scheduledAfter h' pred qs.
Proof.
  revert pred. induction qs as [|q qs IH]; intros pred Hag; [done|].
  intros [(r & rp & Hr & Hrp & Hrest) Hs]. split.
  - exists r, rp. rewrite !Hag; [done| by left | by right; left].
  - apply IH; [|done]. intros x Hx. apply Hag. by right.
Qed.

(** *** [HardwareInit] when the queue heads can be had *)

Lemma HardwareInit_built cmdReads buffers cmd sts s last bulk fs ls intr rest :
  waitForReset kUHCI_RESET_DELAY 0 cmdReads = true →
  qhReady s (last :: bulk :: fs :: ls :: intr ++ rest) →
  length intr = kUHCI_NINTR_QHS →
  length (bm_frameList buffers) = kUHCI_NVFRAMES →
  length (_logicalFrameList s) = kUHCI_NVFRAMES →
  length (_intrQH s) = kUHCI_NINTR_QHS →
  ∃ s' ql qf,
    HardwareInit cmdReads 0 buffers cmd sts s
    = Some (waitForController 20 0 true sts, s')
    ∧ trace s'
      = trace s ++ resetPhase buffers s
                ++ [EvCommand (Z.lor kUHCI_CMD_MAXP kUHCI_CMD_CF);
                    EvIoWrite16 kUHCI_INTR
                      (Z.lor (Z.lor (Z.lor kUHCI_INTR_TIE kUHCI_INTR_RIE) kUHCI_INTR_IOCE)
                         kUHCI_INTR_SPIE);
                    EvCommand (Z.lor cmd kUHCI_CMD_RS)]
    ∧ _lastQH s' = Some last ∧ _fsControlQHStart s' = Some fs
    ∧ getQH (heap s') last = Some ql ∧ getQH (heap s') fs = Some qf
    ∧ qh_logicalNext ql = None
    ∧ qh_hlink ql
      = HostToUSBLong (Z.lor (QH_PhysicalAddrWithType (qh_phys qf)) kUHCI_QH_T)
    ∧ qh_elink ql = HostToUSBLong kUHCI_QH_T
    ∧ qh_type ql = kQHTypeDummy
    ∧ scheduledAfter (heap s') last (bulk :: fs :: ls :: intr)
    ∧ NoDup (last :: bulk :: fs :: ls :: intr)
    ∧ _intrQH s' = Some <$> intr
    ∧ _framesPaddr s' = bm_framesPaddr buffers
    ∧ (∀ k, (k < kUHCI_NVFRAMES)%nat →
         _logicalFrameList s' !! k
           = match slotLevelFrom 0 kUHCI_NINTR_QHS k with
             | Some m => Some (intr !! m)
             | None => _logicalFrameList s !! k
             end
         ∧ _frameList s' !! k
           = match slotLevelFrom 0 kUHCI_NINTR_QHS k with
             | Some m =>
                 q ← intr !! m; r ← getQH (heap s') q;
                 Some (HostToUSBLong (QH_PhysicalAddrWithType (qh_phys r)))
             | None => bm_frameList buffers !! k
             end).
Proof.
  intros Hreset Hready Hni Hf1 Hf2 Hiq.
  pose proof (qhReady_NoDup _ _ Hready) as Hnd.
  assert (Hnd4 : NoDup (last :: bulk :: fs :: ls :: intr)).
  { replace (last :: bulk :: fs :: ls :: intr ++ rest)
      with ((last :: bulk :: fs :: ls :: intr) ++ rest) in Hnd by done.
    by apply NoDup_app in Hnd as [? _]. }
  apply NoDup_cons in Hnd as [Hn_last Hnd].
  apply NoDup_cons in Hnd as [Hn_bulk Hnd].
  apply NoDup_cons in Hnd as [Hn_fs Hnd].
  apply NoDup_cons in Hnd as [Hn_ls Hnd].
  unfold HardwareInit. rewrite (Reset_comes_out _ _ _ Hreset).
  change (negb (kIOReturnSuccess =? kIOReturnSuccess)) with false.
  change (negb (0 =? kIOReturnSuccess)) with false. cbv iota.
  (* the dummy queue head at the end *)
  match goal with |- context [AllocateQH 0 0 0 0 0 kQHTypeDummy ?st] =>
    destruct (AllocateQH_ready 0 0 0 0 0 kQHTypeDummy st last
                (bulk :: fs :: ls :: intr ++ rest) Hready)
      as (q1 & s1 & -> & Hq1 & Hty1 & _ & Hl1 & _ & Hsf1 & _) end.
  apply scheduleFields_eq in Hsf1 as (Et1 & Ep1 & Ea1 & Eb1 & Ei1 & _ & _).
  cbn -[AllocateQH intrLoop waitForController] in Et1, Ep1, Ea1, Eb1, Ei1 |- *.
  rewrite (updQH_Some _ _ _ _ Hq1). cbn -[AllocateQH intrLoop waitForController].
  set (ql := scheduleQH None kUHCI_QH_T q1).
  (* the bulk queue *)
  match goal with |- context [AllocateQH 0 0 0 0 0 kQHTypeDummy ?st] =>
    destruct (AllocateQH_list 0 0 0 0 0 kQHTypeDummy st bulk (fs :: ls :: intr ++ rest))
      as (q2 & s2 & -> & Hq2 & Hty2 & _ & _ & Hl2 & Hh2 & Hsf2 & _);
      [cbn -[linked]; by apply qhList_insert_away|] end.
  apply scheduleFields_eq in Hsf2 as (Et2 & Ep2 & Ea2 & Eb2 & Ei2 & Ela2 & _).
  cbn -[AllocateQH intrLoop waitForController] in Hh2, Et2, Ep2, Ea2, Eb2, Ei2, Ela2 |- *.
  assert (Hlast2 : getQH (heap s2) last = Some ql).
  { unfold getQH. rewrite Hh2 by set_solver. by rewrite lookup_insert_eq. }
  rewrite Hlast2. cbn -[AllocateQH intrLoop waitForController].
  rewrite (updQH_Some _ _ _ _ Hq2). cbn -[AllocateQH intrLoop waitForController].
  set (qb := scheduleQH (Some last) (QH_PhysicalAddrWithType (qh_phys ql)) q2).
  (* the full speed control queue *)
  match goal with |- context [AllocateQH 0 0 0 0 0 kQHTypeDummy ?st] =>
    destruct (AllocateQH_list 0 0 0 0 0 kQHTypeDummy st fs (ls :: intr ++ rest))
      as (q3 & s3 & -> & Hq3 & Hty3 & _ & _ & Hl3 & Hh3 & Hsf3 & _);
      [cbn -[linked]; by apply qhList_insert_away|] end.
  apply scheduleFields_eq in Hsf3 as (Et3 & Ep3 & Ea3 & Eb3 & Ei3 & Ela3 & _).
  cbn -[AllocateQH intrLoop waitForController] in Hh3, Et3, Ep3, Ea3, Eb3, Ei3, Ela3 |- *.
  assert (Hbulk3 : getQH (heap s3) bulk = Some qb).
  { unfold getQH. rewrite Hh3 by set_solver. by rewrite lookup_insert_eq. }
  assert (Hlast3 : getQH (heap s3) last = Some ql).
  { unfold getQH. rewrite Hh3 by set_solver.
    rewrite lookup_insert_ne by set_solver. exact Hlast2. }
  rewrite Hbulk3. cbn -[AllocateQH intrLoop waitForController].
  rewrite (updQH_Some _ _ _ _ Hq3). cbn -[AllocateQH intrLoop waitForController].
  set (qf := scheduleQH (Some bulk) (QH_PhysicalAddrWithType (qh_phys qb)) q3).
  (* the low speed control queue *)
  match goal with |- context [AllocateQH 0 0 0 0 0 kQHTypeDummy ?st] =>
    destruct (AllocateQH_list 0 0 0 0 0 kQHTypeDummy st ls (intr ++ rest))
      as (q4 & s4 & -> & Hq4 & Hty4 & _ & _ & Hl4 & Hh4 & Hsf4 & _);
      [cbn -[linked]; by apply qhList_insert_away|] end.
  apply scheduleFields_eq in Hsf4 as (Et4 & Ep4 & Ea4 & Eb4 & Ei4 & Ela4 & Efs4).
  cbn -[AllocateQH intrLoop waitForController] in Hh4, Et4, Ep4, Ea4, Eb4, Ei4, Ela4, Efs4 |- *.
  assert (Hfs4 : getQH (heap s4) fs = Some qf).
  { unfold getQH. rewrite Hh4 by set_solver. by rewrite lookup_insert_eq. }
  assert (Hbulk4 : getQH (heap s4) bulk = Some qb).
  { unfold getQH. rewrite Hh4 by set_solver.
    rewrite lookup_insert_ne by set_solver. exact Hbulk3. }
  assert (Hlast4 : getQH (heap s4) last = Some ql).
  { unfold getQH. rewrite Hh4 by set_solver.
    rewrite lookup_insert_ne by set_solver. exact Hlast3. }
  rewrite Hfs4. cbn -[AllocateQH intrLoop waitForController].
  rewrite (updQH_Some _ _ _ _ Hq4). cbn -[AllocateQH intrLoop waitForController].
  set (qs := scheduleQH (Some fs) (QH_PhysicalAddrWithType (qh_phys qf)) q4).
  (* the interrupt queue heads *)
  rewrite <- Hni.
  match goal with |- context [intrLoop (length intr) 0 ls ?st] =>
    replace (intrLoop (length intr) 0 ls st)
      with (intrLoop (length intr + 0) 0 ls st) by (by rewrite Nat.add_0_r);
    destruct (intrLoop_spec intr 0 0 ls st rest qs)
      as (s5 & -> & Hl5 & Hh5 & Hsch & Hsl & Hint & Hlen5 & Et5 & Ela5 & Ep5 & Efs5) end.
  { cbn -[linked]. by apply qhList_insert_away. }
  { done. }
  { set_solver. }
  { cbn. apply getQH_insert_eq. }
  { cbn. congruence. }
  { cbn. congruence. }
  { cbn. rewrite Ei4, Ei3, Ei2, Ei1. lia. }
  cbn -[AllocateQH intrLoop waitForController] in Hh5, Hsl, Hint, Hlen5, Et5, Ela5, Ep5, Efs5 |- *.
  (* bandwidth reclamation *)
  rewrite Ela5, Ela4, Ela3, Ela2. cbn -[AllocateQH intrLoop waitForController].
  assert (Hls5 : getQH (heap s5) ls = Some qs).
  { unfold getQH. rewrite Hh5 by set_solver. by rewrite lookup_insert_eq. }
  assert (Hfs5 : getQH (heap s5) fs = Some qf).
  { unfold getQH. rewrite Hh5 by set_solver.
    rewrite lookup_insert_ne by set_solver. exact Hfs4. }
  assert (Hbulk5 : getQH (heap s5) bulk = Some qb).
  { unfold getQH. rewrite Hh5 by set_solver.
    rewrite lookup_insert_ne by set_solver. exact Hbulk4. }
  assert (Hlast5 : getQH (heap s5) last = Some ql).
  { unfold getQH. rewrite Hh5 by set_solver.
    rewrite lookup_insert_ne by set_solver. exact Hlast4. }
  rewrite Hfs5. cbn -[AllocateQH intrLoop waitForController].
  rewrite (updQH_Some _ _ _ _ Hlast5). cbn -[AllocateQH intrLoop waitForController].
  eexists _, _, qf. split; [reflexivity|]. cbn -[waitForController].
  split.
  { rewrite Et5, Et4, Et3, Et2, Et1. unfold resetPhase. cbn. by rewrite <- !app_assoc. }
  split; [by rewrite Ela5, Ela4, Ela3, Ela2|].
  split; [by rewrite Efs5, Efs4|].
  split; [apply getQH_insert_eq|].
  split; [rewrite getQH_insert_ne by set_solver; exact Hfs5|].
  split; [done|]. split; [done|]. split; [done|]. split; [done|].
  split.
  { cbn [scheduledAfter].
    rewrite !getQH_insert_eq.
    rewrite !(getQH_insert_ne _ last) by set_solver.
    split; [eexists qb, _; split; [done|split; [done|done]]|].
    split; [eexists qf, qb; done|].
    split; [eexists qs, qf; done|].
    eapply scheduledAfter_agree; [|exact Hsch].
    intros x Hx. apply getQH_insert_ne. set_solver. }
  split; [done|].
  split.
  { apply list_eq. intros m. rewrite Hint, list_lookup_fmap.
    case_bool_decide as Hd.
    - rewrite Nat.sub_0_r. destruct (intr !! m) eqn:Em; [done|].
      apply lookup_ge_None in Em. lia.
    - rewrite lookup_ge_None_2 by (rewrite Ei4, Ei3, Ei2, Ei1; lia).
      rewrite lookup_ge_None_2 by lia. done. }
  split; [by rewrite Ep5, Ep4, Ep3, Ep2, Ep1|].
  intros k Hk. destruct (Hsl k Hk) as (Hs1 & Hs2).
  rewrite Hs1, Hs2, Eb4, Eb3, Eb2, Eb1, Ea4, Ea3, Ea2, Ea1.
  destruct (slotLevelFrom 0 (length intr) k) as [m|]; [|done].
  rewrite Nat.sub_0_r. split; [done|].
  destruct (intr !! m) as [q|] eqn:Em; [|done]. cbn.
  rewrite getQH_insert_ne; [done|].
  apply list_elem_of_lookup_2 in Em. set_solver.
Qed.
End Schedule.

(** ** The interrupt ladder and the tail of the schedule *)

Section Ladder.
Context `{Header} `{ResetHeader}.

Lemma pow2_mod_down (j i : nat) :
  (j mod 2 ^ S i = 2 ^ S i - 1)%nat → (j mod 2 ^ i = 2 ^ i - 1)%nat.
Proof.
  intros Hj. pose proof (pow2_pos i) as Hp.
  pose proof (Nat.div_mod_eq j (2 ^ S i)) as E. rewrite Hj in E.
  rewrite Nat.pow_succ_r' in E.
  symmetry. apply (Nat.mod_unique j (2 ^ i) (2 * (j `div` (2 * 2 ^ i)) + 1)); lia.
Qed.

Lemma pow2_mod_le (j i m : nat) :
  (i ≤ m)%nat → (j mod 2 ^ m = 2 ^ m - 1)%nat → (j mod 2 ^ i = 2 ^ i - 1)%nat.
Proof.
  induction 1 as [|m Hle IH]; [done|]. intros Hm. by apply IH, pow2_mod_down.
Qed.

(** Every slot has a level: level 0 takes them all. *)
Lemma slotLevelFrom_0 n k : ∃ m, slotLevelFrom 0 (S n) k = Some m.
Proof.
  destruct (slotLevelFrom 0 (S n) k) as [m|] eqn:E; [eauto|].
  cbn [slotLevelFrom] in E. destruct (slotLevelFrom 1 n k); [done|].
  rewrite bool_decide_eq_true_2 in E; [done|].
  change (2 ^ 0)%nat with 1%nat. by rewrite Nat.mod_1_r.
Qed.

(** The software links lead from a scheduled queue head back through all
    its predecessors. *)
Lemma scheduledAfter_path h pred qs lp : ∀ m q,
  scheduledAfter h pred qs → qhList h (Some pred) lp → qs !! m = Some q →
  qhList h (Some q) (rev (take (S m) qs) ++ lp).
Proof.
  revert pred lp. induction qs as [|q0 qs IH]; intros pred lp m q; [done|].
  intros [(r & rp & Hr & Hrp & Hn & _) Hs] Hlp Hm.
  assert (Hq0 : qhList h (Some q0) (q0 :: lp)).
  { split; [done|]. exists r. split; [done|]. by rewrite Hn. }
  destruct m as [|m].
  - injection Hm as <-. done.
  - cbn in Hm. pose proof (IH q0 (q0 :: lp) m q Hs Hq0 Hm) as Hp.
    change (take (S (S m)) (q0 :: qs)) with (q0 :: take (S m) qs).
    cbn [rev]. by rewrite <- app_assoc.
Qed.

(** The hardware links lead the same way. *)
Lemma scheduledAfter_hw h pred qs lp w' : ∀ m q,
  scheduledAfter h pred qs →
  (∃ rp, getQH h pred = Some rp
         ∧ hwLinked h (HostToUSBLong (QH_PhysicalAddrWithType (qh_phys rp))) lp w') →
  qs !! m = Some q →
  ∃ r, getQH h q = Some r
       ∧ hwLinked h (HostToUSBLong (QH_PhysicalAddrWithType (qh_phys r)))
           (rev (take (S m) qs) ++ lp) w'.
Proof.
  revert pred lp. induction qs as [|q0 qs IH]; intros pred lp m q; [done|].
  intros [(r & rp & Hr & Hrp & _ & Hh & _) Hs] (rp' & Hrp' & Hlp) Hm.
  rewrite Hrp in Hrp'. injection Hrp' as <-.
  assert (Hq0 : ∃ r0, getQH h q0 = Some r0
                      ∧ hwLinked h (HostToUSBLong (QH_PhysicalAddrWithType (qh_phys r0)))
                          (q0 :: lp) w').
  { exists r. split; [done|]. exists r. split; [done|]. split; [done|]. by rewrite Hh. }
  destruct m as [|m].
  - injection Hm as <-. done.
  - cbn in Hm. destruct (IH q0 (q0 :: lp) m q Hs Hq0 Hm) as (rq & Hrq & Hp).
    exists rq. split; [done|].
    change (take (S (S m)) (q0 :: qs)) with (q0 :: take (S m) qs).
    cbn [rev]. by rewrite <- app_assoc.
Qed.

(** C2: over [2 ^ N] virtual frames with [N + 1] interrupt levels,
    [HardwareInit] creates exactly [N + 1] interrupt queue heads; after
    it every frame slot [j] holds the queue head of the largest level
    [i ≤ N] with [j ≡ 2^i - 1 (mod 2^i)], and the queue head of level [i]
    is polled from exactly the slots [j ≡ 2^i - 1 (mod 2^i)]: once every
    [2 ^ i] frames.  This is so for the controller too: the word of the
    hardware frame list is the address of that queue head, and the
    hardware links of the queue heads, none of them terminated, lead
    through the queue heads the software links lead through, down to the
    last queue head of the schedule. *)
Theorem HardwareInit_interrupt_ladder N cmdReads buffers cmd sts s last bulk fs ls intr rest :
  kUHCI_NVFRAMES = (2 ^ N)%nat → kUHCI_NINTR_QHS = S N →
  waitForReset kUHCI_RESET_DELAY 0 cmdReads = true →
  qhReady s (last :: bulk :: fs :: ls :: intr ++ rest) →
  length intr = S N →
  length (bm_frameList buffers) = (2 ^ N)%nat →
  length (_logicalFrameList s) = (2 ^ N)%nat →
  length (_intrQH s) = S N →
  ∃ status s',
    HardwareInit cmdReads 0 buffers cmd sts s = Some (status, s')
    ∧ interruptLadder N intr s'.
Proof.
  intros HNV HNI Hreset Hready Hlen Hf1 Hf2 Hiq.
  destruct (HardwareInit_built cmdReads buffers cmd sts s last bulk fs ls intr rest)
    as (s' & ql & qf & E & _ & _ & Hfsc & Hql & Hqf & Hnl & Hhl & _ & _ & Hsch & Hnd & Hint
        & _ & Hsl);
    [done|done|congruence..|].
  exists (waitForController 20 0 true sts), s'. split; [done|].
  rewrite HNV, HNI in Hsl.
  assert (Hndi : NoDup intr).
  { by do 4 apply NoDup_cons in Hnd as [_ Hnd]. }
  assert (Hlevel : ∀ j i, (i ≤ N)%nat → (j mod 2 ^ i = 2 ^ i - 1)%nat →
            (∀ i', (i' ≤ N)%nat → (j mod 2 ^ i' = 2 ^ i' - 1)%nat → (i' ≤ i)%nat) →
            slotLevelFrom 0 (S N) j = Some i).
  { intros j i Hi Hj Hmax. apply slotLevelFrom_Some.
    split; [lia|]. split; [done|]. intros m' Hm'. apply Hmax. lia. }
  split; [done|]. split; [done|]. split; [done|]. split; [|split].
  - intros j i q Hj Hi Hji Hmax Hq.
    destruct (Hsl j Hj) as (E1 & E2).
    rewrite (Hlevel j i Hi Hji Hmax) in E1, E2. rewrite Hq in E1, E2.
    split; [done|]. cbn in E2.
    destruct (getQH (heap s') q) as [r|] eqn:Er.
    + exists r. done.
    + exfalso.
      assert (Hin : ∃ m, (bulk :: fs :: ls :: intr) !! m = Some q).
      { exists (3 + i)%nat. done. }
      destruct Hin as (m & Hm).
      assert (Hl : qhList (heap s') (Some last) [last]).
      { split; [done|]. exists ql. by rewrite Hnl. }
      pose proof (scheduledAfter_path _ _ _ _ m q Hsch Hl Hm) as Hp.
      destruct (rev (take (S m) (bulk :: fs :: ls :: intr)) ++ [last]) eqn:Ep;
        [by destruct (rev _)|].
      destruct Hp as [[= <-] (r & Hr & _)]. congruence.
  - intros j i q Hj Hq.
    destruct (slotLevelFrom_0 N j) as (m & Em).
    pose proof Em as (Hm1 & Hm2 & Hm3)%slotLevelFrom_Some.
    destruct (Hsl j Hj) as (E1 & _). rewrite Em in E1.
    destruct (intr !! m) as [qm|] eqn:Eqm;
      [|apply lookup_ge_None in Eqm; lia].
    assert (Hl : qhList (heap s') (Some last) [last]).
    { split; [done|]. exists ql. by rewrite Hnl. }
    assert (Hm : (bulk :: fs :: ls :: intr) !! (3 + m)%nat = Some qm) by done.
    pose proof (scheduledAfter_path _ _ _ _ _ qm Hsch Hl Hm) as Hp.
    assert (Hi : (i < S N)%nat).
    { apply lookup_lt_Some in Hq. lia. }
    assert (Hreach : reachesQH s' j q ↔ (i ≤ m)%nat).
    { unfold reachesQH. rewrite E1. cbn [mjoin option_join]. split.
      - intros (path & Hpath & Hin).
        rewrite (linked_functional _ _ _ _ _ _ Hpath Hp) in Hin.
        apply elem_of_app in Hin as [Hin|Hin].
        + apply list_elem_of_In, in_rev, list_elem_of_In in Hin.
          apply elem_of_take in Hin as (i' & Hi' & Hlt).
          assert (Hq' : (bulk :: fs :: ls :: intr) !! (3 + i)%nat = Some q) by done.
          assert (NoDup (bulk :: fs :: ls :: intr)) as Hnd3
            by (by apply NoDup_cons in Hnd as [_ Hnd]).
          pose proof (NoDup_lookup _ _ _ _ Hnd3 Hi' Hq'). lia.
        + apply list_elem_of_singleton in Hin as ->.
          apply NoDup_cons in Hnd as [Hnl' _]. destruct Hnl'.
          do 3 right. by eapply list_elem_of_lookup_2.
      - intros Hle. eexists. split; [exact Hp|].
        apply elem_of_app. left.
        apply list_elem_of_In, in_rev. rewrite rev_involutive.
        apply list_elem_of_In, elem_of_take. exists (3 + i)%nat.
        split; [done|lia]. }
    rewrite Hreach. split.
    + intros Hle. by apply (pow2_mod_le j i m).
    + intros Hji. apply Hm3; [lia|done].
  - intros j path Hj Hpath.
    destruct (slotLevelFrom_0 N j) as (m & Em).
    pose proof Em as (Hm1 & _)%slotLevelFrom_Some.
    destruct (Hsl j Hj) as (E1 & E2). rewrite Em in E1, E2.
    destruct (intr !! m) as [qm|] eqn:Eqm;
      [|apply lookup_ge_None in Eqm; lia].
    assert (Hl : qhList (heap s') (Some last) [last]).
    { split; [done|]. exists ql. by rewrite Hnl. }
    assert (Hm : (bulk :: fs :: ls :: intr) !! (3 + m)%nat = Some qm) by done.
    pose proof (scheduledAfter_path _ _ _ _ _ qm Hsch Hl Hm) as Hp.
    rewrite E1 in Hpath. cbn [mjoin option_join] in Hpath.
    rewrite (linked_functional _ _ _ _ _ _ Hpath Hp).
    destruct (scheduledAfter_hw (heap s') last (bulk :: fs :: ls :: intr) [last]
                (HostToUSBLong (Z.lor (QH_PhysicalAddrWithType (qh_phys qf)) kUHCI_QH_T))
                (3 + m)%nat qm Hsch) as (rm & Hrm & Hhw); [|done|].
    { exists ql. split; [done|]. exists ql. by rewrite Hhl. }
    cbn in E2. rewrite Hrm in E2. cbn in E2.
    eexists _, fs, qf. split; [exact E2|]. by split; [|split].
Qed.

(** C6, as the code has it: after the schedule is built the hardware link
    of the tail queue head holds the physical address of the full speed
    control queue head with its type bits, and the terminate bit on top of
    it (the list starts out terminated); the software link of the tail is
    null. *)
Theorem HardwareInit_tail_link cmdReads buffers cmd sts s last bulk fs ls intr rest :
  waitForReset kUHCI_RESET_DELAY 0 cmdReads = true →
  qhReady s (last :: bulk :: fs :: ls :: intr ++ rest) →
  length intr = kUHCI_NINTR_QHS →
  length (bm_frameList buffers) = kUHCI_NVFRAMES →
  length (_logicalFrameList s) = kUHCI_NVFRAMES →
  length (_intrQH s) = kUHCI_NINTR_QHS →
  ∃ status s' ql qf,
    HardwareInit cmdReads 0 buffers cmd sts s = Some (status, s')
    ∧ _lastQH s' = Some last ∧ _fsControlQHStart s' = Some fs
    ∧ getQH (heap s') last = Some ql ∧ getQH (heap s') fs = Some qf
    ∧ qh_hlink ql
      = HostToUSBLong (Z.lor (QH_PhysicalAddrWithType (qh_phys qf)) kUHCI_QH_T)
    ∧ qh_logicalNext ql = None.
Proof.
  intros Hreset Hready Hlen Hf1 Hf2 Hiq.
  destruct (HardwareInit_built cmdReads buffers cmd sts s last bulk fs ls intr rest)
    as (s' & ql & qf & E & _ & Hla & Hfs & Hql & Hqf & Hnl & Hhl & _); [done..|].
  by exists (waitForController 20 0 true sts), s', ql, qf.
Qed.
End Ladder.

Lemma HardwareInit_interrupt_ladder_witness :
  ∃ status s',
    HardwareInit (λ _, 0) 0 sampleBuffers 0 (λ _, 0) schedUHCI = Some (status, s')
    ∧ interruptLadder 10 [21; 20; 19; 18; 17; 16; 15; 14; 13; 12; 11]%nat s'.
Proof.
  refine (HardwareInit_interrupt_ladder 10 (λ _, 0) sampleBuffers 0 (λ _, 0) schedUHCI
            25%nat 24%nat 23%nat 22%nat
            [21; 20; 19; 18; 17; 16; 15; 14; 13; 12; 11]%nat [10%nat] _ _ _ _ _ _ _ _);
    try reflexivity.
  right. split; [reflexivity|].
  exists 10%nat, (freshQH 0x8000), (tail (qhBlock 10%nat 0x8000 16)), [].
  split; [reflexivity|]. split; [repeat constructor; eauto|].
  split; [discriminate|]. split; [by apply (bool_decide_unpack _)|].
  split; reflexivity.
Defined.

Lemma HardwareInit_tail_link_witness :
  ∃ status s' ql qf,
    HardwareInit (λ _, 0) 0 sampleBuffers 0 (λ _, 0) schedUHCI = Some (status, s')
    ∧ _lastQH s' = Some 25%nat ∧ _fsControlQHStart s' = Some 23%nat
    ∧ getQH (heap s') 25%nat = Some ql ∧ getQH (heap s') 23%nat = Some qf
    ∧ qh_hlink ql
      = HostToUSBLong (Z.lor (QH_PhysicalAddrWithType (qh_phys qf)) kUHCI_QH_T)
    ∧ qh_logicalNext ql = None.
Proof.
  refine (HardwareInit_tail_link (λ _, 0) sampleBuffers 0 (λ _, 0) schedUHCI
            25%nat 24%nat 23%nat 22%nat
            [21; 20; 19; 18; 17; 16; 15; 14; 13; 12; 11]%nat [10%nat] _ _ _ _ _ _);
    try reflexivity.
  right. split; [reflexivity|].
  exists 10%nat, (freshQH 0x8000), (tail (qhBlock 10%nat 0x8000 16)), [].
  split; [reflexivity|]. split; [repeat constructor; eauto|].
  split; [discriminate|]. split; [by apply (bool_decide_unpack _)|].
  split; reflexivity.
Defined.

(** C6, as the claim has it, fails on the sample controller: the link
    word of the tail is not the address of the full speed control queue
    head with its type bits. *)
Lemma HardwareInit_tail_link_not_plain :
  ¬ ∃ status s' ql qf,
      HardwareInit (λ _, 0) 0 sampleBuffers 0 (λ _, 0) schedUHCI = Some (status, s')
      ∧ _lastQH s' ≫= getQH (heap s') = Some ql
      ∧ _fsControlQHStart s' ≫= getQH (heap s') = Some qf
      ∧ qh_hlink ql = HostToUSBLong (QH_PhysicalAddrWithType (qh_phys qf)).
Proof.
  intros (status & s' & ql & qf & E & E1 & E2 & E3).
  vm_compute in E. injection E as <- <-.
  vm_compute in E1. injection E1 as <-.
  vm_compute in E2. injection E2 as <-.
  vm_compute in E3. discriminate.
Qed.

Example HardwareInit_tail_link_value :
  ('(_, s') ← HardwareInit (λ _, 0) 0 sampleBuffers 0 (λ _, 0) schedUHCI;
   ql ← _lastQH s' ≫= getQH (heap s');
   qf ← _fsControlQHStart s' ≫= getQH (heap s');
   Some (qh_hlink ql, QH_PhysicalAddrWithType (qh_phys qf), qh_logicalNext ql))
  = Some (0x80D3, 0x80D2, None).
Proof. vm_compute. reflexivity. Qed.

(** ** Running out of queue heads *)

Section NoMemory.
Context `{Header} `{ResetHeader}.





End NoMemory.



Example HardwareInit_no_memory_state :
  ('(status, s') ← HardwareInit (λ _, 0) 0 sampleBuffers 0 (λ _, 0) shortUHCI;
   Some (status, trace s', _lastQH s', _intrQH s' !! O, _logicalFrameList s' !! O,
         _frameList s' !! O, _pFreeQH s'))
  = Some (0xe00002bd,
          [EvIoWrite16 kUHCI_INTR 0; EvCommand 0x4; EvCommand 0; EvCommand 0x2;
           EvIoWrite32 kUHCI_FRBASEADDR 0x10000; EvIoWrite16 kUHCI_FRNUM 0;
           EvCommand 0xC0;
           EvIoWrite16 kUHCI_FRNUM 0; EvIoWrite32 kUHCI_FRBASEADDR 0x20000],
          Some 14%nat, Some (Some 10%nat), Some (Some 10%nat), Some 0x8002, None).
Proof. vm_compute. reflexivity. Qed.

(** ** The isochronous done queue *)

Section Isoch.
Context `{Header}.

Local Abbreviation itdList := (linked getITD itd_logicalNext).

Lemma updITD_Some p f s t :
  getITD (heap s) p = Some t →
  updITD p f s = Some (set_heap (<[p := ElemITD (f t)]> (heap s)) s).
Proof. intros Ht. unfold updITD. by rewrite Ht. Qed.

Lemma castITD_is_ITD h p t : getITD h p = Some t → castITD h (Some p) = Some p.
Proof. intros Hp. unfold castITD. simpl. by rewrite Hp. Qed.

Lemma itdList_cast h o l : itdList h o l → castITD h o = o.
Proof.
  destruct l; simpl; [by intros ->|].
  intros [-> (t & Ht & _)]. by eapply castITD_is_ITD.
Qed.

(** What the scavenger never changes in an isochronous descriptor. *)
Definition itdFixed (t : ITD) := (itd_doneQueueLink t, itd_pEndpoint t, itd_lowLatency t).

(** [s'] differs from [s] in the descriptors [ps] at most, and there only
    in [_logicalNext] and in the alignment buffer; the endpoints have
    kept their links; nothing else but the trace has changed. *)
Record isochStep (ps : list ptr) (s s' : UHCI) : Prop := {
  step_fixed : ∀ x, itdFixed <$> getITD (heap s') x = itdFixed <$> getITD (heap s) x;
  step_away : ∀ x, x ∉ ps → getITD (heap s') x = getITD (heap s) x;
  step_eps : ∀ e, (λ ep, (nextEP ep, ep_direction ep)) <$> isochEPs s' !! e
                  = (λ ep, (nextEP ep, ep_direction ep)) <$> isochEPs s !! e;
  step_fields :
    (_producerCount s', _consumerCount s', _isochEPList s', _savedDoneQueueHead s',
     _intrQH s')
    = (_producerCount s, _consumerCount s, _isochEPList s, _savedDoneQueueHead s,
       _intrQH s);
}.

Lemma isochStep_refl ps s : isochStep ps s s.
Proof. by split. Qed.

Lemma isochStep_trans ps1 ps2 s1 s2 s3 :
  isochStep ps1 s1 s2 → isochStep ps2 s2 s3 → isochStep (ps1 ++ ps2) s1 s3.
Proof.
  intros [F1 A1 E1 G1] [F2 A2 E2 G2]. split.
  - intros x. by rewrite F2, F1.
  - intros x Hx. rewrite A2, A1; [done|..]; intros ?; apply Hx, elem_of_app; auto.
  - intros e. by rewrite E2, E1.
  - by rewrite G2, G1.
Qed.

Lemma isochStep_weaken ps ps' s s' :
  (∀ x, x ∈ ps → x ∈ ps') → isochStep ps s s' → isochStep ps' s s'.
Proof. intros Hsub [F A E G]. split; auto. Qed.

Lemma isochStep_updITD_next p o s t :
  getITD (heap s) p = Some t →
  isochStep [p] s (set_heap (<[p := ElemITD (set_itd_logicalNext o t)]> (heap s)) s).
Proof.
  intros Ht. split; cbn; try done.
  - intros x. rewrite getITD_insert. case_decide; [subst|done]. by rewrite Ht.
  - intros x Hx. rewrite getITD_insert. case_decide; [subst|done].
    destruct Hx. by left.
Qed.

Lemma isochStep_updITD_align p o s t :
  getITD (heap s) p = Some t →
  isochStep [p] s (set_heap (<[p := ElemITD (set_itd_alignBuffer o t)]> (heap s)) s).
Proof.
  intros Ht. split; cbn; try done.
  - intros x. rewrite getITD_insert. case_decide; [subst|done]. by rewrite Ht.
  - intros x Hx. rewrite getITD_insert. case_decide; [subst|done].
    destruct Hx. by left.
Qed.

Lemma isochStep_updEP e f s s' :
  (∀ ep, nextEP (f ep) = nextEP ep ∧ ep_direction (f ep) = ep_direction ep) →
  updEP e f s = Some s' → isochStep [] s s'.
Proof.
  intros Hf. unfold updEP. destruct (isochEPs s !! e) as [ep|] eqn:Ee; [|done].
  intros [= <-]. split; cbn; try done.
  intros e'. rewrite lookup_insert. case_decide; [subst|done].
  rewrite Ee. cbn. by destruct (Hf ep) as [-> ->].
Qed.

Lemma isochStep_add_trace evs s : isochStep [] s (add_trace evs s).
Proof. by split. Qed.

Lemma PutTDonDoneQueue_step pED pTD s s' :
  PutTDonDoneQueue pED pTD s = Some s' → isochStep [pTD] s s'.
Proof.
  unfold PutTDonDoneQueue.
  destruct (getITD (heap s) pTD) as [itd|] eqn:Hitd; cbn.
  - destruct (itd_alignBuffer itd) as [[ab dma]|]; cbn.
    + destruct (isochEPs s !! pED) as [ep|]; [|done]. cbn.
      match goal with |- context [updITD pTD ?f ?st] =>
        rewrite (updITD_Some pTD f st itd) by (by destruct (ep_direction ep =? kUSBOut), dma)
      end.
      cbn. intros [= <-].
      eapply (isochStep_weaken ([] ++ [pTD] ++ [])); [set_solver|].
      eapply isochStep_trans; [|eapply isochStep_trans; [|apply isochStep_add_trace]].
      * instantiate (1 := if ep_direction ep =? kUSBOut
                          then add_trace [EvReleaseIsochAlignmentBuffer ab] s
                          else match dma with
                               | Some d => add_trace [EvStoreIsochAlignBuffer ab d] s
                               | None => s end).
        destruct (ep_direction ep =? kUSBOut), dma;
          first [apply isochStep_add_trace | apply isochStep_refl].
      * apply isochStep_updITD_align.
        by destruct (ep_direction ep =? kUSBOut), dma.
    + intros [= <-]. eapply isochStep_weaken; [|apply isochStep_add_trace]. set_solver.
  - intros [= <-]. eapply isochStep_weaken; [|apply isochStep_add_trace]. set_solver.
Qed.

Lemma scavengeAnIsochTD_step pTD s s' :
  scavengeAnIsochTD pTD s = Some s' → isochStep [pTD] s s'.
Proof.
  unfold scavengeAnIsochTD. destruct (getITD (heap s) pTD) as [itd|]; [|done]. cbn.
  destruct (itd_pEndpoint itd) as [pEP|].
  - intros Hp%PutTDonDoneQueue_step.
    eapply (isochStep_weaken ([] ++ [pTD])); [set_solver|].
    eapply isochStep_trans; [|exact Hp].
    destruct (itd_lowLatency itd); [apply isochStep_refl|apply isochStep_add_trace].
  - intros [= <-]. eapply isochStep_weaken; [|apply isochStep_add_trace]. set_solver.
Qed.

Lemma deliverITD_step p s s' : deliverITD p s = Some s' → isochStep [p] s s'.
Proof.
  unfold deliverITD. destruct (getITD (heap s) p) as [itd|] eqn:Hitd; [|done]. cbn.
  rewrite (updITD_Some _ _ _ _ Hitd). cbn.
  pose proof (isochStep_updITD_next p None s itd Hitd) as H1.
  match goal with |- context [set_heap ?h s] => set (s1 := set_heap h s) in * end.
  destruct (match itd_pEndpoint itd with Some ep => _ | None => _ end) as [s2|] eqn:E2;
    [|done]. cbn.
  intros H3%scavengeAnIsochTD_step.
  assert (H2 : isochStep [] s1 s2).
  { destruct (itd_pEndpoint itd); [|injection E2 as <-; apply isochStep_refl].
    eapply isochStep_updEP; [|exact E2]. done. }
  eapply (isochStep_weaken ([p] ++ [] ++ [p])); [set_solver|].
  eauto using isochStep_trans.
Qed.

(** The done queue stays what it was. *)
Lemma donePath_step ps s s' o l :
  isochStep ps s s' → donePath (heap s) o l → donePath (heap s') o l.
Proof.
  intros [F _ _ _]. revert o. induction l as [|p l IH]; intros o; [done|].
  intros [-> (t & Ht & Hl)]. specialize (F p). rewrite Ht in F.
  destruct (getITD (heap s') p) as [t'|] eqn:Ht'; [|done]. injection F as E _ _.
  split; [done|]. exists t'. split; [done|]. rewrite E. by apply IH.
Qed.

(** The reversed list is not disturbed by changes away from it. *)
Lemma itdList_step ps s s' o l :
  isochStep ps s s' → (∀ x, x ∈ l → x ∉ ps) →
  itdList (heap s) o l → itdList (heap s') o l.
Proof.
  intros [_ A _ _] Hd. apply linked_agree. intros p t Hp Ht.
  exists t. rewrite A; [done|]. by apply Hd.
Qed.

(** *** The reversal *)

(** The loop of the scavenger does to the first descriptors of the done
    queue what [reverseITDs] says, and stops at the last of them. *)
Lemma reverseDoneQueue_spec cachedProducer l : ∀ p prevEl cachedConsumer s,
  donePath (heap s) (Some p) l → l ≠ [] →
  (∀ k, (1 ≤ k ≤ length l)%nat →
        cachedProducer = wrap32 (cachedConsumer + Z.of_nat k) ↔ k = length l) →
  reverseDoneQueue (length l) p prevEl cachedConsumer cachedProducer s
  = s' ← reverseITDs l prevEl s; pl ← last l; Some (pl, cachedProducer, s').
Proof.
  induction l as [|p0 l IH]; intros p prevEl cachedConsumer s Hpath Hne Hcount; [done|].
  destruct Hpath as [[= <-] (t & Ht & Hl)].
  cbn [length reverseDoneQueue reverseITDs]. rewrite Ht. cbn.
  rewrite (updITD_Some _ _ _ _ Ht). cbn.
  pose proof (isochStep_updITD_next p prevEl s t Ht) as H1.
  match goal with |- context [set_heap ?h s] => set (s1 := set_heap h s) in * end.
  destruct (match itd_pEndpoint t with Some ep => _ | None => _ end) as [s2|] eqn:E2;
    [|done]. cbn.
  assert (H2 : isochStep [] s1 s2).
  { destruct (itd_pEndpoint t); [|injection E2 as <-; apply isochStep_refl].
    eapply isochStep_updEP; [|exact E2]. done. }
  pose proof (isochStep_trans _ _ _ _ _ H1 H2) as H12.
  destruct l as [|p1 l].
  - (* the last descriptor: the counts meet *)
    assert (cachedProducer = wrap32 (cachedConsumer + 1)) as ->.
    { apply (Hcount 1%nat); simpl; lia. }
    rewrite Z.eqb_refl. done.
  - assert (cachedProducer ≠ wrap32 (cachedConsumer + 1)) as Hneq.
    { intros E. apply (Hcount 1%nat) in E; [done|simpl; lia]. }
    apply Z.eqb_neq in Hneq. rewrite Hneq.
    pose proof (donePath_step _ _ _ _ _ H12 Hl) as Hl2.
    pose proof Hl2 as [E1 (t1 & Ht1 & _)]. rewrite E1 in *.
    rewrite (castITD_is_ITD _ _ _ Ht1). cbn [mbind option_bind].
    rewrite (IH p1 (Some p) (wrap32 (cachedConsumer + 1)) s2 Hl2); [done|done|].
    intros k Hk.
    assert (wrap32 (wrap32 (cachedConsumer + 1) + Z.of_nat k)
            = wrap32 (cachedConsumer + Z.of_nat (S k))) as ->.
    { unfold wrap32. rewrite Zplus_mod_idemp_l. f_equal. lia. }
    rewrite (Hcount (S k)) by (simpl in *; lia). simpl. lia.
Qed.
(** After the reversal the descriptors are linked by [_logicalNext] in the
    opposite order, in front of what was given as [prevEl]. *)
Lemma updEP_heap e f s s' : updEP e f s = Some s' → heap s' = heap s.
Proof.
  unfold updEP. destruct (isochEPs s !! e); [|done]. by intros [= <-].
Qed.

Lemma reverseITDs_links l : ∀ prevEl s s1 m,
  reverseITDs l prevEl s = Some s1 → NoDup l → (∀ x, x ∈ l → x ∉ m) →
  itdList (heap s) prevEl m →
  itdList (heap s1) (head (rev l ++ m)) (rev l ++ m).
Proof.
  induction l as [|p l IH]; intros prevEl s s1 m.
  - intros [= <-] _ _ Hm. cbn. by rewrite <- (linked_head _ _ _ _ _ Hm).
  - cbn [reverseITDs]. destruct (getITD (heap s) p) as [t|] eqn:Ht; [|done]. cbn.
    rewrite (updITD_Some _ _ _ _ Ht). cbn.
    match goal with |- context [set_heap ?h s] => set (s1' := set_heap h s) in * end.
    destruct (match itd_pEndpoint t with Some ep => _ | None => _ end) as [s2|] eqn:E2;
      [|done]. cbn.
    assert (heap s2 = <[p := ElemITD (set_itd_logicalNext prevEl t)]> (heap s)) as Eh.
    { destruct (itd_pEndpoint t); [|by injection E2 as <-].
      by rewrite (updEP_heap _ _ _ _ E2). }
    intros Hrev Hnd Hdis Hm. apply NoDup_cons in Hnd as [Hp Hnd].
    cbn [rev]. rewrite <- app_assoc. cbn [app].
    eapply (IH (Some p)); [exact Hrev|done| |].
    + intros x Hx [->|Hxm]%elem_of_cons; [done|].
      eapply Hdis; [|exact Hxm]. by right.
    + split; [done|]. rewrite Eh. eexists. split; [apply getITD_insert_eq|]. cbn.
      eapply linked_agree; [|exact Hm]. intros x t' Hx Ht'.
      exists t'. rewrite getITD_insert_ne; [done|].
      intros ->. eapply Hdis; [|exact Hx]. by left.
Qed.

Lemma head_rev_last {A} (l : list A) x : last l = Some x → head (rev l) = Some x.
Proof.
  intros (l' & ->)%last_Some. by rewrite rev_app_distr.
Qed.

(** *** The hand-over *)

Lemma drainDoneQueue_unfold fuel p s :
  drainDoneQueue (S fuel) (Some p) s
  = itd ← getITD (heap s) p;
    s' ← deliverITD p s;
    drainDoneQueue fuel (castITD (heap s) (itd_logicalNext itd)) s'.
Proof.
  unfold deliverITD. cbn [drainDoneQueue].
  destruct (getITD (heap s) p) as [t|]; [|done]. cbn.
  destruct (updITD p (set_itd_logicalNext None) s) as [s1|]; [|done]. cbn.
  destruct (match itd_pEndpoint t with Some ep => _ | None => _ end) as [s2|]; [|done].
  cbn. by destruct (scavengeAnIsochTD p s2).
Qed.

(** The second loop hands over the descriptors of the reversed list, in
    the order of the list. *)
Lemma drainDoneQueue_spec m : ∀ fuel o s,
  itdList (heap s) o m → (length m ≤ fuel)%nat →
  drainDoneQueue fuel o s = deliverITDs m s.
Proof.
  induction m as [|p m IH]; intros fuel o s Hm Hfuel.
  - cbn in Hm. subst o. by destruct fuel.
  - pose proof (linked_NoDup _ _ _ _ _ Hm) as [Hp _]%NoDup_cons.
    destruct Hm as [-> (t & Ht & Hm)].
    destruct fuel as [|fuel]; [cbn in Hfuel; lia|].
    rewrite drainDoneQueue_unfold, Ht. cbn [mbind option_bind deliverITDs].
    rewrite (itdList_cast _ _ _ Hm).
    destruct (deliverITD p s) as [s'|] eqn:Es'; [|done]. cbn.
    apply IH; [|cbn in Hfuel; lia].
    eapply itdList_step; [by apply deliverITD_step| |exact Hm].
    intros x Hx [->|[]%elem_of_nil]%elem_of_cons. done.
Qed.
(** *** The passes return *)

Lemma filter_iff {A} (P Q : A → Prop) `{!∀ x, Decision (P x)} `{!∀ x, Decision (Q x)}
    (l : list A) :
  (∀ x, P x ↔ Q x) → filter P l = filter Q l.
Proof.
  intros HPQ. induction l as [|x l IH]; [done|].
  rewrite !filter_cons, IH. destruct (decide (P x)), (decide (Q x)); naive_solver.
Qed.

Lemma filter_rev_length {A} (P : A → Prop) `{!∀ x, Decision (P x)} (l : list A) :
  length (filter P (rev l)) = length (filter P l).
Proof.
  induction l as [|x l IH]; [done|].
  cbn [rev]. rewrite filter_app, length_app, IH, !filter_cons, filter_nil.
  destruct (decide (P x)); cbn; lia.
Qed.

Lemma endpointOf_step ps s s' x :
  isochStep ps s s' → endpointOf (heap s') x = endpointOf (heap s) x.
Proof.
  intros [F _ _ _]. specialize (F x). unfold endpointOf.
  destruct (getITD (heap s') x) as [t'|], (getITD (heap s) x) as [t|]; try done.
  cbn. by injection F as _ E _.
Qed.

Lemma isochEPs_step ps s s' e :
  isochStep ps s s' → is_Some (isochEPs s' !! e) ↔ is_Some (isochEPs s !! e).
Proof.
  intros [_ _ E _]. specialize (E e).
  by destruct (isochEPs s' !! e), (isochEPs s !! e).
Qed.

Lemma endpointsKnown_step ps s s' l :
  isochStep ps s s' → endpointsKnown s l → endpointsKnown s' l.
Proof.
  intros Hstep Hk x e Hx He. rewrite (endpointOf_step _ _ _ _ Hstep) in He.
  apply (isochEPs_step _ _ _ _ Hstep). eauto.
Qed.

Lemma endpointsKnown_cons s p l :
  endpointsKnown s (p :: l) → endpointsKnown s l.
Proof. intros Hk x e Hx. apply Hk. by right. Qed.

Lemma countFor_step ps s s' e l :
  isochStep ps s s' → countFor (heap s') e l = countFor (heap s) e l.
Proof.
  intros Hstep. unfold countFor. do 2 f_equal. apply filter_iff.
  intros x. pose proof (endpointOf_step _ _ _ x Hstep) as E. unfold endpointOf in E.
  by rewrite E.
Qed.

Lemma endpointList_step ps s s' o l :
  isochStep ps s s' →
  endpointList (isochEPs s) o l → endpointList (isochEPs s') o l.
Proof.
  intros [_ _ E _]. revert o. induction l as [|p l IH]; intros o; [done|].
  intros [-> (ep & Hep & Hl)]. specialize (E p). rewrite Hep in E.
  destruct (isochEPs s' !! p) as [ep'|] eqn:Hep'; [|done]. injection E as E _.
  split; [done|]. exists ep'. split; [done|]. rewrite E. by apply IH.
Qed.

Lemma reverseITDs_Some l : ∀ o prevEl s,
  donePath (heap s) o l → endpointsKnown s l →
  ∃ s1, reverseITDs l prevEl s = Some s1 ∧ isochStep l s s1 ∧ trace s1 = trace s.
Proof.
  induction l as [|p l IH]; intros o prevEl s Hpath Hk.
  - exists s. eauto using isochStep_refl.
  - destruct Hpath as [-> (t & Ht & Hl)].
    cbn [reverseITDs]. rewrite Ht. cbn.
    rewrite (updITD_Some _ _ _ _ Ht). cbn.
    pose proof (isochStep_updITD_next p prevEl s t Ht) as H1.
    match goal with |- context [set_heap ?h s] => set (s1 := set_heap h s) in * end.
    assert (∃ s2, match itd_pEndpoint t with
                  | Some ep =>
                      updEP ep (λ e, set_onReversedList (wrap32 (onReversedList e + 1))
                                       (set_onProducerQ (wrap32 (onProducerQ e - 1)) e)) s1
                  | None => Some s1
                  end = Some s2 ∧ isochStep [] s1 s2 ∧ trace s2 = trace s)
      as (s2 & -> & H2 & Htr).
    { destruct (itd_pEndpoint t) as [e|] eqn:Ee; [|by eauto using isochStep_refl].
      destruct (Hk p e) as [ep Hep]; [by left|unfold endpointOf; by rewrite Ht|].
      match goal with |- context [updEP e ?f s1] =>
        assert (updEP e f s1 = Some (set_isochEPs (<[e := f ep]> (isochEPs s)) s1)) as Eu
          by (unfold updEP; change (isochEPs s1) with (isochEPs s); by rewrite Hep)
      end.
      eexists. split; [exact Eu|]. split; [|reflexivity].
      eapply isochStep_updEP; [|exact Eu]. done. }
    cbn. pose proof (isochStep_trans _ _ _ _ _ H1 H2) as H12.
    destruct (IH (itd_doneQueueLink t) (Some p) s2) as (s3 & -> & H3 & Htr3).
    { by eapply donePath_step. }
    { eapply endpointsKnown_step; [exact H12|]. by eapply endpointsKnown_cons. }
    exists s3. split; [done|]. split; [|congruence].
    eapply isochStep_weaken; [|eapply isochStep_trans; [exact H12|exact H3]].
    set_solver.
Qed.

Lemma delivered_app tr1 tr2 : delivered (tr1 ++ tr2) = delivered tr1 ++ delivered tr2.
Proof. apply omap_app. Qed.

Lemma withEndpoint_step ps s s' l :
  isochStep ps s s' → withEndpoint (heap s') l = withEndpoint (heap s) l.
Proof.
  intros Hstep. apply filter_iff. intros x.
  by rewrite (endpointOf_step _ _ _ x Hstep).
Qed.

Lemma PutTDonDoneQueue_Some pED pTD s :
  is_Some (isochEPs s !! pED) →
  ∃ s', PutTDonDoneQueue pED pTD s = Some s' ∧ isochEPs s' = isochEPs s
        ∧ delivered (trace s') = delivered (trace s) ++ [pTD].
Proof.
  intros [ep Hep]. unfold PutTDonDoneQueue.
  destruct (getITD (heap s) pTD) as [itd|] eqn:Hitd; cbn.
  - destruct (itd_alignBuffer itd) as [[ab dma]|]; cbn.
    + rewrite Hep. cbn.
      match goal with |- context [updITD pTD ?f ?st] =>
        rewrite (updITD_Some pTD f st itd) by (by destruct (ep_direction ep =? kUSBOut), dma)
      end.
      cbn. eexists. split; [done|]. cbn.
      split; [by destruct (ep_direction ep =? kUSBOut), dma|].
      rewrite delivered_app. f_equal.
      destruct (ep_direction ep =? kUSBOut), dma; cbn; try done;
        rewrite delivered_app; cbn; by rewrite app_nil_r.
    + eexists. split; [done|]. cbn. by rewrite delivered_app.
  - eexists. split; [done|]. cbn. by rewrite delivered_app.
Qed.

Lemma scavengeAnIsochTD_Some p s t :
  getITD (heap s) p = Some t →
  (∀ e, itd_pEndpoint t = Some e → is_Some (isochEPs s !! e)) →
  ∃ s', scavengeAnIsochTD p s = Some s' ∧ isochEPs s' = isochEPs s
        ∧ delivered (trace s')
          = delivered (trace s)
            ++ match itd_pEndpoint t with Some _ => [p] | None => [] end.
Proof.
  intros Ht Hk. unfold scavengeAnIsochTD. rewrite Ht. cbn.
  destruct (itd_pEndpoint t) as [e|].
  - set (s0 := if itd_lowLatency t then s else add_trace [EvUpdateFrameList p] s).
    destruct (PutTDonDoneQueue_Some e p s0) as (s' & -> & Eeps & Etr).
    { subst s0. destruct (itd_lowLatency t); by apply Hk. }
    exists s'. split; [done|]. rewrite Eeps, Etr. subst s0.
    destruct (itd_lowLatency t); [done|]. split; [done|].
    cbn. rewrite delivered_app. cbn. by rewrite app_nil_r.
  - eexists. split; [done|]. cbn. split; [done|]. rewrite delivered_app. done.
Qed.
Lemma deliverITD_Some p s t :
  getITD (heap s) p = Some t →
  (∀ e, itd_pEndpoint t = Some e → is_Some (isochEPs s !! e)) →
  ∃ s', deliverITD p s = Some s'
        ∧ delivered (trace s')
          = delivered (trace s)
            ++ match itd_pEndpoint t with Some _ => [p] | None => [] end.
Proof.
  intros Ht Hk. unfold deliverITD. rewrite Ht. cbn.
  rewrite (updITD_Some _ _ _ _ Ht). cbn.
  match goal with |- context [set_heap ?h s] => set (s1 := set_heap h s) in * end.
  assert (∃ s2, match itd_pEndpoint t with
                | Some ep =>
                    updEP ep (λ e, set_onReversedList (wrap32 (onReversedList e - 1)) e) s1
                | None => Some s1
                end = Some s2 ∧ heap s2 = heap s1 ∧ trace s2 = trace s
                ∧ ∀ e, is_Some (isochEPs s !! e) → is_Some (isochEPs s2 !! e))
    as (s2 & -> & Eh & Etr & Hdom).
  { destruct (itd_pEndpoint t) as [e|] eqn:Ee; [|by eauto].
    destruct (Hk e) as [ep Hep]; [done|].
    unfold updEP. change (isochEPs s1) with (isochEPs s). rewrite Hep. cbn.
    eexists. split; [done|]. split; [reflexivity|]. split; [reflexivity|].
    intros e' He'. cbn. rewrite lookup_insert. by case_decide. }
  cbn.
  destruct (scavengeAnIsochTD_Some p s2 (set_itd_logicalNext None t))
    as (s3 & -> & _ & Etr3).
  { rewrite Eh. apply getITD_insert_eq. }
  { intros e He. apply Hdom, Hk. exact He. }
  exists s3. split; [done|]. rewrite Etr3, Etr. done.
Qed.

Lemma withEndpoint_cons h p l t :
  getITD h p = Some t →
  withEndpoint h (p :: l)
  = match itd_pEndpoint t with Some _ => [p] | None => [] end ++ withEndpoint h l.
Proof.
  intros Ht. unfold withEndpoint. rewrite filter_cons.
  assert (endpointOf h p = itd_pEndpoint t) as E by (unfold endpointOf; by rewrite Ht).
  case_decide as Hs; rewrite E in Hs; destruct (itd_pEndpoint t); try done.
  by destruct Hs.
Qed.

Lemma deliverITDs_Some m : ∀ o s,
  itdList (heap s) o m → endpointsKnown s m →
  ∃ s2, deliverITDs m s = Some s2 ∧ isochStep m s s2
        ∧ delivered (trace s2) = delivered (trace s) ++ withEndpoint (heap s) m.
Proof.
  induction m as [|p m IH]; intros o s Hm Hk.
  - exists s. split; [done|]. split; [apply isochStep_refl|]. by rewrite app_nil_r.
  - pose proof (linked_NoDup _ _ _ _ _ Hm) as [Hp _]%NoDup_cons.
    destruct Hm as [-> (t & Ht & Hm)]. cbn [deliverITDs].
    destruct (deliverITD_Some p s t Ht) as (s1 & Es1 & Etr1).
    { intros e He. apply (Hk p); [by left|]. unfold endpointOf. by rewrite Ht. }
    rewrite Es1. cbn [mbind option_bind]. pose proof (deliverITD_step _ _ _ Es1) as H1.
    destruct (IH (itd_logicalNext t) s1) as (s2 & -> & H2 & Etr2).
    { eapply itdList_step; [exact H1| |exact Hm].
      intros x Hx [->|[]%elem_of_nil]%elem_of_cons. done. }
    { eapply endpointsKnown_step; [exact H1|]. by eapply endpointsKnown_cons. }
    exists s2. split; [done|]. split.
    + eapply isochStep_weaken; [|eapply isochStep_trans; [exact H1|exact H2]]. set_solver.
    + rewrite Etr2, Etr1, (withEndpoint_step _ _ _ _ H1), (withEndpoint_cons _ _ _ _ Ht).
      by rewrite app_assoc.
Qed.

Lemma isochEndpointLoop_Some l : ∀ fuel o s,
  endpointList (isochEPs s) o l → (length l ≤ fuel)%nat →
  ∃ s', isochEndpointLoop fuel o s = Some s' ∧ isochStep [] s s'
        ∧ isochEPs s' = isochEPs s ∧ delivered (trace s') = delivered (trace s).
Proof.
  induction l as [|p l IH]; intros fuel o s Hl Hfuel.
  - cbn in Hl. subst o. exists s. split; [by destruct fuel|].
    split; [apply isochStep_refl|done].
  - destruct Hl as [-> (ep & Hep & Hl)].
    destruct fuel as [|fuel]; [cbn in Hfuel; lia|].
    cbn [isochEndpointLoop]. rewrite Hep. cbn [mbind option_bind].
    match goal with |- context [isochEndpointLoop fuel (nextEP ep) ?st] =>
      set (s1 := st) end.
    assert (isochStep [] s s1 ∧ isochEPs s1 = isochEPs s
            ∧ delivered (trace s1) = delivered (trace s)) as (H1 & Eeps & Etr).
    { subst s1. destruct (nonzero (onReversedList ep)); cbn.
      - split; [|split; [done|]].
        + eapply (isochStep_trans [] []); apply isochStep_add_trace.
        + rewrite !delivered_app. cbn. by rewrite !app_nil_r.
      - split; [apply isochStep_add_trace|]. split; [done|].
        rewrite delivered_app. cbn. by rewrite app_nil_r. }
    destruct (IH fuel (nextEP ep) s1) as (s' & -> & H2 & Eeps2 & Etr2).
    { by rewrite Eeps. }
    { cbn in Hfuel. lia. }
    exists s'. split; [done|]. split; [|split; congruence].
    eapply (isochStep_trans [] []); eauto.
Qed.
(** *** The counters of the endpoints *)

Lemma countFor_cons h e p l t :
  getITD h p = Some t →
  countFor h e (p :: l)
  = (if decide (itd_pEndpoint t = Some e) then 1 else 0) + countFor h e l.
Proof.
  intros Ht. unfold countFor. rewrite filter_cons.
  assert (getITD h p ≫= itd_pEndpoint = itd_pEndpoint t) as E by (by rewrite Ht).
  case_decide as Hs; rewrite E in Hs; case_decide; try done; cbn [length]; lia.
Qed.

Lemma countFor_rev h e l : countFor h e (rev l) = countFor h e l.
Proof. unfold countFor. by rewrite filter_rev_length. Qed.

Lemma wrap32_range x : 0 ≤ wrap32 x < 2 ^ 32.
Proof. unfold wrap32. apply Z.mod_pos_bound. lia. Qed.

Lemma wrap32_small x : 0 ≤ x < 2 ^ 32 → wrap32 x = x.
Proof. unfold wrap32. apply Z.mod_small. Qed.

Lemma updEP_lookup e0 f s s' e ep :
  updEP e0 f s = Some s' → isochEPs s !! e = Some ep →
  isochEPs s' !! e = Some (if decide (e0 = e) then f ep else ep).
Proof.
  unfold updEP. destruct (isochEPs s !! e0) as [ep0|] eqn:E0; [|done].
  intros [= <-] Hep. cbn. rewrite lookup_insert. case_decide; [|done].
  subst. congruence.
Qed.

Lemma reverseITDs_counters l : ∀ prevEl s s1 e ep,
  reverseITDs l prevEl s = Some s1 → isochEPs s !! e = Some ep →
  0 ≤ onProducerQ ep < 2 ^ 32 → 0 ≤ onReversedList ep < 2 ^ 32 →
  ∃ ep1, isochEPs s1 !! e = Some ep1
    ∧ onProducerQ ep1 = wrap32 (onProducerQ ep - countFor (heap s) e l)
    ∧ onReversedList ep1 = wrap32 (onReversedList ep + countFor (heap s) e l).
Proof.
  induction l as [|p l IH]; intros prevEl s s1 e ep.
  - intros [= <-] Hep HQ HR. exists ep. split; [done|]. unfold countFor. cbn.
    rewrite Z.sub_0_r, Z.add_0_r, !wrap32_small; done.
  - cbn [reverseITDs]. destruct (getITD (heap s) p) as [t|] eqn:Ht; [|done]. cbn.
    rewrite (updITD_Some _ _ _ _ Ht). cbn.
    pose proof (isochStep_updITD_next p prevEl s t Ht) as H1.
    match goal with |- context [set_heap ?h s] => set (s1' := set_heap h s) in * end.
    destruct (match itd_pEndpoint t with Some ep => _ | None => _ end) as [s2|] eqn:E2;
      [|done]. cbn.
    intros Hrev Hep HQ HR. rewrite (countFor_cons _ _ _ _ _ Ht).
    assert (countFor (heap s2) e l = countFor (heap s) e l) as Ec.
    { eapply countFor_step. eapply isochStep_trans; [exact H1|].
      destruct (itd_pEndpoint t); [|injection E2 as <-; apply isochStep_refl].
      eapply isochStep_updEP; [|exact E2]. done. }
    destruct (itd_pEndpoint t) as [e0|].
    + pose proof (updEP_lookup _ _ _ _ e ep E2 Hep) as Hep2.
      destruct (decide (e0 = e)) as [->|He0].
      * rewrite decide_True by done.
        destruct (IH _ _ _ _ _ Hrev Hep2) as (ep1 & Hep1 & EQ & ER);
          [cbn; apply wrap32_range..|].
        exists ep1. split; [done|]. rewrite EQ, ER, Ec. cbn. unfold wrap32.
        rewrite Zminus_mod_idemp_l, Zplus_mod_idemp_l. split; f_equal; lia.
      * rewrite decide_False by congruence.
        destruct (IH _ _ _ _ _ Hrev Hep2) as (ep1 & Hep1 & EQ & ER); [done..|].
        exists ep1. split; [done|]. rewrite EQ, ER, Ec. split; f_equal; lia.
    + injection E2 as <-. rewrite decide_False by done.
      destruct (IH _ _ _ _ _ Hrev Hep) as (ep1 & Hep1 & EQ & ER); [done..|].
      exists ep1. split; [done|]. rewrite EQ, ER, Ec. split; f_equal; lia.
Qed.

Lemma scavengeAnIsochTD_eps p s s' :
  scavengeAnIsochTD p s = Some s' → isochEPs s' = isochEPs s.
Proof.
  unfold scavengeAnIsochTD. destruct (getITD (heap s) p) as [t|]; [|done]. cbn.
  destruct (itd_pEndpoint t) as [e|]; [|by intros [= <-]].
  set (s0 := if itd_lowLatency t then s else add_trace [EvUpdateFrameList p] s).
  assert (isochEPs s0 = isochEPs s) as <- by (subst s0; by destruct (itd_lowLatency t)).
  clearbody s0. unfold PutTDonDoneQueue.
  destruct (getITD (heap s0) p) as [itd|]; cbn; [|by intros [= <-]].
  destruct (itd_alignBuffer itd) as [[ab dma]|]; cbn; [|by intros [= <-]].
  destruct (isochEPs s0 !! e) as [ep|]; [|done]. cbn. unfold updITD.
  match goal with |- context [getITD ?h p] => destruct (getITD h p); [|done] end.
  cbn. intros [= <-]. cbn. by destruct (ep_direction ep =? kUSBOut), dma.
Qed.

Lemma deliverITDs_counters m : ∀ s s2 e ep,
  deliverITDs m s = Some s2 → isochEPs s !! e = Some ep →
  0 ≤ onReversedList ep < 2 ^ 32 →
  ∃ ep2, isochEPs s2 !! e = Some ep2
    ∧ onProducerQ ep2 = onProducerQ ep
    ∧ onReversedList ep2 = wrap32 (onReversedList ep - countFor (heap s) e m).
Proof.
  induction m as [|p m IH]; intros s s2 e ep.
  - intros [= <-] Hep HR. exists ep. split; [done|]. unfold countFor. cbn.
    rewrite Z.sub_0_r, wrap32_small; done.
  - cbn [deliverITDs]. destruct (deliverITD p s) as [s1|] eqn:Es1; [|done].
    cbn [mbind option_bind]. intros Hm Hep HR.
    pose proof (countFor_step _ _ _ e m (deliverITD_step _ _ _ Es1)) as Ec.
    unfold deliverITD in Es1.
    destruct (getITD (heap s) p) as [t|] eqn:Ht; [|done]. cbn in Es1.
    rewrite (updITD_Some _ _ _ _ Ht) in Es1. cbn in Es1.
    match type of Es1 with context [set_heap ?h s] => set (s1' := set_heap h s) in * end.
    destruct (match itd_pEndpoint t with Some ep => _ | None => _ end) as [s2'|] eqn:E2;
      [|done]. cbn in Es1. apply scavengeAnIsochTD_eps in Es1.
    rewrite (countFor_cons _ _ _ _ _ Ht).
    destruct (itd_pEndpoint t) as [e0|].
    + pose proof (updEP_lookup _ _ _ _ e ep E2 Hep) as Hep2. rewrite <- Es1 in Hep2.
      destruct (decide (e0 = e)) as [->|He0].
      * rewrite decide_True by done.
        destruct (IH _ _ _ _ Hm Hep2) as (ep2 & Hep2' & EQ & ER);
          [cbn; apply wrap32_range|].
        exists ep2. split; [done|]. rewrite EQ, ER, Ec. cbn. unfold wrap32.
        rewrite Zminus_mod_idemp_l. split; [done|]. f_equal; lia.
      * rewrite decide_False by congruence.
        destruct (IH _ _ _ _ Hm Hep2) as (ep2 & Hep2' & EQ & ER); [done|].
        exists ep2. split; [done|]. rewrite EQ, ER, Ec. split; [done|]. f_equal; lia.
    + injection E2 as <-. rewrite decide_False by done.
      change (isochEPs s1') with (isochEPs s) in Es1. rewrite <- Es1 in Hep.
      destruct (IH _ _ _ _ Hm Hep) as (ep2 & Hep2' & EQ & ER); [done|].
      exists ep2. split; [done|]. rewrite EQ, ER, Ec. split; [done|]. f_equal; lia.
Qed.
Lemma elem_of_rev {A} (x : A) l : x ∈ rev l ↔ x ∈ l.
Proof. rewrite !list_elem_of_In. symmetry. apply in_rev. Qed.

Lemma count_meets P C n :
  0 ≤ P < 2 ^ 32 → Z.of_nat n = wrap32 (P - C) →
  ∀ k, (1 ≤ k ≤ n)%nat → P = wrap32 (C + Z.of_nat k) ↔ k = n.
Proof.
  intros HP Hn k Hk. pose proof (wrap32_range (P - C)) as Hr. split.
  - intros E. assert (wrap32 (P - C) = Z.of_nat k) as E'; [|lia].
    rewrite E at 1. unfold wrap32. rewrite Zminus_mod_idemp_l.
    replace (C + Z.of_nat k - C) with (Z.of_nat k) by lia.
    apply Z.mod_small. lia.
  - intros ->. rewrite Hn. unfold wrap32. rewrite Zplus_mod_idemp_r.
    replace (C + (P - C)) with P by lia. symmetry. by apply Z.mod_small.
Qed.

(** C3: a pass of [scavengeIsochTransactions] over a done queue of
    [n = P − C > 0] descriptors [l], linked by [_doneQueueLink] with the
    latest first, returns success and is the pass of the specification:
    the descriptors are handed to [scavengeAnIsochTD] in the opposite,
    chronological order, and those with an endpoint reach its done queue
    in this order; no other descriptor is touched; the consumer count is
    the producer count afterwards; and every endpoint has its
    on-producer-queue counter lowered by the number of its descriptors
    and its on-reversed-list counter back at its value. *)
Theorem scavengeIsochTransactions_reversal fuel s p l eps :
  _savedDoneQueueHead s = Some p →
  0 ≤ _producerCount s < 2 ^ 32 →
  l ≠ [] →
  Z.of_nat (length l) = wrap32 (_producerCount s - _consumerCount s) →
  donePath (heap s) (Some p) l → NoDup l →
  endpointsKnown s l → countersInRange s →
  endpointList (isochEPs s) (_isochEPList s) eps →
  (length l ≤ fuel)%nat → (length eps ≤ fuel)%nat →
  ∃ s',
    scavengeIsochTransactions fuel s = Some (kIOReturnSuccess, s')
    ∧ isochPass fuel l s = Some (kIOReturnSuccess, s')
    ∧ delivered (trace s') = delivered (trace s) ++ withEndpoint (heap s) (rev l)
    ∧ (∀ x, x ∉ l → getITD (heap s') x = getITD (heap s) x)
    ∧ _consumerCount s' = _producerCount s
    ∧ ∀ e ep, isochEPs s !! e = Some ep →
        ∃ ep', isochEPs s' !! e = Some ep'
          ∧ onProducerQ ep' = wrap32 (onProducerQ ep - countFor (heap s) e l)
          ∧ onReversedList ep' = onReversedList ep.
Proof.
  intros Hhead HP Hne Hlen Hpath Hnd Hk Hrange Heps Hfuel Hfuel'.
  (* the reversal *)
  destruct (reverseITDs_Some l (Some p) None s Hpath Hk) as (s1 & Es1 & H1 & Etr1).
  destruct (last l) as [pl|] eqn:Hlast; [|by apply last_None in Hlast].
  pose proof (reverseITDs_links l None s s1 [] Es1 Hnd) as Hlist.
  rewrite app_nil_r, (head_rev_last _ _ Hlast) in Hlist.
  specialize (Hlist (λ x _, not_elem_of_nil x) eq_refl).
  assert (_producerCount s1 = _producerCount s) as EP1.
  { destruct H1 as [_ _ _ G]. by injection G. }
  (* the hand-over *)
  set (sc := set_consumerCount (_producerCount s) s1).
  assert (endpointsKnown s1 (rev l)) as Hk1.
  { eapply endpointsKnown_step; [exact H1|]. intros x e Hx. apply Hk.
    by apply elem_of_rev. }
  destruct (deliverITDs_Some (rev l) (Some pl) sc Hlist Hk1) as (s2 & Es2 & H2 & Etr2).
  (* the endpoints *)
  assert (endpointList (isochEPs s2) (_isochEPList s2) eps) as Heps2.
  { eapply endpointList_step; [exact H2|].
    replace (_isochEPList s2) with (_isochEPList s).
    - change (isochEPs sc) with (isochEPs s1). by eapply endpointList_step.
    - destruct H1 as [_ _ _ G1], H2 as [_ _ _ G2]. cbn in G2.
      injection G1 as _ _ <- _ _. by injection G2 as _ _ <- _ _. }
  destruct (isochEndpointLoop_Some eps fuel _ s2 Heps2 Hfuel') as (s3 & Es3 & H3 & Eeps3 & Etr3).
  assert (isochPass fuel l s = Some (kIOReturnSuccess, s3)) as Hpass.
  { unfold isochPass. rewrite Es1. cbn [mbind option_bind]. rewrite EP1.
    fold sc. rewrite Es2. cbn [mbind option_bind]. by rewrite Es3. }
  exists s3. split; [|split; [exact Hpass|]].
  - rewrite <- Hpass. unfold scavengeIsochTransactions, isochPass. rewrite Hhead.
    assert (_consumerCount s ≠ _producerCount s) as Hcp.
    { intros E. rewrite E, Z.sub_diag in Hlen. destruct l; [done|]. cbn in Hlen.
      unfold wrap32 in Hlen. rewrite Z.mod_0_l in Hlen; lia. }
    apply Z.eqb_neq in Hcp. rewrite Hcp. cbn [negb].
    rewrite <- Hlen, Nat2Z.id.
    rewrite (reverseDoneQueue_spec _ l p None _ s Hpath Hne (count_meets _ _ _ HP Hlen)).
    rewrite Es1. cbn [mbind option_bind]. rewrite Hlast. cbn [mbind option_bind].
    rewrite EP1. fold sc.
    rewrite (drainDoneQueue_spec (rev l) fuel (Some pl) sc Hlist)
      by (by rewrite length_rev).
    done.
  - split; [|split; [|split]].
    + rewrite Etr3, Etr2. change (trace sc) with (trace s1). rewrite Etr1.
      change (heap sc) with (heap s1). by rewrite (withEndpoint_step _ _ _ _ H1).
    + intros x Hx. destruct H1 as [_ A1 _ _], H2 as [_ A2 _ _], H3 as [_ A3 _ _].
      rewrite A3, A2, <- A1; [done|done| |apply not_elem_of_nil].
      intros Hx'. apply Hx. by apply elem_of_rev.
    + destruct H2 as [_ _ _ G2], H3 as [_ _ _ G3]. cbn in G2.
      injection G3 as _ -> _ _ _. by injection G2 as _ -> _ _ _.
    + intros e ep Hep. destruct (Hrange e ep Hep) as [HQ HR].
      destruct (reverseITDs_counters l None s s1 e ep Es1 Hep HQ HR)
        as (ep1 & Hep1 & EQ1 & ER1).
      destruct (deliverITDs_counters (rev l) sc s2 e ep1 Es2 Hep1)
        as (ep2 & Hep2 & EQ2 & ER2).
      { rewrite ER1. apply wrap32_range. }
      exists ep2. rewrite Eeps3. split; [done|].
      change (heap sc) with (heap s1) in ER2.
      rewrite countFor_rev, (countFor_step _ _ _ _ _ H1) in ER2.
      rewrite EQ2, EQ1, ER2, ER1. split; [done|].
      unfold wrap32. rewrite Zminus_mod_idemp_l.
      replace (onReversedList ep + countFor (heap s) e l - countFor (heap s) e l)
        with (onReversedList ep) by lia.
      by apply Z.mod_small.
Qed.
End Isoch.

(** Three descriptors of two endpoints, handed over as 1, 2, 3. *)
Lemma scavengeIsochTransactions_reversal_witness :
  ∃ s',
    scavengeIsochTransactions 3 isochUHCI = Some (kIOReturnSuccess, s')
    ∧ isochPass 3 [3; 2; 1]%nat isochUHCI = Some (kIOReturnSuccess, s')
    ∧ delivered (trace s')
      = delivered (trace isochUHCI)
        ++ withEndpoint (heap isochUHCI) (rev [3; 2; 1]%nat)
    ∧ (∀ x, x ∉ [3; 2; 1]%nat → getITD (heap s') x = getITD (heap isochUHCI) x)
    ∧ _consumerCount s' = _producerCount isochUHCI
    ∧ ∀ e ep, isochEPs isochUHCI !! e = Some ep →
        ∃ ep', isochEPs s' !! e = Some ep'
          ∧ onProducerQ ep'
            = wrap32 (onProducerQ ep - countFor (heap isochUHCI) e [3; 2; 1]%nat)
          ∧ onReversedList ep' = onReversedList ep.
Proof.
  refine (scavengeIsochTransactions_reversal 3 isochUHCI 3%nat [3; 2; 1]%nat
            [10; 11]%nat _ _ _ _ _ _ _ _ _ _ _); try reflexivity.
  - vm_compute. split; [discriminate|reflexivity].
  - discriminate.
  - repeat (split; [reflexivity|]; eexists; split; [reflexivity|]). exact I.
  - by apply (bool_decide_unpack _).
  - intros x e Hx He.
    assert (e = 10%nat ∨ e = 11%nat) as [-> | ->]; [|by eexists..].
    repeat (apply elem_of_cons in Hx as [->|Hx]);
      [injection He as <-; auto..|by apply elem_of_nil in Hx].
  - by apply (bool_decide_unpack _).
  - repeat (split; [reflexivity|]; eexists; split; [reflexivity|]). reflexivity.
  - cbn. lia.
Defined.

(** ** The dispatch of the done chain *)

Section Dispatch.
Context `{Header}.

(** A step of the dispatch: the descriptors away from [ps] are as they
    were, and no descriptor or queue head has gone. *)
Record doneStep (ps : list ptr) (s s' : UHCI) : Prop := {
  ds_td : ∀ x, x ∉ ps → getTD (heap s') x = getTD (heap s) x;
  ds_tdSome : ∀ x, is_Some (getTD (heap s) x) → is_Some (getTD (heap s') x);
  ds_qh : ∀ q, is_Some (getQH (heap s) q) → is_Some (getQH (heap s') q);
  ds_lastQH : _lastQH s' = _lastQH s;
}.

Lemma doneStep_refl ps s : doneStep ps s s.
Proof. by split. Qed.

Lemma doneStep_trans ps1 ps2 s1 s2 s3 :
  doneStep ps1 s1 s2 → doneStep ps2 s2 s3 → doneStep (ps1 ++ ps2) s1 s3.
Proof.
  intros [A1 B1 C1 D1] [A2 B2 C2 D2]. split; [|by auto..|congruence].
  intros x Hx. rewrite A2, A1; [done|..]; intros ?; apply Hx, elem_of_app; auto.
Qed.

Lemma doneStep_weaken ps ps' s s' :
  (∀ x, x ∈ ps → x ∈ ps') → doneStep ps s s' → doneStep ps' s s'.
Proof. intros Hsub [A B C D]. split; auto. Qed.

Lemma doneStep_add_trace evs s : doneStep [] s (add_trace evs s).
Proof. by split. Qed.

Lemma doneStep_updTD p f s s' :
  updTD p f s = Some s' → doneStep [p] s s'.
Proof.
  unfold updTD. destruct (getTD (heap s) p) as [t|] eqn:Ht; [|done].
  intros [= <-]. split; cbn; [| | |done].
  - intros x Hx. rewrite getTD_insert_ne; [done|]. intros ->. apply Hx. by left.
  - intros x Hx. rewrite getTD_insert. by case_decide.
  - intros q Hq. by rewrite (getQH_insert_TD _ _ _ _ _ Ht).
Qed.

Lemma doneStep_updQH q f s s' :
  updQH q f s = Some s' → doneStep [] s s'.
Proof.
  unfold updQH. destruct (getQH (heap s) q) as [t|] eqn:Ht; [|done].
  intros [= <-]. split; cbn; [| | |done].
  - intros x _. by rewrite (getTD_insert_QH _ _ _ _ _ Ht).
  - intros x Hx. by rewrite (getTD_insert_QH _ _ _ _ _ Ht).
  - intros q' Hq. rewrite getQH_insert. by case_decide.
Qed.

Lemma updTD_fields p f s s' :
  updTD p f s = Some s' →
  trace s' = trace s ∧ _pLastFreeTD s' = _pLastFreeTD s
  ∧ _controlBulkTransactionsOut s' = _controlBulkTransactionsOut s.
Proof.
  unfold updTD. destruct (getTD (heap s) p); [|done]. by intros [= <-].
Qed.

Lemma updTD_is_Some p f s :
  is_Some (getTD (heap s) p) → is_Some (updTD p f s).
Proof. intros [t Ht]. unfold updTD. rewrite Ht. by eexists. Qed.

Lemma dispatchEvents_app tr1 tr2 :
  dispatchEvents (tr1 ++ tr2) = dispatchEvents tr1 ++ dispatchEvents tr2.
Proof. apply omap_app. Qed.

Lemma controlBulkDone_Some q s :
  is_Some (getQH (heap s) q) →
  (∃ lq, _lastQH s = Some lq ∧ is_Some (getQH (heap s) lq)) →
  ∃ s', controlBulkDone q s = Some s' ∧ doneStep [] s s'
        ∧ dispatchEvents (trace s') = dispatchEvents (trace s)
        ∧ _pLastFreeTD s' = _pLastFreeTD s.
Proof.
  intros [qh Hq] (lq & Hlq & [last Hlast]). unfold controlBulkDone. rewrite Hq. cbn.
  destruct ((qh_type qh =? kUSBControl) || (qh_type qh =? kUSBBulk));
    [|by eauto using doneStep_refl].
  destruct (_controlBulkTransactionsOut s =? 0).
  { eexists. split; [done|]. split; [apply doneStep_add_trace|]. cbn.
    rewrite dispatchEvents_app. cbn. by rewrite app_nil_r. }
  cbn. destruct (wrap32 (_controlBulkTransactionsOut s - 1) =? 0).
  - rewrite Hlq. cbn. rewrite Hlast. cbn. unfold updQH. cbn. rewrite Hlast. cbn.
    eexists. split; [done|]. split; [|done].
    split; cbn; [| | |done].
    + intros x _. by rewrite (getTD_insert_QH _ _ _ _ _ Hlast).
    + intros x Hx. by rewrite (getTD_insert_QH _ _ _ _ _ Hlast).
    + intros q' Hq'. rewrite getQH_insert. by case_decide.
  - eexists. split; [done|]. by split.
Qed.

Lemma DeallocateTD_Some p s :
  is_Some (getTD (heap s) p) →
  (∀ f, _pLastFreeTD s = Some f → is_Some (getTD (heap s) f)) →
  ∃ s', DeallocateTD p s = Some s'
        ∧ doneStep (p :: match _pLastFreeTD s with Some f => [f] | None => [] end) s s'
        ∧ trace s' = trace s ∧ _pLastFreeTD s' = Some p.
Proof.
  intros Hp Hf. unfold DeallocateTD.
  destruct (updTD_is_Some p (λ t, set_td_logicalNext None (set_td_ctrlStatus 0 t)) s Hp)
    as [s1 Es1].
  rewrite Es1. cbn. pose proof (doneStep_updTD _ _ _ _ Es1) as H1.
  destruct (updTD_fields _ _ _ _ Es1) as (Etr1 & Ef1 & _). rewrite Ef1.
  destruct (_pLastFreeTD s) as [f|] eqn:Ef.
  - destruct (updTD_is_Some f (set_td_logicalNext (Some p)) s1) as [s2 Es2].
    { apply H1. by apply Hf. }
    rewrite Es2. cbn. pose proof (doneStep_updTD _ _ _ _ Es2) as H2.
    destruct (updTD_fields _ _ _ _ Es2) as (Etr2 & _ & _).
    eexists. split; [done|]. split; [|split; [cbn; congruence|done]].
    eapply (doneStep_trans [p] [f] s s1); [done|].
    destruct H2 as [A B C D]. by split.
  - eexists. split; [done|]. split; [|by split].
    destruct H1 as [A B C D]. by split.
Qed.
Lemma firstError_snoc tds td :
  firstError (tds ++ [td])
  = if firstError tds =? kIOReturnSuccess
    then TDToUSBError (USBToHostLong (td_ctrlStatus td))
    else firstError tds.
Proof.
  induction tds as [|t tds IH]; cbn [app firstError].
  - rewrite Z.eqb_refl. by destruct (_ =? kIOReturnSuccess) eqn:E; [apply Z.eqb_eq in E|].
  - destruct (TDToUSBError _ =? kIOReturnSuccess) eqn:E; [done|]. by rewrite E.
Qed.

Lemma residualSum_snoc tds td :
  residualSum (tds ++ [td]) = wrap32 (residualSum tds + residual td).
Proof.
  unfold residualSum, wrap32. rewrite Zplus_mod_idemp_l. f_equal.
  induction tds as [|t tds IH]; cbn; [lia|]. rewrite IH. lia.
Qed.

Lemma doneQueueStatus_spec td forceErr E s cur :
  (forceErr = kIOReturnSuccess → E = firstError cur) →
  ∃ E1 s1,
    doneQueueStatus td forceErr E s = (statusOf forceErr (cur ++ [td]), E1, s1)
    ∧ (forceErr = kIOReturnSuccess → E1 = firstError (cur ++ [td]))
    ∧ doneStep [] s s1 ∧ dispatchEvents (trace s1) = dispatchEvents (trace s)
    ∧ heap s1 = heap s ∧ _pLastFreeTD s1 = _pLastFreeTD s.
Proof.
  intros HE. unfold doneQueueStatus, statusOf. rewrite firstError_snoc.
  destruct (forceErr =? kIOReturnSuccess) eqn:Ef; cbn [negb].
  - apply Z.eqb_eq in Ef. rewrite <- (HE Ef).
    destruct (E =? kIOReturnSuccess) eqn:Ee; cbn [negb].
    + eexists _, _. split; [done|]. split; [done|].
      destruct (nonzero _ && nonzero _); [|by eauto using doneStep_refl].
      split; [apply doneStep_add_trace|]. cbn. rewrite dispatchEvents_app. cbn.
      by rewrite app_nil_r.
    + eexists _, _. split; [done|]. eauto using doneStep_refl.
  - apply Z.eqb_neq in Ef. eexists _, _. split; [done|].
    split; [done|]. eauto using doneStep_refl.
Qed.

Lemma doneQueueComplete_spec p td forceErr E s cur :
  getTD (heap s) p = Some td →
  (is_Some (completionOf td) → ∃ q, td_pQH td = Some q ∧ is_Some (getQH (heap s) q)) →
  (∃ lq, _lastQH s = Some lq ∧ is_Some (getQH (heap s) lq)) →
  (forceErr = kIOReturnSuccess → E = firstError (cur ++ [td])) →
  ∃ B' E' s2,
    doneQueueComplete p td (statusOf forceErr (cur ++ [td])) (residualSum (cur ++ [td])) E s
    = Some (B', E', s2)
    ∧ doneStep [p] s s2 ∧ _pLastFreeTD s2 = _pLastFreeTD s
    ∧ dispatchEvents (trace s2 ++ [LogDeallocatingTD p])
      = dispatchEvents (trace s)
        ++ match completionOf td with
           | Some action =>
               [EvComplete action (statusOf forceErr (cur ++ [td]))
                  (residualSum (cur ++ [td]));
                LogDeallocatingTD p]
           | None => quietLog p td
           end
    ∧ let cur' := match completionOf td with Some _ => [] | None => cur ++ [td] end in
      B' = residualSum cur' ∧ (forceErr = kIOReturnSuccess → E' = firstError cur').
Proof.
  intros Hp Hq Hlast HE. unfold doneQueueComplete, completionOf, quietLog in *.
  destruct (td_lastTDofTransaction td).
  2: { eexists _, _, _. split; [done|]. split; [apply doneStep_refl|].
       split; [done|]. by rewrite dispatchEvents_app. }
  destruct (td_command td) as [command|]; cbn [mbind option_bind] in *.
  2: { eexists _, _, _. split; [done|].
       split; [eapply doneStep_weaken; [|apply doneStep_add_trace]; set_solver|].
       split; [done|]. cbn. rewrite !dispatchEvents_app. cbn.
       by rewrite <- app_assoc. }
  destruct (completion_action command) as [action|].
  2: { eexists _, _, _. split; [done|].
       split; [eapply doneStep_weaken; [|apply doneStep_add_trace]; set_solver|].
       split; [done|]. cbn. rewrite !dispatchEvents_app. cbn.
       by rewrite <- app_assoc. }
  destruct Hq as (q & Hq & Hqh); [by eexists|].
  destruct (updTD_is_Some p (set_td_lastTDofTransaction false) s) as [sa Esa];
    [by eexists|].
  rewrite Esa, Hq. cbn [mbind option_bind].
  pose proof (doneStep_updTD _ _ _ _ Esa) as Ha.
  destruct (updTD_fields _ _ _ _ Esa) as (Etra & Efa & _).
  match goal with |- context [controlBulkDone q ?st] => set (sb := st) end.
  destruct (controlBulkDone_Some q sb) as (sc & Esc & Hc & Etrc & Efc).
  { by apply Ha. }
  { destruct Ha as [_ _ Ca Da]. destruct Hlast as (lq & ? & ?). exists lq.
    split; [cbn; congruence|]. by apply Ca. }
  rewrite Esc. cbn [mbind option_bind]. eexists _, _, _. split; [done|].
  split; [|split; [|split; [|done]]].
  - eapply (doneStep_weaken ([p] ++ [])); [set_solver|].
    eapply doneStep_trans; [exact Ha|]. destruct Hc as [A B C D]. by split.
  - rewrite Efc. cbn. done.
  - rewrite dispatchEvents_app, Etrc. subst sb. cbn.
    rewrite dispatchEvents_app, Etra. cbn. by rewrite <- app_assoc.
Qed.

(** One descriptor of the done chain. *)
Lemma doneQueueBody_spec p td forceErr B E s cur :
  getTD (heap s) p = Some td →
  (is_Some (completionOf td) → ∃ q, td_pQH td = Some q ∧ is_Some (getQH (heap s) q)) →
  (∃ lq, _lastQH s = Some lq ∧ is_Some (getQH (heap s) lq)) →
  (∀ f, _pLastFreeTD s = Some f → is_Some (getTD (heap s) f)) →
  B = residualSum cur → (forceErr = kIOReturnSuccess → E = firstError cur) →
  ∃ B' E' s',
    doneQueueBody p td forceErr B E s = Some (B', E', s')
    ∧ doneStep (p :: match _pLastFreeTD s with Some f => [f] | None => [] end) s s'
    ∧ _pLastFreeTD s' = Some p
    ∧ dispatchEvents (trace s')
      = dispatchEvents (trace s)
        ++ match completionOf td with
           | Some action =>
               [EvComplete action (statusOf forceErr (cur ++ [td]))
                  (residualSum (cur ++ [td]));
                LogDeallocatingTD p]
           | None => quietLog p td
           end
    ∧ let cur' := match completionOf td with Some _ => [] | None => cur ++ [td] end in
      B' = residualSum cur' ∧ (forceErr = kIOReturnSuccess → E' = firstError cur').
Proof.
  intros Hp Hq Hlast Hfree -> HE. unfold doneQueueBody.
  destruct (doneQueueStatus_spec td forceErr E s cur HE)
    as (E1 & s1 & -> & HE1 & H1 & Etr1 & Eh1 & Ef1).
  cbv iota beta. fold (residual td). rewrite <- residualSum_snoc.
  destruct (doneQueueComplete_spec p td forceErr E1 s1 cur)
    as (B' & E' & s2 & -> & H2 & Ef2 & Etr2 & Hcur); [by rewrite Eh1| | |done|].
  { rewrite Eh1. exact Hq. }
  { destruct H1 as [_ _ C1 D1]. destruct Hlast as (lq & ? & ?). exists lq.
    split; [congruence|auto]. }
  cbn [mbind option_bind].
  (* the return to the pool *)
  destruct (updTD_is_Some p (set_td_logicalBuffer None) s2) as [s3 Es3].
  { apply H2. rewrite Eh1. by eexists. }
  rewrite Es3. cbn [mbind option_bind].
  pose proof (doneStep_updTD _ _ _ _ Es3) as H3.
  destruct (updTD_fields _ _ _ _ Es3) as (Etr3 & Ef3 & _).
  destruct (DeallocateTD_Some p (add_trace [LogDeallocatingTD p] s3))
    as (s4 & Es4 & H4 & Etr4 & Ef4).
  { apply H3, H2. rewrite Eh1. by eexists. }
  { intros f. cbn. rewrite Ef3, Ef2, Ef1. intros Hf. apply H3, H2, H1. eauto. }
  rewrite Es4. cbn [mbind option_bind]. eexists _, _, _. split; [done|].
  split; [|split; [done|split; [|done]]].
  - cbn in H4. rewrite Ef3, Ef2, Ef1 in H4.
    eapply doneStep_weaken; [|eapply doneStep_trans; [exact H1|];
      eapply doneStep_trans; [exact H2|]; eapply doneStep_trans; [exact H3|];
      eapply doneStep_trans; [apply (doneStep_add_trace [LogDeallocatingTD p])|];
      exact H4].
    set_solver.
  - rewrite Etr4.
    change (trace (add_trace [LogDeallocatingTD p] s3))
      with (trace s3 ++ [LogDeallocatingTD p]).
    by rewrite Etr3, Etr2, Etr1.
Qed.
(** The tail of the free list, as a list. *)
Definition freeTail (s : UHCI) : list ptr :=
  match _pLastFreeTD s with Some f => [f] | None => [] end.

Lemma doneQueueLoop_spec c : ∀ fuel o forceErr stopAt B E s cur,
  doneChain s o c → (∀ p, p ∈ c.*1 → Some p ≠ stopAt) →
  queueHeadsKnown s c → freeTailAway s c.*1 → (length c ≤ fuel)%nat →
  B = residualSum cur → (forceErr = kIOReturnSuccess → E = firstError cur) →
  ∃ s', doneQueueLoop fuel o forceErr stopAt B E s = Some s'
        ∧ doneStep (c.*1 ++ freeTail s) s s'
        ∧ dispatchEvents (trace s')
          = dispatchEvents (trace s) ++ dispatchLog forceErr cur c.
Proof.
  induction c as [|[p td] c IH];
    intros fuel o forceErr stopAt B E s cur [Hl Hc] Hstop [Hq Hlast] Hfree Hfuel HB HE.
  - cbn in Hl. subst o. exists s. split; [by destruct fuel|].
    split; [apply doneStep_refl|]. cbn. by rewrite app_nil_r.
  - pose proof (linked_NoDup _ _ _ _ _ Hl) as [Hp Hnd]%NoDup_cons.
    destruct Hl as [-> (td' & Htd & Hl)]. apply Forall_cons in Hc as [Htd' Hc].
    cbn [fst snd] in *. rewrite Htd in Htd'. injection Htd' as ->.
    destruct fuel as [|fuel]; [cbn in Hfuel; lia|].
    cbn [doneQueueLoop]. rewrite decide_False by (apply Hstop; by left).
    rewrite Htd. cbn [mbind option_bind]. rewrite (tdList_cast _ _ _ Hl).
    destruct (doneQueueBody_spec p td forceErr B E s cur Htd)
      as (B' & E' & s1 & -> & H1 & Ef1 & Etr1 & HB' & HE'); [| |by apply Hfree|done..|].
    { intros Hcomp. apply (Hq (p, td)); [by left|done]. }
    { done. }
    cbn [mbind option_bind]. fold (freeTail s) in H1.
    assert (∀ x, x ∈ c.*1 → x ∉ p :: freeTail s) as Haway.
    { intros x Hx [->|Hxf]%elem_of_cons; [done|]. unfold freeTail in Hxf.
      destruct (_pLastFreeTD s) as [f|] eqn:Ef; [|by apply elem_of_nil in Hxf].
      apply list_elem_of_singleton in Hxf as ->.
      destruct (Hfree f Ef) as [_ Hf]. apply Hf. by right. }
    destruct (IH fuel (td_logicalNext td) forceErr stopAt B' E' s1
                (match completionOf td with Some _ => [] | None => cur ++ [td] end))
      as (s' & -> & H2 & Etr2); [| | | |cbn in Hfuel; lia|done..|].
    + split.
      * eapply linked_agree; [|exact Hl]. intros x t Hx Ht. exists t.
        by rewrite (ds_td _ _ _ H1 x (Haway x Hx)).
      * eapply Forall_impl; [apply Forall_forall; intros x Hx; 
          exact (conj Hx (proj1 (Forall_forall _ _) Hc x Hx))|].
        intros x [Hx Hgx]. cbn. rewrite (ds_td _ _ _ H1); [done|].
        apply Haway. by apply list_elem_of_fmap_2.
    + intros x Hx. apply Hstop. by right.
    + split.
      * intros x Hx Hcomp. destruct (Hq x) as (q & Eq & Hqh); [by right|done|].
        exists q. split; [done|]. by apply (ds_qh _ _ _ H1).
      * destruct Hlast as (lq & Elq & Hlq). exists lq.
        rewrite (ds_lastQH _ _ _ H1). split; [done|]. by apply (ds_qh _ _ _ H1).
    + intros f Ef. rewrite Ef1 in Ef. injection Ef as <-. split; [|done].
      apply (ds_tdSome _ _ _ H1). by eexists.
    + exists s'. split; [done|]. split.
      * eapply doneStep_weaken; [|eapply doneStep_trans; [exact H1|exact H2]].
        unfold freeTail at 2. rewrite Ef1. cbn. set_solver.
      * rewrite Etr2, Etr1. cbn [dispatchLog].
        destruct (completionOf td); by rewrite <- !app_assoc.
Qed.

End Dispatch.


(** The log of this transaction: the first descriptor is back in the
    pool when the callback fires. *)
Example UHCIUIMDoDoneQueueProcessing_dispatch_log :
  dispatchLog kIOReturnSuccess [] [(1%nat, doneTD1); (2%nat, doneTD2)]
  = [LogDeallocatingTD 1%nat; EvComplete 7%nat 0xe000404f 116; LogDeallocatingTD 2%nat].
Proof. reflexivity. Qed.


(** ** The scan of a queue head *)

Section Scan.
Context `{Header}.

Lemma withModes_modes sc : withModes (modes sc) sc = sc.
Proof. by destruct sc. Qed.

(** A step of the scan over a descriptor that does not end a
    transaction: the descriptors keep all but their alignment buffer, the
    queue head all but its stalled flag, which is not taken back, and
    everything else is as it was. *)
Record scanStep (pQH : ptr) (ps : list ptr) (s s' : UHCI) : Prop := {
  ss_away : ∀ x, x ≠ pQH → x ∉ ps → heap s' !! x = heap s !! x;
  ss_td : ∀ x td, getTD (heap s) x = Some td →
                  ∃ ab, getTD (heap s') x = Some (set_td_alignBuffer ab td);
  ss_qh : ∀ qh, getQH (heap s) pQH = Some qh →
                ∃ st, getQH (heap s') pQH = Some (set_qh_stalled st qh)
                      ∧ (qh_stalled qh = true → st = true);
  ss_events : dispatchEvents (trace s') = dispatchEvents (trace s);
  ss_callbacks : callbacks (trace s') = callbacks (trace s);
  ss_frame : scanFrame s' = scanFrame s;
}.

Lemma callbacks_app tr1 tr2 : callbacks (tr1 ++ tr2) = callbacks tr1 ++ callbacks tr2.
Proof. apply omap_app. Qed.

Lemma set_td_alignBuffer_id td : set_td_alignBuffer (td_alignBuffer td) td = td.
Proof. by destruct td. Qed.

Lemma set_qh_stalled_id qh : set_qh_stalled (qh_stalled qh) qh = qh.
Proof. by destruct qh. Qed.

Lemma scanStep_refl pQH ps s : scanStep pQH ps s s.
Proof.
  split; try done.
  - intros x td Hx. exists (td_alignBuffer td). by rewrite set_td_alignBuffer_id.
  - intros qh Hq. exists (qh_stalled qh). by rewrite set_qh_stalled_id.
Qed.

Lemma scanStep_trans pQH ps1 ps2 s1 s2 s3 :
  scanStep pQH ps1 s1 s2 → scanStep pQH ps2 s2 s3 → scanStep pQH (ps1 ++ ps2) s1 s3.
Proof.
  intros [A1 B1 C1 D1 D1' E1] [A2 B2 C2 D2 D2' E2]. split; [| | |congruence..].
  - intros x Hq Hx. rewrite A2, A1; [done|done| |done|];
      intros ?; apply Hx, elem_of_app; auto.
  - intros x td Hx. destruct (B1 x td Hx) as [ab1 H1].
    destruct (B2 x _ H1) as [ab2 H2]. exists ab2. by rewrite H2.
  - intros qh Hq. destruct (C1 qh Hq) as (st1 & H1 & M1).
    destruct (C2 _ H1) as (st2 & H2 & M2). exists st2. split; [by rewrite H2|].
    intros Hst. apply M2. cbn. by apply M1.
Qed.

Lemma scanStep_weaken pQH ps ps' s s' :
  (∀ x, x ∈ ps → x ∈ ps') → scanStep pQH ps s s' → scanStep pQH ps' s s'.
Proof. intros Hsub [A B C D D' E]. split; auto. Qed.

Lemma scanStep_add_trace pQH evs s :
  dispatchEvents evs = [] → callbacks evs = [] → scanStep pQH [] s (add_trace evs s).
Proof.
  intros Hev Hcb. destruct (scanStep_refl pQH [] s) as [A B C D D' E]. split; try done.
  - cbn. by rewrite dispatchEvents_app, Hev, app_nil_r.
  - cbn. by rewrite callbacks_app, Hcb, app_nil_r.
Qed.

Lemma scanStep_alignBuffer pQH p td ab s :
  getTD (heap s) p = Some td →
  scanStep pQH [p] s (set_heap (<[p := ElemTD (set_td_alignBuffer ab td)]> (heap s)) s).
Proof.
  intros Hp. split; cbn; [| | |done..].
  - intros x _ Hx. rewrite lookup_insert_ne; [done|]. intros ->. apply Hx. by left.
  - intros x td' Hx. rewrite getTD_insert. case_decide.
    + subst. rewrite Hp in Hx. injection Hx as <-. by exists ab.
    + exists (td_alignBuffer td'). by rewrite set_td_alignBuffer_id.
  - intros qh Hq. rewrite (getQH_insert_TD _ _ _ _ _ Hp), Hq.
    exists (qh_stalled qh). by rewrite set_qh_stalled_id.
Qed.

Lemma scanStep_stalled pQH qh s :
  getQH (heap s) pQH = Some qh →
  scanStep pQH [] s (set_heap (<[pQH := ElemQH (set_qh_stalled true qh)]> (heap s)) s).
Proof.
  intros Hq. split; cbn; [| | |done..].
  - intros x Hx _. by rewrite lookup_insert_ne.
  - intros x td Hx. rewrite (getTD_insert_QH _ _ _ _ _ Hq), Hx.
    exists (td_alignBuffer td). by rewrite set_td_alignBuffer_id.
  - intros qh' Hq'. rewrite Hq in Hq'. injection Hq' as <-.
    exists true. by rewrite getQH_insert_eq.
Qed.

(** The alignment buffer of a descriptor is released or handed over. *)
Lemma scavengeAlignBuffer_spec pQH p td act s :
  getTD (heap s) p = Some td →
  ∃ s', scavengeAlignBuffer p act s = Some s' ∧ scanStep pQH [p] s s'.
Proof.
  intros Hp. unfold scavengeAlignBuffer. rewrite Hp. cbn.
  destruct (td_alignBuffer td) as [ab|] eqn:Eab; [|by eauto using scanStep_refl].
  destruct ((td_direction td =? kUSBOut) || (act =? 0)).
  { unfold updTD. cbn. rewrite Hp. cbn. eexists. split; [done|].
    destruct (scanStep_alignBuffer pQH p td None s Hp) as [A B C D D' E]. by split. }
  destruct (td_command td) as [command|].
  2: { eexists. split; [done|]. eapply scanStep_weaken; [|by apply scanStep_add_trace].
       set_solver. }
  destruct (dmaCommand command) as [dma|].
  2: { eexists. split; [done|]. eapply scanStep_weaken; [|by apply scanStep_add_trace].
       set_solver. }
  unfold updTD. cbn. rewrite Hp. cbn. eexists. split; [done|].
  destruct (scanStep_alignBuffer pQH p td None s Hp) as [A B C D D' E]. split; try done.
  - cbn. by rewrite dispatchEvents_app, app_nil_r.
  - cbn. by rewrite callbacks_app, app_nil_r.
Qed.

(** The status of a descriptor, as [examine] has it; the queue head is
    marked when the descriptor is found halted. *)
Lemma scanStatus_spec pQH p td qh sc s :
  getTD (heap s) p = Some td → getQH (heap s) pQH = Some qh →
  match examine td (modes sc) with
  | None => scanStatus pQH p sc s = Some None
  | Some m =>
      ∃ s', scanStatus pQH p sc s = Some (Some (withModes m sc, s'))
            ∧ scanStep pQH [] s s'
            ∧ (TDisHalted sc = false → m.1.1 = true →
               ∃ qh', getQH (heap s') pQH = Some qh' ∧ qh_stalled qh' = true)
  end.
Proof.
  intros Hp Hq. unfold scanStatus, examine, isActive, isHalted, isShort, toggleOf, modes.
  rewrite Hp. cbn [mbind option_bind fst snd].
  destruct (negb (TDisHalted sc) && negb (shortTransfer sc)) eqn:Em.
  2: { exists s. rewrite <- (withModes_modes sc) at 1. split; [done|].
       split; [apply scanStep_refl|]. cbn. intros ->. by destruct (shortTransfer sc). }
  destruct (nonzero (Z.land _ kUHCI_TD_ACTIVE)); [done|].
  destruct (nonzero (Z.land _ kUHCI_TD_STALLED)).
  { unfold updQH. rewrite Hq. cbn. eexists. split; [done|].
    split; [by apply scanStep_stalled|]. intros _ _. cbn.
    rewrite getQH_insert_eq. by eexists. }
  destruct (nonzero _ && (_ <? _)).
  - exists s. split; [done|]. split; [apply scanStep_refl|done].
  - exists s. split; [done|]. split; [apply scanStep_refl|done].
Qed.

Lemma scanStep_is_TD pQH ps s s' x :
  scanStep pQH ps s s' → is_Some (getTD (heap s) x) → is_Some (getTD (heap s') x).
Proof. intros [_ B _ _ _ _] [td Htd]. destruct (B x td Htd) as [ab ->]. by eexists. Qed.

(** A descriptor that is still active, in a transaction that is neither
    halted nor short: the scan of the queue breaks off. *)
Lemma scanTD_break fuel pQH p td qh sc s :
  getTD (heap s) p = Some td → getQH (heap s) pQH = Some qh →
  examine td (modes sc) = None →
  scanTD fuel pQH p sc s = Some (false, sc, s).
Proof.
  intros Hp Hq Hex. pose proof (scanStatus_spec pQH p td qh sc s Hp Hq) as Hst.
  rewrite Hex in Hst. unfold scanTD. by rewrite Hp, Hst.
Qed.

(** A descriptor that does not end a transaction: the scan goes on to
    the next. *)
Lemma scanTD_pass fuel pQH p td qh sc s m q :
  getTD (heap s) p = Some td → getQH (heap s) pQH = Some qh →
  td_lastTDofTransaction td = false → examine td (modes sc) = Some m →
  td_logicalNext td = Some q → is_Some (getTD (heap s) q) →
  ∃ s', scanTD fuel pQH p sc s = Some (true, advance (Some q) m sc, s')
        ∧ scanStep pQH [p] s s'
        ∧ (TDisHalted sc = false → m.1.1 = true →
           ∃ qh', getQH (heap s') pQH = Some qh' ∧ qh_stalled qh' = true).
Proof.
  intros Hp Hq Hlast Hex Hnext Hnq.
  pose proof (scanStatus_spec pQH p td qh sc s Hp Hq) as Hst.
  rewrite Hex in Hst. destruct Hst as (s1 & Est & H1 & Hstalled).
  unfold scanTD. rewrite Hp, Est. cbn [mbind option_bind].
  destruct (ss_td _ _ _ _ H1 p td Hp) as [ab Hp1].
  destruct (scavengeAlignBuffer_spec pQH p _
              (wrap16 (UHCI_TD_GET_ACTLEN (USBToHostLong (td_ctrlStatus td)))) s1 Hp1)
    as (s2 & -> & H2).
  cbn [mbind option_bind]. rewrite Hlast, Hnext.
  pose proof (scanStep_trans _ _ _ _ _ _ H1 H2) as H12.
  destruct (scanStep_is_TD _ _ _ _ q H12 Hnq) as [tdq Hq2].
  rewrite (castTD_is_TD _ _ _ Hq2). exists s2. split; [done|]. split; [done|].
  intros Hh Hm. destruct (Hstalled Hh Hm) as (qh' & Hqh' & Hst').
  destruct (ss_qh _ _ _ _ H2 qh' Hqh') as (st & -> & Hmono).
  eexists. split; [done|]. cbn. by apply Hmono.
Qed.

(** The last descriptor of a transaction goes to [scanLastTD]. *)
Lemma scanTD_last fuel pQH p td qh sc s m :
  getTD (heap s) p = Some td → getQH (heap s) pQH = Some qh →
  td_lastTDofTransaction td = true → examine td (modes sc) = Some m →
  ∃ s', scanTD fuel pQH p sc s = scanLastTD fuel pQH p (withModes m sc) s'
        ∧ scanStep pQH [p] s s'
        ∧ (TDisHalted sc = false → m.1.1 = true →
           ∃ qh', getQH (heap s') pQH = Some qh' ∧ qh_stalled qh' = true).
Proof.
  intros Hp Hq Hlast Hex.
  pose proof (scanStatus_spec pQH p td qh sc s Hp Hq) as Hst.
  rewrite Hex in Hst. destruct Hst as (s1 & Est & H1 & Hstalled).
  unfold scanTD. rewrite Hp, Est. cbn [mbind option_bind].
  destruct (ss_td _ _ _ _ H1 p td Hp) as [ab Hp1].
  destruct (scavengeAlignBuffer_spec pQH p _
              (wrap16 (UHCI_TD_GET_ACTLEN (USBToHostLong (td_ctrlStatus td)))) s1 Hp1)
    as (s2 & -> & H2).
  cbn [mbind option_bind]. rewrite Hlast.
  pose proof (scanStep_trans _ _ _ _ _ _ H1 H2) as H12.
  exists s2. split; [done|]. split; [done|].
  intros Hh Hm. destruct (Hstalled Hh Hm) as (qh' & Hqh' & Hst').
  destruct (ss_qh _ _ _ _ H2 qh' Hqh') as (st & -> & Hmono).
  eexists. split; [done|]. cbn. by apply Hmono.
Qed.
(** *** The end of a transaction *)

Lemma doneChain_agree s s' o c :
  (∀ x, x ∈ c.*1 → heap s' !! x = heap s !! x) →
  doneChain s o c → doneChain s' o c.
Proof.
  intros Hag [Hl Hc]. split.
  - eapply linked_agree; [|exact Hl]. intros x t Hx Ht. exists t.
    unfold getTD in *. by rewrite Hag.
  - eapply Forall_impl; [apply Forall_forall; intros x Hx;
      exact (conj Hx (proj1 (Forall_forall _ _) Hc x Hx))|].
    intros x [Hx Hgx]. cbn. unfold getTD in *. rewrite Hag; [done|].
    by apply list_elem_of_fmap_2.
Qed.

Lemma doneChain_cons s o p td c :
  doneChain s o ((p, td) :: c)
  ↔ o = Some p ∧ getTD (heap s) p = Some td ∧ doneChain s (td_logicalNext td) c.
Proof.
  unfold doneChain. cbn. rewrite Forall_cons. cbn. split.
  - intros [[-> (td' & Htd' & Hl)] [Htd Hc]]. rewrite Htd' in Htd.
    injection Htd as ->. done.
  - intros (-> & Htd & Hl & Hc). eauto 10.
Qed.

Lemma doneChain_NoDup s o c : doneChain s o c → NoDup c.*1.
Proof. intros [Hl _]. by eapply linked_NoDup. Qed.

Lemma flipToggles_spec c : ∀ fuel o toggle s,
  doneChain s o c → (length c ≤ fuel)%nat →
  ∃ s', flipToggles fuel o toggle s = Some (Nat.iter (length c) otherToggle toggle, s')
        ∧ (∀ j x, c !! j = Some x →
             getTD (heap s') x.1
             = Some (withToggle (Nat.iter (S j) otherToggle toggle) x.2))
        ∧ (∀ x, x ∉ c.*1 → heap s' !! x = heap s !! x)
        ∧ trace s' = trace s ∧ scanFrame s' = scanFrame s.
Proof.
  induction c as [|[p td] c IH]; intros fuel o toggle s Hc Hfuel.
  - destruct Hc as [Hl _]. cbn in Hl. subst o. exists s.
    split; [by destruct fuel|]. by split.
  - pose proof (doneChain_NoDup _ _ _ Hc) as [Hp Hnd]%NoDup_cons.
    apply doneChain_cons in Hc as (-> & Htd & Hc).
    destruct fuel as [|fuel]; [cbn in Hfuel; lia|].
    cbn [flipToggles]. rewrite Htd. cbn [mbind option_bind].
    rewrite (updTD_Some _ _ _ _ Htd). cbn [mbind option_bind].
    match goal with |- context [flipToggles fuel _ _ ?st] => set (s1 := st) end.
    assert (doneChain s1 (td_logicalNext td) c) as Hc1.
    { eapply doneChain_agree; [|exact Hc]. intros x Hx. cbn.
      rewrite lookup_insert_ne; [done|]. by intros ->. }
    pose proof Hc1 as [Hl1 _]. rewrite (tdList_cast _ _ _ Hl1).
    fold (otherToggle toggle) in *.
    destruct (IH fuel (td_logicalNext td) (otherToggle toggle) s1)
      as (s' & -> & Hflip & Haway & Etr & Efr); [done|cbn in Hfuel; lia|].
    exists s'. split; [by rewrite <- Nat.iter_succ_r|].
    split; [|split; [|by split]].
    + intros [|j] x Hx.
      * injection Hx as <-. cbn [fst snd]. unfold getTD. rewrite Haway by done.
        cbn. by rewrite lookup_insert_eq.
      * rewrite (Hflip j x Hx). by rewrite <- Nat.iter_succ_r.
    + intros x Hx. rewrite Haway; [|set_solver]. cbn.
      rewrite lookup_insert_ne; [done|]. set_solver.
Qed.
(** The last descriptor [p] of a transaction, with the descriptors [cq]
    after it: the transaction is cut off and goes to the done queue, the
    toggles of [cq] are swapped where they have to be, and the queue head
    gets its element link and its new first descriptor. *)
Lemma scanLastTD_spec fuel pQH p td qh sc s q tdq cq :
  getTD (heap s) p = Some td → td_logicalNext td = Some q →
  getQH (heap s) pQH = Some qh →
  doneChain s (Some q) ((q, tdq) :: cq) → p ∉ ((q, tdq) :: cq).*1 →
  (S (length cq) ≤ fuel)%nat →
  (is_Some (doneQueue sc) → is_Some (doneTail sc)) →
  (∀ t, t ∈ tailOf sc →
        is_Some (getTD (heap s) t) ∧ t ≠ p ∧ t ∉ ((q, tdq) :: cq).*1) →
  ∃ s',
    scanLastTD fuel pQH p sc s
    = Some (true,
            mkScan (Some q) (Some q) false false
              (if flipsAfter (modes sc) qh tdq
               then Nat.iter (S (length cq)) otherToggle (lastToggle sc)
               else lastToggle sc)
              (if doneQueue sc is None then qHead sc else doneQueue sc) (Some p),
            s')
    ∧ getQH (heap s') pQH = Some (set_qh_firstTD (Some q) (elinkAfter (modes sc) tdq qh))
    ∧ getTD (heap s') p = Some (set_td_logicalNext None td)
    ∧ (∀ j x, ((q, tdq) :: cq) !! j = Some x →
         getTD (heap s') x.1
         = Some (if flipsAfter (modes sc) qh tdq
                 then withToggle (Nat.iter (S j) otherToggle (lastToggle sc)) x.2
                 else x.2))
    ∧ (∀ t tdt, t ∈ tailOf sc → getTD (heap s) t = Some tdt →
         getTD (heap s') t = Some (set_td_logicalNext (qHead sc) tdt))
    ∧ (∀ x, x ≠ pQH → x ≠ p → x ∉ ((q, tdq) :: cq).*1 → x ∉ tailOf sc →
         heap s' !! x = heap s !! x)
    ∧ trace s' = trace s ∧ scanFrame s' = scanFrame s.
Proof.
  intros Hp Hnext Hq Hc Hpc Hfuel Hdt Htail. unfold scanLastTD.
  set (c := (q, tdq) :: cq) in *.
  assert (∀ x, x ∈ c.*1 → x ≠ pQH) as HcQH.
  { intros x Hx ->. destruct Hc as [Hl _].
    destruct (linked_lookup _ _ _ _ _ _ Hl Hx) as [t Ht].
    by rewrite (getTD_getQH _ _ _ Ht) in Hq. }
  assert (p ≠ pQH) as HpQH by (intros ->; by rewrite (getTD_getQH _ _ _ Hp) in Hq).
  (* the done queue takes the transaction *)
  match goal with |- context [mbind _ ?x] => set (stage := x) end.
  assert (∃ sa, stage = Some sa
            ∧ (∀ x, x ∉ tailOf sc → heap sa !! x = heap s !! x)
            ∧ (∀ t tdt, t ∈ tailOf sc → getTD (heap s) t = Some tdt →
                 heap sa !! t = Some (ElemTD (set_td_logicalNext (qHead sc) tdt)))
            ∧ trace sa = trace s ∧ scanFrame sa = scanFrame s)
    as (sa & -> & Haway_a & Htail_a & Etr_a & Efr_a).
  { subst stage. unfold tailOf in *. destruct (doneQueue sc) as [d|].
    2: { exists s. split; [done|]. split; [done|]. split; [|done].
         intros t tdt Ht. by apply elem_of_nil in Ht. }
    destruct (doneTail sc) as [t|]; [|by destruct Hdt].
    destruct (Htail t) as ([tdt Ht] & _ & _); [by left|].
    cbn [mbind option_bind]. rewrite (updTD_Some _ _ _ _ Ht). eexists.
    split; [done|]. cbn. split; [|split; [|done]].
    - intros x Hx. rewrite lookup_insert_ne; [done|]. intros ->. apply Hx. by left.
    - intros t' tdt' ->%list_elem_of_singleton Ht'. rewrite Ht in Ht'.
      injection Ht' as <-. by rewrite lookup_insert_eq. }
  cbn [mbind option_bind].
  assert (p ∉ tailOf sc) as Hpt by (intros Ht; by destruct (Htail p Ht) as (_ & ? & _)).
  assert (∀ x, x ∈ c.*1 → x ∉ tailOf sc) as Hct.
  { intros x Hx Ht. by destruct (Htail x Ht) as (_ & _ & ?). }
  assert (pQH ∉ tailOf sc) as HQt.
  { intros Ht. destruct (Htail pQH Ht) as ([t Ht'] & _ & _).
    by rewrite (getTD_getQH _ _ _ Ht') in Hq. }
  assert (getTD (heap sa) p = Some td) as Hpa by (unfold getTD; by rewrite Haway_a).
  rewrite Hpa. cbn [mbind option_bind]. rewrite Hnext.
  assert (doneChain sa (Some q) c) as Hca.
  { eapply doneChain_agree; [|exact Hc]. intros x Hx. apply Haway_a. by apply Hct. }
  pose proof Hca as [Hla _]. rewrite (tdList_cast _ _ _ Hla).
  rewrite (updTD_Some _ _ _ _ Hpa). cbn [mbind option_bind].
  match goal with |- context [getQH (heap ?st) pQH] => set (sb := st) end.
  assert (∀ x, x ≠ p → heap sb !! x = heap sa !! x) as Haway_b.
  { intros x Hx. subst sb. cbn. by rewrite lookup_insert_ne. }
  assert (getQH (heap sb) pQH = Some qh) as Hqb.
  { unfold getQH. rewrite Haway_b, Haway_a by done. exact Hq. }
  rewrite Hqb. cbn [mbind option_bind].
  assert (doneChain sb (Some q) c) as Hcb.
  { eapply doneChain_agree; [|exact Hca]. intros x Hx. apply Haway_b.
    intros ->. by apply Hpc. }
  assert (getTD (heap sb) q = Some tdq) as Hqtd.
  { by apply doneChain_cons in Hcb as (_ & ? & _). }
  (* the toggles and the element link *)
  match goal with |- context [mbind _ ?x] => set (stage := x) end.
  assert (∃ sd, stage
                = Some (if flipsAfter (modes sc) qh tdq
                        then Nat.iter (S (length cq)) otherToggle (lastToggle sc)
                        else lastToggle sc, sd)
            ∧ getQH (heap sd) pQH = Some (elinkAfter (modes sc) tdq qh)
            ∧ (∀ j x, c !! j = Some x →
                 getTD (heap sd) x.1
                 = Some (if flipsAfter (modes sc) qh tdq
                         then withToggle (Nat.iter (S j) otherToggle (lastToggle sc)) x.2
                         else x.2))
            ∧ (∀ x, x ≠ pQH → x ∉ c.*1 → heap sd !! x = heap sb !! x)
            ∧ trace sd = trace sb ∧ scanFrame sd = scanFrame sb)
    as (sd & -> & Hqd & Hflip_d & Haway_d & Etr_d & Efr_d).
  { subst stage. unfold flipsAfter, elinkAfter, modes. cbn [fst snd].
    assert (∀ j x, c !! j = Some x → getTD (heap sb) x.1 = Some x.2) as Hsame.
    { intros j x Hx. destruct Hcb as [_ Hr].
      apply (proj1 (Forall_forall _ _) Hr). by eapply list_elem_of_lookup_2. }
    destruct (negb (TDisHalted sc) && shortTransfer sc) eqn:Eshort.
    - rewrite Hqtd. cbn [mbind option_bind andb]. unfold toggleOf.
      destruct (negb (qh_type qh =? kUSBControl)
                && (Z.land (USBToHostLong (td_token tdq)) kUHCI_TD_D =? lastToggle sc))
        eqn:Eflip.
      + destruct (flipToggles_spec c fuel (Some q) (lastToggle sc) sb Hcb)
          as (sf & -> & Hflip & Haway_f & Etr_f & Efr_f); [done|].
        cbn [mbind option_bind].
        assert (getQH (heap sf) pQH = Some qh) as Hqf.
        { unfold getQH. rewrite Haway_f; [exact Hqb|].
          intros Hx. by apply (HcQH pQH). }
        rewrite (updQH_Some _ _ _ _ Hqf). cbn [mbind option_bind]. eexists.
        split; [done|]. cbn. split; [by rewrite getQH_insert_eq|].
        split; [|split; [|by split]].
        * intros j x Hx. rewrite getTD_insert_ne; [by apply Hflip|].
          intros E. apply (HcQH x.1); [|done].
          apply list_elem_of_fmap_2. by eapply list_elem_of_lookup_2.
        * intros x Hx Hxc. rewrite lookup_insert_ne by done. by apply Haway_f.
      + cbn [mbind option_bind]. rewrite (updQH_Some _ _ _ _ Hqb).
        cbn [mbind option_bind]. eexists. split; [done|]. cbn.
        split; [by rewrite getQH_insert_eq|]. split; [|split; [|by split]].
        * intros j x Hx. rewrite getTD_insert_ne; [by eapply Hsame|].
          intros E. apply (HcQH x.1); [|done].
          apply list_elem_of_fmap_2. by eapply list_elem_of_lookup_2.
        * intros x Hx Hxc. by rewrite lookup_insert_ne.
    - cbn [andb]. destruct (TDisHalted sc).
      + rewrite (updQH_Some _ _ _ _ Hqb). cbn [mbind option_bind]. eexists.
        split; [done|]. cbn. split; [by rewrite getQH_insert_eq|].
        split; [|split; [|by split]].
        * intros j x Hx. rewrite getTD_insert_ne; [by eapply Hsame|].
          intros E. apply (HcQH x.1); [|done].
          apply list_elem_of_fmap_2. by eapply list_elem_of_lookup_2.
        * intros x Hx Hxc. by rewrite lookup_insert_ne.
      + exists sb. split; [done|]. split; [done|]. split; [|by split].
        intros j x Hx. by eapply Hsame. }
  cbn [mbind option_bind]. rewrite (updQH_Some _ _ _ _ Hqd). cbn [mbind option_bind].
  eexists. split; [done|]. cbn.
  split; [by rewrite getQH_insert_eq|].
  split; [|split; [|split; [|split; [|split]]]].
  - rewrite getTD_insert_ne by done. unfold getTD.
    rewrite Haway_d; [|done|done]. subst sb. cbn. by rewrite lookup_insert_eq.
  - intros j x Hx. rewrite getTD_insert_ne; [by apply Hflip_d|].
    intros E. apply (HcQH x.1); [|done].
    apply list_elem_of_fmap_2. by eapply list_elem_of_lookup_2.
  - intros t tdt Ht Htd. destruct (Htail t Ht) as (_ & Htp & Htc).
    assert (t ≠ pQH) as HtQ by (intros ->; done).
    rewrite getTD_insert_ne by done. unfold getTD.
    rewrite Haway_d, Haway_b by done. by rewrite (Htail_a t tdt Ht Htd).
  - intros x HxQ Hxp Hxc Hxt. rewrite lookup_insert_ne by done.
    rewrite Haway_d, Haway_b by done. by apply Haway_a.
  - by rewrite Etr_d.
  - exact (eq_trans Efr_d Efr_a).
Qed.
(** *** The descriptors of a transaction before its last *)










(** *** A transaction at the head of a queue *)


End Scan.

(** ** A halted transaction *)

Section Halted.
Context `{Header}.


End Halted.


(** ** A short transaction *)

Section Short.
Context `{Header}.

End Short.


(** What the scan leaves: the element link at the descriptor 3, whose
    toggle is now 0, and the toggle 1 in the descriptor 4. *)
Example scavengeQueueHeads_short_state :
  (sc ← scavengeQueueHead 2 20%nat haltedQH (mkScan None None false false 0 None None)
          spdUHCI;
   qh ← getQH (heap sc.2) 20%nat;
   td3 ← getTD (heap sc.2) 3%nat;
   td4 ← getTD (heap sc.2) 4%nat;
   Some (qh_elink qh, td_token td3, td_token td4))
  = Some (0x4040, 0x07E00069, 0x07E80069).
Proof. reflexivity. Qed.


(** ** Queues with nothing to harvest *)

Section Quiet.
Context `{Header}.

(** What the scan reads of a descriptor. *)
Definition tdView (td : TD) : Z * Z * option ptr * bool :=
  (td_ctrlStatus td, td_token td, td_logicalNext td, td_lastTDofTransaction td).

(** The store [h'] has the descriptors at [F] as [h] has them, for all
    the scan reads. *)
Definition keptOn (F : list ptr) (h h' : gmap ptr Elem) : Prop :=
  ∀ x td, x ∈ F → getTD h x = Some td →
          ∃ td', getTD h' x = Some td' ∧ tdView td' = tdView td.

Lemma keptOn_refl F h : keptOn F h h.
Proof. intros x td _ Hx. eauto. Qed.

Lemma keptOn_trans F h1 h2 h3 : keptOn F h1 h2 → keptOn F h2 h3 → keptOn F h1 h3.
Proof.
  intros H1 H2 x td Hx Htd. destruct (H1 x td Hx Htd) as (td2 & Htd2 & E2).
  destruct (H2 x td2 Hx Htd2) as (td3 & Htd3 & E3). exists td3. split; congruence.
Qed.

Lemma keptOn_weaken F F' h h' : (∀ x, x ∈ F' → x ∈ F) → keptOn F h h' → keptOn F' h h'.
Proof. intros Hsub Hk x td Hx. apply Hk. auto. Qed.

Lemma keptOn_agree F h h' : (∀ x, x ∈ F → h' !! x = h !! x) → keptOn F h h'.
Proof. intros Hag x td Hx Htd. exists td. unfold getTD in *. by rewrite Hag. Qed.

Lemma keptOn_scanStep pQH ps F s s' : scanStep pQH ps s s' → keptOn F (heap s) (heap s').
Proof.
  intros Hst x td _ Htd. destruct (ss_td _ _ _ _ Hst x td Htd) as [ab ->]. eauto.
Qed.

Lemma examine_view td td' m : tdView td' = tdView td → examine td' m = examine td m.
Proof.
  intros E. injection E as E1 E2 _ _.
  unfold examine, isActive, isHalted, isShort, toggleOf. by rewrite E1, E2.
Qed.

Lemma examineB_view td td' m : tdView td' = tdView td → examineB td' m = examineB td m.
Proof. intros E. unfold examineB. by rewrite (examine_view _ _ _ E). Qed.

(** The toggle has no part in what the scan does next. *)
Lemma examine_examineB td m :
  (λ m' : Modes, (m'.1.1, m'.1.2)) <$> examine td m = examineB td (m.1.1, m.1.2).
Proof.
  destruct m as [[hl sh] toggle]. unfold examineB, examine. cbn.
  destruct hl, sh; cbn; try done.
  destruct (isActive td); [done|]. destruct (isHalted td); [done|].
  by destruct (isShort td).
Qed.

Lemma examine_None td m : examine td m = None ↔ examineB td (m.1.1, m.1.2) = None.
Proof.
  rewrite <- examine_examineB. destruct (examine td m); cbn; split; done.
Qed.

Lemma examine_Some td m m' :
  examine td m = Some m' → examineB td (m.1.1, m.1.2) = Some (m'.1.1, m'.1.2).
Proof. intros E. by rewrite <- examine_examineB, E. Qed.

(** *** Segments *)

Lemma tdSegment_app h o l1 l2 o' :
  tdSegment h o (l1 ++ l2) o' ↔ ∃ om, tdSegment h o l1 om ∧ tdSegment h om l2 o'.
Proof.
  revert o. induction l1 as [|p l1 IH]; intros o; cbn.
  - split; [eauto|]. by intros (om & -> & ?).
  - split.
    + intros [-> (td & Htd & Hl)]. apply IH in Hl as (om & H1 & H2). eauto 10.
    + intros (om & [-> (td & Htd & H1)] & H2). split; [done|]. exists td.
      split; [done|]. apply IH. eauto.
Qed.

Lemma tdList_segment h o l : tdList h o l ↔ tdSegment h o l None.
Proof.
  revert o. induction l as [|p l IH]; intros o; cbn; [done|].
  split; intros [-> (td & Htd & Hl)]; (split; [done|]); exists td;
    (split; [done|]); by apply IH.
Qed.

Lemma tdSegment_kept h h' o l o' :
  keptOn l h h' → tdSegment h o l o' → tdSegment h' o l o'.
Proof.
  revert o. induction l as [|p l IH]; intros o Hk; [done|].
  intros [-> (td & Htd & Hl)]. split; [done|].
  destruct (Hk p td) as (td' & Htd' & E); [by left|done|].
  exists td'. split; [done|]. injection E as _ _ -> _.
  apply IH; [|done]. eapply keptOn_weaken; [|exact Hk]. intros. by right.
Qed.

Lemma tdSegment_head h o l o' : l ≠ [] → tdSegment h o l o' → o = head l.
Proof. destruct l; [done|]. by intros _ [-> _]. Qed.

Lemma tdSegment_lookup h o l o' x :
  tdSegment h o l o' → x ∈ l → is_Some (getTD h x).
Proof.
  revert o. induction l as [|p l IH]; intros o; [by intros _ ?%elem_of_nil|].
  intros [-> (t & Ht & Hl)] [->|Hin]%elem_of_cons; eauto.
Qed.

Lemma walks_kept h h' qEnd l m r :
  keptOn l h h' → walks h qEnd l m = Some r → walks h' qEnd l m = Some r.
Proof.
  revert m. induction l as [|p l IH]; intros m Hk; [done|]. cbn.
  case_decide; [done|].
  destruct (getTD h p) as [td|] eqn:Htd; [|done]. cbn.
  destruct (Hk p td) as (td' & -> & E); [by left|done|]. cbn.
  rewrite (examineB_view _ _ _ E). injection E as _ _ _ ->.
  destruct (td_lastTDofTransaction td); [done|].
  destruct (examineB td m) as [m'|]; [|done]. cbn.
  apply IH. eapply keptOn_weaken; [|exact Hk]. intros. by right.
Qed.

Lemma walks_app h qEnd l1 l2 m :
  walks h qEnd (l1 ++ l2) m = m' ← walks h qEnd l1 m; walks h qEnd l2 m'.
Proof.
  revert m. induction l1 as [|p l1 IH]; intros m; [done|]. cbn.
  case_decide; [done|]. destruct (getTD h p) as [td|]; [|done]. cbn.
  destruct (td_lastTDofTransaction td); [done|].
  destruct (examineB td m) as [m'|]; [|done]. cbn. apply IH.
Qed.

Lemma stopsAt_kept h h' qEnd x m :
  keptOn [x] h h' → stopsAt h qEnd x m → stopsAt h' qEnd x m.
Proof.
  intros Hk [?|(td & Htd & Hex)]; [by left|]. right.
  destruct (Hk x td) as (td' & Htd' & E); [by left|done|].
  exists td'. split; [done|]. by rewrite (examineB_view _ _ _ E).
Qed.

Lemma nothingToHarvest_kept h h' qh qh' F :
  keptOn F h h' → qh_firstTD qh' = qh_firstTD qh → qh_lastTD qh' = qh_lastTD qh →
  nothingToHarvest h qh F → nothingToHarvest h' qh' F.
Proof.
  intros Hk Ef El (pend & x & m & o & -> & Hseg & Hw & Hstop & Hlen).
  exists pend, x, m, o. rewrite Ef, El. split; [done|].
  split; [by eapply tdSegment_kept|].
  split; [|split; [|done]].
  - eapply walks_kept; [|done]. eapply keptOn_weaken; [|exact Hk].
    intros. apply elem_of_app. by left.
  - eapply stopsAt_kept; [|done]. eapply keptOn_weaken; [|exact Hk].
    intros y ->%list_elem_of_singleton. apply elem_of_app. right. by left.
Qed.

(** A quiet queue head stays quiet when the store keeps its queue head,
    but for the stalled flag, which may be set, and the descriptors of
    its queue. *)
Lemma quietAt_kept s s' k F :
  quietAt s k F →
  (∀ qh, getQH (heap s) k = Some qh →
         ∃ qh', getQH (heap s') k = Some qh'
                ∧ qh_firstTD qh' = qh_firstTD qh ∧ qh_lastTD qh' = qh_lastTD qh
                ∧ qh_type qh' = qh_type qh
                ∧ (qh_stalled qh = true → qh_stalled qh' = true)) →
  keptOn F (heap s) (heap s') →
  quietAt s' k F.
Proof.
  intros (qh & Hq & Hquiet) Hqh Hk.
  destruct (Hqh qh Hq) as (qh' & Hq' & Ef & El & Et & Hst).
  exists qh'. split; [done|]. rewrite Ef, Et.
  destruct Hquiet as [?|[?|[?|Hn]]]; [by left|right; left; by auto|by right; right; left|].
  right; right; right. by eapply nothingToHarvest_kept.
Qed.
(** *** The scan of a quiet queue *)

Lemma scanTDs_quiet fuel pQH qEnd pend : ∀ n qh sc s x m o,
  getQH (heap s) pQH = Some qh →
  tdSegment (heap s) (qTD sc) (pend ++ [x]) o →
  walks (heap s) qEnd pend (TDisHalted sc, shortTransfer sc) = Some m →
  stopsAt (heap s) qEnd x m →
  (length pend ≤ n)%nat →
  ∃ sc' s', scanTDs fuel n pQH qEnd sc s = Some (sc', s')
            ∧ doneQueue sc' = doneQueue sc ∧ doneTail sc' = doneTail sc
            ∧ scanStep pQH pend s s'.
Proof.
  induction pend as [|p pend IH]; intros n qh sc s x m o Hq Hseg Hw Hstop Hn.
  - cbn in Hseg. destruct Hseg as [HqTD (tdx & Htdx & _)]. injection Hw as <-.
    exists sc, s. split; [|by eauto using scanStep_refl].
    destruct n as [|n]; cbn [scanTDs]; rewrite HqTD; case_decide; try done.
    destruct Hstop as [?|(td & Htd & Hex)]; [done|].
    erewrite scanTD_break; [done|exact Htd|exact Hq|].
    by apply examine_None.
  - cbn in Hseg. destruct Hseg as [HqTD (td & Htd & Hseg)].
    cbn in Hw. case_decide as Hend; [done|]. rewrite Htd in Hw. cbn in Hw.
    destruct (td_lastTDofTransaction td) eqn:Hlast; [done|].
    destruct (examineB td (TDisHalted sc, shortTransfer sc)) as [m1|] eqn:Hex; [|done].
    cbn in Hw.
    destruct (examine td (modes sc)) as [M|] eqn:HexM.
    2: { apply examine_None in HexM. cbn in HexM. congruence. }
    pose proof (examine_Some _ _ _ HexM) as HexB. cbn in HexB.
    rewrite Hex in HexB. injection HexB as ->.
    assert (∃ q, td_logicalNext td = Some q ∧ is_Some (getTD (heap s) q)
                 ∧ head (pend ++ [x]) = Some q) as (q & Hnext & Hnq & Hhead).
    { destruct (pend ++ [x]) as [|q r] eqn:E; [by destruct pend|].
      cbn in Hseg. destruct Hseg as [-> (tdq & Htdq & _)]. eauto. }
    destruct (scanTD_pass fuel pQH p td qh sc s M q Htd Hq Hlast HexM Hnext Hnq)
      as (s1 & Es1 & H1 & _).
    destruct n as [|n]; [cbn in Hn; lia|].
    cbn [scanTDs]. rewrite HqTD, decide_False by done.
    rewrite Es1. cbn [mbind option_bind].
    destruct (ss_qh _ _ _ _ H1 qh Hq) as (st1 & Hq1 & _).
    pose proof (keptOn_scanStep _ _ (pend ++ [x]) _ _ H1) as Hk.
    destruct (IH n _ (advance (Some q) M sc) s1 x m o Hq1) as (sc' & s' & -> & Edq & Edt & H2).
    + cbn [qTD advance]. rewrite <- Hnext. by eapply tdSegment_kept.
    + cbn [TDisHalted shortTransfer advance]. eapply walks_kept; [|exact Hw].
      eapply keptOn_weaken; [|exact Hk]. intros. apply elem_of_app. by left.
    + eapply stopsAt_kept; [|exact Hstop].
      eapply keptOn_weaken; [|exact Hk]. intros y ->%list_elem_of_singleton.
      apply elem_of_app. right. by left.
    + cbn in Hn. lia.
    + exists sc', s'. split; [done|]. split; [done|]. split; [done|].
      eapply scanStep_weaken; [|eapply scanStep_trans; [exact H1|exact H2]]. set_solver.
Qed.

(** The scan of a quiet queue head harvests nothing. *)
Lemma scavengeQueueHead_quiet fuel k F qh sc s :
  getQH (heap s) k = Some qh → quietAt s k F →
  negb (qh_type qh =? kQHTypeDummy) && negb (qh_stalled qh) = true →
  ∃ sc' s', scavengeQueueHead fuel k qh sc s = Some (sc', s')
            ∧ doneQueue sc' = doneQueue sc
            ∧ scanStep k F s s'.
Proof.
  intros Hq (qh' & Hq' & Hquiet) Hgo. rewrite Hq in Hq'. injection Hq' as <-.
  apply andb_true_iff in Hgo as [Hty Hst]. apply negb_true_iff in Hty, Hst.
  apply Z.eqb_neq in Hty. unfold scavengeQueueHead.
  match goal with |- context [scanTDs _ _ _ _ ?x ?y] => set (sc0 := x); set (s0 := y) end.
  assert (scanStep k [] s s0) as H0.
  { subst s0. case_match; [by apply scanStep_add_trace|apply scanStep_refl]. }
  destruct (ss_qh _ _ _ _ H0 qh Hq) as (st0 & Hq0 & _).
  destruct Hquiet as [?|[?|[Hnone|Hn]]]; [done|congruence| |].
  - exists sc0, s0. split; [|split; [done|]].
    + subst sc0. rewrite Hnone. by destruct kScavengeBound.
    + eapply scanStep_weaken; [|exact H0]. set_solver.
  - destruct Hn as (pend & x & m & o & -> & Hseg & Hw & Hstop & Hlen).
    pose proof (keptOn_scanStep _ _ (pend ++ [x]) _ _ H0) as Hk.
    destruct (scanTDs_quiet fuel k (qh_lastTD qh) pend kScavengeBound _ sc0 s0 x m o Hq0)
      as (sc' & s' & -> & Edq & _ & H1).
    + by eapply tdSegment_kept.
    + eapply walks_kept; [|exact Hw].
      eapply keptOn_weaken; [|exact Hk]. intros. apply elem_of_app. by left.
    + eapply stopsAt_kept; [|exact Hstop].
      eapply keptOn_weaken; [|exact Hk]. intros y ->%list_elem_of_singleton.
      apply elem_of_app. right. by left.
    + lia.
    + exists sc', s'. split; [done|]. split; [done|].
      eapply scanStep_weaken; [|eapply scanStep_trans; [exact H0|exact H1]]. set_solver.
Qed.
End Quiet.

(** ** The harvest of a queue *)

(** Membership in a list given by [++] and [::]. *)
Ltac inlist :=
  solve [ assumption
        | apply list_elem_of_here
        | apply list_elem_of_further; inlist
        | apply elem_of_app; left; inlist
        | apply elem_of_app; right; inlist ].

Section Harvest.
Context `{Header}.
#[local] Opaque kScavengeBound.

Lemma elem_of_snoc_cons {A} (x p : A) l r : x ∈ l ++ [p] → x ∈ l ++ p :: r.
Proof.
  intros [?|Hx]%elem_of_app; [inlist|].
  apply list_elem_of_singleton in Hx as ->. inlist.
Qed.

Lemma tdList_records h o l :
  tdList h o l → ∃ c, c.*1 = l ∧ Forall (λ x, getTD h x.1 = Some x.2) c.
Proof.
  revert o. induction l as [|p l IH]; intros o; [by exists []|].
  intros [-> (td & Htd & Hl)]. destruct (IH _ Hl) as (c & <- & Hc).
  exists ((p, td) :: c). split; [done|]. by constructor.
Qed.

Lemma doneOK_nil s sc D : doneOK s sc D → doneQueue sc = None → D = [].
Proof.
  intros [Hl _] Hn. rewrite Hn in Hl. apply linked_head in Hl. by destruct D.
Qed.

Lemma doneOK_tail s sc D x : doneOK s sc D → x ∈ tailOf sc → x ∈ D.
Proof.
  intros [Hl Ht] Hx. unfold tailOf in Hx.
  destruct (doneQueue sc) as [d|]; [|by apply elem_of_nil in Hx].
  rewrite Ht in Hx by done.
  destruct (last D) as [t|] eqn:El; [|by apply elem_of_nil in Hx].
  apply list_elem_of_singleton in Hx as ->.
  apply last_Some in El as (D0 & ->). apply elem_of_app. right. by left.
Qed.

Lemma doneOK_agree s s' sc D :
  (∀ x, x ∈ D → heap s' !! x = heap s !! x) → doneOK s sc D → doneOK s' sc D.
Proof.
  intros Hag [Hl Ht]. split; [|done].
  eapply linked_agree; [|exact Hl]. intros x t Hx Hxt. exists t.
  unfold getTD in *. by rewrite Hag.
Qed.

(** The transaction [T], which ends in [p], joins the done queue. *)
Lemma doneOK_collect s s' sc D T p q td :
  doneOK s sc D → tdSegment (heap s) (qHead sc) (T ++ [p]) (Some q) →
  (∀ x, x ∈ D → x ∉ T ++ [p]) → NoDup (T ++ [p]) →
  getTD (heap s') p = Some (set_td_logicalNext None td) →
  (∀ t tdt, t ∈ tailOf sc → getTD (heap s) t = Some tdt →
            getTD (heap s') t = Some (set_td_logicalNext (qHead sc) tdt)) →
  (∀ x, x ∈ D ++ T → x ∉ tailOf sc → heap s' !! x = heap s !! x) →
  doneOK s' (mkScan (Some q) (Some q) false false 0
               (if doneQueue sc is None then qHead sc else doneQueue sc) (Some p))
    (D ++ T ++ [p]).
Proof.
  intros HD Hseg Hdis Hnd Hp Htail Haway. split.
  2: { intros _. cbn. by rewrite app_assoc, last_snoc. }
  cbn [doneQueue]. apply tdList_segment.
  assert (tdSegment (heap s') (qHead sc) (T ++ [p]) None) as HT.
  { apply tdSegment_app in Hseg as (om & HsT & Hsp). apply tdSegment_app.
    exists om. split.
    - eapply tdSegment_kept; [|exact HsT]. apply keptOn_agree. intros x Hx.
      apply Haway; [apply elem_of_app; by right|].
      intros Ht. apply (Hdis x); [by eapply doneOK_tail|]. apply elem_of_app. by left.
    - cbn in Hsp. destruct Hsp as [-> _]. cbn. split; [done|]. eauto. }
  destruct (doneQueue sc) as [d|] eqn:Ed.
  - destruct HD as [Hl Ht]. rewrite Ed in Hl. specialize (Ht ltac:(by eexists)).
    pose proof (linked_NoDup _ _ _ _ _ Hl) as HndD.
    destruct (last D) as [t|] eqn:El.
    2: { apply last_None in El as ->. by cbn in Hl. }
    apply last_Some in El as (D0 & ->).
    assert (tailOf sc = [t]) as Etl by (unfold tailOf; by rewrite Ed, Ht).
    apply tdList_segment, tdSegment_app in Hl as (om & HD0 & Hlt).
    cbn in Hlt. destruct Hlt as [-> (tdt & Htdt & Hnone)].
    rewrite <- app_assoc. apply tdSegment_app. exists (Some t). split.
    + eapply tdSegment_kept; [|exact HD0]. apply keptOn_agree. intros x Hx.
      apply Haway; [apply elem_of_app; left; apply elem_of_app; by left|].
      rewrite Etl. intros ->%list_elem_of_singleton.
      apply NoDup_app in HndD as (_ & HndD & _). apply (HndD t Hx). by left.
    + cbn [app tdSegment]. split; [done|]. eexists. split.
      * apply Htail; [rewrite Etl; by left|done].
      * cbn. exact HT.
  - rewrite (doneOK_nil _ _ _ HD Ed). exact HT.
Qed.
(** The scan stops at [p], with the descriptors [pend] of a transaction
    behind it: the queue has nothing to harvest. *)
Lemma harvest_stop s qh sc pend p rest e :
  qh_firstTD qh = qHead sc → qh_lastTD qh = Some e →
  tdList (heap s) (qHead sc) (pend ++ p :: rest) →
  walks (heap s) (Some e) pend (false, false) = Some (TDisHalted sc, shortTransfer sc) →
  stopsAt (heap s) (Some e) p (TDisHalted sc, shortTransfer sc) →
  (length (pend ++ p :: rest) ≤ kScavengeBound)%nat →
  nothingToHarvest (heap s) qh (pend ++ [p]).
Proof.
  intros Ef El Hl Hw Hstop Hlen.
  apply tdList_segment in Hl.
  replace (pend ++ p :: rest) with ((pend ++ [p]) ++ rest) in Hl
    by (by rewrite <- app_assoc).
  apply tdSegment_app in Hl as (om & Hseg & _).
  exists pend, p, (TDisHalted sc, shortTransfer sc), om.
  rewrite Ef, El. split; [done|]. split; [done|]. split; [done|]. split; [done|].
  rewrite length_app in Hlen. cbn in Hlen. lia.
Qed.

(** The scan of a queue from the descriptors [pend] of a transaction on,
    over the rest [rest] of the queue, which has the end [e] of the queue
    in it: the scan returns, the queue has nothing more to harvest, and
    the transactions it had are in the done queue. *)
Lemma scanTDs_harvest fuel pQH e : ∀ k rest pend n qh sc s D,
  (length rest ≤ k)%nat →
  getQH (heap s) pQH = Some qh → qh_firstTD qh = qHead sc → qh_lastTD qh = Some e →
  tdList (heap s) (qHead sc) (pend ++ rest) → qTD sc = head rest →
  walks (heap s) (Some e) pend (false, false) = Some (TDisHalted sc, shortTransfer sc) →
  e ∈ rest → (length rest ≤ n)%nat →
  (length (pend ++ rest) ≤ kScavengeBound)%nat → (length rest ≤ fuel)%nat →
  doneOK s sc D → (∀ x, x ∈ D → x ∉ pend ++ rest) →
  ∃ sc' s' F D' qh',
    scanTDs fuel n pQH (Some e) sc s = Some (sc', s')
    ∧ getQH (heap s') pQH = Some qh'
    ∧ qh_lastTD qh' = qh_lastTD qh ∧ qh_type qh' = qh_type qh
    ∧ qh_logicalNext qh' = qh_logicalNext qh
    ∧ nothingToHarvest (heap s') qh' F
    ∧ (∀ x, x ∈ F → x ∈ pend ++ rest)
    ∧ doneOK s' sc' D' ∧ (∀ x, x ∈ D' → x ∉ F)
    ∧ (∀ x, x ∈ D' → x ∈ D ∨ x ∈ pend ++ rest)
    ∧ (∀ x, x ≠ pQH → x ∉ pend ++ rest → x ∉ tailOf sc → heap s' !! x = heap s !! x)
    ∧ scanFrame s' = scanFrame s ∧ callbacks (trace s') = callbacks (trace s).
Proof.
  induction k as [|k IH];
    intros rest pend n qh sc s D Hk Hq Ef El Hl HqTD Hw He Hn Hbound Hfuel HD Hdis.
  { destruct rest; [by apply elem_of_nil in He|cbn in Hk; lia]. }
  destruct rest as [|p rest]; [by apply elem_of_nil in He|].
  cbn [head] in HqTD.
  pose proof (linked_NoDup _ _ _ _ _ Hl) as Hnd.
  destruct (linked_lookup _ _ _ _ _ p Hl) as [td Htd]; [inlist|].
  (* the cases in which the scan stops here *)
  assert (stopsAt (heap s) (Some e) p (TDisHalted sc, shortTransfer sc) →
          scanTDs fuel n pQH (Some e) sc s = Some (sc, s) →
          ∃ sc' s' F D' qh',
            scanTDs fuel n pQH (Some e) sc s = Some (sc', s')
            ∧ getQH (heap s') pQH = Some qh'
            ∧ qh_lastTD qh' = qh_lastTD qh ∧ qh_type qh' = qh_type qh
            ∧ qh_logicalNext qh' = qh_logicalNext qh
            ∧ nothingToHarvest (heap s') qh' F
            ∧ (∀ x, x ∈ F → x ∈ pend ++ p :: rest)
            ∧ doneOK s' sc' D' ∧ (∀ x, x ∈ D' → x ∉ F)
            ∧ (∀ x, x ∈ D' → x ∈ D ∨ x ∈ pend ++ p :: rest)
            ∧ (∀ x, x ≠ pQH → x ∉ pend ++ p :: rest → x ∉ tailOf sc →
                 heap s' !! x = heap s !! x)
            ∧ scanFrame s' = scanFrame s ∧ callbacks (trace s') = callbacks (trace s))
    as Hstopped.
  { intros Hstop Escan. exists sc, s, (pend ++ [p]), D, qh.
    split; [done|]. split; [done|]. split; [done|]. split; [done|]. split; [done|].
    split; [by eapply harvest_stop|].
    split; [intros x; apply elem_of_snoc_cons|]. split; [done|]. split; [|by auto].
    intros x Hx Hx'. apply (Hdis x Hx). by apply elem_of_snoc_cons. }
  destruct (decide (p = e)) as [->|Hpe].
  { apply Hstopped; [by left|].
    destruct n; cbn [scanTDs]; rewrite HqTD; by rewrite decide_True. }
  assert (e ∈ rest) as He' by (by apply elem_of_cons in He as [<-|?]).
  destruct rest as [|q rest]; [by apply elem_of_nil in He'|].
  destruct n as [|n]; [cbn in Hn; lia|].
  destruct (examine td (modes sc)) as [M|] eqn:Hex.
  2: { apply Hstopped.
       - right. exists td. split; [done|]. by apply examine_None in Hex.
       - cbn [scanTDs]. rewrite HqTD, decide_False by congruence.
         by erewrite scanTD_break. }
  clear Hstopped.
  (* the next descriptor *)
  assert (td_logicalNext td = Some q ∧ is_Some (getTD (heap s) q)) as [Hnext Hnq].
  { apply tdList_segment, tdSegment_app in Hl as (om & _ & Hl).
    cbn in Hl. destruct Hl as [_ (td' & Htd' & Hn' & (tdq & Htdq & _))].
    rewrite Htd in Htd'. injection Htd' as <-. eauto. }
  assert (∀ x, x ∈ pend ++ p :: q :: rest → x ≠ pQH) as HcQH.
  { intros x Hx ->. destruct (linked_lookup _ _ _ _ _ _ Hl Hx) as [t Ht].
    by rewrite (getTD_getQH _ _ _ Ht) in Hq. }
  assert (∀ x, x ∈ D → x ≠ pQH) as HDQH.
  { intros x Hx ->. destruct HD as [HlD _].
    destruct (linked_lookup _ _ _ _ _ _ HlD Hx) as [t Ht].
    by rewrite (getTD_getQH _ _ _ Ht) in Hq. }
  cbn [scanTDs]. rewrite HqTD, decide_False by congruence.
  destruct (td_lastTDofTransaction td) eqn:Hlast.
  - (* the last descriptor of a transaction *)
    destruct (scanTD_last fuel pQH p td qh sc s M Htd Hq Hlast Hex) as (s1 & -> & H1 & _).
    destruct (ss_qh _ _ _ _ H1 qh Hq) as (st1 & Hq1 & _).
    destruct (ss_td _ _ _ _ H1 p td Htd) as [ab Hp1].
    pose proof (keptOn_scanStep _ _ (pend ++ p :: q :: rest) _ _ H1) as Hk1.
    assert (∀ x, x ≠ pQH → x ≠ p → heap s1 !! x = heap s !! x) as Haway1.
    { intros x HxQ Hxp. apply (ss_away _ _ _ _ H1); [done|].
      by intros ->%list_elem_of_singleton. }
    assert (tdList (heap s1) (qHead sc) (pend ++ p :: q :: rest)) as Hl1.
    { apply tdList_segment. eapply tdSegment_kept; [exact Hk1|]. by apply tdList_segment. }
    assert (tdSegment (heap s1) (qHead sc) (pend ++ [p]) (Some q)
            ∧ tdList (heap s1) (Some q) (q :: rest)) as [Hseg1 Hrest1].
    { apply tdList_segment in Hl1.
      replace (pend ++ p :: q :: rest) with ((pend ++ [p]) ++ q :: rest) in Hl1
        by (by rewrite <- app_assoc).
      apply tdSegment_app in Hl1 as (om & Hs1 & Hs2).
      pose proof Hs2 as [-> _]. split; [done|]. by apply tdList_segment. }
    destruct (tdList_records _ _ _ Hrest1) as (c & Ec & Hc).
    destruct c as [|[q' tdq] cq]; [done|].
    assert (q' = q ∧ cq.*1 = rest) as [-> Ecq] by (rewrite fmap_cons in Ec; by injection Ec).
    assert (NoDup (pend ++ [p]) ∧ (p ∉ q :: rest)
            ∧ ∀ x, x ∈ pend → x ≠ p ∧ (x ∉ q :: rest)) as (HndT & Hpr & Hpend).
    { apply NoDup_app in Hnd as (Hnd1 & Hnd2 & Hnd3).
      apply NoDup_cons in Hnd3 as [Hp3 _]. split; [|split; [done|]].
      - apply NoDup_app. split; [done|]. split; [|apply NoDup_singleton].
        intros x Hx ->%list_elem_of_singleton. apply (Hnd2 p Hx). by left.
      - intros x Hx. split; [intros ->; apply (Hnd2 p Hx); by left|].
        intros Hx'. apply (Hnd2 x Hx). by right. }
    assert (doneChain s1 (Some q) ((q, tdq) :: cq)) as Hc1.
    { split; [|done]. rewrite fmap_cons. cbn [fst]. by rewrite Ecq. }
    assert (p ∉ ((q, tdq) :: cq).*1) as Hpc.
    { rewrite fmap_cons. cbn [fst]. by rewrite Ecq. }
    assert (S (length cq) ≤ fuel)%nat as Hfuel1.
    { rewrite <- (length_fmap fst), Ecq. cbn in Hfuel. lia. }
    assert (is_Some (doneQueue (withModes M sc)) → is_Some (doneTail (withModes M sc)))
      as Hdt.
    { cbn. intros [d Hd]. destruct HD as [HlD Ht]. rewrite Ht by (by eexists).
      rewrite Hd in HlD. destruct D as [|d0 D _] using rev_ind; [done|].
      rewrite last_snoc. by eexists. }
    assert (∀ t, t ∈ tailOf (withModes M sc) →
                 is_Some (getTD (heap s1) t) ∧ t ≠ p ∧ t ∉ ((q, tdq) :: cq).*1) as Htl.
    { intros t Ht. pose proof (doneOK_tail _ _ _ _ HD Ht) as HtD.
      split; [|split].
      - destruct HD as [HlD _].
        eapply scanStep_is_TD; [exact H1|]. by eapply linked_lookup.
      - intros ->. apply (Hdis p HtD). inlist.
      - rewrite fmap_cons. cbn [fst]. rewrite Ecq. intros Ht'. apply (Hdis t HtD).
        inlist. }
    destruct (scanLastTD_spec fuel pQH p (set_td_alignBuffer ab td) (set_qh_stalled st1 qh)
                (withModes M sc) s1 q tdq cq Hp1 Hnext Hq1 Hc1 Hpc Hfuel1 Hdt Htl)
      as (s2 & -> & Hq2 & Hp2 & Hflip & Htail2 & Haway2 & Etr2 & Efr2).
    cbn [mbind option_bind].
    change (tailOf (withModes M sc)) with (tailOf sc) in *.
    change (doneQueue (withModes M sc)) with (doneQueue sc) in *.
    change (qHead (withModes M sc)) with (qHead sc) in *.
    rewrite fmap_cons in Haway2. cbn [fst] in Haway2. rewrite Ecq in Haway2.
    match goal with |- context [scanTDs fuel n pQH (Some e) ?x s2] => set (sc2 := x) end.
    set (qh2 := set_qh_firstTD (Some q)
                  (elinkAfter (modes (withModes M sc)) tdq (set_qh_stalled st1 qh))) in *.
    assert (qh_lastTD qh2 = qh_lastTD qh ∧ qh_type qh2 = qh_type qh
            ∧ qh_logicalNext qh2 = qh_logicalNext qh) as (El2 & Et2 & En2).
    { subst qh2. unfold elinkAfter. by repeat case_match. }
    destruct (IH (q :: rest) [] n qh2 sc2 s2 (D ++ pend ++ [p]))
      as (sc' & s' & F & D' & qh' & -> & Hq' & El' & Et' & En' & Hquiet & HF & HD'
          & HDF & HDsub & Haway & Efr & Ecb); try done.
    + cbn in Hk |- *. lia.
    + congruence.
    + cbn [app qHead sc2]. eapply linked_agree; [|exact Hrest1].
      intros x t Hx Ht. rewrite <- Ecq in Hx.
      change (q :: cq.*1) with (((q, tdq) :: cq).*1) in Hx.
      apply list_elem_of_fmap in Hx as (y & -> & Hy).
      apply list_elem_of_lookup in Hy as [j Hj].
      rewrite (Hflip j y Hj). 
      assert (getTD (heap s1) y.1 = Some y.2) as Hy1.
      { apply (proj1 (Forall_forall _ _) Hc). by eapply list_elem_of_lookup_2. }
      rewrite Hy1 in Ht. injection Ht as <-. eexists. split; [done|]. by case_match.
    + cbn in Hn |- *. lia.
    + cbn [app]. rewrite length_app in Hbound. cbn [length] in Hbound |- *. lia.
    + cbn in Hfuel |- *. lia.
    + assert (doneOK s1 sc D) as HD1.
      { eapply doneOK_agree; [|exact HD]. intros x Hx. apply Haway1; [by apply HDQH|].
        intros ->. apply (Hdis p Hx). inlist. }
      assert (∀ x, x ∈ D → x ∉ pend ++ [p]) as Hdis1.
      { intros x Hx Hx'. apply (Hdis x Hx). by apply elem_of_snoc_cons. }
      assert (∀ x, x ∈ D ++ pend → x ∉ tailOf sc → heap s2 !! x = heap s1 !! x) as Haw.
      { intros x Hx Hxt. apply Haway2; [| | |done].
        - apply elem_of_app in Hx as [Hx|Hx]; [by apply HDQH|]. apply HcQH. inlist.
        - apply elem_of_app in Hx as [Hx|Hx]; [|by apply Hpend].
          intros ->. apply (Hdis p Hx). inlist.
        - apply elem_of_app in Hx as [Hx|Hx]; [|by apply Hpend].
          intros Hx'. apply (Hdis x Hx). inlist. }
      exact (doneOK_collect s1 s2 sc D pend p q _ HD1 Hseg1 Hdis1 HndT Hp2 Htail2 Haw).
    + cbn [app]. intros x [Hx|[Hx|Hx]%elem_of_app]%elem_of_app.
      * intros Hx'. apply (Hdis x Hx). inlist.
      * by apply Hpend.
      * by apply list_elem_of_singleton in Hx as ->.
    + exists sc', s', F, D', qh'. split; [done|]. split; [done|].
      split; [congruence|]. split; [congruence|]. split; [congruence|]. split; [done|].
      cbn [app] in HF, HDsub, Haway.
      split; [intros x Hx; specialize (HF x Hx); inlist|].
      split; [done|]. split; [done|]. split.
      { intros x Hx. destruct (HDsub x Hx) as [Hx'|Hx']; [|right; inlist].
        apply elem_of_app in Hx' as [?|Hx']; [by left|]. right.
        by apply elem_of_snoc_cons. }
      split; [|split].
      * intros x HxQ Hxc Hxt.
        assert (x ≠ p) as Hxp by (intros ->; apply Hxc; inlist).
        assert (x ∉ q :: rest) as Hxr by (intros ?; apply Hxc; inlist).
        rewrite Haway; [|done|done|].
        -- rewrite Haway2 by done. by apply Haway1.
        -- unfold tailOf, sc2. cbn [doneQueue doneTail].
           destruct (doneQueue sc);
             [intros Hx; by apply list_elem_of_singleton in Hx|].
           destruct (qHead sc); [intros Hx; by apply list_elem_of_singleton in Hx|].
           by intros ?%elem_of_nil.
      * rewrite Efr, Efr2. apply (ss_frame _ _ _ _ H1).
      * rewrite Ecb, Etr2. apply (ss_callbacks _ _ _ _ H1).
  - (* a descriptor before the last *)
    destruct (scanTD_pass fuel pQH p td qh sc s M q Htd Hq Hlast Hex Hnext Hnq)
      as (s1 & -> & H1 & _).
    cbn [mbind option_bind].
    destruct (ss_qh _ _ _ _ H1 qh Hq) as (st1 & Hq1 & _).
    pose proof (keptOn_scanStep _ _ (pend ++ p :: q :: rest) _ _ H1) as Hk1.
    assert (∀ x, x ≠ pQH → x ≠ p → heap s1 !! x = heap s !! x) as Haway1.
    { intros x HxQ Hxp. apply (ss_away _ _ _ _ H1); [done|].
      by intros ->%list_elem_of_singleton. }
    destruct (IH (q :: rest) (pend ++ [p]) n (set_qh_stalled st1 qh)
                (advance (Some q) M sc) s1 D)
      as (sc' & s' & F & D' & qh' & -> & Hq' & El' & Et' & En' & Hquiet & HF & HD'
          & HDF & HDsub & Haway & Efr & Ecb); try done.
    + cbn in Hk |- *. lia.
    + rewrite <- app_assoc. cbn [app qHead advance].
      apply tdList_segment. eapply tdSegment_kept; [exact Hk1|].
      by apply tdList_segment.
    + cbn [TDisHalted shortTransfer advance]. rewrite walks_app.
      erewrite walks_kept; [|eapply keptOn_weaken; [|exact Hk1]|exact Hw].
      2: { intros. apply elem_of_app. by left. }
      cbn. rewrite decide_False by congruence.
      destruct (Hk1 p td) as (td1 & -> & E1); [inlist|done|]. cbn.
      rewrite (examineB_view _ _ _ E1). injection E1 as _ _ _ ->. rewrite Hlast.
      pose proof (examine_Some _ _ _ Hex) as HexB. cbn in HexB. by rewrite HexB.
    + cbn in Hn |- *. lia.
    + rewrite <- app_assoc. done.
    + cbn in Hfuel |- *. lia.
    + eapply doneOK_agree; [|exact HD]. intros x Hx. apply Haway1; [by apply HDQH|].
      intros ->. apply (Hdis p Hx). inlist.
    + intros x Hx. rewrite <- app_assoc. by apply Hdis.
    + exists sc', s', F, D', qh'. split; [done|]. split; [done|].
      split; [done|]. split; [done|]. split; [done|]. split; [done|].
      rewrite <- app_assoc in HF, HDsub, Haway. cbn [app] in HF, HDsub, Haway.
      split; [done|]. split; [done|]. split; [done|]. split; [done|].
      split; [|split].
      * intros x HxQ Hxc Hxt. rewrite Haway by done. apply Haway1; [done|].
        intros ->. apply Hxc. inlist.
      * rewrite Efr. apply (ss_frame _ _ _ _ H1).
      * rewrite Ecb. apply (ss_callbacks _ _ _ _ H1).
Qed.
End Harvest.

(** ** The pools as queues *)

Section Pools.
Context `{Header}.

(** A list grows at its end when the last descriptor is linked to a
    descriptor that is not in it. *)
Lemma tdList_snoc h o l f tf p tp :
  tdList h o l → last l = Some f → p ∉ l →
  getTD h f = Some tf → getTD h p = Some tp → td_logicalNext tp = None →
  tdList (<[f := ElemTD (set_td_logicalNext (Some p) tf)]> h) o (l ++ [p]).
Proof.
  revert o. induction l as [|x l IH]; intros o Hl Hlast Hp Hf Htp Hn; [done|].
  pose proof (linked_NoDup _ _ _ _ _ Hl) as [Hx Hnd]%NoDup_cons.
  destruct Hl as [-> (t & Ht & Hl)].
  apply not_elem_of_cons in Hp as [Hpx Hp].
  destruct l as [|y l].
  - injection Hlast as <-. rewrite Ht in Hf. injection Hf as <-.
    cbn in Hl. cbn. split; [done|]. eexists. rewrite getTD_insert_eq.
    split; [done|]. cbn. split; [done|]. exists tp.
    rewrite getTD_insert_ne by done. by rewrite Hn.
  - change (last (x :: y :: l)) with (last (y :: l)) in Hlast.
    assert (f ≠ x) as Hfx.
    { intros ->. apply Hx. by apply last_Some_elem_of. }
    rewrite <- app_comm_cons. split; [done|]. exists t.
    rewrite getTD_insert_ne by done. split; [done|]. by apply IH.
Qed.

Lemma qhList_snoc h o l f tf p tp :
  qhList h o l → last l = Some f → p ∉ l →
  getQH h f = Some tf → getQH h p = Some tp → qh_logicalNext tp = None →
  qhList (<[f := ElemQH (set_qh_logicalNext (Some p) tf)]> h) o (l ++ [p]).
Proof.
  revert o. induction l as [|x l IH]; intros o Hl Hlast Hp Hf Htp Hn; [done|].
  pose proof (linked_NoDup _ _ _ _ _ Hl) as [Hx Hnd]%NoDup_cons.
  destruct Hl as [-> (t & Ht & Hl)].
  apply not_elem_of_cons in Hp as [Hpx Hp].
  destruct l as [|y l].
  - injection Hlast as <-. rewrite Ht in Hf. injection Hf as <-.
    cbn in Hl. cbn. split; [done|]. eexists. rewrite getQH_insert_eq.
    split; [done|]. cbn. split; [done|]. exists tp.
    rewrite getQH_insert_ne by done. by rewrite Hn.
  - change (last (x :: y :: l)) with (last (y :: l)) in Hlast.
    assert (f ≠ x) as Hfx.
    { intros ->. apply Hx. by apply last_Some_elem_of. }
    rewrite <- app_comm_cons. split; [done|]. exists t.
    rewrite getQH_insert_ne by done. split; [done|]. by apply IH.
Qed.

Lemma last_None_nil {A} (l : list A) : last l = None → l = [].
Proof. destruct l as [|x l] using rev_ind; [done|]. by rewrite last_snoc. Qed.

(** The return of a descriptor to a pool it is not in. *)
Lemma DeallocateTD_tdPool p s l t :
  tdPool s l → getTD (heap s) p = Some t → p ∉ l →
  ∃ s', DeallocateTD p s = Some s'
        ∧ tdPool s' (l ++ [p])
        ∧ getTD (heap s') p = Some (set_td_logicalNext None (set_td_ctrlStatus 0 t))
        ∧ (∀ x, x ≠ p → Some x ≠ last l → heap s' !! x = heap s !! x)
        ∧ (∀ x, is_Some (getTD (heap s) x) → is_Some (getTD (heap s') x))
        ∧ tdPoolFrame s' = tdPoolFrame s.
Proof.
  intros [Hl Hlast] Ht Hp. unfold DeallocateTD.
  rewrite (updTD_Some _ _ _ _ Ht). cbn [mbind option_bind].
  change (_pLastFreeTD (set_heap _ s)) with (_pLastFreeTD s).
  destruct (_pLastFreeTD s) as [f|] eqn:Ef.
  - symmetry in Hlast.
    assert (f ∈ l) as Hfl by by apply last_Some_elem_of.
    assert (f ≠ p) as Hfp by (by intros ->).
    destruct (linked_lookup _ _ _ _ _ f Hl Hfl) as [tf Hf].
    erewrite updTD_Some; [|cbn; rewrite getTD_insert_ne by done; exact Hf].
    cbn [mbind option_bind]. eexists. split; [done|].
    split; [|split; [|split; [|split]]].
    + split; [|cbn; by rewrite last_snoc]. cbn.
      apply (tdList_snoc _ _ _ f tf p (set_td_logicalNext None (set_td_ctrlStatus 0 t)));
        [by apply tdList_insert_away|done|done| | |done].
      * by rewrite getTD_insert_ne.
      * by rewrite getTD_insert_eq.
    + cbn. rewrite getTD_insert_ne by done. by rewrite getTD_insert_eq.
    + intros x Hx Hxf. cbn. rewrite !lookup_insert_ne; [done|congruence..].
    + intros x Hx. cbn. rewrite !getTD_insert. by repeat case_decide.
    + by destruct s.
  - symmetry in Hlast. apply last_None_nil in Hlast as ->. cbn in Hl.
    eexists. split; [done|]. split; [|split; [|split; [|split]]].
    + split; [|done]. cbn. split; [done|]. eexists. rewrite getTD_insert_eq. by split.
    + cbn. by rewrite getTD_insert_eq.
    + intros x Hx _. cbn. by rewrite lookup_insert_ne.
    + intros x Hx. cbn. rewrite getTD_insert. by case_decide.
    + by destruct s.
Qed.

(** An allocation from a pool that is not empty. *)
Lemma AllocateTD_tdPool pQH s p l :
  tdPool s (p :: l) →
  ∃ s' t, AllocateTD pQH s = Some (Some p, s')
          ∧ tdPool s' l
          ∧ getTD (heap s') p = Some t ∧ zeroedTD t
          ∧ td_pQH t = pQH ∧ td_logicalNext t = None ∧ td_command t = None
          ∧ (∀ x, x ≠ p → heap s' !! x = heap s !! x)
          ∧ tdPoolFrame s' = tdPoolFrame s.
Proof.
  intros [Hl Hlast]. pose proof (linked_head _ _ _ _ _ Hl) as E. cbn in E.
  pose proof (linked_NoDup _ _ _ _ _ Hl) as [Hp Hnd]%NoDup_cons.
  destruct Hl as [_ (t & Ht & Hl)].
  unfold AllocateTD. rewrite E. unfold popFreeTD. rewrite Ht. cbn [mbind option_bind].
  rewrite (tdList_cast _ _ _ Hl). rewrite (linked_head _ _ _ _ _ Hl) in Hl |- *.
  eexists _, _. split; [done|].
  destruct l as [|y l].
  - cbn. rewrite getTD_insert_eq. repeat (split; [done|]). split; [|by destruct s].
    intros x Hx. by rewrite lookup_insert_ne.
  - cbn [head]. cbn. rewrite getTD_insert_eq.
    split; [|repeat (split; [done|]); split; [|by destruct s];
             intros x Hx; by rewrite lookup_insert_ne].
    split; [|done]. cbn in Hl. destruct Hl as [_ (ty & Hy & Hl)].
    split; [done|]. exists ty. apply not_elem_of_cons in Hp as [Hpy Hp]. cbn.
    rewrite getTD_insert_ne by done. split; [done|]. by apply tdList_insert_away.
Qed.

(** The same for a queue head. *)
Lemma DeallocateQH_qhPool p s l q :
  qhPool s l → getQH (heap s) p = Some q → p ∉ l →
  ∃ s', DeallocateQH p s = Some s'
        ∧ qhPool s' (l ++ [p])
        ∧ getQH (heap s') p = Some (set_qh_logicalNext None q)
        ∧ (∀ x, x ≠ p → Some x ≠ last l → heap s' !! x = heap s !! x)
        ∧ qhPoolFrame s' = qhPoolFrame s.
Proof.
  intros [Hl Hlast] Hq Hp. unfold DeallocateQH.
  rewrite (updQH_Some _ _ _ _ Hq). cbn [mbind option_bind].
  change (_pFreeQH (set_heap _ s)) with (_pFreeQH s).
  change (_pLastFreeQH (set_heap _ s)) with (_pLastFreeQH s).
  destruct l as [|y l].
  - cbn in Hl. rewrite Hl. eexists. split; [done|]. split; [|split; [|split]].
    + split; [|done]. cbn. split; [done|]. eexists. rewrite getQH_insert_eq. by split.
    + cbn. by rewrite getQH_insert_eq.
    + intros x Hx _. cbn. by rewrite lookup_insert_ne.
    + by destruct s.
  - rewrite (linked_head _ _ _ _ _ Hl). cbn [head].
    destruct (last (y :: l)) as [f|] eqn:Ef; [|by apply last_None_nil in Ef].
    rewrite Hlast. cbn [mbind option_bind].
    assert (f ∈ y :: l) as Hfl by by apply last_Some_elem_of.
    assert (f ≠ p) as Hfp by (by intros ->).
    destruct (linked_lookup _ _ _ _ _ f Hl Hfl) as [tf Hf].
    erewrite updQH_Some; [|cbn; rewrite getQH_insert_ne by done; exact Hf].
    cbn [mbind option_bind]. eexists. split; [done|]. split; [|split; [|split]].
    + split; [|by rewrite last_snoc]. cbn [heap set_heap set_pLastFreeQH _pFreeQH].
      apply (qhList_snoc _ _ _ f tf p (set_qh_logicalNext None q));
        [by apply qhList_insert_away|done|done| | |done].
      * by rewrite getQH_insert_ne.
      * by rewrite getQH_insert_eq.
    + cbn. rewrite getQH_insert_ne by done. by rewrite getQH_insert_eq.
    + intros x Hx Hxf. cbn. rewrite !lookup_insert_ne; [done|congruence..].
    + by destruct s.
Qed.

(** An allocation from a pool of queue heads that is not empty. *)
Lemma AllocateQH_qhPool fn en dir sp mps ty s p l q0 :
  qhPool s (p :: l) → getQH (heap s) p = Some q0 →
  ∃ s', AllocateQH fn en dir sp mps ty s = Some (Some p, s')
        ∧ qhPool s' l
        ∧ getQH (heap s') p
          = Some (mkQH (qh_elink q0) (qh_hlink q0) (qh_phys q0) None (qh_firstTD q0)
                    (qh_lastTD q0) ty false fn en dir sp mps)
        ∧ (∀ x, x ≠ p → heap s' !! x = heap s !! x)
        ∧ qhPoolFrame s' = qhPoolFrame s.
Proof.
  intros [Hl Hlast] Hq0. pose proof (linked_head _ _ _ _ _ Hl) as E. cbn in E.
  pose proof (linked_NoDup _ _ _ _ _ Hl) as [Hp Hnd]%NoDup_cons.
  destruct Hl as [_ (t & Ht & Hl)]. rewrite Hq0 in Ht. injection Ht as <-.
  unfold AllocateQH. rewrite E. unfold popFreeQH. rewrite Hq0. cbn [mbind option_bind].
  rewrite (qhList_cast _ _ _ Hl). rewrite (linked_head _ _ _ _ _ Hl) in Hl |- *.
  eexists. split; [done|].
  destruct l as [|y l].
  - cbn. rewrite getQH_insert_eq. repeat (split; [done|]). split; [|by destruct s].
    intros x Hx. by rewrite lookup_insert_ne.
  - cbn [head]. cbn. rewrite getQH_insert_eq.
    split; [|repeat (split; [done|]); split; [|by destruct s];
             intros x Hx; by rewrite lookup_insert_ne].
    split; [|done]. cbn in Hl. destruct Hl as [_ (ty' & Hy & Hl)].
    split; [done|]. exists ty'. apply not_elem_of_cons in Hp as [Hpy Hp]. cbn.
    rewrite getQH_insert_ne by done. split; [done|]. by apply qhList_insert_away.
Qed.

(** Descriptors returned in a row queue up behind the pool. *)
Lemma deallocateTDs_tdPool r : ∀ s l,
  tdPool s l → (∀ x, x ∈ r → is_Some (getTD (heap s) x)) → NoDup (l ++ r) →
  ∃ s', deallocateTDs r s = Some s' ∧ tdPool s' (l ++ r).
Proof.
  induction r as [|p r IH]; intros s l Hpool Hr Hnd.
  - exists s. by rewrite app_nil_r.
  - destruct (Hr p) as [t Ht]; [by left|].
    apply NoDup_app in Hnd as (Hndl & Hlr & [Hpr Hndr]%NoDup_cons).
    destruct (DeallocateTD_tdPool p s l t Hpool Ht) as (s1 & E1 & Hpool1 & _ & _ & Hsome & _).
    { intros Hpl. apply (Hlr p Hpl). by left. }
    destruct (IH s1 (l ++ [p]) Hpool1) as (s2 & E2 & Hpool2).
    + intros x Hx. apply Hsome, Hr. by right.
    + apply NoDup_app. split; [|split; [|done]].
      * apply NoDup_app. split; [done|]. split; [|apply NoDup_singleton].
        intros x Hx ->%list_elem_of_singleton. apply (Hlr p Hx). by left.
      * intros x [Hx| ->%list_elem_of_singleton]%elem_of_app Hxr; [|done].
        apply (Hlr x Hx). by right.
    + exists s2. cbn [deallocateTDs]. rewrite E1. cbn [mbind option_bind].
      split; [done|]. by rewrite <- app_assoc in Hpool2.
Qed.

(** Allocations in a row take the pool from its head. *)
Lemma allocateTDs_tdPool pQH l1 : ∀ l2 s,
  tdPool s (l1 ++ l2) →
  ∃ s', allocateTDs (length l1) pQH s = Some (l1, s') ∧ tdPool s' l2.
Proof.
  induction l1 as [|p l1 IH]; intros l2 s Hpool; [by exists s|].
  destruct (AllocateTD_tdPool pQH s p (l1 ++ l2) Hpool) as (s1 & t & E1 & Hpool1 & _).
  destruct (IH l2 s1 Hpool1) as (s2 & E2 & Hpool2).
  exists s2. cbn [length allocateTDs]. rewrite E1. cbn [mbind option_bind].
  rewrite E2. done.
Qed.

(** X1: [DeallocateTD] puts the descriptor at the end of the free list:
    a pool that held [l] holds [l ++ [p]] afterwards, with the tail
    pointer at [p].  The status word of [p] is zeroed and its link is
    null; its other fields are kept.  No other descriptor changes, apart
    from the former tail, whose link now leads to [p]; and nothing else
    of the controller changes. *)
Theorem DeallocateTD_queues_up p s l t :
  tdPool s l → getTD (heap s) p = Some t → p ∉ l →
  ∃ s', DeallocateTD p s = Some s'
        ∧ tdPool s' (l ++ [p])
        ∧ getTD (heap s') p = Some (set_td_logicalNext None (set_td_ctrlStatus 0 t))
        ∧ (∀ x, x ≠ p → Some x ≠ last l → heap s' !! x = heap s !! x)
        ∧ tdPoolFrame s' = tdPoolFrame s.
Proof.
  intros Hpool Ht Hp.
  destruct (DeallocateTD_tdPool p s l t Hpool Ht Hp) as (s' & E & H1 & H2 & H3 & _ & H4).
  by exists s'.
Qed.

(** X2: [AllocateTD] hands out the head of a free list that is not
    empty: a pool that held [p :: l] holds [l] afterwards, and the tail
    pointer is nulled with the head pointer when [p] was the last.  The
    descriptor comes with its four hardware words zeroed, no link, no
    command, and the queue head it was asked for; nothing else changes. *)
Theorem AllocateTD_takes_head pQH s p l :
  tdPool s (p :: l) →
  ∃ s' t, AllocateTD pQH s = Some (Some p, s')
          ∧ tdPool s' l
          ∧ getTD (heap s') p = Some t ∧ zeroedTD t
          ∧ td_pQH t = pQH ∧ td_logicalNext t = None ∧ td_command t = None
          ∧ (∀ x, x ≠ p → heap s' !! x = heap s !! x)
          ∧ tdPoolFrame s' = tdPoolFrame s.
Proof. apply AllocateTD_tdPool. Qed.

(** X3: the pool of transfer descriptors is a queue.  When the
    descriptors [r] are returned to a pool that holds [l], the next
    allocations hand out [l] and then [r], each in its order: a descriptor
    is reused only after all that were free before it. *)
Theorem tdPool_first_in_first_out pQH s l r :
  tdPool s l → (∀ x, x ∈ r → is_Some (getTD (heap s) x)) → NoDup (l ++ r) →
  ∃ s1 s2, deallocateTDs r s = Some s1
           ∧ allocateTDs (length (l ++ r)) pQH s1 = Some (l ++ r, s2)
           ∧ tdPool s2 [].
Proof.
  intros Hpool Hr Hnd.
  destruct (deallocateTDs_tdPool r s l Hpool Hr Hnd) as (s1 & E1 & Hpool1).
  destruct (allocateTDs_tdPool pQH (l ++ r) [] s1) as (s2 & E2 & Hpool2).
  { by rewrite app_nil_r. }
  by exists s1, s2.
Qed.

(** X4: [DeallocateQH] puts the queue head at the end of the free list
    of queue heads: a pool that held [l] holds [l ++ [p]] afterwards.
    Only the software link of [p] is reset: its hardware links, its queue
    and its stalled flag stay as they were. *)
Theorem DeallocateQH_queues_up p s l q :
  qhPool s l → getQH (heap s) p = Some q → p ∉ l →
  ∃ s', DeallocateQH p s = Some s'
        ∧ qhPool s' (l ++ [p])
        ∧ getQH (heap s') p = Some (set_qh_logicalNext None q)
        ∧ (∀ x, x ≠ p → Some x ≠ last l → heap s' !! x = heap s !! x)
        ∧ qhPoolFrame s' = qhPoolFrame s.
Proof. apply DeallocateQH_qhPool. Qed.

(** X5: a queue head that goes through the pool comes back with the
    endpoint it is allocated for, not stalled and with no software link,
    but with the hardware links and the queue it was returned with:
    [AllocateQH] does not reset them, whoever allocates has to. *)
Theorem AllocateQH_recycled fn en dir sp mps ty p s q :
  qhPool s [] → getQH (heap s) p = Some q →
  ∃ s1 s2, DeallocateQH p s = Some s1
           ∧ AllocateQH fn en dir sp mps ty s1 = Some (Some p, s2)
           ∧ getQH (heap s2) p
             = Some (mkQH (qh_elink q) (qh_hlink q) (qh_phys q) None (qh_firstTD q)
                       (qh_lastTD q) ty false fn en dir sp mps)
           ∧ qhPool s2 []
           ∧ (∀ x, x ≠ p → heap s2 !! x = heap s !! x)
           ∧ qhPoolFrame s2 = qhPoolFrame s.
Proof.
  intros Hpool Hq.
  destruct (DeallocateQH_qhPool p s [] q Hpool Hq) as (s1 & E1 & Hpool1 & Hq1 & Hh1 & Hf1).
  { apply not_elem_of_nil. }
  destruct (AllocateQH_qhPool fn en dir sp mps ty s1 p [] _ Hpool1 Hq1)
    as (s2 & E2 & Hpool2 & Hq2 & Hh2 & Hf2).
  exists s1, s2. repeat (split; [done|]). split; [|congruence].
  intros x Hx. rewrite Hh2 by done. by apply Hh1.
Qed.
End Pools.

(** The descriptor 3 is returned to the pool of 1 and 2. *)
Lemma DeallocateTD_queues_up_witness :
  ∃ s', DeallocateTD 3%nat recycleUHCI = Some s'
        ∧ tdPool s' ([1%nat; 2%nat] ++ [3%nat])
        ∧ getTD (heap s') 3%nat
          = Some (set_td_logicalNext None (set_td_ctrlStatus 0 doneTD2))
        ∧ (∀ x, x ≠ 3%nat → Some x ≠ last [1%nat; 2%nat]
             → heap s' !! x = heap recycleUHCI !! x)
        ∧ tdPoolFrame s' = tdPoolFrame recycleUHCI.
Proof.
  refine (DeallocateTD_queues_up 3%nat recycleUHCI [1%nat; 2%nat] doneTD2 _ _ _).
  - split; [|reflexivity].
    repeat (split; [reflexivity|]; eexists; split; [reflexivity|]). reflexivity.
  - reflexivity.
  - by apply (bool_decide_unpack _).
Defined.

Lemma AllocateTD_takes_head_witness :
  ∃ s' t, AllocateTD (Some 20%nat) recycleUHCI = Some (Some 1%nat, s')
          ∧ tdPool s' [2%nat]
          ∧ getTD (heap s') 1%nat = Some t ∧ zeroedTD t
          ∧ td_pQH t = Some 20%nat ∧ td_logicalNext t = None ∧ td_command t = None
          ∧ (∀ x, x ≠ 1%nat → heap s' !! x = heap recycleUHCI !! x)
          ∧ tdPoolFrame s' = tdPoolFrame recycleUHCI.
Proof.
  refine (AllocateTD_takes_head (Some 20%nat) recycleUHCI 1%nat [2%nat] _).
  split; [|reflexivity].
  repeat (split; [reflexivity|]; eexists; split; [reflexivity|]). reflexivity.
Defined.

Lemma tdPool_first_in_first_out_witness :
  ∃ s1 s2, deallocateTDs [3%nat] recycleUHCI = Some s1
           ∧ allocateTDs (length ([1%nat; 2%nat] ++ [3%nat])) None s1
             = Some ([1%nat; 2%nat] ++ [3%nat], s2)
           ∧ tdPool s2 [].
Proof.
  refine (tdPool_first_in_first_out None recycleUHCI [1%nat; 2%nat] [3%nat] _ _ _).
  - split; [|reflexivity].
    repeat (split; [reflexivity|]; eexists; split; [reflexivity|]). reflexivity.
  - intros x ->%list_elem_of_singleton. by eexists.
  - by apply (bool_decide_unpack _).
Defined.

(** The queue head 20 is returned to the pool of 21 and 22. *)
Lemma DeallocateQH_queues_up_witness :
  ∃ s', DeallocateQH 20%nat recycleUHCI = Some s'
        ∧ qhPool s' ([21%nat; 22%nat] ++ [20%nat])
        ∧ getQH (heap s') 20%nat = Some (set_qh_logicalNext None haltedQH)
        ∧ (∀ x, x ≠ 20%nat → Some x ≠ last [21%nat; 22%nat]
             → heap s' !! x = heap recycleUHCI !! x)
        ∧ qhPoolFrame s' = qhPoolFrame recycleUHCI.
Proof.
  refine (DeallocateQH_queues_up 20%nat recycleUHCI [21%nat; 22%nat] haltedQH _ _ _).
  - split; [|reflexivity].
    repeat (split; [reflexivity|]; eexists; split; [reflexivity|]). reflexivity.
  - reflexivity.
  - by apply (bool_decide_unpack _).
Defined.

(** The queue head 20 goes through an empty pool. *)
Lemma AllocateQH_recycled_witness :
  ∃ s1 s2, DeallocateQH 20%nat haltedUHCI = Some s1
           ∧ AllocateQH 3 1 0 1 8 0 s1 = Some (Some 20%nat, s2)
           ∧ getQH (heap s2) 20%nat
             = Some (mkQH (qh_elink haltedQH) (qh_hlink haltedQH) (qh_phys haltedQH) None
                       (qh_firstTD haltedQH) (qh_lastTD haltedQH) 0 false 3 1 0 1 8)
           ∧ qhPool s2 []
           ∧ (∀ x, x ≠ 20%nat → heap s2 !! x = heap haltedUHCI !! x)
           ∧ qhPoolFrame s2 = qhPoolFrame haltedUHCI.
Proof.
  refine (AllocateQH_recycled 3 1 0 1 8 0 20%nat haltedUHCI haltedQH _ _).
  - split; reflexivity.
  - reflexivity.
Defined.

(** ** The frame number as a 64-bit counter *)

Section Frame64.
Context `{Header}.

(** [x & ~mask] on a 32-bit word, for a mask of [k] low bits: [x] without
    its [k] low bits. *)
Lemma land_not32_ones k x :
  0 ≤ k → 0 ≤ x < 2 ^ 32 → Z.land x (not32 (Z.ones k)) = x - x mod 2 ^ k.
Proof.
  intros Hk Hx. unfold not32, wrap32.
  rewrite <- (Z.land_ones _ 32) by lia.
  rewrite (Z.land_comm (Z.lnot _)), Z.land_assoc.
  rewrite (Z.land_ones x 32) by lia. rewrite (Z.mod_small x) by lia.
  rewrite <- Z.ldiff_land, Z.ldiff_ones_r by lia.
  rewrite Z.shiftr_div_pow2, Z.shiftl_mul_pow2 by lia.
  pose proof (Z.div_mod x (2 ^ k)). lia.
Qed.

Lemma not32_ones k : 0 ≤ k ≤ 32 → not32 (Z.ones k) = 2 ^ 32 - 2 ^ k.
Proof.
  intros Hk. unfold not32, wrap32, Z.lnot. rewrite Z.ones_equiv.
  replace (- Z.pred (2 ^ k) - 1) with (- 2 ^ k) by lia.
  assert (0 < 2 ^ k ≤ 2 ^ 32).
  { split; [lia|]. apply Z.pow_le_mono_r; lia. }
  symmetry. apply (Z.mod_unique_pos _ _ (-1)); lia.
Qed.

(** The two words of the frame number, put together. *)
Lemma lor_shiftl_32 a b : 0 ≤ a < 2 ^ 32 → Z.lor a (Z.shiftl b 32) = a + 2 ^ 32 * b.
Proof.
  intros Ha.
  assert (Z.land a (Z.shiftl b 32) = 0) as Hland.
  { apply Z.bits_inj'. intros n Hn. rewrite Z.land_spec, Z.bits_0.
    destruct (Z.lt_ge_cases n 32) as [Hlt|Hge].
    - rewrite (Z.shiftl_spec_low b 32 n) by lia. apply andb_false_r.
    - rewrite <- (Z.mod_small a (2 ^ 32)) by lia.
      rewrite Z.mod_pow2_bits_high by lia. done. }
  rewrite <- (Z.lxor_lor _ _ Hland), <- (Z.add_nocarry_lxor _ _ Hland).
  rewrite Z.shiftl_mul_pow2 by lia. lia.
Qed.

(** The controller a branch of [GetFrameNumber] ends with. *)
Ltac frame_state :=
  match goal with
  | |- ∃ s', Some (_, ?st) = _ ∧ _ =>
      exists st; unfold frame64;
      cbn [_lastFrameNumberLow _lastFrameNumberHigh set_lastFrameNumberLow
           set_lastFrameNumberHigh]
  end.

(** [GetFrameNumber] on a running controller, for a frame number register
    of [k] bits. *)
Lemma GetFrameNumber_counts k fuel sts thisFrame s :
  0 ≤ k < 32 → kUHCI_FRNUM_MASK = Z.ones k → kUHCI_FRNUM_COUNT = 2 ^ k →
  Z.land sts kUHCI_STS_HCH = 0 →
  0 ≤ _lastFrameNumberLow s < 2 ^ 32 →
  0 ≤ _lastFrameNumberHigh s → _lastFrameNumberHigh s + 1 < 2 ^ 32 →
  0 ≤ thisFrame O < 2 ^ k →
  ∃ s',
    GetFrameNumber (S fuel) sts thisFrame s = Some (frame64 s', s')
    ∧ frame64 s' mod 2 ^ k = thisFrame O
    ∧ frame64 s ≤ frame64 s' < frame64 s + 2 ^ k
    ∧ 0 ≤ _lastFrameNumberLow s' < 2 ^ 32
    ∧ 0 ≤ _lastFrameNumberHigh s' < 2 ^ 32
    ∧ frameRest s' = frameRest s.
Proof.
  intros Hk Hmask Hcount Hrun Hlow Hhigh0 Hhigh Hthis.
  unfold GetFrameNumber, nonzero. rewrite Hrun.
  change (negb (0 =? 0)) with false. cbv iota.
  unfold frameNumberCAS, OSCompareAndSwap. rewrite Z.eqb_refl.
  rewrite Hmask, Hcount, !(land_not32_ones k), (not32_ones k), !(Z.land_ones _ k) by lia.
  set (low := _lastFrameNumberLow s) in *. set (high := _lastFrameNumberHigh s) in *.
  set (t := thisFrame O) in *.
  set (P := 2 ^ k) in *.
  assert (2 ^ 32 = P * 2 ^ (32 - k)) as HPQ.
  { unfold P. rewrite <- Z.pow_add_r by lia. f_equal. lia. }
  set (Q := 2 ^ (32 - k)) in *.
  assert (0 < P) as HP by (unfold P; lia).
  assert (0 < Q) as HQ by (unfold Q; apply Z.pow_pos_nonneg; lia).
  pose proof (Z.div_mod low P ltac:(lia)) as Hdm.
  pose proof (Z.mod_pos_bound low P HP) as Hr.
  set (q := low / P) in *. set (r := low mod P) in *.
  replace (low - r) with (P * q) by lia.
  assert (0 ≤ q < Q) as Hq by nia.
  assert (∀ n hi, 0 ≤ n < 2 ^ 32 → n = P * q + t ∨ n = P * (q + 1) + t - 2 ^ 32 * (hi - high) →
            (n + 2 ^ 32 * hi) mod P = t) as Hmod.
  { intros n hi Hn [->| ->].
    - replace (P * q + t + 2 ^ 32 * hi) with (t + (q + Q * hi) * P) by (rewrite HPQ; lia).
      rewrite Z_mod_plus_full. apply Z.mod_small. lia.
    - replace (P * (q + 1) + t - 2 ^ 32 * (hi - high) + 2 ^ 32 * hi)
        with (t + (q + 1 + Q * high) * P) by (rewrite HPQ; lia).
      rewrite Z_mod_plus_full. apply Z.mod_small. lia. }
  destruct (Z.leb_spec (2 ^ 32 - P) low) as [Hlock|Hfree];
    destruct (Z.leb_spec r t) as [Hle|Hgt]; cbn [mbind option_bind].
  - (* locked, no overflow *)
    assert (wrap32 (P * q + t) = P * q + t) as E by (apply wrap32_small; nia).
    rewrite E, lor_shiftl_32 by nia. frame_state.
    split; [done|]. split; [apply Hmod; [nia|by left]|]. split; [lia|].
    split; [nia|]. split; [lia|]. by destruct s.
  - (* locked, 11-bit and 32-bit overflow *)
    assert (q = Q - 1) as Eq by nia.
    assert (wrap32 (P * q + t + P) = t) as E.
    { unfold wrap32. symmetry. apply (Z.mod_unique_pos _ _ 1); nia. }
    assert (wrap32 (high + 1) = high + 1) as Eh by (apply wrap32_small; lia).
    rewrite E, Eh.
    change (_lastFrameNumberHigh (set_lastFrameNumberLow t
              (set_lastFrameNumberHigh (high + 1) s))) with (high + 1).
    rewrite lor_shiftl_32 by nia. frame_state.
    split; [done|]. split; [apply Hmod; [nia|right; nia]|]. split; [nia|].
    split; [nia|]. split; [lia|]. by destruct s.
  - (* lock-free, no overflow *)
    assert (wrap32 (P * q + t) = P * q + t) as E by (apply wrap32_small; nia).
    rewrite E, lor_shiftl_32 by nia. frame_state.
    split; [done|]. split; [apply Hmod; [nia|by left]|]. split; [lia|].
    split; [nia|]. split; [lia|]. by destruct s.
  - (* lock-free, 11-bit overflow *)
    assert (q + 1 < Q) as Hq1 by nia.
    assert (wrap32 (P * q + t + P) = P * q + t + P) as E by (apply wrap32_small; nia).
    rewrite E, lor_shiftl_32 by nia. frame_state.
    split; [done|]. split; [apply Hmod; [nia|right; nia]|]. split; [lia|].
    split; [nia|]. split; [lia|]. by destruct s.
Qed.

(** X6: on a running controller whose frame number register has [k] bits,
    [GetFrameNumber] extends the register to the 64-bit frame number it
    keeps: it returns the number it stores, whose [k] low bits are the
    register, and which is the least such number that is not below the
    number stored before.  So the frame number never goes back, and it
    is exact as long as the function is called at least once in every
    [2 ^ k] frames.  Nothing else of the controller changes. *)
Theorem GetFrameNumber_extends k fuel sts thisFrame s :
  0 ≤ k < 32 → kUHCI_FRNUM_MASK = Z.ones k → kUHCI_FRNUM_COUNT = 2 ^ k →
  Z.land sts kUHCI_STS_HCH = 0 →
  0 ≤ _lastFrameNumberLow s < 2 ^ 32 →
  0 ≤ _lastFrameNumberHigh s → _lastFrameNumberHigh s + 1 < 2 ^ 32 →
  0 ≤ thisFrame O < 2 ^ k →
  ∃ s',
    GetFrameNumber (S fuel) sts thisFrame s = Some (frame64 s', s')
    ∧ frame64 s' mod 2 ^ k = thisFrame O
    ∧ frame64 s ≤ frame64 s' < frame64 s + 2 ^ k
    ∧ frameRest s' = frameRest s.
Proof.
  intros Hk Hmask Hcount Hrun Hlow Hhigh0 Hhigh Hthis.
  destruct (GetFrameNumber_counts k fuel sts thisFrame s)
    as (s' & E & Hm & Hr & _ & _ & Hf); try done.
  by exists s'.
Qed.

(** X7: on a running controller, [GetFrameNumber32] returns the low word
    of the frame number, which is the word the call stores in
    [_lastFrameNumberLow]; its [k] low bits are the frame number
    register. *)
Theorem GetFrameNumber32_low_word k fuel sts thisFrame s :
  0 ≤ k < 32 → kUHCI_FRNUM_MASK = Z.ones k → kUHCI_FRNUM_COUNT = 2 ^ k →
  Z.land sts kUHCI_STS_HCH = 0 →
  0 ≤ _lastFrameNumberLow s < 2 ^ 32 →
  0 ≤ _lastFrameNumberHigh s → _lastFrameNumberHigh s + 1 < 2 ^ 32 →
  0 ≤ thisFrame O < 2 ^ k →
  ∃ s',
    GetFrameNumber32 (S fuel) sts thisFrame s = Some (_lastFrameNumberLow s', s')
    ∧ GetFrameNumber (S fuel) sts thisFrame s = Some (frame64 s', s')
    ∧ _lastFrameNumberLow s' = frame64 s' mod 2 ^ 32
    ∧ _lastFrameNumberLow s' mod 2 ^ k = thisFrame O.
Proof.
  intros Hk Hmask Hcount Hrun Hlow Hhigh0 Hhigh Hthis.
  destruct (GetFrameNumber_counts k fuel sts thisFrame s)
    as (s' & E & Hm & _ & Hl & Hh & _); try done.
  assert (frame64 s' mod 2 ^ 32 = _lastFrameNumberLow s') as Ew.
  { unfold frame64. symmetry.
    apply (Z.mod_unique_pos _ _ (_lastFrameNumberHigh s')); lia. }
  exists s'. unfold GetFrameNumber32. rewrite E. cbn [mbind option_bind].
  unfold wrap32. rewrite Ew. repeat (split; [done|]).
  rewrite <- Hm. unfold frame64.
  assert (2 ^ 32 = 2 ^ k * 2 ^ (32 - k)) as ->.
  { rewrite <- Z.pow_add_r by lia. f_equal. lia. }
  replace (_lastFrameNumberLow s' + 2 ^ k * 2 ^ (32 - k) * _lastFrameNumberHigh s')
    with (_lastFrameNumberLow s' + (2 ^ (32 - k) * _lastFrameNumberHigh s') * 2 ^ k) by lia.
  by rewrite Z_mod_plus_full.
Qed.
End Frame64.

(** The register has wrapped around to 5 since the frame 2^32 - 1: the
    high word is incremented. *)
Lemma GetFrameNumber_extends_witness :
  ∃ s',
    GetFrameNumber 1 0 (λ _, 5) lateUHCI = Some (frame64 s', s')
    ∧ frame64 s' mod 2 ^ 11 = 5
    ∧ frame64 lateUHCI ≤ frame64 s' < frame64 lateUHCI + 2 ^ 11
    ∧ frameRest s' = frameRest lateUHCI.
Proof.
  refine (GetFrameNumber_extends 11 0 0 (λ _, 5) lateUHCI _ _ _ _ _ _ _ _);
    try reflexivity; cbn [lateUHCI initialUHCI _lastFrameNumberLow _lastFrameNumberHigh
                         set_lastFrameNumberLow]; lia.
Defined.

Example GetFrameNumber_extends_value :
  fst <$> GetFrameNumber 1 0 (λ _, 5) lateUHCI = Some 0x100000005.
Proof. reflexivity. Qed.

Lemma GetFrameNumber32_low_word_witness :
  ∃ s',
    GetFrameNumber32 1 0 (λ _, 5) lateUHCI = Some (_lastFrameNumberLow s', s')
    ∧ GetFrameNumber 1 0 (λ _, 5) lateUHCI = Some (frame64 s', s')
    ∧ _lastFrameNumberLow s' = frame64 s' mod 2 ^ 32
    ∧ _lastFrameNumberLow s' mod 2 ^ 11 = 5.
Proof.
  refine (GetFrameNumber32_low_word 11 0 0 (λ _, 5) lateUHCI _ _ _ _ _ _ _ _);
    try reflexivity; cbn [lateUHCI initialUHCI _lastFrameNumberLow _lastFrameNumberHigh
                         set_lastFrameNumberLow]; lia.
Defined.

(** ** Starting, stopping and resetting the controller *)

Section Control.
Context `{Header} `{ResetHeader}.

(** The wait loop of [Run] succeeds when one of the polls left finds the
    controller in the state asked for, and times out otherwise. *)
Lemma waitForController_spec run sts n : ∀ i,
  kIOReturnTimeout ≠ kIOReturnSuccess →
  (waitForController n i run sts = kIOReturnSuccess
   ↔ ∃ j, (i ≤ j < i + n)%nat ∧ (Z.land (sts j) kUHCI_STS_HCH =? 0) = run)
  ∧ (waitForController n i run sts = kIOReturnSuccess
     ∨ waitForController n i run sts = kIOReturnTimeout).
Proof.
  induction n as [|n IH]; intros i Hne; cbn [waitForController].
  - split; [|by right]. split; [done|]. intros (j & Hj & _). lia.
  - destruct (Bool.eqb run (Z.land (sts i) kUHCI_STS_HCH =? 0)) eqn:E.
    + apply Bool.eqb_prop in E. split; [|by left]. split; [|done].
      intros _. exists i. split; [lia|done].
    + destruct (IH (S i) Hne) as [Hiff Hor]. split; [|done].
      rewrite Hiff. split.
      * intros (j & Hj & Ej). exists j. split; [lia|done].
      * intros (j & Hj & Ej). exists j. split; [|done].
        destruct (decide (j = i)) as [->|]; [|lia].
        rewrite Ej, Bool.eqb_reflx in E. done.
Qed.

(** The command [Run] writes, bit by bit. *)
Lemma run_command_bits run cmd n :
  0 ≤ cmd < 2 ^ 16 → 0 ≤ n →
  Z.testbit (if run : bool then Z.lor cmd kUHCI_CMD_RS
             else wrap16 (Z.land cmd (Z.lnot kUHCI_CMD_RS))) n
  = if Z.testbit kUHCI_CMD_RS n then run else Z.testbit cmd n.
Proof.
  intros Hcmd Hn. destruct run.
  - rewrite Z.lor_spec. destruct (Z.testbit kUHCI_CMD_RS n); [apply orb_true_r|apply orb_false_r].
  - unfold wrap16. destruct (Z.lt_ge_cases n 16) as [Hlt|Hge].
    + rewrite Z.mod_pow2_bits_low by lia.
      rewrite Z.land_spec, Z.lnot_spec by lia.
      destruct (Z.testbit kUHCI_CMD_RS n); [apply andb_false_r|apply andb_true_r].
    + rewrite Z.mod_pow2_bits_high by lia.
      assert (Z.testbit cmd n = false) as ->.
      { rewrite <- (Z.mod_small cmd (2 ^ 16)) by lia.
        apply Z.mod_pow2_bits_high. lia. }
      by destruct (Z.testbit kUHCI_CMD_RS n).
Qed.

(** X8: [Run] changes the run/stop bit of the command register and no
    other: the command it writes has the bits of [kUHCI_CMD_RS] set when
    the controller is to run and cleared when it is to stop, and every
    other bit as it was read.  It writes the command once and changes
    nothing in the driver. *)
Theorem Run_command run cmd sts s :
  0 ≤ cmd < 2 ^ 16 →
  ∃ cmd',
    (Run run cmd sts s).2 = add_trace [EvCommand cmd'] s
    ∧ ∀ n, 0 ≤ n →
        Z.testbit cmd' n = if Z.testbit kUHCI_CMD_RS n then run else Z.testbit cmd n.
Proof.
  intros Hcmd. eexists. split; [reflexivity|].
  intros n Hn. by apply run_command_bits.
Qed.

(** X9: [Run] polls the status register at most 20 times.  It returns
    [kIOReturnSuccess] exactly when one of these polls finds the halted
    bit in the state asked for (clear to run, set to stop), and
    [kIOReturnTimeout] otherwise. *)
Theorem Run_status run cmd sts s :
  kIOReturnTimeout ≠ kIOReturnSuccess →
  ((Run run cmd sts s).1 = kIOReturnSuccess
   ↔ ∃ j, (j < 20)%nat ∧ (Z.land (sts j) kUHCI_STS_HCH =? 0) = run)
  ∧ ((Run run cmd sts s).1 ≠ kIOReturnSuccess → (Run run cmd sts s).1 = kIOReturnTimeout).
Proof.
  intros Hne. cbn [Run fst].
  destruct (waitForController_spec run sts 20 0 Hne) as [Hiff Hor]. split.
  - rewrite Hiff. split; intros (j & Hj & Ej); exists j; (split; [lia|done]).
  - intros Hn. by destruct Hor.
Qed.

(** X10: [Reset] writes the reset command and polls the command register
    at most [kUHCI_RESET_DELAY] times.  It succeeds exactly when one of
    these polls finds the reset bit clear.  When it times out, and when
    the driver has no frame list yet, it writes nothing else; otherwise
    it programs the frame list base, the frame number and the
    configuration, in this order, and enables the interrupts only when
    asked to.  It changes nothing in the driver. *)
Theorem Reset_outcome enableInterrupts cmdReads s :
  kIOReturnTimeout ≠ kIOReturnSuccess →
  let status := (Reset enableInterrupts cmdReads s).1 in
  let s' := (Reset enableInterrupts cmdReads s).2 in
  (status = kIOReturnSuccess
   ↔ ∃ j, (j < kUHCI_RESET_DELAY)%nat ∧ Z.land (cmdReads j) kUHCI_CMD_HCRESET = 0)
  ∧ (status ≠ kIOReturnSuccess → status = kIOReturnTimeout)
  ∧ (status ≠ kIOReturnSuccess ∨ _framesPaddr s = 0 →
     s' = add_trace [EvCommand kUHCI_CMD_HCRESET] s)
  ∧ (status = kIOReturnSuccess → _framesPaddr s ≠ 0 →
     s' = add_trace
            ([EvCommand kUHCI_CMD_HCRESET;
              EvIoWrite32 kUHCI_FRBASEADDR (_framesPaddr s);
              EvIoWrite16 kUHCI_FRNUM
                (wrap16 (Z.land (_lastFrameNumberLow s) kUHCI_FRNUM_MASK));
              EvCommand (Z.lor kUHCI_CMD_MAXP kUHCI_CMD_CF)]
             ++ if enableInterrupts
                then [EvIoWrite16 kUHCI_INTR
                        (Z.lor (Z.lor (Z.lor kUHCI_INTR_TIE kUHCI_INTR_RIE)
                                  kUHCI_INTR_IOCE) kUHCI_INTR_SPIE)]
                else []) s).
Proof.
  intros Hne status s'. subst status s'. unfold Reset.
  pose proof (waitForReset_spec cmdReads kUHCI_RESET_DELAY 0) as Hw.
  destruct (waitForReset kUHCI_RESET_DELAY 0 cmdReads) eqn:E; cbn [negb fst snd].
  - split; [|split; [done|split]].
    + split; [|done]. intros _. destruct (proj1 Hw eq_refl) as (j & Hj & Ej).
      exists j. split; [lia|done].
    + intros [Hn|Hp]; [done|].
      change (_framesPaddr (add_trace _ s)) with (_framesPaddr s).
      rewrite Hp. done.
    + intros _ Hp. change (_framesPaddr (add_trace _ s)) with (_framesPaddr s).
      unfold nonzero. apply Z.eqb_neq in Hp. rewrite Hp. cbn [negb].
      unfold add_trace. destruct enableInterrupts; destruct s; cbn;
        by rewrite <- ?app_assoc.
  - split; [|split; [done|split; [done|]]].
    + split; [done|]. intros (j & Hj & Ej).
      assert (false = true) as Habs; [|done].
      apply Hw. exists j. split; [lia|done].
    + intros Habs. done.
Qed.

(** X11: the frame number survives a reset.  [Reset] writes the low bits
    of the stored frame number back to the frame number register; when
    the register then reads what was written, [GetFrameNumber] returns
    the frame number as it was before the reset, and stores it again. *)
Theorem Reset_keeps_frame_number k enableInterrupts cmdReads fuel sts s :
  kIOReturnTimeout ≠ kIOReturnSuccess →
  0 ≤ k ≤ 16 → kUHCI_FRNUM_MASK = Z.ones k → kUHCI_FRNUM_COUNT = 2 ^ k →
  (Reset enableInterrupts cmdReads s).1 = kIOReturnSuccess → _framesPaddr s ≠ 0 →
  0 ≤ _lastFrameNumberLow s < 2 ^ 32 →
  0 ≤ _lastFrameNumberHigh s → _lastFrameNumberHigh s + 1 < 2 ^ 32 →
  Z.land sts kUHCI_STS_HCH = 0 →
  ∃ written v s',
    trace (Reset enableInterrupts cmdReads s).2 = trace s ++ written
    ∧ EvIoWrite16 kUHCI_FRNUM v ∈ written
    ∧ GetFrameNumber (S fuel) sts (λ _, v) (Reset enableInterrupts cmdReads s).2
      = Some (frame64 s, s')
    ∧ frame64 s' = frame64 s.
Proof.
  intros Hne Hk Hmask Hcount Hok Hp Hlow Hhigh0 Hhigh Hrun.
  rewrite (Reset_writes _ _ _ Hok (or_introl Hne) Hp).
  set (v := wrap16 (Z.land (_lastFrameNumberLow s) kUHCI_FRNUM_MASK)).
  match goal with |- context [GetFrameNumber _ _ _ ?st] => set (s1 := st) end.
  assert (0 < 2 ^ k ≤ 2 ^ 16) as HP.
  { split; [lia|]. apply Z.pow_le_mono_r; lia. }
  pose proof (Z.mod_pos_bound (_lastFrameNumberLow s) (2 ^ k) ltac:(lia)) as Hr.
  assert (v = _lastFrameNumberLow s mod 2 ^ k) as Ev.
  { unfold v, wrap16. rewrite Hmask, Z.land_ones by lia. apply Z.mod_small. lia. }
  assert (_lastFrameNumberLow s1 = _lastFrameNumberLow s
          ∧ _lastFrameNumberHigh s1 = _lastFrameNumberHigh s) as [El Eh].
  { done. }
  destruct (GetFrameNumber_counts k fuel sts (λ _, v) s1)
    as (s' & E & Hm & Hr' & _); [lia|done|done|done|rewrite El; lia|rewrite Eh; lia..|lia|].
  assert (frame64 s1 = frame64 s) as E1 by (unfold frame64; by rewrite El, Eh).
  assert (frame64 s mod 2 ^ k = v) as Hm0.
  { unfold frame64. rewrite Ev.
    assert (2 ^ 32 = 2 ^ k * 2 ^ (32 - k)) as ->.
    { rewrite <- Z.pow_add_r by lia. f_equal. lia. }
    replace (_lastFrameNumberLow s + 2 ^ k * 2 ^ (32 - k) * _lastFrameNumberHigh s)
      with (_lastFrameNumberLow s + (2 ^ (32 - k) * _lastFrameNumberHigh s) * 2 ^ k) by lia.
    by rewrite Z_mod_plus_full. }
  assert (frame64 s' = frame64 s) as E'.
  { rewrite E1 in Hr'.
    pose proof (Z.div_mod (frame64 s) (2 ^ k) ltac:(lia)) as Ha.
    pose proof (Z.div_mod (frame64 s') (2 ^ k) ltac:(lia)) as Hb.
    rewrite Hm0 in Ha. rewrite Hm in Hb.
    set (a := frame64 s / 2 ^ k) in *. set (b := frame64 s' / 2 ^ k) in *.
    assert (0 ≤ 2 ^ k * (b - a) < 2 ^ k) as Hd by lia.
    assert (b - a = 0) as Hz by nia. nia. }
  eexists _, v, s'. split; [|split; [|split; [by rewrite E, E'|done]]].
  - reflexivity.
  - do 2 right. by left.
Qed.
End Control.

(** The controller comes up at the fourth poll. *)
Lemma Run_command_witness :
  ∃ cmd',
    (Run true 0x00C0 (λ i, if (i <? 3)%nat then 0x20 else 0) initialUHCI).2
    = add_trace [EvCommand cmd'] initialUHCI
    ∧ ∀ n, 0 ≤ n →
        Z.testbit cmd' n
        = if Z.testbit (@kUHCI_CMD_RS sampleHeader) n then true else Z.testbit 0x00C0 n.
Proof.
  refine (Run_command true 0x00C0 (λ i, if (i <? 3)%nat then 0x20 else 0) initialUHCI _).
  lia.
Defined.

Lemma Run_status_witness :
  ((Run true 0x00C0 (λ i, if (i <? 3)%nat then 0x20 else 0) initialUHCI).1
   = kIOReturnSuccess
   ↔ ∃ j, (j < 20)%nat
          ∧ (Z.land (if (j <? 3)%nat then 0x20 else 0) (@kUHCI_STS_HCH sampleHeader) =? 0)
            = true)
  ∧ ((Run true 0x00C0 (λ i, if (i <? 3)%nat then 0x20 else 0) initialUHCI).1
     ≠ kIOReturnSuccess
     → (Run true 0x00C0 (λ i, if (i <? 3)%nat then 0x20 else 0) initialUHCI).1
       = kIOReturnTimeout).
Proof.
  refine (Run_status true 0x00C0 (λ i, if (i <? 3)%nat then 0x20 else 0) initialUHCI _).
  discriminate.
Defined.

Example Run_stops_late :
  Run false 0x00C1 (λ _, 0) initialUHCI
  = (kIOReturnTimeout, add_trace [EvCommand 0x00C0] initialUHCI).
Proof. reflexivity. Qed.

(** The reset bit clears at the third poll. *)
Lemma Reset_outcome_witness :
  let status := (Reset true (λ i, if (i <? 2)%nat then 0x2 else 0) lateUHCI).1 in
  let s' := (Reset true (λ i, if (i <? 2)%nat then 0x2 else 0) lateUHCI).2 in
  (status = kIOReturnSuccess
   ↔ ∃ j, (j < kUHCI_RESET_DELAY)%nat
          ∧ Z.land (if (j <? 2)%nat then 0x2 else 0) kUHCI_CMD_HCRESET = 0)
  ∧ (status ≠ kIOReturnSuccess → status = kIOReturnTimeout)
  ∧ (status ≠ kIOReturnSuccess ∨ _framesPaddr lateUHCI = 0 →
     s' = add_trace [EvCommand kUHCI_CMD_HCRESET] lateUHCI)
  ∧ (status = kIOReturnSuccess → _framesPaddr lateUHCI ≠ 0 →
     s' = add_trace
            ([EvCommand kUHCI_CMD_HCRESET;
              EvIoWrite32 kUHCI_FRBASEADDR (_framesPaddr lateUHCI);
              EvIoWrite16 kUHCI_FRNUM
                (wrap16 (Z.land (_lastFrameNumberLow lateUHCI) kUHCI_FRNUM_MASK));
              EvCommand (Z.lor kUHCI_CMD_MAXP kUHCI_CMD_CF)]
             ++ if true
                then [EvIoWrite16 kUHCI_INTR
                        (Z.lor (Z.lor (Z.lor kUHCI_INTR_TIE kUHCI_INTR_RIE)
                                  kUHCI_INTR_IOCE) kUHCI_INTR_SPIE)]
                else []) lateUHCI).
Proof.
  refine (Reset_outcome true (λ i, if (i <? 2)%nat then 0x2 else 0) lateUHCI _).
  discriminate.
Defined.

Example Reset_times_out :
  Reset true (λ _, 0x2) lateUHCI
  = (kIOReturnTimeout, add_trace [EvCommand 0x2] lateUHCI).
Proof. reflexivity. Qed.

Lemma Reset_keeps_frame_number_witness :
  ∃ written v s',
    trace (Reset true (λ i, if (i <? 2)%nat then 0x2 else 0) lateUHCI).2
    = trace lateUHCI ++ written
    ∧ EvIoWrite16 kUHCI_FRNUM v ∈ written
    ∧ GetFrameNumber 1 0 (λ _, v)
        (Reset true (λ i, if (i <? 2)%nat then 0x2 else 0) lateUHCI).2
      = Some (frame64 lateUHCI, s')
    ∧ frame64 s' = frame64 lateUHCI.
Proof.
  refine (Reset_keeps_frame_number 11 true (λ i, if (i <? 2)%nat then 0x2 else 0) 0 0
            lateUHCI _ _ _ _ _ _ _ _ _ _);
    try reflexivity; try discriminate;
    try (cbn [lateUHCI initialUHCI _lastFrameNumberLow _lastFrameNumberHigh
              set_lastFrameNumberLow]; lia).
Defined.

(** ** The schedule as [HardwareInit] leaves it *)

Ltac inlist4 :=
  first [ by left | right; inlist4 ].

Section Init.
Context `{Header} `{ResetHeader}.

(** *** What the construction leaves alone *)

Lemma threadQHs_isoch slots : ∀ freeQH s,
  isochFields (threadQHs slots freeQH s).2 = isochFields s.
Proof.
  induction slots as [|[[p q]|] slots IH]; intros freeQH s; cbn [threadQHs]; [done| |done].
  by rewrite IH.
Qed.

Lemma popFreeQH_isoch fn en dir sp mps ty freeQH s r s' :
  popFreeQH fn en dir sp mps ty freeQH s = Some (r, s') → isochFields s' = isochFields s.
Proof.
  unfold popFreeQH. destruct freeQH as [p|]; [|by intros [= _ <-]].
  destruct (getQH (heap s) p); [|done]. cbn [mbind option_bind].
  intros [= _ <-]. by destruct (castQH _ _).
Qed.

Lemma AllocateQH_isoch fn en dir sp mps ty s r s' :
  AllocateQH fn en dir sp mps ty s = Some (r, s') → isochFields s' = isochFields s.
Proof.
  unfold AllocateQH. destruct (_pFreeQH s); [apply popFreeQH_isoch|].
  destruct (qhBlockSupply s) as [|b supply]; [by intros [= _ <-]|].
  destruct (firstSlot ElemQH b _) as [first s2] eqn:E2.
  destruct (threadQHs _ _ _) as [freeQH s4] eqn:E4.
  intros E%popFreeQH_isoch. rewrite E.
  pose proof (threadQHs_isoch (tail b) None (set_pFreeQH first (set_pLastFreeQH first s2)))
    as E'. rewrite E4 in E'. cbn [snd] in E'. rewrite E'.
  unfold firstSlot in E2. destruct b as [|[[p q]|] b]; by injection E2 as _ <-.
Qed.

Lemma updQH_isoch p f s s' : updQH p f s = Some s' → isochFields s' = isochFields s.
Proof. unfold updQH. destruct (getQH _ _); [|done]. by intros [= <-]. Qed.

Lemma frameLoop_isoch fuel : ∀ j period pQH link s,
  isochFields (frameLoop fuel j period pQH link s) = isochFields s.
Proof.
  induction fuel as [|fuel IH]; intros j period pQH link s; cbn [frameLoop]; [done|].
  destruct (_ <? _)%nat; [|done]. by rewrite IH.
Qed.

Lemma intrLoop_isoch n : ∀ i lastQH s r s',
  intrLoop n i lastQH s = Some (r, s') → isochFields s' = isochFields s.
Proof.
  induction n as [|n IH]; intros i lastQH s r s'; cbn [intrLoop]; [by intros [= _ <-]|].
  destruct (AllocateQH _ _ _ _ _ _ s) as [[[pQH|] s1]|] eqn:E1; cbn [mbind option_bind];
    [|intros [= _ <-]; by eapply AllocateQH_isoch|done].
  apply AllocateQH_isoch in E1.
  destruct (getQH _ lastQH) as [last|]; cbn [mbind option_bind]; [|done].
  destruct (updQH pQH _ _) as [s2|] eqn:E2; cbn [mbind option_bind]; [|done].
  apply updQH_isoch in E2.
  destruct (getQH (heap s2) pQH) as [q|]; cbn [mbind option_bind]; [|done].
  intros E%IH. by rewrite E, frameLoop_isoch, E2.
Qed.

(** One allocation of [HardwareInit]: the state [sa] after it, or the
    return with [kIOReturnNoMemory]. *)
Ltac init_alloc qa sa Ea F :=
  match goal with
  | |- context [AllocateQH ?a1 ?a2 ?a3 ?a4 ?a5 ?a6 ?st] =>
      destruct (AllocateQH a1 a2 a3 a4 a5 a6 st) as [[[qa|] sa]|] eqn:Ea;
      cbn [mbind option_bind];
      [apply AllocateQH_isoch in Ea; rewrite F in Ea
      |apply AllocateQH_isoch in Ea; rewrite F in Ea; by intros [= _ <-]
      |done]
  end.

(** The queue head is scheduled: the state [sb] after it. *)
Ltac init_sched sb Eb Ea :=
  match goal with
  | |- context [updQH ?q ?f ?st] =>
      destruct (updQH q f st) as [sb|] eqn:Eb; cbn [mbind option_bind]; [|done];
      apply updQH_isoch in Eb; cbn in Eb; rewrite Ea in Eb
  end.

Lemma Reset_isoch enableInterrupts cmdReads s :
  isochFields (Reset enableInterrupts cmdReads s).2 = isochFields s.
Proof.
  unfold Reset. destruct (negb _); [done|]. cbn [snd].
  destruct (nonzero _); [|done]. by destruct enableInterrupts.
Qed.

Lemma HardwareInit_isoch cmdReads statusBuffers buffers cmd sts s status s' :
  HardwareInit cmdReads statusBuffers buffers cmd sts s = Some (status, s') →
  isochFields s' = isochFields s.
Proof.
  unfold HardwareInit.
  match goal with |- context [Reset ?b ?c ?st] =>
    pose proof (Reset_isoch b c st) as HR;
    destruct (Reset b c st) as [statusReset sr] end.
  cbn [snd] in HR. change (isochFields sr = isochFields s) in HR.
  destruct (negb (statusReset =? _)); [by intros [= _ <-]|].
  destruct (negb (statusBuffers =? _)); [by intros [= _ <-]|].
  match goal with |- context [AllocateQH _ _ _ _ _ _ ?st] =>
    assert (isochFields st = isochFields s) as F0 by exact HR end.
  init_alloc qa st1 Ea F0. init_sched st2 Eb Ea.
  match goal with |- context [AllocateQH _ _ _ _ _ _ ?st] =>
    assert (isochFields st = isochFields s) as F1 by done end.
  init_alloc qc st3 Ec F1.
  destruct (getQH _ qa) as [last|]; cbn [mbind option_bind]; [|done].
  init_sched st4 Ed Ec.
  match goal with |- context [AllocateQH _ _ _ _ _ _ ?st] =>
    assert (isochFields st = isochFields s) as F2 by done end.
  init_alloc qe st5 Ee F2.
  destruct (getQH _ qc) as [bulk|]; cbn [mbind option_bind]; [|done].
  init_sched st6 Ef Ee.
  match goal with |- context [AllocateQH _ _ _ _ _ _ ?st] =>
    assert (isochFields st = isochFields s) as F3 by done end.
  init_alloc qg st7 Eg F3.
  destruct (getQH _ qe) as [fs|]; cbn [mbind option_bind]; [|done].
  init_sched st8 Eh Eg.
  match goal with |- context [intrLoop _ _ _ ?st] =>
    assert (isochFields st = isochFields s) as F4 by done;
    destruct (intrLoop kUHCI_NINTR_QHS 0 qg st) as [[[st'|] st9]|] eqn:Ei;
    cbn [mbind option_bind]; [| |done];
    apply intrLoop_isoch in Ei; rewrite F4 in Ei end.
  - by intros [= _ <-].
  - destruct (_lastQH st9) as [lq|]; cbn [mbind option_bind]; [|done].
    destruct (getQH (heap st9) qe) as [fs'|]; cbn [mbind option_bind]; [|done].
    init_sched st10 Ej Ei. by intros [= _ <-].
Qed.

(** *** A schedule at rest *)

(** The loop over the list elements passes the dummies and the stalled
    queue heads. *)
Lemma scanListElements_passed fuel l : ∀ n o leCount sc s,
  qhList (heap s) o l → (∀ q, q ∈ l → passedOver (heap s) q) → (length l ≤ n)%nat →
  scanListElements fuel n o leCount sc s = Some (leCount + Z.of_nat (length l), sc, s).
Proof.
  induction l as [|p l IH]; intros n o leCount sc s Hl Hp Hn.
  - cbn in Hl. subst o. destruct n; cbn; by rewrite Z.add_0_r.
  - destruct Hl as [-> (qh & Hq & Hl)].
    destruct n as [|n]; [cbn in Hn; lia|].
    destruct (Hp p) as (r & Hr & Hpass); [by left|].
    rewrite Hq in Hr. injection Hr as <-.
    apply getQH_lookup in Hq. cbn [scanListElements]. rewrite Hq.
    cbn [mbind option_bind].
    assert (negb (qh_type qh =? kQHTypeDummy) && negb (qh_stalled qh) = false) as ->.
    { destruct Hpass as [->| ->]; [by rewrite Z.eqb_refl|apply andb_false_r]. }
    cbn [mbind option_bind]. rewrite Hq. cbn [mbind option_bind logicalNext].
    rewrite (IH n (qh_logicalNext qh) (leCount + 1) sc s Hl); [| |cbn in Hn; lia].
    + do 3 f_equal. cbn [length]. lia.
    + intros q Hq'. apply Hp. by right.
Qed.

(** On a list that never ends the loop stops at its bound. *)
Lemma scanListElements_cyclic fuel (C : ptr → Prop) sc s n : ∀ p leCount,
  (∀ q, C q → ∃ r q', getQH (heap s) q = Some r
                      ∧ (qh_type r = kQHTypeDummy ∨ qh_stalled r = true)
                      ∧ qh_logicalNext r = Some q' ∧ C q') →
  C p →
  scanListElements fuel n (Some p) leCount sc s
  = Some (leCount + Z.of_nat n + 1, sc, s).
Proof.
  induction n as [|n IH]; intros p leCount HC Hp.
  - cbn. do 3 f_equal. lia.
  - destruct (HC p Hp) as (r & q' & Hq & Hpass & Hn & Hq').
    apply getQH_lookup in Hq. cbn [scanListElements]. rewrite Hq.
    cbn [mbind option_bind].
    assert (negb (qh_type r =? kQHTypeDummy) && negb (qh_stalled r) = false) as ->.
    { destruct Hpass as [->| ->]; [by rewrite Z.eqb_refl|apply andb_false_r]. }
    cbn [mbind option_bind]. rewrite Hq. cbn [mbind option_bind logicalNext].
    rewrite Hn, (IH q' (leCount + 1) HC Hq'). do 3 f_equal. lia.
Qed.

Lemma scavengeIsochTransactions_rest fuel s :
  _savedDoneQueueHead s = None ∨ _consumerCount s = _producerCount s →
  _isochEPList s = None →
  scavengeIsochTransactions fuel s = Some (kIOReturnSuccess, s).
Proof.
  intros Hd He. unfold scavengeIsochTransactions.
  assert (match _savedDoneQueueHead s with
          | Some p =>
              if negb (_consumerCount s =? _producerCount s)
              then
                '(pDoneEl, cachedConsumer, s0) ←
                  reverseDoneQueue
                    (Z.to_nat (wrap32 (_producerCount s - _consumerCount s)))
                    p None (_consumerCount s) (_producerCount s) s;
                drainDoneQueue fuel (Some pDoneEl) (set_consumerCount cachedConsumer s0)
              else Some s
          | None => Some s
          end = Some s) as ->.
  { destruct Hd as [->|E]; [done|]. rewrite E, Z.eqb_refl. by destruct (_savedDoneQueueHead s). }
  cbn [mbind option_bind]. rewrite He. by destruct fuel.
Qed.

Lemma scavengeQueueHeads_rest fuel o l s :
  qhList (heap s) o l → (∀ q, q ∈ l → passedOver (heap s) q) →
  (length l ≤ kScavengeBound)%nat →
  scavengeQueueHeads fuel o s
  = Some (kIOReturnSuccess,
          if 1000 <? Z.of_nat (length l)
          then add_trace [LogBadEDQueue (Z.of_nat (length l))] s else s).
Proof.
  intros Hl Hp Hn. unfold scavengeQueueHeads.
  rewrite (scanListElements_passed fuel l _ _ _ _ _ Hl Hp Hn). done.
Qed.

Lemma scheduledAfter_terminated h pred qs :
  scheduledAfter h pred qs → ∀ q, q ∈ qs → terminatedDummy h q.
Proof.
  revert pred. induction qs as [|q0 qs IH]; intros pred Hs q Hq;
    [by apply elem_of_nil in Hq|].
  destruct Hs as [(r & rp & Hr & _ & _ & _ & He & _ & Ht) Hs].
  apply elem_of_cons in Hq as [->|Hq]; [by exists r|]. by eapply IH.
Qed.

(** The software list of a frame slot after [HardwareInit]. *)
Lemma HardwareInit_paths cmdReads buffers cmd sts s last bulk fs ls intr rest :
  waitForReset kUHCI_RESET_DELAY 0 cmdReads = true →
  qhReady s (last :: bulk :: fs :: ls :: intr ++ rest) →
  length intr = kUHCI_NINTR_QHS →
  length (bm_frameList buffers) = kUHCI_NVFRAMES →
  length (_logicalFrameList s) = kUHCI_NVFRAMES →
  length (_intrQH s) = kUHCI_NINTR_QHS →
  ∃ s',
    HardwareInit cmdReads 0 buffers cmd sts s
    = Some (waitForController 20 0 true sts, s')
    ∧ _intrQH s' = Some <$> intr
    ∧ (∀ m q, intr !! m = Some q →
         qhList (heap s') (Some q) (rev (take (S m) intr) ++ [ls; fs; bulk; last]))
    ∧ (∀ j m, (j < kUHCI_NVFRAMES)%nat → slotLevelFrom 0 kUHCI_NINTR_QHS j = Some m →
         _logicalFrameList s' !! j = Some (intr !! m))
    ∧ (∀ q, q ∈ last :: bulk :: fs :: ls :: intr → terminatedDummy (heap s') q).
Proof.
  intros Hreset Hready Hlen Hf1 Hf2 Hiq.
  destruct (HardwareInit_built cmdReads buffers cmd sts s last bulk fs ls intr rest)
    as (s' & ql & qf & E & _ & _ & _ & Hql & _ & Hnl & _ & Hel & Hty & Hsch & Hnd & Hint
        & _ & Hsl);
    [done..|].
  exists s'. split; [done|]. split; [done|]. split; [|split].
  - intros m q Hq.
    assert (Hl : qhList (heap s') (Some last) [last]).
    { split; [done|]. exists ql. by rewrite Hnl. }
    assert (Hm : (bulk :: fs :: ls :: intr) !! (3 + m)%nat = Some q) by done.
    pose proof (scheduledAfter_path _ _ _ _ _ q Hsch Hl Hm) as Hp.
    change (take (S (3 + m)) (bulk :: fs :: ls :: intr))
      with (bulk :: fs :: ls :: take (S m) intr) in Hp.
    cbn [rev] in Hp. by rewrite <- !app_assoc in Hp.
  - intros j m Hj Em. destruct (Hsl j Hj) as [E1 _]. by rewrite Em in E1.
  - intros q [->|Hq]%elem_of_cons; [by exists ql|].
    by apply (scheduledAfter_terminated _ _ _ Hsch).
Qed.


(** X13: the order of the schedule.  After [HardwareInit] the software
    links lead from every frame slot [j], whose level is [m], through the
    interrupt queue heads of the levels [m] down to 0, then through the
    low speed control queue head, the full speed control queue head and
    the bulk queue head to the tail, where the list ends.  All of them are
    dummies with a terminated element link. *)
Theorem HardwareInit_frame_order cmdReads buffers cmd sts s last bulk fs ls intr rest :
  waitForReset kUHCI_RESET_DELAY 0 cmdReads = true →
  qhReady s (last :: bulk :: fs :: ls :: intr ++ rest) →
  length intr = kUHCI_NINTR_QHS → (0 < kUHCI_NINTR_QHS)%nat →
  length (bm_frameList buffers) = kUHCI_NVFRAMES →
  length (_logicalFrameList s) = kUHCI_NVFRAMES →
  length (_intrQH s) = kUHCI_NINTR_QHS →
  ∃ status s',
    HardwareInit cmdReads 0 buffers cmd sts s = Some (status, s')
    ∧ (∀ j, (j < kUHCI_NVFRAMES)%nat →
         ∃ m, slotLevelFrom 0 kUHCI_NINTR_QHS j = Some m
              ∧ qhList (heap s') (mjoin (_logicalFrameList s' !! j))
                  (rev (take (S m) intr) ++ [ls; fs; bulk; last]))
    ∧ (∀ q, q ∈ last :: bulk :: fs :: ls :: intr → terminatedDummy (heap s') q).
Proof.
  intros Hreset Hready Hlen Hpos Hf1 Hf2 Hiq.
  destruct (HardwareInit_paths cmdReads buffers cmd sts s last bulk fs ls intr rest)
    as (s' & E & _ & Hpath & Hslot & Hterm); [done..|].
  exists (waitForController 20 0 true sts), s'. split; [done|]. split; [|done].
  intros j Hj.
  destruct kUHCI_NINTR_QHS as [|N] eqn:EN; [lia|].
  destruct (slotLevelFrom_0 N j) as (m & Em). exists m. split; [done|].
  pose proof Em as [_ Hm]%slotLevelFrom_ge.
  destruct (intr !! m) as [q|] eqn:Eq; [|apply lookup_ge_None in Eq; lia].
  rewrite (Hslot j m Hj Em), Eq. cbn [mjoin option_join]. by apply Hpath.
Qed.

(** X14: the scavenger passes the queue heads that are dummies or
    stalled.  On a list of such queue heads [scavengeQueueHeads] visits
    every element and changes nothing: no descriptor is looked at and no
    callback fires; a list of more than 1000 elements is reported in the
    log. *)
Theorem scavengeQueueHeads_passes fuel o l s :
  qhList (heap s) o l → (∀ q, q ∈ l → passedOver (heap s) q) →
  (length l ≤ kScavengeBound)%nat →
  scavengeQueueHeads fuel o s
  = Some (kIOReturnSuccess,
          if 1000 <? Z.of_nat (length l)
          then add_trace [LogBadEDQueue (Z.of_nat (length l))] s else s).
Proof. apply scavengeQueueHeads_rest. Qed.

(** X15: the scavenger does not run away on a list that is linked into a
    circle.  When the software links lead from [p] through dummies or
    stalled queue heads and never end, [scavengeQueueHeads] gives up
    after 150000 elements, reports the list in the log and returns
    success, with nothing else changed. *)
Theorem scavengeQueueHeads_circle fuel (C : ptr → Prop) p s :
  (∀ q, C q → ∃ r q', getQH (heap s) q = Some r
                      ∧ (qh_type r = kQHTypeDummy ∨ qh_stalled r = true)
                      ∧ qh_logicalNext r = Some q' ∧ C q') →
  C p →
  scavengeQueueHeads fuel (Some p) s
  = Some (kIOReturnSuccess, add_trace [LogBadEDQueue 150001] s).
Proof.
  intros HC Hp. unfold scavengeQueueHeads.
  rewrite (scanListElements_cyclic fuel C _ s kScavengeBound p 0 HC Hp).
  cbn [mbind option_bind doneQueue]. unfold kScavengeBound.
  rewrite Z2Nat.id by lia. done.
Qed.

(** X16: the schedule [HardwareInit] builds is at rest.  With no
    isochronous descriptor on the done queue and no isochronous endpoint,
    [ProcessCompletedTransactions] walks the new schedule from the top
    interrupt queue head to the tail and leaves the controller as
    [HardwareInit] left it. *)
Theorem HardwareInit_then_ProcessCompletedTransactions fuel cmdReads buffers cmd sts s
    last bulk fs ls intr rest :
  waitForReset kUHCI_RESET_DELAY 0 cmdReads = true →
  qhReady s (last :: bulk :: fs :: ls :: intr ++ rest) →
  length intr = kUHCI_NINTR_QHS → (0 < kUHCI_NINTR_QHS ≤ 996)%nat →
  length (bm_frameList buffers) = kUHCI_NVFRAMES →
  length (_logicalFrameList s) = kUHCI_NVFRAMES →
  length (_intrQH s) = kUHCI_NINTR_QHS →
  _savedDoneQueueHead s = None ∨ _consumerCount s = _producerCount s →
  _isochEPList s = None →
  ∃ status s',
    HardwareInit cmdReads 0 buffers cmd sts s = Some (status, s')
    ∧ ProcessCompletedTransactions fuel s' = Some s'.
Proof.
  intros Hreset Hready Hlen Hn Hf1 Hf2 Hiq Hdone Heps.
  destruct (HardwareInit_paths cmdReads buffers cmd sts s last bulk fs ls intr rest)
    as (s' & E & Hint & Hpath & _ & Hterm); [done..|].
  exists (waitForController 20 0 true sts), s'. split; [done|].
  pose proof (HardwareInit_isoch _ _ _ _ _ _ _ _ E) as Hi.
  unfold isochFields in Hi. injection Hi as E1 E2 E3 E4 E5.
  unfold ProcessCompletedTransactions.
  rewrite scavengeIsochTransactions_rest; [|by rewrite E1, E2, E3|by rewrite E4].
  cbn [mbind option_bind].
  destruct (intr !! (kUHCI_NINTR_QHS - 1)%nat) as [top|] eqn:Etop;
    [|apply lookup_ge_None in Etop; lia].
  rewrite Hint, list_lookup_fmap, Etop. cbn [fmap option_fmap option_map mbind option_bind].
  pose proof (Hpath _ _ Etop) as Hl.
  assert (length (rev (take (S (kUHCI_NINTR_QHS - 1)) intr) ++ [ls; fs; bulk; last])
          = (kUHCI_NINTR_QHS + 4)%nat) as Elen.
  { rewrite length_app, length_rev, length_take. cbn [length]. lia. }
  rewrite (scavengeQueueHeads_rest fuel _ _ s' Hl).
  - cbn [mbind option_bind]. rewrite Elen.
    destruct (Z.ltb_spec 1000 (Z.of_nat (kUHCI_NINTR_QHS + 4))); [lia|done].
  - intros q Hq. destruct (Hterm q) as (r & Hr & Hty & _); [|exists r; auto].
    apply elem_of_app in Hq as [Hq|Hq].
    + apply elem_of_rev, elem_of_take in Hq as (i & Hq & _).
      do 4 right. by eapply list_elem_of_lookup_2.
    + repeat (apply elem_of_cons in Hq as [->|Hq]); [inlist4..|by apply elem_of_nil in Hq].
  - rewrite Elen. unfold kScavengeBound. lia.
Qed.
End Init.


(** The registers written on the sample state: the driver had a frame
    list at 0x10000, so the reset takes it up again before the new frame
    list at 0x20000 is given to the controller. *)
Example HardwareInit_register_sequence_trace :
  (λ r, trace r.2) <$> HardwareInit (λ _, 0) 0 sampleBuffers 0 (λ _, 0) schedUHCI
  = Some [EvIoWrite16 kUHCI_INTR 0; EvCommand 0x4; EvCommand 0; EvCommand 0x2;
          EvIoWrite32 kUHCI_FRBASEADDR 0x10000; EvIoWrite16 kUHCI_FRNUM 0;
          EvCommand 0xC0;
          EvIoWrite16 kUHCI_FRNUM 0; EvIoWrite32 kUHCI_FRBASEADDR 0x20000;
          EvCommand 0xC0; EvIoWrite16 kUHCI_INTR 0xF; EvCommand 0x1].
Proof. vm_compute. reflexivity. Qed.

Lemma HardwareInit_frame_order_witness :
  ∃ status s',
    HardwareInit (λ _, 0) 0 sampleBuffers 0 (λ _, 0) schedUHCI = Some (status, s')
    ∧ (∀ j, (j < kUHCI_NVFRAMES)%nat →
         ∃ m, slotLevelFrom 0 kUHCI_NINTR_QHS j = Some m
              ∧ qhList (heap s') (mjoin (_logicalFrameList s' !! j))
                  (rev (take (S m) [21; 20; 19; 18; 17; 16; 15; 14; 13; 12; 11]%nat)
                   ++ [22; 23; 24; 25]%nat))
    ∧ (∀ q, q ∈ [25; 24; 23; 22; 21; 20; 19; 18; 17; 16; 15; 14; 13; 12; 11]%nat →
         terminatedDummy (heap s') q).
Proof.
  refine (HardwareInit_frame_order (λ _, 0) sampleBuffers 0 (λ _, 0) schedUHCI
            25%nat 24%nat 23%nat 22%nat
            [21; 20; 19; 18; 17; 16; 15; 14; 13; 12; 11]%nat [10%nat] _ _ _ _ _ _ _);
    try reflexivity.
  - right. split; [reflexivity|].
    exists 10%nat, (freshQH 0x8000), (tail (qhBlock 10%nat 0x8000 16)), [].
    split; [reflexivity|]. split; [repeat constructor; eauto|].
    split; [discriminate|]. split; [by apply (bool_decide_unpack _)|].
    split; reflexivity.
  - cbn. lia.
Defined.

(** The list of the slot 3, whose level is 2. *)
Example HardwareInit_frame_order_slot :
  slotLevelFrom 0 (@kUHCI_NINTR_QHS sampleHeader) 3 = Some 2%nat
  ∧ rev (take 3 [21; 20; 19; 18; 17; 16; 15; 14; 13; 12; 11]%nat) ++ [22; 23; 24; 25]%nat
    = [19; 20; 21; 22; 23; 24; 25]%nat.
Proof. split; reflexivity. Qed.

Lemma scavengeQueueHeads_passes_witness :
  scavengeQueueHeads 5 (Some 30%nat) restUHCI
  = Some (kIOReturnSuccess,
          if 1000 <? Z.of_nat (length [30%nat; 31%nat])
          then add_trace [LogBadEDQueue (Z.of_nat (length [30%nat; 31%nat]))] restUHCI
          else restUHCI).
Proof.
  refine (scavengeQueueHeads_passes 5 (Some 30%nat) [30%nat; 31%nat] restUHCI _ _ _).
  - repeat (split; [reflexivity|]; eexists; split; [reflexivity|]). reflexivity.
  - intros q Hq. repeat (apply elem_of_cons in Hq as [->|Hq]);
      [| |by apply elem_of_nil in Hq].
    + eexists. split; [reflexivity|]. by left.
    + eexists. split; [reflexivity|]. by right.
  - cbn [length]. unfold kScavengeBound. lia.
Defined.

Lemma scavengeQueueHeads_circle_witness :
  scavengeQueueHeads 5 (Some 32%nat) restUHCI
  = Some (kIOReturnSuccess, add_trace [LogBadEDQueue 150001] restUHCI).
Proof.
  refine (scavengeQueueHeads_circle 5 (λ q, q = 32%nat) 32%nat restUHCI _ _).
  - intros q ->. eexists _, 32%nat. split; [reflexivity|].
    split; [by left|]. split; reflexivity.
  - reflexivity.
Defined.

Lemma HardwareInit_then_ProcessCompletedTransactions_witness :
  ∃ status s',
    HardwareInit (λ _, 0) 0 sampleBuffers 0 (λ _, 0) schedUHCI = Some (status, s')
    ∧ ProcessCompletedTransactions 5 s' = Some s'.
Proof.
  refine (HardwareInit_then_ProcessCompletedTransactions 5 (λ _, 0) sampleBuffers 0
            (λ _, 0) schedUHCI 25%nat 24%nat 23%nat 22%nat
            [21; 20; 19; 18; 17; 16; 15; 14; 13; 12; 11]%nat [10%nat] _ _ _ _ _ _ _ _ _);
    try reflexivity.
  - right. split; [reflexivity|].
    exists 10%nat, (freshQH 0x8000), (tail (qhBlock 10%nat 0x8000 16)), [].
    split; [reflexivity|]. split; [repeat constructor; eauto|].
    split; [discriminate|]. split; [by apply (bool_decide_unpack _)|].
    split; reflexivity.
  - cbn. lia.
  - by left.
Defined.

(** ** The dispatch returns the chain to the pool *)

Section Recycle.
Context `{Header}.

Lemma poolStep_refl p s : poolStep p s s.
Proof. by split. Qed.

Lemma poolStep_trans p s1 s2 s3 : poolStep p s1 s2 → poolStep p s2 s3 → poolStep p s1 s3.
Proof.
  intros [A1 B1 C1 D1] [A2 B2 C2 D2]. split; [|by auto|congruence..].
  intros x Hx. by rewrite A2, A1.
Qed.

Lemma poolStep_add_trace p evs s : poolStep p s (add_trace evs s).
Proof. by split. Qed.

Lemma poolStep_updTD p f s s' : updTD p f s = Some s' → poolStep p s s'.
Proof.
  unfold updTD. destruct (getTD (heap s) p) as [t|] eqn:Ht; [|done].
  intros [= <-]. split; cbn; [| |done..].
  - intros x Hx. by rewrite getTD_insert_ne.
  - intros _. rewrite getTD_insert_eq. by eexists.
Qed.

Lemma poolStep_updQH p q f s s' : updQH q f s = Some s' → poolStep p s s'.
Proof.
  unfold updQH. destruct (getQH (heap s) q) as [t|] eqn:Ht; [|done].
  intros [= <-]. split; cbn; [| |done..].
  - intros x _. by rewrite (getTD_insert_QH _ _ _ _ _ Ht).
  - by rewrite (getTD_insert_QH _ _ _ _ _ Ht).
Qed.

Lemma poolStep_controlBulkDone p q s s' : controlBulkDone q s = Some s' → poolStep p s s'.
Proof.
  unfold controlBulkDone. destruct (getQH (heap s) q) as [qh|]; [|done].
  cbn [mbind option_bind].
  destruct ((qh_type qh =? kUSBControl) || (qh_type qh =? kUSBBulk));
    [|intros [= <-]; apply poolStep_refl].
  destruct (_controlBulkTransactionsOut s =? 0);
    [intros [= <-]; apply poolStep_add_trace|].
  cbn. destruct (wrap32 (_controlBulkTransactionsOut s - 1) =? 0);
    [|by intros [= <-]].
  destruct (_lastQH s) as [lq|]; [|done]. cbn [mbind option_bind].
  destruct (getQH (heap s) lq) as [last|] eqn:Hlast; [|done]. cbn [mbind option_bind].
  intros E. apply (poolStep_updQH p) in E. destruct E as [A B C D]. by split.
Qed.

Lemma poolStep_doneQueueStatus p td forceErr E s :
  poolStep p s (doneQueueStatus td forceErr E s).2.
Proof.
  unfold doneQueueStatus. destruct (negb (forceErr =? _)); [apply poolStep_refl|].
  destruct (negb (E =? _)); [apply poolStep_refl|]. cbn [snd].
  destruct (nonzero _ && nonzero _); [apply poolStep_add_trace|apply poolStep_refl].
Qed.

Lemma poolStep_doneQueueComplete p td errStatus B E s B' E' s' :
  doneQueueComplete p td errStatus B E s = Some (B', E', s') → poolStep p s s'.
Proof.
  unfold doneQueueComplete. destruct (td_lastTDofTransaction td);
    [|intros [= _ _ <-]; apply poolStep_refl].
  destruct (td_command td) as [command|]; [|intros [= _ _ <-]; apply poolStep_add_trace].
  destruct (completion_action command) as [action|];
    [|intros [= _ _ <-]; apply poolStep_add_trace].
  destruct (updTD p _ s) as [sa|] eqn:Ea; [|done]. cbn [mbind option_bind].
  destruct (td_pQH td) as [q|]; [|done]. cbn [mbind option_bind].
  destruct (controlBulkDone q _) as [sb|] eqn:Eb; [|done]. cbn [mbind option_bind].
  intros [= _ _ <-].
  eapply poolStep_trans; [by eapply poolStep_updTD|].
  eapply poolStep_trans; [apply (poolStep_add_trace p)|].
  by eapply poolStep_controlBulkDone.
Qed.

(** The pool is kept by a step at a descriptor that is not in it. *)
Lemma tdPool_step p s s' l : poolStep p s s' → p ∉ l → tdPool s l → tdPool s' l.
Proof.
  intros [A B C D] Hp [Hl Hlast]. split; [|congruence]. rewrite C.
  eapply linked_agree; [|exact Hl]. intros x t Hx Ht. exists t.
  rewrite A; [done|]. by intros ->.
Qed.

Lemma set_td_logicalNext_twice o o' t :
  set_td_logicalNext o' (set_td_logicalNext o t) = set_td_logicalNext o' t.
Proof. done. Qed.

Lemma set_td_logicalNext_same t : set_td_logicalNext (td_logicalNext t) t = t.
Proof. by destruct t. Qed.

(** A return to the pool changes nothing but links in the other
    descriptors. *)
Lemma DeallocateTD_others p s s' x t :
  DeallocateTD p s = Some s' → x ≠ p → getTD (heap s) x = Some t →
  ∃ o, getTD (heap s') x = Some (set_td_logicalNext o t).
Proof.
  unfold DeallocateTD. intros E Hx Ht.
  destruct (updTD p _ s) as [s1|] eqn:E1; [|done]. cbn [mbind option_bind] in E.
  unfold updTD in E1. destruct (getTD (heap s) p) as [tp|]; [|done].
  injection E1 as <-. cbn in E.
  destruct (_pLastFreeTD s) as [f|].
  - unfold updTD in E. cbn in E.
    destruct (getTD (<[p:=_]> (heap s)) f) as [tf|] eqn:Ef; [|done].
    injection E as <-. cbn. destruct (decide (x = f)) as [->|Hxf].
    + rewrite getTD_insert_eq. rewrite getTD_insert_ne in Ef by done.
      rewrite Ht in Ef. injection Ef as <-. by eexists.
    + rewrite !getTD_insert_ne by done. exists (td_logicalNext t).
      by rewrite set_td_logicalNext_same.
  - injection E as <-. cbn. rewrite getTD_insert_ne by done.
    exists (td_logicalNext t). by rewrite set_td_logicalNext_same.
Qed.

(** One descriptor of the chain goes to the end of the pool. *)
Lemma doneQueueBody_pool p td forceErr B E s l B' E' s' :
  getTD (heap s) p = Some td → tdPool s l → p ∉ l →
  doneQueueBody p td forceErr B E s = Some (B', E', s') →
  tdPool s' (l ++ [p])
  ∧ (∃ t', getTD (heap s') p = Some t' ∧ td_ctrlStatus t' = 0 ∧ td_logicalBuffer t' = None)
  ∧ (∀ x t, x ≠ p → getTD (heap s) x = Some t →
       ∃ o, getTD (heap s') x = Some (set_td_logicalNext o t))
  ∧ (∀ x, x ≠ p → Some x ≠ last l → getTD (heap s') x = getTD (heap s) x).
Proof.
  intros Hp Hpool Hpl. unfold doneQueueBody.
  pose proof (poolStep_doneQueueStatus p td forceErr E s) as H1.
  destruct (doneQueueStatus td forceErr E s) as [[errStatus E1] s1]. cbn [snd] in H1.
  destruct (doneQueueComplete p td errStatus _ E1 s1) as [[[B2 E2] s2]|] eqn:Ec; [|done].
  cbn [mbind option_bind]. apply poolStep_doneQueueComplete in Ec.
  destruct (updTD p (set_td_logicalBuffer None) s2) as [s3|] eqn:E3; [|done].
  cbn [mbind option_bind].
  destruct (DeallocateTD p (add_trace [LogDeallocatingTD p] s3)) as [s4|] eqn:E4; [|done].
  cbn [mbind option_bind]. intros [= _ _ <-].
  assert (poolStep p s s2) as H2 by (by eapply poolStep_trans).
  assert (poolStep p s s3) as H3.
  { eapply poolStep_trans; [exact H2|]. by eapply poolStep_updTD. }
  unfold updTD in E3. destruct (getTD (heap s2) p) as [t2|] eqn:Ht2; [|done].
  injection E3 as E3.
  assert (getTD (heap s3) p = Some (set_td_logicalBuffer None t2)) as Ht3.
  { rewrite <- E3. cbn. by rewrite getTD_insert_eq. }
  assert (tdPool (add_trace [LogDeallocatingTD p] s3) l) as Hpool3.
  { by apply (tdPool_step p s s3). }
  destruct (DeallocateTD_tdPool p _ l _ Hpool3 Ht3 Hpl)
    as (s4' & E4' & Hpool4 & Hp4 & Hoth & _ & _).
  rewrite E4 in E4'. injection E4' as <-.
  split; [done|]. split; [by eexists|]. split.
  - intros x t Hx Ht. eapply DeallocateTD_others; [exact E4|done|].
    cbn. by rewrite (ps_others _ _ _ H3).
  - intros x Hx Hxl. unfold getTD. rewrite (Hoth x Hx Hxl). cbn.
    apply (ps_others _ _ _ H3 x Hx).
Qed.

(** The whole chain goes to the end of the pool, in its order. *)
Lemma doneQueueLoop_pool c : ∀ fuel o forceErr stopAt B E s l s',
  doneChain s o c → (∀ p, p ∈ c.*1 → Some p ≠ stopAt) →
  tdPool s l → (∀ p, p ∈ c.*1 → p ∉ l) →
  doneQueueLoop fuel o forceErr stopAt B E s = Some s' →
  tdPool s' (l ++ c.*1)
  ∧ (∀ p, p ∈ c.*1 →
       ∃ t, getTD (heap s') p = Some t ∧ td_ctrlStatus t = 0 ∧ td_logicalBuffer t = None)
  ∧ (∀ x, x ∉ c.*1 → Some x ≠ last l → getTD (heap s') x = getTD (heap s) x)
  ∧ (∀ x t, x ∉ c.*1 → getTD (heap s) x = Some t →
       ∃ o, getTD (heap s') x = Some (set_td_logicalNext o t)).
Proof.
  induction c as [|[p td] c IH];
    intros fuel o forceErr stopAt B E s l s' [Hl Hc] Hstop Hpool Hdis.
  - cbn in Hl. subst o. destruct fuel; cbn; intros [= <-]; rewrite app_nil_r;
      (split; [done|]); (split; [by intros p ?%elem_of_nil|]); (split; [done|]);
      intros x t _ Ht; exists (td_logicalNext t); by rewrite set_td_logicalNext_same.
  - pose proof (linked_NoDup _ _ _ _ _ Hl) as [Hpc Hnd]%NoDup_cons.
    destruct Hl as [-> (td' & Htd & Hl)]. apply Forall_cons in Hc as [Htd' Hc].
    cbn [fst snd] in *. rewrite Htd in Htd'. injection Htd' as ->.
    destruct fuel as [|fuel]; cbn [doneQueueLoop];
      rewrite decide_False by (apply Hstop; by left); [done|].
    rewrite Htd. cbn [mbind option_bind].
    rewrite (tdList_cast _ _ _ Hl).
    destruct (doneQueueBody p td forceErr B E s) as [[[B1 E1] s1]|] eqn:Eb; [|done].
    cbn [mbind option_bind]. intros Eloop.
    assert (p ∉ l) as Hpl by (apply Hdis; by left).
    destruct (doneQueueBody_pool _ _ _ _ _ _ l _ _ _ Htd Hpool Hpl Eb)
      as (Hpool1 & (t1 & Ht1 & Hz1 & Hb1) & Hlink1 & Hoth1).
    assert (∀ x, x ∈ c.*1 → getTD (heap s1) x = getTD (heap s) x) as Hkeep.
    { intros x Hx. apply Hoth1; [by intros ->|].
      intros Hxl. symmetry in Hxl. apply last_Some_elem_of in Hxl.
      apply (Hdis x); [by right|done]. }
    destruct (IH fuel (td_logicalNext td) forceErr stopAt B1 E1 s1 (l ++ [p]) s')
      as (Hpool' & Hz' & Hoth' & Hlink'); [| | | |done|].
    + split.
      * eapply linked_agree; [|exact Hl]. intros x t Hx Ht. exists t.
        by rewrite (Hkeep x Hx).
      * eapply Forall_impl; [apply Forall_forall; intros x Hx;
          exact (conj Hx (proj1 (Forall_forall _ _) Hc x Hx))|].
        intros x [Hx Hgx]. cbn. rewrite Hkeep; [done|]. by apply list_elem_of_fmap_2.
    + intros x Hx. apply Hstop. by right.
    + done.
    + intros x Hx [Hxl| ->%list_elem_of_singleton]%elem_of_app; [|done].
      apply (Hdis x); [by right|done].
    + rewrite <- app_assoc in Hpool'. split; [done|]. split; [|split].
      * intros x [->|Hx]%elem_of_cons; [|by apply Hz'].
        destruct (Hlink' p t1 Hpc Ht1) as (o & Ho). eexists. by split.
      * intros x Hx Hxl. apply not_elem_of_cons in Hx as [Hxp Hx].
        rewrite Hoth'; [by apply Hoth1|done|]. rewrite last_snoc. by intros [= ->].
      * intros x t Hx Ht. apply not_elem_of_cons in Hx as [Hxp Hx].
        destruct (Hlink1 x t Hxp Ht) as (o1 & Ho1).
        destruct (Hlink' x _ Hx Ho1) as (o2 & Ho2). by exists o2.
Qed.

(** X17: [UHCIUIMDoDoneQueueProcessing] returns every descriptor of the
    chain it walks to the pool, in the order of the chain: a pool that
    held [l] holds [l] followed by the chain afterwards.  Each of these
    descriptors has its status word zeroed and its buffer pointer
    cleared.  A descriptor outside the chain is left as it was, apart
    from the link of the former tail of the pool. *)
Theorem UHCIUIMDoDoneQueueProcessing_recycles fuel o forceErr stopAt s c l :
  doneChain s o c → (∀ p, p ∈ c.*1 → Some p ≠ stopAt) →
  queueHeadsKnown s c → tdPool s l → (∀ p, p ∈ c.*1 → p ∉ l) →
  (length c ≤ fuel)%nat →
  ∃ s',
    UHCIUIMDoDoneQueueProcessing fuel o forceErr stopAt s = Some (kIOReturnSuccess, s')
    ∧ tdPool s' (l ++ c.*1)
    ∧ (∀ p, p ∈ c.*1 →
         ∃ t, getTD (heap s') p = Some t ∧ td_ctrlStatus t = 0 ∧ td_logicalBuffer t = None)
    ∧ (∀ x, x ∉ c.*1 → Some x ≠ last l → getTD (heap s') x = getTD (heap s) x).
Proof.
  intros Hc Hstop Hq Hpool Hdis Hfuel. unfold UHCIUIMDoDoneQueueProcessing.
  assert (freeTailAway s c.*1) as Hfree.
  { intros f Hf. destruct Hpool as [Hl Hlast]. rewrite Hlast in Hf.
    apply last_Some_elem_of in Hf. split; [by eapply linked_lookup|].
    intros Hfc. by apply (Hdis f). }
  destruct (doneQueueLoop_spec c fuel o forceErr stopAt 0 kIOReturnSuccess s [])
    as (s' & E & _); try done.
  rewrite E. cbn [mbind option_bind]. exists s'. split; [done|].
  destruct (doneQueueLoop_pool c _ _ _ _ _ _ _ l s' Hc Hstop Hpool Hdis E)
    as (H1 & H2 & H3 & _).
  done.
Qed.
End Recycle.

(** The transaction of the descriptors 1 and 2 goes to an empty pool. *)
Lemma UHCIUIMDoDoneQueueProcessing_recycles_witness :
  ∃ s',
    UHCIUIMDoDoneQueueProcessing 2 (Some 1%nat) kIOReturnSuccess None doneUHCI
    = Some (kIOReturnSuccess, s')
    ∧ tdPool s' ([] ++ [(1%nat, doneTD1); (2%nat, doneTD2)].*1)
    ∧ (∀ p, p ∈ [(1%nat, doneTD1); (2%nat, doneTD2)].*1 →
         ∃ t, getTD (heap s') p = Some t ∧ td_ctrlStatus t = 0 ∧ td_logicalBuffer t = None)
    ∧ (∀ x, x ∉ [(1%nat, doneTD1); (2%nat, doneTD2)].*1 → Some x ≠ last [] →
         getTD (heap s') x = getTD (heap doneUHCI) x).
Proof.
  refine (UHCIUIMDoDoneQueueProcessing_recycles 2 (Some 1%nat) kIOReturnSuccess None
            doneUHCI [(1%nat, doneTD1); (2%nat, doneTD2)] [] _ _ _ _ _ _).
  - split; [|by repeat constructor].
    repeat (split; [reflexivity|]; eexists; split; [reflexivity|]). reflexivity.
  - discriminate.
  - split; [|exists 20%nat; split; [reflexivity|by eexists]].
    intros x Hx Hcomp. exists 20%nat.
    repeat (apply elem_of_cons in Hx as [->|Hx]); [| |by apply elem_of_nil in Hx].
    + by destruct Hcomp.
    + split; [reflexivity|by eexists].
  - split; reflexivity.
  - intros p _. apply not_elem_of_nil.
  - reflexivity.
Defined.

(** ** The dispatch and bandwidth reclamation *)

Section Reclaim.
Context `{Header}.

Lemma qhSame_refl s : qhSame s s.
Proof. by split. Qed.

Lemma qhSame_trans s1 s2 s3 : qhSame s1 s2 → qhSame s2 s3 → qhSame s1 s3.
Proof.
  intros [A1 B1 C1] [A2 B2 C2]. split; [|congruence..]. intros q. by rewrite A2, A1.
Qed.

Lemma qhSame_add_trace evs s : qhSame s (add_trace evs s).
Proof. by split. Qed.

Lemma qhSame_updTD p f s s' : updTD p f s = Some s' → qhSame s s'.
Proof.
  unfold updTD. destruct (getTD (heap s) p) as [t|] eqn:Ht; [|done].
  intros [= <-]. split; cbn; [|done..].
  intros q. by rewrite (getQH_insert_TD _ _ _ _ _ Ht).
Qed.

Lemma qhSame_DeallocateTD p s s' : DeallocateTD p s = Some s' → qhSame s s'.
Proof.
  unfold DeallocateTD.
  destruct (updTD p _ s) as [s1|] eqn:E1; [|done]. cbn [mbind option_bind].
  apply qhSame_updTD in E1.
  destruct (_pLastFreeTD s1) as [f|].
  - destruct (updTD f _ s1) as [s2|] eqn:E2; [|done]. cbn [mbind option_bind].
    apply qhSame_updTD in E2. intros [= <-].
    eapply qhSame_trans; [exact E1|]. destruct E2 as [A B C]. by split.
  - intros [= <-]. destruct E1 as [A B C]. by split.
Qed.

Lemma qhSame_doneQueueStatus td forceErr E s :
  qhSame s (doneQueueStatus td forceErr E s).2.
Proof.
  unfold doneQueueStatus. destruct (negb (forceErr =? _)); [apply qhSame_refl|].
  destruct (negb (E =? _)); [apply qhSame_refl|]. cbn [snd].
  destruct (nonzero _ && nonzero _); [apply qhSame_add_trace|apply qhSame_refl].
Qed.

Lemma reclaimed_same k lq ql s s1 s2 :
  qhSame s s1 → reclaimed k lq ql s1 s2 → getQH (heap s) lq = Some ql →
  reclaimed k lq ql s s2.
Proof.
  intros [A B C] (H1 & H2 & H3 & H4) Hq. unfold reclaimed in *. rewrite B in *.
  repeat (split; [done|]). intros q Hne. by rewrite H4, A.
Qed.

Lemma reclaimed_then_same k lq ql s s1 s2 :
  reclaimed k lq ql s s1 → qhSame s1 s2 → reclaimed k lq ql s s2.
Proof.
  intros (H1 & H2 & H3 & H4) [A B C]. unfold reclaimed in *.
  rewrite C, B, A. repeat (split; [done|]). intros q Hne. by rewrite A, H4.
Qed.

Lemma reclaimed_none lq ql s s' :
  qhSame s s' → _lastQH s = Some lq → getQH (heap s) lq = Some ql →
  reclaimed false lq ql s s'.
Proof.
  intros [A B C] Hl Hq. unfold reclaimed. cbn [andb]. rewrite C, B, A.
  repeat (split; [done|]). intros q _. apply A.
Qed.

Lemma controlBulkDone_reclaimed q qh lq ql s s' :
  controlBulkDone q s = Some s' →
  getQH (heap s) q = Some qh → _lastQH s = Some lq → getQH (heap s) lq = Some ql →
  0 ≤ _controlBulkTransactionsOut s < 2 ^ 32 →
  reclaimed ((qh_type qh =? kUSBControl) || (qh_type qh =? kUSBBulk)) lq ql s s'.
Proof.
  unfold controlBulkDone. intros E Hq Hl Hql HN. rewrite Hq in E.
  cbn [mbind option_bind] in E.
  destruct ((qh_type qh =? kUSBControl) || (qh_type qh =? kUSBBulk));
    [|injection E as <-; by apply reclaimed_none; [apply qhSame_refl|..]].
  unfold reclaimed. cbn [andb].
  destruct (Z.eqb_spec (_controlBulkTransactionsOut s) 0) as [E0|E0].
  { injection E as <-. cbn. rewrite E0. cbn. rewrite Hl, Hql. rewrite E0 in *.
    by repeat (split; [done|]). }
  cbn in E. rewrite wrap32_small in E by lia.
  destruct (Z.ltb_spec 0 (_controlBulkTransactionsOut s)); [|lia].
  destruct (Z.eqb_spec (_controlBulkTransactionsOut s - 1) 0) as [E1|E1].
  - rewrite Hl in E. cbn in E. rewrite Hql in E. cbn in E.
    unfold updQH in E. cbn in E. rewrite Hql in E. injection E as <-. cbn.
    destruct (Z.eqb_spec (_controlBulkTransactionsOut s) 1); [|lia].
    rewrite getQH_insert_eq. repeat (split; [done|]).
    intros q' Hne. by rewrite getQH_insert_ne.
  - injection E as <-. cbn.
    destruct (Z.eqb_spec (_controlBulkTransactionsOut s) 1); [lia|].
    by repeat (split; [done|]).
Qed.

Lemma doneQueueComplete_reclaimed p td errStatus B E s B' E' s' lq ql :
  doneQueueComplete p td errStatus B E s = Some (B', E', s') →
  getTD (heap s) p = Some td →
  _lastQH s = Some lq → getQH (heap s) lq = Some ql →
  0 ≤ _controlBulkTransactionsOut s < 2 ^ 32 →
  reclaimed (onControlBulk (heap s) td) lq ql s s'.
Proof.
  unfold doneQueueComplete, onControlBulk, completionOf. intros Ec Hp Hl Hql HN.
  destruct (td_lastTDofTransaction td);
    [|injection Ec as _ _ <-; by apply reclaimed_none; [apply qhSame_refl|..]].
  destruct (td_command td) as [command|]; cbn [mbind option_bind];
    [|injection Ec as _ _ <-; by apply reclaimed_none; [apply qhSame_add_trace|..]].
  destruct (completion_action command) as [action|];
    [|injection Ec as _ _ <-; by apply reclaimed_none; [apply qhSame_add_trace|..]].
  destruct (updTD p _ s) as [sa|] eqn:Ea; [|done]. cbn [mbind option_bind] in Ec.
  apply qhSame_updTD in Ea.
  destruct (td_pQH td) as [q|]; [|done]. cbn [mbind option_bind] in Ec |- *.
  destruct (controlBulkDone q _) as [sb|] eqn:Eb; [|done]. cbn [mbind option_bind] in Ec.
  injection Ec as _ _ <-.
  assert (qhSame s (add_trace [EvComplete action errStatus B] sa)) as Ha.
  { eapply qhSame_trans; [exact Ea|apply qhSame_add_trace]. }
  destruct (getQH (heap s) q) as [qh|] eqn:Hq.
  - eapply reclaimed_same; [exact Ha| |done].
    apply (controlBulkDone_reclaimed q qh); [done|..].
    + by rewrite (qs_qh _ _ Ha).
    + by rewrite (qs_last _ _ Ha).
    + by rewrite (qs_qh _ _ Ha).
    + by rewrite (qs_count _ _ Ha).
  - unfold controlBulkDone in Eb. rewrite (qs_qh _ _ Ha), Hq in Eb. done.
Qed.

Lemma doneQueueStatus_heap td forceErr E s :
  heap (doneQueueStatus td forceErr E s).2 = heap s.
Proof.
  unfold doneQueueStatus. destruct (negb (forceErr =? _)); [done|].
  destruct (negb (E =? _)); [done|]. cbn [snd]. by destruct (nonzero _ && nonzero _).
Qed.

Lemma doneQueueBody_reclaimed p td forceErr B E s B' E' s' lq ql :
  doneQueueBody p td forceErr B E s = Some (B', E', s') →
  getTD (heap s) p = Some td →
  _lastQH s = Some lq → getQH (heap s) lq = Some ql →
  0 ≤ _controlBulkTransactionsOut s < 2 ^ 32 →
  reclaimed (onControlBulk (heap s) td) lq ql s s'.
Proof.
  unfold doneQueueBody. intros Eb Hp Hl Hql HN.
  pose proof (qhSame_doneQueueStatus td forceErr E s) as H1.
  pose proof (doneQueueStatus_heap td forceErr E s) as Eh.
  destruct (doneQueueStatus td forceErr E s) as [[errStatus E1] s1]. cbn [snd] in H1, Eh.
  destruct (doneQueueComplete p td errStatus _ E1 s1) as [[[B2 E2] s2]|] eqn:Ec; [|done].
  cbn [mbind option_bind] in Eb.
  destruct (updTD p (set_td_logicalBuffer None) s2) as [s3|] eqn:E3; [|done].
  cbn [mbind option_bind] in Eb.
  destruct (DeallocateTD p (add_trace [LogDeallocatingTD p] s3)) as [s4|] eqn:E4; [|done].
  cbn [mbind option_bind] in Eb. injection Eb as _ _ <-.
  eapply reclaimed_then_same.
  - eapply reclaimed_same; [exact H1| |done].
    replace (heap s) with (heap s1).
    apply (doneQueueComplete_reclaimed _ _ _ _ _ _ _ _ _ lq ql Ec).
    + by rewrite Eh.
    + by rewrite (qs_last _ _ H1).
    + by rewrite (qs_qh _ _ H1).
    + by rewrite (qs_count _ _ H1).
  - eapply qhSame_trans; [by eapply qhSame_updTD|].
    eapply qhSame_trans; [apply (qhSame_add_trace [LogDeallocatingTD p])|].
    by eapply qhSame_DeallocateTD.
Qed.

Lemma onControlBulk_types h h' td :
  (∀ q, qh_type <$> getQH h' q = qh_type <$> getQH h q) →
  onControlBulk h' td = onControlBulk h td.
Proof.
  intros Hty. unfold onControlBulk. destruct (completionOf td); [|done].
  destruct (td_pQH td) as [q|]; [|done]. cbn [mbind option_bind].
  specialize (Hty q).
  destruct (getQH h' q) as [a|], (getQH h q) as [b|]; cbn in Hty; try done.
  injection Hty as ->. done.
Qed.

Lemma controlBulkCompletions_types h h' c :
  (∀ q, qh_type <$> getQH h' q = qh_type <$> getQH h q) →
  controlBulkCompletions h' c = controlBulkCompletions h c.
Proof.
  intros Hty. induction c as [|x c IH]; [done|]. cbn [controlBulkCompletions].
  by rewrite IH, (onControlBulk_types h h').
Qed.

Lemma controlBulkCompletions_nonneg h c : 0 ≤ controlBulkCompletions h c.
Proof.
  induction c as [|x c IH]; [done|]. cbn [controlBulkCompletions].
  destruct (onControlBulk h x.2); lia.
Qed.

Lemma reclaimed_types k lq ql s s' :
  reclaimed k lq ql s s' → getQH (heap s) lq = Some ql →
  ∀ q, qh_type <$> getQH (heap s') q = qh_type <$> getQH (heap s) q.
Proof.
  intros (_ & _ & H3 & H4) Hq q. destruct (decide (q = lq)) as [->|Hne].
  - rewrite H3, Hq. by destruct (k && _).
  - by rewrite H4.
Qed.

(** The count and the tail of the schedule after the chain. *)
Lemma doneQueueLoop_reclaimed c : ∀ fuel o forceErr stopAt B E s l s' lq ql,
  doneChain s o c → (∀ p, p ∈ c.*1 → Some p ≠ stopAt) →
  tdPool s l → (∀ p, p ∈ c.*1 → p ∉ l) →
  _lastQH s = Some lq → getQH (heap s) lq = Some ql →
  0 ≤ _controlBulkTransactionsOut s < 2 ^ 32 →
  doneQueueLoop fuel o forceErr stopAt B E s = Some s' →
  _lastQH s' = Some lq
  ∧ _controlBulkTransactionsOut s'
    = Z.max 0 (_controlBulkTransactionsOut s - controlBulkCompletions (heap s) c)
  ∧ getQH (heap s') lq
    = Some (if (0 <? _controlBulkTransactionsOut s)
               && (_controlBulkTransactionsOut s <=? controlBulkCompletions (heap s) c)
            then terminated ql else ql)
  ∧ (∀ q, q ≠ lq → getQH (heap s') q = getQH (heap s) q).
Proof.
  induction c as [|[p td] c IH];
    intros fuel o forceErr stopAt B E s l s' lq ql [Hl Hc] Hstop Hpool Hdis Hlq Hql HN.
  - cbn in Hl. subst o. cbn [controlBulkCompletions].
    assert (doneQueueLoop fuel None forceErr stopAt B E s = Some s) as -> by by destruct fuel.
    intros [= <-]. split; [done|]. split; [lia|]. split; [|done].
    destruct (Z.ltb_spec 0 (_controlBulkTransactionsOut s));
      destruct (Z.leb_spec (_controlBulkTransactionsOut s) 0); cbn [andb]; try done; lia.
  - pose proof (linked_NoDup _ _ _ _ _ Hl) as [Hpc Hnd]%NoDup_cons.
    destruct Hl as [-> (td' & Htd & Hl)]. apply Forall_cons in Hc as [Htd' Hc].
    cbn [fst snd] in *. rewrite Htd in Htd'. injection Htd' as ->.
    destruct fuel as [|fuel]; cbn [doneQueueLoop];
      rewrite decide_False by (apply Hstop; by left); [done|].
    rewrite Htd. cbn [mbind option_bind]. rewrite (tdList_cast _ _ _ Hl).
    destruct (doneQueueBody p td forceErr B E s) as [[[B1 E1] s1]|] eqn:Eb; [|done].
    cbn [mbind option_bind]. intros Eloop.
    assert (p ∉ l) as Hpl by (apply Hdis; by left).
    destruct (doneQueueBody_pool _ _ _ _ _ _ l _ _ _ Htd Hpool Hpl Eb)
      as (Hpool1 & _ & _ & Hoth1).
    pose proof (doneQueueBody_reclaimed _ _ _ _ _ _ _ _ _ lq ql Eb Htd Hlq Hql HN) as Hr.
    pose proof (reclaimed_types _ _ _ _ _ Hr Hql) as Hty.
    destruct Hr as (Hlq1 & HN1 & Hql1 & Hq1).
    assert (∀ x, x ∈ c.*1 → getTD (heap s1) x = getTD (heap s) x) as Hkeep.
    { intros x Hx. apply Hoth1; [by intros ->|].
      intros Hxl. symmetry in Hxl. apply last_Some_elem_of in Hxl.
      apply (Hdis x); [by right|done]. }
    pose proof (controlBulkCompletions_nonneg (heap s) c) as Hn0.
    destruct (IH fuel (td_logicalNext td) forceErr stopAt B1 E1 s1 (l ++ [p]) s' lq
                (if onControlBulk (heap s) td && (_controlBulkTransactionsOut s =? 1)
                 then terminated ql else ql))
      as (Hlq' & HN' & Hql' & Hq'); [| |done| |done|exact Hql1| |done|].
    + split.
      * eapply linked_agree; [|exact Hl]. intros x t Hx Ht. exists t.
        by rewrite (Hkeep x Hx).
      * eapply Forall_impl; [apply Forall_forall; intros x Hx;
          exact (conj Hx (proj1 (Forall_forall _ _) Hc x Hx))|].
        intros x [Hx Hgx]. cbn. rewrite Hkeep; [done|]. by apply list_elem_of_fmap_2.
    + intros x Hx. apply Hstop. by right.
    + intros x Hx [Hxl| ->%list_elem_of_singleton]%elem_of_app; [|done].
      apply (Hdis x); [by right|done].
    + rewrite HN1. destruct (onControlBulk (heap s) td); cbn [andb]; [|done].
      destruct (Z.ltb_spec 0 (_controlBulkTransactionsOut s)); lia.
    + rewrite (controlBulkCompletions_types _ _ c Hty) in HN', Hql'.
      cbn [controlBulkCompletions snd]. rewrite HN1 in HN', Hql'.
      split; [done|]. split; [|split].
      * rewrite HN'. destruct (onControlBulk (heap s) td); cbn [andb].
        -- destruct (Z.ltb_spec 0 (_controlBulkTransactionsOut s)); lia.
        -- lia.
      * rewrite Hql'. f_equal. destruct (onControlBulk (heap s) td); cbn [andb];
          repeat (cbv iota; cbn [andb];
                  match goal with
                  | |- context [?a =? ?b] => destruct (Z.eqb_spec a b)
                  | |- context [?a <? ?b] => destruct (Z.ltb_spec a b)
                  | |- context [?a <=? ?b] => destruct (Z.leb_spec a b)
                  end); cbv iota; cbn [andb]; try done; lia.
      * intros q Hne. by rewrite Hq', Hq1.
Qed.

(** X18: bandwidth reclamation is switched off by the completion that
    leaves no control or bulk transaction under way.  When the chain has
    [n] completions on control or bulk queue heads and the count of the
    transactions under way is [N], [UHCIUIMDoDoneQueueProcessing] leaves
    the count at [N - n], or at 0 when more complete than were counted;
    and exactly when the count comes down to 0 from above, the hardware
    link of the last queue head gets the terminate bit.  No other queue
    head changes. *)
Theorem UHCIUIMDoDoneQueueProcessing_reclamation fuel o forceErr stopAt s c l lq ql :
  doneChain s o c → (∀ p, p ∈ c.*1 → Some p ≠ stopAt) →
  queueHeadsKnown s c → tdPool s l → (∀ p, p ∈ c.*1 → p ∉ l) →
  (length c ≤ fuel)%nat →
  _lastQH s = Some lq → getQH (heap s) lq = Some ql →
  0 ≤ _controlBulkTransactionsOut s < 2 ^ 32 →
  ∃ s',
    UHCIUIMDoDoneQueueProcessing fuel o forceErr stopAt s = Some (kIOReturnSuccess, s')
    ∧ _controlBulkTransactionsOut s'
      = Z.max 0 (_controlBulkTransactionsOut s - controlBulkCompletions (heap s) c)
    ∧ getQH (heap s') lq
      = Some (if (0 <? _controlBulkTransactionsOut s)
                 && (_controlBulkTransactionsOut s <=? controlBulkCompletions (heap s) c)
              then terminated ql else ql)
    ∧ (∀ q, q ≠ lq → getQH (heap s') q = getQH (heap s) q).
Proof.
  intros Hc Hstop Hq Hpool Hdis Hfuel Hlq Hql HN. unfold UHCIUIMDoDoneQueueProcessing.
  assert (freeTailAway s c.*1) as Hfree.
  { intros f Hf. destruct Hpool as [Hl Hlast]. rewrite Hlast in Hf.
    apply last_Some_elem_of in Hf. split; [by eapply linked_lookup|].
    intros Hfc. by apply (Hdis f). }
  destruct (doneQueueLoop_spec c fuel o forceErr stopAt 0 kIOReturnSuccess s [])
    as (s' & E & _); try done.
  rewrite E. cbn [mbind option_bind]. exists s'. split; [done|].
  destruct (doneQueueLoop_reclaimed c _ _ _ _ _ _ _ l s' lq ql Hc Hstop Hpool Hdis
              Hlq Hql HN E) as (_ & H2 & H3 & H4).
  done.
Qed.
End Reclaim.

(** The one control transaction under way completes. *)
Lemma UHCIUIMDoDoneQueueProcessing_reclamation_witness :
  ∃ s',
    UHCIUIMDoDoneQueueProcessing 2 (Some 1%nat) kIOReturnSuccess None doneUHCI
    = Some (kIOReturnSuccess, s')
    ∧ _controlBulkTransactionsOut s'
      = Z.max 0 (_controlBulkTransactionsOut doneUHCI
                 - controlBulkCompletions (heap doneUHCI)
                     [(1%nat, doneTD1); (2%nat, doneTD2)])
    ∧ getQH (heap s') 20%nat
      = Some (if (0 <? _controlBulkTransactionsOut doneUHCI)
                 && (_controlBulkTransactionsOut doneUHCI
                     <=? controlBulkCompletions (heap doneUHCI)
                           [(1%nat, doneTD1); (2%nat, doneTD2)])
              then terminated (freshQH 0x8000) else freshQH 0x8000)
    ∧ (∀ q, q ≠ 20%nat → getQH (heap s') q = getQH (heap doneUHCI) q).
Proof.
  refine (UHCIUIMDoDoneQueueProcessing_reclamation 2 (Some 1%nat) kIOReturnSuccess None
            doneUHCI [(1%nat, doneTD1); (2%nat, doneTD2)] [] 20%nat (freshQH 0x8000)
            _ _ _ _ _ _ _ _ _).
  - split; [|by repeat constructor].
    repeat (split; [reflexivity|]; eexists; split; [reflexivity|]). reflexivity.
  - discriminate.
  - split; [|exists 20%nat; split; [reflexivity|by eexists]].
    intros x Hx Hcomp. exists 20%nat.
    repeat (apply elem_of_cons in Hx as [->|Hx]); [| |by apply elem_of_nil in Hx].
    + by destruct Hcomp.
    + split; [reflexivity|by eexists].
  - split; reflexivity.
  - intros p _. apply not_elem_of_nil.
  - reflexivity.
  - reflexivity.
  - reflexivity.
  - cbn. lia.
Defined.

Example UHCIUIMDoDoneQueueProcessing_reclamation_value :
  ('(_, s') ← UHCIUIMDoDoneQueueProcessing 2 (Some 1%nat) kIOReturnSuccess None doneUHCI;
   ql ← getQH (heap s') 20%nat;
   Some (_controlBulkTransactionsOut s', qh_hlink ql))
  = Some (0, 1).
Proof. vm_compute. reflexivity. Qed.

(** ** A pass over queues with nothing to harvest *)

Section Idle.
Context `{Header}.

Lemma idlePass_refl s : idlePass s s.
Proof.
  split; try done.
  - intros x td Hx. exists (td_alignBuffer td). by rewrite set_td_alignBuffer_id.
  - intros q qh Hq. exists (qh_stalled qh). by rewrite set_qh_stalled_id.
Qed.

Lemma idlePass_trans s1 s2 s3 : idlePass s1 s2 → idlePass s2 s3 → idlePass s1 s3.
Proof.
  intros [A1 B1 C1 D1 E1] [A2 B2 C2 D2 E2]. split; [| |congruence..].
  - intros x td Hx. destruct (A1 x td Hx) as [ab1 H1].
    destruct (A2 x _ H1) as [ab2 H2]. exists ab2. by rewrite H2.
  - intros q qh Hq. destruct (B1 q qh Hq) as (st1 & H1 & M1).
    destruct (B2 q _ H1) as (st2 & H2 & M2). exists st2. split; [by rewrite H2|].
    intros Hst. apply M2. cbn. by apply M1.
Qed.

(** The scan of one queue head, seen from the schedule. *)
Lemma idlePass_scanStep k F s s' :
  scanStep k F s s' → (∀ x, x ∈ F → is_Some (getTD (heap s) x)) →
  idlePass s s'.
Proof.
  intros [A B C D D' E] HF. split; [done| |done..].
  intros q qh Hq. destruct (decide (q = k)) as [->|Hne]; [by apply C|].
  exists (qh_stalled qh). rewrite set_qh_stalled_id. split; [|done].
  unfold getQH. rewrite A; [done|done|].
  intros Hin. destruct (HF q Hin) as [td Htd].
  by rewrite (getTD_getQH _ _ _ Htd) in Hq.
Qed.

(** The descriptors a quiet queue head is quiet on can be taken to be
    descriptors. *)
Lemma quietAt_descriptors s k F :
  quietAt s k F →
  ∃ F', quietAt s k F' ∧ ∀ x, x ∈ F' → is_Some (getTD (heap s) x).
Proof.
  intros (qh & Hq & [Hd|[Hst|[Hn|Hh]]]).
  - exists []. split; [exists qh; auto|]. by intros x ?%elem_of_nil.
  - exists []. split; [exists qh; auto|]. by intros x ?%elem_of_nil.
  - exists []. split; [exists qh; auto|]. by intros x ?%elem_of_nil.
  - exists F. split; [exists qh; auto|].
    destruct Hh as (pend & x & m & o & -> & Hseg & _).
    intros y Hy. by eapply tdSegment_lookup.
Qed.

Lemma quietAt_idle s s' k F : idlePass s s' → quietAt s k F → quietAt s' k F.
Proof.
  intros [A B C D E] Hquiet. eapply quietAt_kept; [exact Hquiet| |].
  - intros qh Hq. destruct (B k qh Hq) as (st & Hq' & Hst). eexists. split; [exact Hq'|].
    done.
  - intros x td _ Htd. destruct (A x td Htd) as [ab ->]. eauto.
Qed.

(** The loop over the list elements on a schedule whose queue heads are
    all quiet. *)
Lemma scanListElements_idle fuel qs : ∀ n o leCount sc s,
  qhList (heap s) o qs → (∀ k, k ∈ qs → ∃ F, quietAt s k F) → (length qs ≤ n)%nat →
  ∃ sc' s',
    scanListElements fuel n o leCount sc s
    = Some (leCount + Z.of_nat (length qs), sc', s')
    ∧ doneQueue sc' = doneQueue sc ∧ idlePass s s'.
Proof.
  induction qs as [|k qs IH]; intros n o leCount sc s Hl Hquiet Hn.
  - cbn in Hl. subst o. exists sc, s.
    split; [destruct n; cbn; by rewrite Z.add_0_r|]. split; [done|apply idlePass_refl].
  - pose proof (linked_NoDup _ _ _ _ _ Hl) as [Hk Hnd]%NoDup_cons.
    destruct Hl as [-> (qh & Hq & Hl)].
    destruct n as [|n]; [cbn in Hn; lia|].
    pose proof Hq as Hlook. apply getQH_lookup in Hlook.
    cbn [scanListElements]. rewrite Hlook. cbn [mbind option_bind].
    assert (∃ sc1 s1,
              (if negb (qh_type qh =? kQHTypeDummy) && negb (qh_stalled qh)
               then scavengeQueueHead fuel k qh sc s else Some (sc, s)) = Some (sc1, s1)
              ∧ doneQueue sc1 = doneQueue sc ∧ idlePass s s1) as (sc1 & s1 & -> & Edq & Hp).
    { destruct (negb (qh_type qh =? kQHTypeDummy) && negb (qh_stalled qh)) eqn:Hgo.
      - destruct (Hquiet k) as [F HF]; [by left|].
        destruct (quietAt_descriptors _ _ _ HF) as (F' & HF' & Htd).
        destruct (scavengeQueueHead_quiet fuel k F' qh sc s Hq HF' Hgo)
          as (sc1 & s1 & E & Edq & Hstep).
        exists sc1, s1. split; [done|]. split; [done|]. by eapply idlePass_scanStep.
      - exists sc, s. split; [done|]. split; [done|apply idlePass_refl]. }
    cbn [mbind option_bind].
    destruct (ip_qh _ _ Hp k qh Hq) as (st & Hq1 & _).
    pose proof Hq1 as Hlook1. apply getQH_lookup in Hlook1.
    rewrite Hlook1. cbn [mbind option_bind logicalNext set_qh_stalled qh_logicalNext].
    destruct (IH n (qh_logicalNext qh) (leCount + 1) sc1 s1) as (sc' & s' & -> & Edq' & Hp').
    + eapply linked_agree; [|exact Hl]. intros q t Hin Ht.
      destruct (ip_qh _ _ Hp q t Ht) as (st' & -> & _). by eexists.
    + intros q Hin. destruct (Hquiet q) as [F HF]; [by right|].
      exists F. by eapply quietAt_idle.
    + cbn in Hn. lia.
    + exists sc', s'. split; [|split; [congruence|by eapply idlePass_trans]].
      do 3 f_equal. cbn [length]. lia.
Qed.

(** The pass over a schedule whose queue heads are all quiet. *)
Lemma scavengeQueueHeads_idle fuel o qs s :
  qhList (heap s) o qs → (∀ k, k ∈ qs → ∃ F, quietAt s k F) →
  (length qs ≤ kScavengeBound)%nat →
  ∃ s', scavengeQueueHeads fuel o s = Some (kIOReturnSuccess, s') ∧ idlePass s s'.
Proof.
  intros Hl Hquiet Hn. unfold scavengeQueueHeads.
  destruct (scanListElements_idle fuel qs kScavengeBound o 0
              (mkScan None None false false 0 None None) s Hl Hquiet Hn)
    as (sc' & s' & -> & Edq & Hp).
  cbn [mbind option_bind]. rewrite Edq. cbn [doneQueue mbind option_bind].
  eexists. split; [done|]. destruct (1000 <? _); [|done].
  eapply idlePass_trans; [exact Hp|].
  destruct (idlePass_refl s') as [A B C D E]. split; try done.
  - cbn. by rewrite dispatchEvents_app, app_nil_r.
  - cbn. by rewrite callbacks_app, app_nil_r.
Qed.

(** X19: a pass over a schedule in which no transaction is complete
    harvests nothing.  When every queue head of the list is a dummy, is
    stalled, has an empty queue, or has a queue on which the scan meets
    an active descriptor or the end of the queue before the last
    descriptor of a transaction, [scavengeQueueHeads] returns with no
    callback fired and no descriptor returned to the pool: the
    descriptors keep all but their alignment buffers, the queue heads all
    but their stalled flags, and the rest of the controller is as it
    was. *)
Theorem scavengeQueueHeads_nothing_finished fuel o qs s :
  qhList (heap s) o qs → (∀ k, k ∈ qs → ∃ F, quietAt s k F) →
  (length qs ≤ kScavengeBound)%nat →
  ∃ s', scavengeQueueHeads fuel o s = Some (kIOReturnSuccess, s') ∧ idlePass s s'.
Proof. apply scavengeQueueHeads_idle. Qed.
End Idle.

(** The transaction of the queue head 20 is still under way. *)
Lemma scavengeQueueHeads_nothing_finished_witness :
  ∃ s', scavengeQueueHeads 5 (Some 20%nat) waitingUHCI = Some (kIOReturnSuccess, s')
        ∧ idlePass waitingUHCI s'.
Proof.
  refine (scavengeQueueHeads_nothing_finished 5 (Some 20%nat) [20%nat] waitingUHCI _ _ _).
  - split; [reflexivity|]. eexists. split; reflexivity.
  - intros k ->%list_elem_of_singleton. exists [1%nat; 2%nat].
    exists waitingQH. split; [reflexivity|]. do 3 right.
    exists [1%nat], 2%nat, (false, false), (Some 3%nat).
    split; [reflexivity|]. split; [|split; [reflexivity|split]].
    + repeat (split; [reflexivity|]; eexists; split; [reflexivity|]). reflexivity.
    + right. eexists. split; reflexivity.
    + cbn [length]. unfold kScavengeBound. lia.
  - cbn [length]. unfold kScavengeBound. lia.
Defined.

(** ** A pass with nothing on the isochronous done queue *)

Section Round.
Context `{Header}.

Lemma add_trace_add_trace evs1 evs2 s :
  add_trace evs2 (add_trace evs1 s) = add_trace (evs1 ++ evs2) s.
Proof. unfold add_trace. destruct s; cbn. by rewrite <- app_assoc. Qed.

Lemma add_trace_nil s : add_trace [] s = s.
Proof. unfold add_trace. destruct s; cbn. by rewrite app_nil_r. Qed.

(** The round of the endpoints. *)
Lemma isochEndpointLoop_round l : ∀ fuel o s,
  endpointList (isochEPs s) o l → (length l ≤ fuel)%nat →
  isochEndpointLoop fuel o s = Some (add_trace (isochRound (isochEPs s) l) s).
Proof.
  induction l as [|p l IH]; intros fuel o s Hl Hfuel.
  - cbn in Hl. subst o. cbn. rewrite add_trace_nil. by destruct fuel.
  - destruct Hl as [-> (ep & Hep & Hl)].
    destruct fuel as [|fuel]; [cbn in Hfuel; lia|].
    cbn [isochEndpointLoop]. rewrite Hep. cbn [mbind option_bind].
    match goal with |- context [isochEndpointLoop fuel (nextEP ep) ?st] =>
      set (s1 := st) end.
    assert (s1 = add_trace ((if nonzero (onReversedList ep)
                             then [LogStillOnReversedList p (onReversedList ep)] else [])
                            ++ [EvReturnIsochDoneQueue p; EvAddIsochFramesToSchedule p]) s)
      as ->.
    { subst s1. destruct (nonzero (onReversedList ep)); [|done].
      by rewrite add_trace_add_trace. }
    rewrite (IH fuel (nextEP ep)); [|done|cbn in Hfuel; lia].
    rewrite add_trace_add_trace. do 2 f_equal.
    change (isochEPs (add_trace _ s)) with (isochEPs s).
    unfold isochRound. cbn [mbind list_bind]. by rewrite Hep.
Qed.

Lemma scavengeIsochTransactions_round fuel s eps :
  _savedDoneQueueHead s = None ∨ _consumerCount s = _producerCount s →
  endpointList (isochEPs s) (_isochEPList s) eps → (length eps ≤ fuel)%nat →
  scavengeIsochTransactions fuel s
  = Some (kIOReturnSuccess, add_trace (isochRound (isochEPs s) eps) s).
Proof.
  intros Hd Heps Hfuel. unfold scavengeIsochTransactions.
  assert (match _savedDoneQueueHead s with
          | Some p =>
              if negb (_consumerCount s =? _producerCount s)
              then
                '(pDoneEl, cachedConsumer, s0) ←
                  reverseDoneQueue
                    (Z.to_nat (wrap32 (_producerCount s - _consumerCount s)))
                    p None (_consumerCount s) (_producerCount s) s;
                drainDoneQueue fuel (Some pDoneEl) (set_consumerCount cachedConsumer s0)
              else Some s
          | None => Some s
          end = Some s) as ->.
  { destruct Hd as [->|E]; [done|]. rewrite E, Z.eqb_refl. by destruct (_savedDoneQueueHead s). }
  cbn [mbind option_bind]. by rewrite (isochEndpointLoop_round eps).
Qed.

(** X20: with nothing new on the isochronous done queue (no head, or
    the consumer count at the producer count) [scavengeIsochTransactions]
    touches no descriptor and no counter.  It still makes its round of
    the endpoints: for each endpoint of the list, in the order of the
    list, the done queue is returned and the frames are added to the
    schedule, once, after a report in the log when the endpoint has
    descriptors left on its reversed list. *)
Theorem scavengeIsochTransactions_nothing_new fuel s eps :
  _savedDoneQueueHead s = None ∨ _consumerCount s = _producerCount s →
  endpointList (isochEPs s) (_isochEPList s) eps → (length eps ≤ fuel)%nat →
  scavengeIsochTransactions fuel s
  = Some (kIOReturnSuccess, add_trace (isochRound (isochEPs s) eps) s).
Proof. apply scavengeIsochTransactions_round. Qed.

(** An interrupt on a controller with nothing new on the isochronous done
    queue and a schedule whose queue heads are all quiet. *)
Lemma ProcessCompletedTransactions_idle fuel s eps o qs :
  _savedDoneQueueHead s = None ∨ _consumerCount s = _producerCount s →
  endpointList (isochEPs s) (_isochEPList s) eps → (length eps ≤ fuel)%nat →
  _intrQH s !! (kUHCI_NINTR_QHS - 1)%nat = Some o →
  qhList (heap s) o qs → (∀ k, k ∈ qs → ∃ F, quietAt s k F) →
  (length qs ≤ kScavengeBound)%nat →
  ∃ s', ProcessCompletedTransactions fuel s = Some s' ∧ idlePass s s'.
Proof.
  intros Hd Heps Hfuel Ho Hl Hquiet Hn. unfold ProcessCompletedTransactions.
  rewrite (scavengeIsochTransactions_round fuel s eps Hd Heps Hfuel).
  cbn [mbind option_bind].
  change (_intrQH (add_trace _ s)) with (_intrQH s). rewrite Ho. cbn [mbind option_bind].
  destruct (scavengeQueueHeads_idle fuel o qs
              (add_trace (isochRound (isochEPs s) eps) s) Hl) as (s' & -> & Hp).
  { intros k Hk. destruct (Hquiet k Hk) as [F HF]. by exists F. }
  { done. }
  cbn [mbind option_bind]. exists s'. split; [done|].
  eapply idlePass_trans; [|exact Hp].
  destruct (idlePass_refl s) as [A B C D E]. split; try done.
  - cbn. rewrite dispatchEvents_app.
    assert (dispatchEvents (isochRound (isochEPs s) eps) = []) as ->;
      [|by rewrite app_nil_r].
    clear. induction eps as [|p eps IH]; [done|].
    unfold isochRound. cbn [mbind list_bind]. rewrite dispatchEvents_app.
    fold (isochRound (isochEPs s) eps). rewrite IH, app_nil_r.
    destruct (isochEPs s !! p) as [ep|]; [|done]. by destruct (nonzero _).
  - cbn. rewrite callbacks_app.
    assert (callbacks (isochRound (isochEPs s) eps) = []) as ->;
      [|by rewrite app_nil_r].
    clear. induction eps as [|p eps IH]; [done|].
    unfold isochRound. cbn [mbind list_bind]. rewrite callbacks_app.
    fold (isochRound (isochEPs s) eps). rewrite IH, app_nil_r.
    destruct (isochEPs s !! p) as [ep|]; [|done]. by destruct (nonzero _).
Qed.

(** X21: an interrupt with nothing to report fires no callback.  When
    nothing is new on the isochronous done queue and no transaction of
    the schedule is complete, [ProcessCompletedTransactions] returns
    with the callbacks of the trace as they were; the descriptors keep all
    but their alignment buffers, the queue heads all but their stalled
    flags, and the rest of the controller is as it was. *)
Theorem ProcessCompletedTransactions_nothing_to_report fuel s eps o qs :
  _savedDoneQueueHead s = None ∨ _consumerCount s = _producerCount s →
  endpointList (isochEPs s) (_isochEPList s) eps → (length eps ≤ fuel)%nat →
  _intrQH s !! (kUHCI_NINTR_QHS - 1)%nat = Some o →
  qhList (heap s) o qs → (∀ k, k ∈ qs → ∃ F, quietAt s k F) →
  (length qs ≤ kScavengeBound)%nat →
  ∃ s', ProcessCompletedTransactions fuel s = Some s' ∧ idlePass s s'.
Proof. apply ProcessCompletedTransactions_idle. Qed.
End Round.

(** The done queue of [isochUHCI] once the consumer count has caught
    up. *)
Lemma scavengeIsochTransactions_nothing_new_witness :
  scavengeIsochTransactions 2 (set_consumerCount 5 isochUHCI)
  = Some (kIOReturnSuccess,
          add_trace (isochRound (isochEPs (set_consumerCount 5 isochUHCI)) [10; 11]%nat)
            (set_consumerCount 5 isochUHCI)).
Proof.
  refine (scavengeIsochTransactions_nothing_new 2 (set_consumerCount 5 isochUHCI)
            [10; 11]%nat _ _ _).
  - by right.
  - repeat (split; [reflexivity|]; eexists; split; [reflexivity|]). reflexivity.
  - reflexivity.
Defined.

Example scavengeIsochTransactions_nothing_new_round :
  isochRound (isochEPs isochUHCI) [10; 11]%nat
  = [EvReturnIsochDoneQueue 10%nat; EvAddIsochFramesToSchedule 10%nat;
     EvReturnIsochDoneQueue 11%nat; EvAddIsochFramesToSchedule 11%nat].
Proof. reflexivity. Qed.

(** The transaction of the queue head 20 is still under way when the
    interrupt comes. *)
Lemma ProcessCompletedTransactions_nothing_to_report_witness :
  ∃ s', ProcessCompletedTransactions 5
          (set_intrQH (<[10%nat := Some 20%nat]> (_intrQH waitingUHCI)) waitingUHCI)
        = Some s'
        ∧ idlePass (set_intrQH (<[10%nat := Some 20%nat]> (_intrQH waitingUHCI)) waitingUHCI)
            s'.
Proof.
  refine (ProcessCompletedTransactions_nothing_to_report 5
            (set_intrQH (<[10%nat := Some 20%nat]> (_intrQH waitingUHCI)) waitingUHCI)
            [] (Some 20%nat) [20%nat] _ _ _ _ _ _ _).
  - by left.
  - reflexivity.
  - cbn. lia.
  - reflexivity.
  - split; [reflexivity|]. eexists. split; reflexivity.
  - intros k ->%list_elem_of_singleton. exists [1%nat; 2%nat].
    exists waitingQH. split; [reflexivity|]. do 3 right.
    exists [1%nat], 2%nat, (false, false), (Some 3%nat).
    split; [reflexivity|]. split; [|split; [reflexivity|split]].
    + repeat (split; [reflexivity|]; eexists; split; [reflexivity|]). reflexivity.
    + right. eexists. split; reflexivity.
    + cbn [length]. unfold kScavengeBound. lia.
  - cbn [length]. unfold kScavengeBound. lia.
Defined.

(** ** A block whose descriptors cannot all be created *)

Section Partial.
Context `{Header}.

(** The threading loop breaks off at the first descriptor that cannot be
    created. *)
Lemma threadTDs_partial b1 b2 : ∀ freeTD s l,
  Forall is_Some b1 → NoDup (blockPtrs b1 ++ l) →
  tdList (heap s) (_pFreeTD s) l →
  ∃ s', threadTDs (b1 ++ None :: b2) freeTD s = (_pFreeTD s', s')
        ∧ tdList (heap s') (_pFreeTD s') (rev (blockPtrs b1) ++ l)
        ∧ _pLastFreeTD s' = _pLastFreeTD s
        ∧ (∀ x, x ∉ blockPtrs b1 → heap s' !! x = heap s !! x)
        ∧ trace s' = trace s ++ [ErrRanOutOfTDs]
        ∧ tdBlockSupply s' = tdBlockSupply s.
Proof.
  induction b1 as [|slot b1 IH]; intros freeTD s l Hall Hnd Hl.
  - exists (add_trace [ErrRanOutOfTDs] s). by cbn.
  - apply Forall_cons in Hall as [[[p t] ->] Hall].
    change (blockPtrs (Some (p, t) :: b1)) with (p :: blockPtrs b1) in *.
    cbn in Hnd. apply NoDup_cons in Hnd as [Hp Hnd].
    rewrite <- app_comm_cons. cbn [threadTDs].
    edestruct (IH (Some p)
                 (set_pFreeTD (Some p)
                    (set_heap (<[p := ElemTD (set_td_logicalNext (_pFreeTD s) t)]> (heap s)) s))
                 (p :: l)) as (s' & E & Hl' & Hlast & Hh & Htr & Hs); [done| |..].
    + apply NoDup_app. apply NoDup_app in Hnd as (Hn1 & Hn2 & Hn3).
      split; [done|]. split.
      * intros x Hx [->|Hxl]%elem_of_cons.
        -- apply Hp. apply elem_of_app. by left.
        -- by apply (Hn2 x).
      * apply NoDup_cons. split; [|done].
        intros Hpl. apply Hp. apply elem_of_app. by right.
    + cbn. split; [done|]. eexists. rewrite getTD_insert_eq. split; [done|].
      cbn. apply tdList_insert_away; [|done].
      intros Hpl. apply Hp. apply elem_of_app. by right.
    + exists s'. rewrite E. split; [done|]. split; [|split; [done|split; [|done]]].
      * cbn [rev]. by rewrite <- app_assoc.
      * intros x Hx. apply not_elem_of_cons in Hx as [Hx1 Hx2].
        rewrite Hh by done. cbn. by rewrite lookup_insert_ne.
Qed.

(** X22: a block that runs out of descriptors half way.  When the free
    list is empty and the new block yields its first descriptor and the
    descriptors [b1] but not the one after them, [AllocateTD] reports
    the failure in the log, does not look at the rest of the block, and
    still succeeds: it hands out the descriptor created last, zeroed, and
    the pool holds the descriptors created before it, the latest first,
    with its tail pointer at the first descriptor of the block. *)
Theorem AllocateTD_partial_block pQH s p0 t0 b1 b2 supply :
  _pFreeTD s = None →
  tdBlockSupply s = (Some (p0, t0) :: b1 ++ None :: b2) :: supply →
  Forall is_Some b1 → NoDup (p0 :: blockPtrs b1) → td_logicalNext t0 = None →
  ∃ p l s' t,
    rev (p0 :: blockPtrs b1) = p :: l
    ∧ AllocateTD pQH s = Some (Some p, s')
    ∧ tdPool s' l
    ∧ getTD (heap s') p = Some t ∧ zeroedTD t ∧ td_pQH t = pQH
    ∧ trace s' = trace s ++ [ErrRanOutOfTDs]
    ∧ tdBlockSupply s' = supply
    ∧ (∀ x, x ∉ p0 :: blockPtrs b1 → heap s' !! x = heap s !! x).
Proof.
  intros Hf Hs Hall Hnd Hn0. unfold AllocateTD. rewrite Hf, Hs.
  cbn [firstSlot tail].
  match goal with |- context [threadTDs ?sl ?f ?st] =>
    destruct (threadTDs_partial b1 b2 f st [p0] Hall)
      as (s4 & -> & Hl & Hlast & Hh & Htr & Hs4) end.
  - apply NoDup_app. apply NoDup_cons in Hnd as [Hp0 Hnd].
    split; [done|]. split; [|apply NoDup_singleton].
    intros x Hx ->%list_elem_of_singleton. done.
  - cbn. split; [done|]. eexists. rewrite getTD_insert_eq. by split.
  - cbn [rev]. destruct (rev (blockPtrs b1) ++ [p0]) as [|p l] eqn:El.
    { by destruct (rev (blockPtrs b1)). }
    cbn in Hlast.
    assert (tdPool s4 (p :: l)) as Hpool.
    { split; [done|]. rewrite Hlast, <- El. by rewrite last_snoc. }
    destruct (AllocateTD_tdPool pQH s4 p l Hpool)
      as (s' & t & E & Hpool' & Ht & Hz & Hq & _ & _ & Hoth & Hfr).
    unfold AllocateTD in E. rewrite (linked_head _ _ _ _ _ Hl) in E. cbn [head] in E.
    rewrite (linked_head _ _ _ _ _ Hl). cbn [head].
    exists p, l, s', t. split; [done|]. split; [exact E|].
    repeat (split; [done|]).
    assert (trace s' = trace s4 ∧ tdBlockSupply s' = tdBlockSupply s4) as [-> ->].
    { apply (f_equal (λ st, (trace st, tdBlockSupply st))) in Hfr. cbn in Hfr.
      by injection Hfr. }
    rewrite Htr, Hs4. cbn. split; [done|]. split; [done|].
    intros x Hx. apply not_elem_of_cons in Hx as [Hx0 Hx].
    rewrite Hoth.
    + rewrite Hh by done. cbn. by rewrite lookup_insert_ne.
    + intros ->. assert (p ∈ rev (blockPtrs b1) ++ [p0]) as Hin by (rewrite El; by left).
      apply elem_of_app in Hin as [Hin|Hin%list_elem_of_singleton]; [|done].
      apply Hx. by apply elem_of_rev.
Qed.
End Partial.

(** A block of which the third descriptor cannot be created. *)
Lemma AllocateTD_partial_block_witness :
  ∃ p l s' t,
    rev (100%nat :: blockPtrs [Some (101%nat, freshTD 0x4020)]) = p :: l
    ∧ AllocateTD (Some 20%nat)
        (set_tdBlockSupply
           [Some (100%nat, freshTD 0x4000)
            :: [Some (101%nat, freshTD 0x4020)] ++ None :: [Some (103%nat, freshTD 0x4060)]]
           initialUHCI)
      = Some (Some p, s')
    ∧ tdPool s' l
    ∧ getTD (heap s') p = Some t ∧ zeroedTD t ∧ td_pQH t = Some 20%nat
    ∧ trace s'
      = trace (set_tdBlockSupply
                 [Some (100%nat, freshTD 0x4000)
                  :: [Some (101%nat, freshTD 0x4020)] ++ None
                     :: [Some (103%nat, freshTD 0x4060)]]
                 initialUHCI) ++ [ErrRanOutOfTDs]
    ∧ tdBlockSupply s' = []
    ∧ (∀ x, x ∉ 100%nat :: blockPtrs [Some (101%nat, freshTD 0x4020)] →
         heap s' !! x
         = heap (set_tdBlockSupply
                   [Some (100%nat, freshTD 0x4000)
                    :: [Some (101%nat, freshTD 0x4020)] ++ None
                       :: [Some (103%nat, freshTD 0x4060)]]
                   initialUHCI) !! x).
Proof.
  refine (AllocateTD_partial_block (Some 20%nat) _ 100%nat (freshTD 0x4000)
            [Some (101%nat, freshTD 0x4020)] [Some (103%nat, freshTD 0x4060)] [] _ _ _ _ _).
  - reflexivity.
  - reflexivity.
  - repeat constructor; eauto.
  - by apply (bool_decide_unpack _).
  - reflexivity.
Defined.

Example AllocateTD_partial_block_value :
  (λ r, match r with
        | Some (p, s') => Some (p, _pFreeTD s', _pLastFreeTD s', heap s' !! 103%nat)
        | None => None
        end)
    (AllocateTD (Some 20%nat)
       (set_tdBlockSupply
          [Some (100%nat, freshTD 0x4000)
           :: [Some (101%nat, freshTD 0x4020)] ++ None :: [Some (103%nat, freshTD 0x4060)]]
          initialUHCI))
  = Some (Some 101%nat, Some 100%nat, Some 100%nat, None).
Proof. vm_compute. reflexivity. Qed.

(** ** What the scan and the dispatch keep *)

Section Keeps.
Context `{Header}.

Lemma scanKeeps_refl s : scanKeeps s s.
Proof. split; eauto. Qed.

Lemma scanKeeps_trans s1 s2 s3 : scanKeeps s1 s2 → scanKeeps s2 s3 → scanKeeps s1 s3.
Proof.
  intros [A1 B1] [A2 B2]. split; [|by auto].
  intros x td Hx. destruct (A1 x td Hx) as (td1 & H1 & E1).
  destruct (A2 x td1 H1) as (td2 & H2 & E2). exists td2. split; congruence.
Qed.

Lemma scanKeeps_heap s s' : heap s' = heap s → scanKeeps s s'.
Proof. intros E. split; rewrite E; eauto. Qed.

Lemma scanKeeps_updTD p f s s' :
  (∀ td, tdFixed (f td) = tdFixed td) → updTD p f s = Some s' → scanKeeps s s'.
Proof.
  intros Hf. unfold updTD. destruct (getTD (heap s) p) as [t|] eqn:Ht; [|done].
  intros [= <-]. split; cbn.
  - intros x td Hx. rewrite getTD_insert. case_decide; [|eauto].
    subst. rewrite Ht in Hx. injection Hx as <-. eauto.
  - intros q. by rewrite (getQH_insert_TD _ _ _ _ _ Ht).
Qed.

Lemma scanKeeps_updQH q f s s' : updQH q f s = Some s' → scanKeeps s s'.
Proof.
  unfold updQH. destruct (getQH (heap s) q) as [t|] eqn:Ht; [|done].
  intros [= <-]. split; cbn.
  - intros x td Hx. rewrite (getTD_insert_QH _ _ _ _ _ Ht). eauto.
  - intros q' Hq'. rewrite getQH_insert. by case_decide.
Qed.

Ltac keeps_updTD E := eapply scanKeeps_updTD; [|exact E]; done.

Lemma scanKeeps_flipToggles fuel : ∀ o toggle s r s',
  flipToggles fuel o toggle s = Some (r, s') → scanKeeps s s'.
Proof.
  induction fuel as [|fuel IH]; intros o toggle s r s'; destruct o as [p|]; cbn;
    try done; try (intros [= _ <-]; apply scanKeeps_refl).
  destruct (getTD (heap s) p) as [td|]; [|done]. cbn [mbind option_bind].
  destruct (updTD p _ s) as [s1|] eqn:E1; [|done]. cbn [mbind option_bind].
  intros E2. eapply scanKeeps_trans; [|by eapply IH]. keeps_updTD E1.
Qed.

Lemma scanKeeps_scavengeAlignBuffer p act s s' :
  scavengeAlignBuffer p act s = Some s' → scanKeeps s s'.
Proof.
  unfold scavengeAlignBuffer. destruct (getTD (heap s) p) as [td|]; [|done].
  cbn [mbind option_bind].
  destruct (td_alignBuffer td) as [ab|]; [|intros [= <-]; apply scanKeeps_refl].
  destruct ((td_direction td =? kUSBOut) || (act =? 0)).
  { intros E. eapply scanKeeps_trans; [|keeps_updTD E].
    by apply scanKeeps_heap. }
  destruct (td_command td) as [command|]; [|intros [= <-]; by apply scanKeeps_heap].
  destruct (dmaCommand command) as [dma|]; [|intros [= <-]; by apply scanKeeps_heap].
  intros E. eapply scanKeeps_trans; [|keeps_updTD E]. by apply scanKeeps_heap.
Qed.

Lemma scanKeeps_scanStatus pQH p sc s sc' s' :
  scanStatus pQH p sc s = Some (Some (sc', s')) → scanKeeps s s'.
Proof.
  unfold scanStatus. destruct (getTD (heap s) p) as [td|]; [|done].
  cbn [mbind option_bind].
  destruct (negb (TDisHalted sc) && negb (shortTransfer sc));
    [|intros [= _ <-]; apply scanKeeps_refl].
  destruct (nonzero (Z.land _ kUHCI_TD_ACTIVE)); [done|].
  destruct (nonzero (Z.land _ kUHCI_TD_STALLED)).
  { destruct (updQH pQH _ s) as [s1|] eqn:E1; [|done]. cbn [mbind option_bind].
    intros [= _ <-]. by eapply scanKeeps_updQH. }
  destruct (nonzero _ && (_ <? _)); intros [= _ <-]; apply scanKeeps_refl.
Qed.

Lemma scanKeeps_scanLastTD fuel pQH p sc s r sc' s' :
  scanLastTD fuel pQH p sc s = Some (r, sc', s') → scanKeeps s s'.
Proof.
  unfold scanLastTD.
  destruct (match doneQueue sc with
            | Some _ => tail ← doneTail sc; updTD tail (set_td_logicalNext (qHead sc)) s
            | None => Some s
            end) as [s1|] eqn:E1; [|done].
  cbn [mbind option_bind].
  assert (scanKeeps s s1) as H1.
  { destruct (doneQueue sc); [|injection E1 as <-; apply scanKeeps_refl].
    destruct (doneTail sc) as [tl|]; [|done]. cbn [mbind option_bind] in E1.
    keeps_updTD E1. }
  destruct (getTD (heap s1) p) as [td|]; [|done]. cbn [mbind option_bind].
  destruct (updTD p (set_td_logicalNext None) s1) as [s2|] eqn:E2; [|done].
  cbn [mbind option_bind].
  assert (scanKeeps s s2) as H2.
  { eapply scanKeeps_trans; [exact H1|]. keeps_updTD E2. }
  destruct (castTD (heap s1) (td_logicalNext td)) as [q|].
  2: { intros [= _ _ <-]. eapply scanKeeps_trans; [exact H2|]. by apply scanKeeps_heap. }
  destruct (getQH (heap s2) pQH) as [qh|]; [|done]. cbn [mbind option_bind].
  match goal with |- context [updQH pQH (set_qh_firstTD (Some q))] => idtac end.
  destruct (if negb (TDisHalted sc) && shortTransfer sc
            then
              tdq ← getTD (heap s2) q;
              '(lastToggle', s0) ←
                (if negb (qh_type qh =? kUSBControl)
                    && (Z.land (USBToHostLong (td_token tdq)) kUHCI_TD_D =? lastToggle sc)
                 then flipToggles fuel (Some q) (lastToggle sc) s2
                 else Some (lastToggle sc, s2));
              s3 ← updQH pQH
                     (set_qh_elink (HostToUSBLong (TD_PhysicalAddrWithType (td_phys tdq))))
                     s0;
              Some (lastToggle', s3)
            else if TDisHalted sc
                 then s0 ← updQH pQH (set_qh_elink (HostToUSBLong kUHCI_QH_T)) s2;
                      Some (lastToggle sc, s0)
                 else Some (lastToggle sc, s2)) as [[lt s3]|] eqn:E3; [|done].
  cbn [mbind option_bind].
  assert (scanKeeps s2 s3) as H3.
  { destruct (negb (TDisHalted sc) && shortTransfer sc).
    - destruct (getTD (heap s2) q) as [tdq|]; [|done]. cbn [mbind option_bind] in E3.
      destruct (if negb (qh_type qh =? kUSBControl) && _ then _ else _)
        as [[lt' s0]|] eqn:E0; [|done].
      cbn [mbind option_bind] in E3.
      destruct (updQH pQH _ s0) as [s4|] eqn:E4; [|done]. cbn in E3.
      injection E3 as _ <-.
      eapply scanKeeps_trans; [|by eapply scanKeeps_updQH].
      destruct (negb (qh_type qh =? kUSBControl) && _).
      + by eapply scanKeeps_flipToggles.
      + injection E0 as _ <-. apply scanKeeps_refl.
    - destruct (TDisHalted sc).
      + destruct (updQH pQH _ s2) as [s4|] eqn:E4; [|done]. cbn in E3.
        injection E3 as _ <-. by eapply scanKeeps_updQH.
      + injection E3 as _ <-. apply scanKeeps_refl. }
  destruct (updQH pQH (set_qh_firstTD (Some q)) s3) as [s5|] eqn:E5; [|done].
  cbn [mbind option_bind]. intros [= _ _ <-].
  eapply scanKeeps_trans; [exact H2|]. eapply scanKeeps_trans; [exact H3|].
  by eapply scanKeeps_updQH.
Qed.

Lemma scanKeeps_scanTD fuel pQH p sc s r sc' s' :
  scanTD fuel pQH p sc s = Some (r, sc', s') → scanKeeps s s'.
Proof.
  unfold scanTD. destruct (getTD (heap s) p) as [td|]; [|done]. cbn [mbind option_bind].
  destruct (scanStatus pQH p sc s) as [[[sc1 s1]|]|] eqn:E1; cbn [mbind option_bind];
    [|intros [= _ _ <-]; apply scanKeeps_refl|done].
  apply scanKeeps_scanStatus in E1.
  destruct (scavengeAlignBuffer p _ s1) as [s2|] eqn:E2; [|done]. cbn [mbind option_bind].
  apply scanKeeps_scavengeAlignBuffer in E2.
  assert (scanKeeps s s2) as H2 by (by eapply scanKeeps_trans).
  destruct (td_lastTDofTransaction td).
  - intros E3. eapply scanKeeps_trans; [exact H2|]. by eapply scanKeeps_scanLastTD.
  - destruct (castTD (heap s2) (td_logicalNext td)); intros [= _ _ <-]; [done|].
    eapply scanKeeps_trans; [exact H2|]. by apply scanKeeps_heap.
Qed.

Lemma scanKeeps_scanTDs fuel pQH qEnd n : ∀ sc s sc' s',
  scanTDs fuel n pQH qEnd sc s = Some (sc', s') → scanKeeps s s'.
Proof.
  induction n as [|n IH]; intros sc s sc' s'; cbn [scanTDs];
    destruct (qTD sc) as [p|]; try (intros [= _ <-]; apply scanKeeps_refl);
    case_decide; try (intros [= _ <-]; apply scanKeeps_refl).
  destruct (scanTD fuel pQH p sc s) as [[[goOn sc1] s1]|] eqn:E1; [|done].
  cbn [mbind option_bind]. apply scanKeeps_scanTD in E1.
  destruct goOn; [|by intros [= _ <-]].
  intros E2. eapply scanKeeps_trans; [exact E1|]. by eapply IH.
Qed.

Lemma scanKeeps_scavengeQueueHead fuel pQH qh sc s sc' s' :
  scavengeQueueHead fuel pQH qh sc s = Some (sc', s') → scanKeeps s s'.
Proof.
  unfold scavengeQueueHead. intros E. apply scanKeeps_scanTDs in E.
  eapply scanKeeps_trans; [|exact E]. apply scanKeeps_heap. by case_match.
Qed.

Lemma scanKeeps_scanListElements fuel n : ∀ o leCount sc s r sc' s',
  scanListElements fuel n o leCount sc s = Some (r, sc', s') → scanKeeps s s'.
Proof.
  induction n as [|n IH]; intros o leCount sc s r sc' s'; cbn [scanListElements];
    destruct o as [p|]; try (intros [= _ _ <-]; apply scanKeeps_refl).
  destruct (heap s !! p) as [e|]; [|done]. cbn [mbind option_bind].
  destruct (match e with
            | ElemQH qh =>
                if negb (qh_type qh =? kQHTypeDummy) && negb (qh_stalled qh)
                then scavengeQueueHead fuel p qh sc s else Some (sc, s)
            | _ => Some (sc, s)
            end) as [[sc1 s1]|] eqn:E1; [|done].
  cbn [mbind option_bind].
  assert (scanKeeps s s1) as H1.
  { destruct e as [qh| |]; try (injection E1 as _ <-; apply scanKeeps_refl).
    destruct (negb _ && negb _); [by eapply scanKeeps_scavengeQueueHead|].
    injection E1 as _ <-. apply scanKeeps_refl. }
  destruct (heap s1 !! p) as [e1|]; [|done]. cbn [mbind option_bind].
  intros E2. eapply scanKeeps_trans; [exact H1|]. by eapply IH.
Qed.

(** *** The dispatch and the queue heads *)

Lemma set_qh_hlink_same qh : set_qh_hlink (qh_hlink qh) qh = qh.
Proof. by destruct qh. Qed.

Lemma qhLinks_refl s : qhLinks s s.
Proof. intros q qh Hq. exists (qh_hlink qh). by rewrite set_qh_hlink_same. Qed.

Lemma qhLinks_trans s1 s2 s3 : qhLinks s1 s2 → qhLinks s2 s3 → qhLinks s1 s3.
Proof.
  intros H1 H2 q qh Hq. destruct (H1 q qh Hq) as (h1 & Hq1).
  destruct (H2 q _ Hq1) as (h2 & Hq2). exists h2. by rewrite Hq2.
Qed.

Lemma qhLinks_same s s' : qhSame s s' → qhLinks s s'.
Proof.
  intros [A _ _] q qh Hq. exists (qh_hlink qh). by rewrite set_qh_hlink_same, A.
Qed.

Lemma qhLinks_heap s s' : heap s' = heap s → qhLinks s s'.
Proof.
  intros E q qh Hq. exists (qh_hlink qh). by rewrite set_qh_hlink_same, E.
Qed.

Lemma qhLinks_controlBulkDone q s s' : controlBulkDone q s = Some s' → qhLinks s s'.
Proof.
  unfold controlBulkDone. destruct (getQH (heap s) q) as [qh|]; [|done].
  cbn [mbind option_bind].
  destruct ((qh_type qh =? kUSBControl) || (qh_type qh =? kUSBBulk));
    [|intros [= <-]; apply qhLinks_refl].
  destruct (_controlBulkTransactionsOut s =? 0);
    [intros [= <-]; by apply qhLinks_heap|].
  cbv zeta.
  destruct (_controlBulkTransactionsOut (set_controlBulkTransactionsOut _ s) =? 0);
    [|intros [= <-]; by apply qhLinks_heap].
  destruct (_lastQH _) as [lq|]; [|done]. cbn [mbind option_bind].
  destruct (getQH _ lq) as [last|] eqn:Hlast; [|done]. cbn [mbind option_bind].
  unfold updQH. rewrite Hlast. cbn [mbind option_bind]. intros [= <-].
  cbn [heap set_heap set_controlBulkTransactionsOut] in Hlast |- *.
  intros q' qh' Hq'. unfold set_heap at 1. cbn [heap]. rewrite getQH_insert. case_decide.
  - subst. rewrite Hlast in Hq'. injection Hq' as <-. by eexists.
  - exists (qh_hlink qh'). by rewrite set_qh_hlink_same.
Qed.

Lemma qhLinks_doneQueueBody p td forceErr B E s B' E' s' :
  doneQueueBody p td forceErr B E s = Some (B', E', s') → qhLinks s s'.
Proof.
  unfold doneQueueBody.
  pose proof (qhSame_doneQueueStatus td forceErr E s) as H1.
  destruct (doneQueueStatus td forceErr E s) as [[errStatus E1] s1]. cbn [snd] in H1.
  apply qhLinks_same in H1.
  destruct (doneQueueComplete p td errStatus _ E1 s1) as [[[B2 E2] s2]|] eqn:Ec; [|done].
  cbn [mbind option_bind].
  assert (qhLinks s1 s2) as H2.
  { unfold doneQueueComplete in Ec.
    destruct (td_lastTDofTransaction td); [|injection Ec as _ _ <-; apply qhLinks_refl].
    destruct (td_command td) as [command|]; [|injection Ec as _ _ <-; by apply qhLinks_heap].
    destruct (completion_action command) as [action|];
      [|injection Ec as _ _ <-; by apply qhLinks_heap].
    destruct (updTD p _ s1) as [sa|] eqn:Ea; [|done]. cbn [mbind option_bind] in Ec.
    apply qhSame_updTD, qhLinks_same in Ea.
    destruct (td_pQH td) as [q|]; [|done]. cbn [mbind option_bind] in Ec.
    destruct (controlBulkDone q _) as [sb|] eqn:Eb; [|done]. cbn [mbind option_bind] in Ec.
    injection Ec as _ _ <-. apply qhLinks_controlBulkDone in Eb.
    eapply qhLinks_trans; [exact Ea|]. exact Eb. }
  destruct (updTD p (set_td_logicalBuffer None) s2) as [s3|] eqn:E3; [|done].
  cbn [mbind option_bind]. apply qhSame_updTD, qhLinks_same in E3.
  destruct (DeallocateTD p (add_trace [LogDeallocatingTD p] s3)) as [s4|] eqn:E4; [|done].
  cbn [mbind option_bind]. apply qhSame_DeallocateTD, qhLinks_same in E4.
  intros [= _ _ <-].
  eapply qhLinks_trans; [exact H1|]. eapply qhLinks_trans; [exact H2|].
  eapply qhLinks_trans; [exact E3|]. exact E4.
Qed.

Lemma qhLinks_doneQueueLoop fuel : ∀ o forceErr stopAt B E s s',
  doneQueueLoop fuel o forceErr stopAt B E s = Some s' → qhLinks s s'.
Proof.
  induction fuel as [|fuel IH]; intros o forceErr stopAt B E s s'; cbn [doneQueueLoop];
    destruct o as [p|]; try (intros [= <-]; apply qhLinks_refl);
    case_decide; try done; try (intros [= <-]; apply qhLinks_refl).
  destruct (getTD (heap s) p) as [td|]; [|done]. cbn [mbind option_bind].
  destruct (doneQueueBody p td forceErr B E s) as [[[B1 E1] s1]|] eqn:Eb; [|done].
  cbn [mbind option_bind]. apply qhLinks_doneQueueBody in Eb.
  intros E2. eapply qhLinks_trans; [exact Eb|]. by eapply IH.
Qed.

(** *** The dispatch and the isochronous side *)

Lemma updTD_interruptSide p f s s' :
  updTD p f s = Some s' → interruptSide s' = interruptSide s.
Proof. unfold updTD. destruct (getTD _ _); [|done]. by intros [= <-]. Qed.

Lemma controlBulkDone_interruptSide q s s' :
  controlBulkDone q s = Some s' → interruptSide s' = interruptSide s.
Proof.
  unfold controlBulkDone. destruct (getQH (heap s) q) as [qh|]; [|done].
  cbn [mbind option_bind].
  destruct ((qh_type qh =? kUSBControl) || (qh_type qh =? kUSBBulk));
    [|by intros [= <-]].
  destruct (_controlBulkTransactionsOut s =? 0); [by intros [= <-]|].
  cbv zeta.
  destruct (_controlBulkTransactionsOut (set_controlBulkTransactionsOut _ s) =? 0);
    [|by intros [= <-]].
  destruct (_lastQH _) as [lq|]; [|done]. cbn [mbind option_bind].
  destruct (getQH _ lq) as [last|] eqn:Hlast; [|done]. cbn [mbind option_bind].
  unfold updQH. rewrite Hlast. cbn [mbind option_bind]. by intros [= <-].
Qed.

Lemma DeallocateTD_interruptSide p s s' :
  DeallocateTD p s = Some s' → interruptSide s' = interruptSide s.
Proof.
  unfold DeallocateTD.
  destruct (updTD p _ s) as [s1|] eqn:E1; [|done]. cbn [mbind option_bind].
  apply updTD_interruptSide in E1.
  destruct (_pLastFreeTD s1) as [lf|].
  - destruct (updTD lf _ s1) as [s2|] eqn:E2; [|done]. cbn [mbind option_bind].
    apply updTD_interruptSide in E2. intros [= <-].
    change (interruptSide s2 = interruptSide s). congruence.
  - intros [= <-]. change (interruptSide s1 = interruptSide s). congruence.
Qed.

Lemma doneQueueBody_interruptSide p td forceErr B E s B' E' s' :
  doneQueueBody p td forceErr B E s = Some (B', E', s') →
  interruptSide s' = interruptSide s.
Proof.
  unfold doneQueueBody.
  assert (interruptSide (doneQueueStatus td forceErr E s).2 = interruptSide s) as H1.
  { unfold doneQueueStatus. repeat case_match; done. }
  destruct (doneQueueStatus td forceErr E s) as [[errStatus E1] s1]. cbn [snd] in H1.
  destruct (doneQueueComplete p td errStatus _ E1 s1) as [[[B2 E2] s2]|] eqn:Ec; [|done].
  cbn [mbind option_bind].
  assert (interruptSide s2 = interruptSide s1) as H2.
  { unfold doneQueueComplete in Ec.
    destruct (td_lastTDofTransaction td); [|by injection Ec as _ _ <-].
    destruct (td_command td) as [command|]; [|by injection Ec as _ _ <-].
    destruct (completion_action command) as [action|]; [|by injection Ec as _ _ <-].
    destruct (updTD p _ s1) as [sa|] eqn:Ea; [|done]. cbn [mbind option_bind] in Ec.
    apply updTD_interruptSide in Ea.
    destruct (td_pQH td) as [q|]; [|done]. cbn [mbind option_bind] in Ec.
    destruct (controlBulkDone q _) as [sb|] eqn:Eb; [|done]. cbn [mbind option_bind] in Ec.
    injection Ec as _ _ <-. apply controlBulkDone_interruptSide in Eb.
    rewrite Eb. exact Ea. }
  destruct (updTD p (set_td_logicalBuffer None) s2) as [s3|] eqn:E3; [|done].
  cbn [mbind option_bind]. apply updTD_interruptSide in E3.
  destruct (DeallocateTD p (add_trace [LogDeallocatingTD p] s3)) as [s4|] eqn:E4; [|done].
  cbn [mbind option_bind]. apply DeallocateTD_interruptSide in E4.
  intros [= _ _ <-]. rewrite E4. change (interruptSide s3 = interruptSide s). congruence.
Qed.

Lemma doneQueueLoop_interruptSide fuel : ∀ o forceErr stopAt B E s s',
  doneQueueLoop fuel o forceErr stopAt B E s = Some s' →
  interruptSide s' = interruptSide s.
Proof.
  induction fuel as [|fuel IH]; intros o forceErr stopAt B E s s'; cbn [doneQueueLoop];
    destruct o as [p|]; try (by intros [= <-]);
    case_decide; try done; try (by intros [= <-]).
  destruct (getTD (heap s) p) as [td|]; [|done]. cbn [mbind option_bind].
  destruct (doneQueueBody p td forceErr B E s) as [[[B1 E1] s1]|] eqn:Eb; [|done].
  cbn [mbind option_bind]. apply doneQueueBody_interruptSide in Eb.
  intros E2%IH. congruence.
Qed.

(** *** The isochronous pass and the queues *)

Lemma asyncSame_refl s : asyncSame s s.
Proof. by split. Qed.

Lemma asyncSame_trans s1 s2 s3 : asyncSame s1 s2 → asyncSame s2 s3 → asyncSame s1 s3.
Proof.
  intros [A1 B1 C1] [A2 B2 C2]. split.
  - intros x. by rewrite A2.
  - intros x. by rewrite B2.
  - by rewrite C2.
Qed.

Lemma asyncSame_add_trace evs s : asyncSame s (add_trace evs s).
Proof. by split. Qed.

Lemma asyncSame_updITD p f s s' : updITD p f s = Some s' → asyncSame s s'.
Proof.
  unfold updITD. destruct (getITD (heap s) p) as [t|] eqn:Ht; [|done].
  intros [= <-]. apply getITD_lookup in Ht. split; [..|done]; intros x; cbn.
  - rewrite getTD_insert. case_decide; [subst|done]. unfold getTD. by rewrite Ht.
  - rewrite getQH_insert. case_decide; [subst|done]. unfold getQH. by rewrite Ht.
Qed.

Lemma asyncSame_updEP e f s s' : updEP e f s = Some s' → asyncSame s s'.
Proof.
  unfold updEP. destruct (isochEPs s !! e); [|done]. by intros [= <-].
Qed.

Lemma asyncSame_PutTDonDoneQueue pED pTD s s' :
  PutTDonDoneQueue pED pTD s = Some s' → asyncSame s s'.
Proof.
  unfold PutTDonDoneQueue.
  destruct (match getITD (heap s) pTD with Some itd => _ | None => _ end)
    as [s1|] eqn:E1; [|done].
  cbn [mbind option_bind]. intros [= <-].
  eapply asyncSame_trans; [|apply asyncSame_add_trace].
  destruct (getITD (heap s) pTD) as [itd|]; [|injection E1 as <-; apply asyncSame_refl].
  destruct (itd_alignBuffer itd) as [[ab dma]|];
    [|injection E1 as <-; apply asyncSame_refl].
  destruct (isochEPs s !! pED) as [ep|]; [|done]. cbn [mbind option_bind] in E1.
  apply asyncSame_updITD in E1. eapply asyncSame_trans; [|exact E1].
  destruct (ep_direction ep =? kUSBOut); [apply asyncSame_add_trace|].
  destruct dma; [apply asyncSame_add_trace|apply asyncSame_refl].
Qed.

Lemma asyncSame_scavengeAnIsochTD p s s' :
  scavengeAnIsochTD p s = Some s' → asyncSame s s'.
Proof.
  unfold scavengeAnIsochTD. destruct (getITD (heap s) p) as [itd|]; [|done].
  cbn [mbind option_bind].
  destruct (itd_pEndpoint itd) as [e|]; [|intros [= <-]; apply asyncSame_add_trace].
  intros E%asyncSame_PutTDonDoneQueue. eapply asyncSame_trans; [|exact E].
  destruct (itd_lowLatency itd); [apply asyncSame_refl|apply asyncSame_add_trace].
Qed.

Lemma asyncSame_reverseDoneQueue n : ∀ p prevEl C P s r s',
  reverseDoneQueue n p prevEl C P s = Some (r, s') → asyncSame s s'.
Proof.
  induction n as [|n IH]; intros p prevEl C P s r s'; [done|].
  cbn [reverseDoneQueue]. destruct (getITD (heap s) p) as [itd|]; [|done].
  cbn [mbind option_bind].
  destruct (updITD p _ s) as [s1|] eqn:E1; [|done]. cbn [mbind option_bind].
  apply asyncSame_updITD in E1.
  destruct (match itd_pEndpoint itd with Some ep => _ | None => _ end)
    as [s2|] eqn:E2; [|done].
  cbn [mbind option_bind].
  assert (asyncSame s s2) as H2.
  { eapply asyncSame_trans; [exact E1|].
    destruct (itd_pEndpoint itd); [by eapply asyncSame_updEP|].
    injection E2 as <-. apply asyncSame_refl. }
  destruct (P =? wrap32 (C + 1)); [by intros [= _ <-]|].
  destruct (castITD (heap s2) _) as [next|]; [|done]. cbn [mbind option_bind].
  intros E3%IH. by eapply asyncSame_trans.
Qed.

Lemma asyncSame_drainDoneQueue fuel : ∀ o s s',
  drainDoneQueue fuel o s = Some s' → asyncSame s s'.
Proof.
  induction fuel as [|fuel IH]; intros o s s'; destruct o as [p|]; cbn [drainDoneQueue];
    try done; try (intros [= <-]; apply asyncSame_refl).
  destruct (getITD (heap s) p) as [itd|]; [|done]. cbn [mbind option_bind].
  destruct (updITD p _ s) as [s1|] eqn:E1; [|done]. cbn [mbind option_bind].
  apply asyncSame_updITD in E1.
  destruct (match itd_pEndpoint itd with Some ep => _ | None => _ end)
    as [s2|] eqn:E2; [|done].
  cbn [mbind option_bind].
  assert (asyncSame s s2) as H2.
  { eapply asyncSame_trans; [exact E1|].
    destruct (itd_pEndpoint itd); [by eapply asyncSame_updEP|].
    injection E2 as <-. apply asyncSame_refl. }
  destruct (scavengeAnIsochTD p s2) as [s3|] eqn:E3; [|done]. cbn [mbind option_bind].
  apply asyncSame_scavengeAnIsochTD in E3.
  intros E4%IH. eapply asyncSame_trans; [exact H2|]. by eapply asyncSame_trans.
Qed.

Lemma asyncSame_isochEndpointLoop fuel : ∀ o s s',
  isochEndpointLoop fuel o s = Some s' → asyncSame s s'.
Proof.
  induction fuel as [|fuel IH]; intros o s s'; destruct o as [p|];
    cbn [isochEndpointLoop]; try done; try (intros [= <-]; apply asyncSame_refl).
  destruct (isochEPs s !! p) as [ep|]; [|done]. cbn [mbind option_bind].
  intros E%IH. eapply asyncSame_trans; [|exact E].
  eapply asyncSame_trans; [|apply asyncSame_add_trace].
  destruct (nonzero _); [apply asyncSame_add_trace|apply asyncSame_refl].
Qed.

Lemma asyncSame_scavengeIsochTransactions fuel s r s' :
  scavengeIsochTransactions fuel s = Some (r, s') → asyncSame s s'.
Proof.
  unfold scavengeIsochTransactions.
  destruct (match _savedDoneQueueHead s with Some p => _ | None => _ end)
    as [s1|] eqn:E1; [|done].
  cbn [mbind option_bind].
  destruct (isochEndpointLoop fuel _ s1) as [s2|] eqn:E2; [|done].
  cbn [mbind option_bind]. intros [= _ <-].
  apply asyncSame_isochEndpointLoop in E2. eapply asyncSame_trans; [|exact E2].
  destruct (_savedDoneQueueHead s) as [p|]; [|injection E1 as <-; apply asyncSame_refl].
  destruct (negb _); [|injection E1 as <-; apply asyncSame_refl].
  destruct (reverseDoneQueue _ p None _ _ s) as [[[pd cc] sr]|] eqn:Er; [|done].
  cbn [mbind option_bind] in E1.
  apply asyncSame_reverseDoneQueue in Er. apply asyncSame_drainDoneQueue in E1.
  eapply asyncSame_trans; [exact Er|]. eapply asyncSame_trans; [|exact E1]. by split.
Qed.
End Keeps.

(** ** A second pass over the schedule *)

Section Second.
Context `{Header}.
#[local] Opaque kScavengeBound.

Lemma scanTDs_no_descriptor fuel n pQH qEnd sc s :
  qTD sc = None → scanTDs fuel n pQH qEnd sc s = Some (sc, s).
Proof. intros E. destruct n; cbn [scanTDs]; by rewrite E. Qed.

(** The scan of a queue head that is neither a dummy nor stalled, with
    the queue [Ck]: the queue head is quiet afterwards, and what has left
    its queue is in the done queue. *)
Lemma scavengeQueueHead_harvest fuel k qh sc s Ck D :
  getQH (heap s) k = Some qh →
  tdList (heap s) (qh_firstTD qh) Ck → (Ck ≠ [] → ∃ e, qh_lastTD qh = Some e ∧ e ∈ Ck) →
  (length Ck ≤ kScavengeBound)%nat → (length Ck ≤ fuel)%nat →
  doneOK s sc D → (∀ x, x ∈ D → x ∉ Ck) →
  ∃ sc' s' F D' qh',
    scavengeQueueHead fuel k qh sc s = Some (sc', s')
    ∧ getQH (heap s') k = Some qh' ∧ qh_logicalNext qh' = qh_logicalNext qh
    ∧ quietAt s' k F ∧ (∀ x, x ∈ F → x ∈ Ck)
    ∧ doneOK s' sc' D' ∧ (∀ x, x ∈ D' → x ∉ F) ∧ (∀ x, x ∈ D' → x ∈ D ∨ x ∈ Ck)
    ∧ (∀ x, x ≠ k → x ∉ Ck → x ∉ tailOf sc → heap s' !! x = heap s !! x)
    ∧ scanFrame s' = scanFrame s ∧ callbacks (trace s') = callbacks (trace s).
Proof.
  intros Hq Hl Hend Hb Hf HD Hdis. unfold scavengeQueueHead.
  destruct Ck as [|p Ck].
  - cbn in Hl. rewrite Hl.
    match goal with |- context [scanTDs _ _ _ _ _ ?y] => set (s0 := y) end.
    assert (heap s0 = heap s ∧ scanFrame s0 = scanFrame s
            ∧ callbacks (trace s0) = callbacks (trace s)) as (Eh & Ef & Ec).
    { subst s0. case_match; [|done]. split; [done|]. split; [done|].
      cbn. by rewrite callbacks_app, app_nil_r. }
    rewrite scanTDs_no_descriptor by done.
    eexists _, _, [], D, qh. split; [done|]. rewrite Eh.
    split; [done|]. split; [done|].
    split; [exists qh; rewrite Eh; split; [done|]; by right; right; left|].
    split; [done|].
    split; [destruct HD as [? ?]; split; [by rewrite Eh|done]|].
    split; [by intros x _ ?%elem_of_nil|]. split; [by left|]. done.
  - destruct Hend as (e & El & He); [done|].
    pose proof Hl as [Ef _]. rewrite Ef, El.
    rewrite !bool_decide_eq_false_2 by done. cbn [orb andb].
    destruct (scanTDs_harvest fuel k e (length (p :: Ck)) (p :: Ck) [] kScavengeBound qh
                (mkScan (Some p) (Some p) false false (lastToggle sc) (doneQueue sc)
                   (doneTail sc)) s D)
      as (sc' & s' & F & D' & qh' & E & Hq' & El' & Et' & En' & Hn & HF & HD' & HDF & HDD
          & Haway & Efr & Ecb); try done.
    { cbn [qHead]. by rewrite <- Ef. }
    exists sc', s', F, D', qh'. split; [done|]. split; [done|]. split; [done|].
    split; [exists qh'; split; [done|]; by right; right; right|]. done.
Qed.

(** The loop over the list elements on a schedule of queue heads [qs]
    with the queues [C]: every queue head is quiet afterwards, and the
    done queue has descriptors of the queues only. *)
Lemma scanListElements_harvest fuel C qs : ∀ n o leCount sc s D,
  qhList (heap s) o qs →
  (∀ k, k ∈ qs → readyAt s k (C k)
                 ∧ (length (C k) ≤ kScavengeBound)%nat ∧ (length (C k) ≤ fuel)%nat) →
  (∀ k1 k2 x, k1 ∈ qs → k2 ∈ qs → k1 ≠ k2 → x ∈ C k1 → x ∉ C k2) →
  (∀ k k', k ∈ qs → k' ∈ qs → k' ∉ C k) →
  doneOK s sc D → (∀ x k, x ∈ D → k ∈ qs → x ≠ k ∧ x ∉ C k) →
  (length qs ≤ n)%nat →
  ∃ sc' s' D' F,
    scanListElements fuel n o leCount sc s
    = Some (leCount + Z.of_nat (length qs), sc', s')
    ∧ qhList (heap s') o qs
    ∧ (∀ k, k ∈ qs → quietAt s' k (F k) ∧ (∀ x, x ∈ F k → x ∈ C k ∧ x ∉ D'))
    ∧ doneOK s' sc' D'
    ∧ (∀ x, x ∈ D' → x ∈ D ∨ ∃ k, k ∈ qs ∧ x ∈ C k)
    ∧ (∀ x, x ∉ qs → (∀ k, k ∈ qs → x ∉ C k) → x ∉ D → heap s' !! x = heap s !! x)
    ∧ scanFrame s' = scanFrame s ∧ callbacks (trace s') = callbacks (trace s).
Proof.
  induction qs as [|k qs IH]; intros n o leCount sc s D Hl Hready Hdis Hqc HD HDaway Hn.
  - cbn in Hl. subst o. exists sc, s, D, (λ _, []).
    split; [destruct n; cbn; by rewrite Z.add_0_r|].
    split; [done|]. split; [by intros k ?%elem_of_nil|]. split; [done|].
    split; [by left|]. done.
  - pose proof (linked_NoDup _ _ _ _ _ Hl) as [Hk Hnd]%NoDup_cons.
    destruct Hl as [-> (qh & Hq & Hl)].
    destruct n as [|n]; [cbn in Hn; lia|].
    pose proof Hq as Hlook. apply getQH_lookup in Hlook.
    cbn [scanListElements]. rewrite Hlook. cbn [mbind option_bind].
    destruct (Hready k) as ((qh0 & Hq0 & HCk & Hend) & Hb & Hf); [by left|].
    rewrite Hq in Hq0. injection Hq0 as <-.
    assert (∃ sc1 s1 Fk D1 qh1,
              (if negb (qh_type qh =? kQHTypeDummy) && negb (qh_stalled qh)
               then scavengeQueueHead fuel k qh sc s else Some (sc, s)) = Some (sc1, s1)
              ∧ getQH (heap s1) k = Some qh1 ∧ qh_logicalNext qh1 = qh_logicalNext qh
              ∧ quietAt s1 k Fk ∧ (∀ x, x ∈ Fk → x ∈ C k)
              ∧ doneOK s1 sc1 D1 ∧ (∀ x, x ∈ D1 → x ∉ Fk)
              ∧ (∀ x, x ∈ D1 → x ∈ D ∨ x ∈ C k)
              ∧ (∀ x, x ≠ k → x ∉ C k → x ∉ tailOf sc → heap s1 !! x = heap s !! x)
              ∧ scanFrame s1 = scanFrame s ∧ callbacks (trace s1) = callbacks (trace s))
      as (sc1 & s1 & Fk & D1 & qh1 & -> & Hq1 & En1 & Hquiet1 & HFk & HD1 & HD1F & HD1D
          & Haway1 & Efr1 & Ecb1).
    { destruct (negb (qh_type qh =? kQHTypeDummy) && negb (qh_stalled qh)) eqn:Hgo.
      - apply scavengeQueueHead_harvest; try done.
        intros x Hx. apply (HDaway x k Hx). by left.
      - exists sc, s, [], D, qh. split; [done|]. split; [done|]. split; [done|].
        split.
        { exists qh. split; [done|].
          apply andb_false_iff in Hgo as [Hgo|Hgo]; apply negb_false_iff in Hgo;
            [left; by apply Z.eqb_eq|right; by left]. }
        split; [by intros x ?%elem_of_nil|]. split; [done|].
        split; [by intros x _ ?%elem_of_nil|]. split; [by left|]. done. }
    cbn [mbind option_bind].
    pose proof Hq1 as Hlook1. apply getQH_lookup in Hlook1.
    rewrite Hlook1. cbn [mbind option_bind logicalNext]. rewrite En1.
    assert (∀ x, x ∈ tailOf sc → x ∈ D) as Htail
      by (intros x; by eapply doneOK_tail).
    assert (∀ q, q ∈ qs → heap s1 !! q = heap s !! q) as Hqs1.
    { intros q Hin. apply Haway1.
      - by intros ->.
      - apply Hqc; [by left|by right].
      - intros Ht%Htail. by destruct (HDaway q q Ht); [right|]. }
    assert (∀ q x, q ∈ qs → x ∈ C q → heap s1 !! x = heap s !! x) as HCq1.
    { intros q x Hin Hx. apply Haway1.
      - intros ->. by apply (Hqc q k); [right|left|].
      - intros Hxk. apply (Hdis q k x); [by right|by left|by intros ->|done..].
      - intros Ht%Htail. by destruct (HDaway x q Ht); [right|]. }
    destruct (IH n (qh_logicalNext qh) (leCount + 1) sc1 s1 D1)
      as (sc' & s' & D' & F' & -> & Hl' & Hquiet' & HD' & HDD' & Haway' & Efr' & Ecb').
    + eapply linked_agree; [|exact Hl]. intros q t Hin Ht. exists t.
      unfold getQH in *. by rewrite Hqs1.
    + intros q Hin. destruct (Hready q) as ((qhq & Hqq & Hlq & Hendq) & ? & ?); [by right|].
      split; [|done]. exists qhq. split; [unfold getQH in *; by rewrite Hqs1|].
      split; [|done]. eapply linked_agree; [|exact Hlq]. intros x t Hx Ht. exists t.
      unfold getTD in *. by rewrite (HCq1 q x).
    + intros k1 k2 x H1 H2. apply Hdis; by right.
    + intros q q' H1 H2. apply Hqc; by right.
    + done.
    + intros x q [Hx|Hx]%HD1D Hin.
      * apply HDaway; [done|by right].
      * split.
        -- intros ->. by apply (Hqc k q); [left|right|].
        -- apply (Hdis k q x); [by left|by right|by intros ->|done].
    + cbn in Hn. lia.
    + assert (heap s' !! k = heap s1 !! k) as Hk'.
      { apply Haway'; [done| |].
        - intros q Hin. apply Hqc; [by right|by left].
        - intros [Hx|Hx]%HD1D.
          + by destruct (HDaway k k Hx); [left|].
          + by apply (Hqc k k); [left|left|]. }
      assert (∀ x, x ∈ Fk → heap s' !! x = heap s1 !! x) as HFk'.
      { intros x Hx. apply Haway'.
        - intros Hin. apply (Hqc k x); [by left|by right|by apply HFk].
        - intros q Hin Hxq. apply (Hdis k q x); [by left|by right|by intros ->| |done].
          by apply HFk.
        - intros HxD. by apply (HD1F x). }
      exists sc', s', D', (λ q, if decide (q = k) then Fk else F' q).
      split; [do 3 f_equal; cbn [length]; lia|].
      split.
      { split; [done|]. exists qh1. split; [unfold getQH in *; by rewrite Hk'|].
        by rewrite En1. }
      split.
      { intros q Hin. case_decide as Hqk.
        - subst q. split.
          + eapply quietAt_kept; [exact Hquiet1| |by apply keptOn_agree].
            intros qh2 Hq2. exists qh2. unfold getQH in *. by rewrite Hk'.
          + intros x Hx. split; [by apply HFk|].
            intros [HxD|(q & Hq' & Hxq)]%HDD'; [by apply (HD1F x)|].
            apply (Hdis k q x); [by left|by right|by intros ->|by apply HFk|done].
        - apply elem_of_cons in Hin as [->|Hin]; [done|]. by apply Hquiet'. }
      split; [done|].
      split.
      { intros x [[HxD|HxC]%HD1D|(q & Hin & Hxq)]%HDD'.
        - by left.
        - right. exists k. split; [by left|done].
        - right. exists q. split; [by right|done]. }
      split.
      { intros x Hx HxC HxD. rewrite Haway', Haway1; [done|..].
        - intros ->. apply Hx. by left.
        - apply HxC. by left.
        - by intros ?%Htail.
        - intros Hin. apply Hx. by right.
        - intros q Hin. apply HxC. by right.
        - intros [?|?]%HD1D; [done|]. by apply (HxC k); [left|]. }
      split; congruence.
Qed.

Lemma length_queue_join (C : ptr → list ptr) qs k :
  k ∈ qs → (length (C k) ≤ length (mjoin (C <$> qs)))%nat.
Proof.
  induction qs as [|q qs IH]; intros Hin; [by apply elem_of_nil in Hin|].
  change (mjoin (C <$> q :: qs)) with (C q ++ mjoin (C <$> qs)). rewrite length_app.
  apply elem_of_cons in Hin as [->|Hin]; [lia|]. specialize (IH Hin). lia.
Qed.

(** The first pass leaves every queue head of the schedule quiet, and the
    isochronous side of the controller as it was. *)
Lemma scavengeQueueHeads_harvest fuel o qs C l s :
  qhList (heap s) o qs → (length qs ≤ kScavengeBound)%nat →
  (∀ k, k ∈ qs → readyAt s k (C k) ∧ (length (C k) ≤ kScavengeBound)%nat) →
  (∀ k1 k2 x, k1 ∈ qs → k2 ∈ qs → k1 ≠ k2 → x ∈ C k1 → x ∉ C k2) →
  (length (mjoin (C <$> qs)) ≤ fuel)%nat →
  tdPool s l → (∀ k x, k ∈ qs → x ∈ C k → x ∉ l) →
  (∀ k x td, k ∈ qs → x ∈ C k → getTD (heap s) x = Some td → is_Some (completionOf td) →
             ∃ q, td_pQH td = Some q ∧ is_Some (getQH (heap s) q)) →
  (∃ lq, _lastQH s = Some lq ∧ is_Some (getQH (heap s) lq)) →
  ∃ s1 F,
    scavengeQueueHeads fuel o s = Some (kIOReturnSuccess, s1)
    ∧ qhList (heap s1) o qs ∧ (∀ k, k ∈ qs → quietAt s1 k (F k))
    ∧ interruptSide s1 = interruptSide s.
Proof.
  intros Hl Hn Hready Hdis Hfuel [Hpool Hlast] Hfree Hknown HlastQH.
  assert (∀ k k', k ∈ qs → k' ∈ qs → k' ∉ C k) as Hqc.
  { intros k k' Hk Hk' Hin. destruct (Hready k Hk) as [(qh & _ & HC & _) _].
    destruct (linked_lookup _ _ _ _ _ k' HC Hin) as [td Htd].
    destruct (linked_lookup _ _ _ _ _ k' Hl Hk') as [q Hq].
    by rewrite (getTD_getQH _ _ _ Htd) in Hq. }
  destruct (scanListElements_harvest fuel C qs kScavengeBound o 0
              (mkScan None None false false 0 None None) s [])
    as (sc1 & sa & D1 & F & Escan & Hl1 & Hquiet & HD1 & HDD & Haway & Efr & Ecb);
    try done.
  { intros k Hk. destruct (Hready k Hk) as [? ?]. split; [done|]. split; [done|].
    etrans; [by apply length_queue_join|done]. }
  { by intros x k ?%elem_of_nil. }
  pose proof (scanKeeps_scanListElements _ _ _ _ _ _ _ _ _ Escan) as Hkeep.
  assert (_pLastFreeTD sa = _pLastFreeTD s) as Elf by exact (f_equal _pLastFreeTD Efr).
  assert (_lastQH sa = _lastQH s) as Elq by exact (f_equal _lastQH Efr).
  assert (∀ x, x ∈ D1 → ∃ k, k ∈ qs ∧ x ∈ C k) as Horigin.
  { by intros x [?%elem_of_nil|?]%HDD. }
  assert (∀ x, x ∈ freeTail sa → x ∈ l) as Hfa.
  { unfold freeTail. rewrite Elf, Hlast. intros x.
    destruct (last l) eqn:E; [|by intros ?%elem_of_nil].
    intros ->%list_elem_of_singleton. apply last_Some in E as (l' & ->).
    apply elem_of_app. right. by left. }
  assert (∃ sb,
            match doneQueue sc1 with
            | Some _ =>
                '(_, s) ← UHCIUIMDoDoneQueueProcessing fuel (doneQueue sc1)
                            kIOReturnSuccess None sa;
                Some s
            | None => Some sa
            end = Some sb
            ∧ qhLinks sa sb
            ∧ (∀ x, x ∉ D1 → x ∉ l → getTD (heap sb) x = getTD (heap sa) x)
            ∧ interruptSide sb = interruptSide sa)
    as (sb & Edone & Hlinks & Hsame & Eside).
  { destruct (doneQueue sc1) as [d|] eqn:Ed.
    2: { exists sa. split; [done|]. split; [apply qhLinks_refl|done]. }
    destruct HD1 as [HlD HtD]. rewrite Ed in HlD.
    destruct (tdList_records _ _ _ HlD) as (c & Ec & Hc).
    destruct (doneQueueLoop_spec c fuel (Some d) kIOReturnSuccess None 0 kIOReturnSuccess
                sa []) as (sb & Eloop & Hstep & _).
    - split; [by rewrite Ec|done].
    - done.
    - split.
      + intros x Hx Hcomp.
        destruct (Horigin x.1) as (k & Hk & HxC).
        { rewrite <- Ec. by apply list_elem_of_fmap_2. }
        destruct (Hready k Hk) as [(qh & _ & HC & _) _].
        destruct (linked_lookup _ _ _ _ _ x.1 HC HxC) as [td0 Htd0].
        destruct (sk_td _ _ Hkeep _ _ Htd0) as (td' & Htd' & Efix).
        rewrite (proj1 (Forall_forall _ _) Hc x Hx) in Htd'. injection Htd' as <-.
        unfold tdFixed in Efix. injection Efix as E1 E2 E3.
        destruct (Hknown k x.1 td0 Hk HxC Htd0) as (q & Eq & Hq).
        { unfold completionOf in *. by rewrite <- E1, <- E3. }
        exists q. split; [congruence|]. by apply (sk_qh _ _ Hkeep).
      + destruct HlastQH as (lq & E & Hq). exists lq. rewrite Elq.
        split; [done|]. by apply (sk_qh _ _ Hkeep).
    - intros f Ef.
      assert (f ∈ l) as Hfl by (apply Hfa; unfold freeTail; rewrite Ef; by left).
      split.
      + destruct (linked_lookup _ _ _ _ _ f Hpool Hfl) as [td Htd].
        destruct (sk_td _ _ Hkeep _ _ Htd) as (td' & -> & _). by eexists.
      + rewrite Ec. intros (k & Hk & HxC)%Horigin. by apply (Hfree k f).
    - rewrite <- (length_fmap fst c), Ec. etrans; [|exact Hfuel].
      apply submseteq_length, NoDup_submseteq; [by eapply linked_NoDup|].
      intros x (k & Hk & HxC)%Horigin. apply list_elem_of_join. exists (C k).
      split; [done|]. by apply list_elem_of_fmap_2.
    - done.
    - done.
    - exists sb. unfold UHCIUIMDoDoneQueueProcessing. rewrite Eloop.
      split; [done|]. split; [by eapply qhLinks_doneQueueLoop|].
      split; [|by eapply doneQueueLoop_interruptSide].
      intros x HxD Hxl. apply (ds_td _ _ _ Hstep). rewrite Ec.
      by intros [?|?%Hfa]%elem_of_app. }
  unfold scavengeQueueHeads. rewrite Escan. cbn [mbind option_bind].
  cbn [mbind option_bind] in Edone. rewrite Edone. cbn [mbind option_bind].
  match goal with |- context [Some (kIOReturnSuccess, ?x)] => set (s1 := x) end.
  assert (heap s1 = heap sb ∧ interruptSide s1 = interruptSide sb) as [Eh Es1]
    by (subst s1; by destruct (1000 <? _)).
  exists s1, F. split; [done|]. split; [|split].
  - rewrite Eh. eapply linked_agree; [|exact Hl1]. intros q t Hin Ht.
    destruct (Hlinks q t Ht) as (hl & ->). by eexists.
  - intros k Hk. destruct (Hquiet k Hk) as [Hquietk HFk].
    eapply quietAt_kept; [exact Hquietk| |].
    + intros qh Hq. destruct (Hlinks k qh Hq) as (hl & Hq').
      exists (set_qh_hlink hl qh). by rewrite Eh.
    + intros x td Hx Htd. exists td. rewrite Eh. destruct (HFk x Hx) as [HxC HxD].
      rewrite Hsame; [done|done|]. by apply (Hfree k x).
  - rewrite Es1, Eside. exact (f_equal interruptSide Efr).
Qed.

(** X23: a second pass of [scavengeQueueHeads] right after the first
    finds nothing.  On a schedule of queue heads [qs], each with a queue
    [C k] that has its end in it, where no descriptor is in two queues or
    in the pool [l] of free descriptors, and the queue heads the dispatch
    looks at are there, both passes return success when the fuel covers
    the descriptors of all queues; the second fires no completion and
    returns no descriptor to the pool, and leaves the descriptors with
    all but their alignment buffers, the queue heads with all but their
    stalled flags, and the rest of the controller as the first pass left
    them. *)
Theorem scavengeQueueHeads_second_pass fuel o qs C l s :
  qhList (heap s) o qs → (length qs ≤ kScavengeBound)%nat →
  (∀ k, k ∈ qs → readyAt s k (C k) ∧ (length (C k) ≤ kScavengeBound)%nat) →
  (∀ k1 k2 x, k1 ∈ qs → k2 ∈ qs → k1 ≠ k2 → x ∈ C k1 → x ∉ C k2) →
  (length (mjoin (C <$> qs)) ≤ fuel)%nat →
  tdPool s l → (∀ k x, k ∈ qs → x ∈ C k → x ∉ l) →
  (∀ k x td, k ∈ qs → x ∈ C k → getTD (heap s) x = Some td → is_Some (completionOf td) →
             ∃ q, td_pQH td = Some q ∧ is_Some (getQH (heap s) q)) →
  (∃ lq, _lastQH s = Some lq ∧ is_Some (getQH (heap s) lq)) →
  ∃ s1 s2,
    scavengeQueueHeads fuel o s = Some (kIOReturnSuccess, s1)
    ∧ scavengeQueueHeads fuel o s1 = Some (kIOReturnSuccess, s2)
    ∧ idlePass s1 s2.
Proof.
  intros Hl Hn Hready Hdis Hfuel Hpool Hfree Hknown HlastQH.
  destruct (scavengeQueueHeads_harvest fuel o qs C l s)
    as (s1 & F & E1 & Hl1 & Hquiet & _); try done.
  destruct (scavengeQueueHeads_idle fuel o qs s1 Hl1) as (s2 & E2 & Hidle);
    [by eauto|done|].
  by exists s1, s2.
Qed.
End Second.

(** The short transaction of the queue head 20 is harvested by the first
    pass. *)
Lemma scavengeQueueHeads_second_pass_witness :
  ∃ s1 s2,
    scavengeQueueHeads 4 (Some 20%nat) spdUHCI = Some (kIOReturnSuccess, s1)
    ∧ scavengeQueueHeads 4 (Some 20%nat) s1 = Some (kIOReturnSuccess, s2)
    ∧ idlePass s1 s2.
Proof.
  refine (scavengeQueueHeads_second_pass 4 (Some 20%nat) [20%nat]
            (λ _, [1%nat; 2%nat; 3%nat; 4%nat]) [] spdUHCI _ _ _ _ _ _ _ _ _).
  - split; [reflexivity|]. eexists. split; reflexivity.
  - cbn [length]. unfold kScavengeBound. lia.
  - intros k ->%list_elem_of_singleton. split.
    + exists haltedQH. split; [reflexivity|]. split.
      * repeat (split; [reflexivity|]; eexists; split; [reflexivity|]). reflexivity.
      * intros _. exists 4%nat. split; [reflexivity|].
        do 3 apply list_elem_of_further. apply list_elem_of_here.
    + cbn [length]. unfold kScavengeBound. lia.
  - intros k1 k2 x ->%list_elem_of_singleton ->%list_elem_of_singleton Hne.
    by destruct Hne.
  - cbn. lia.
  - split; reflexivity.
  - intros k x _ _ ?%elem_of_nil. done.
  - intros k x td ->%list_elem_of_singleton Hx Htd _. exists 20%nat.
    split; [|eexists; reflexivity].
    repeat (apply elem_of_cons in Hx as [->|Hx]); [..|by apply elem_of_nil in Hx];
      vm_compute in Htd; by injection Htd as <-.
  - exists 20%nat. split; [reflexivity|]. eexists. reflexivity.
Defined.

(** On this schedule the callback of the short transaction fires in the
    first pass, and the second pass adds none. *)
Example scavengeQueueHeads_second_pass_callbacks :
  ('(_, s1) ← scavengeQueueHeads 4 (Some 20%nat) spdUHCI;
   '(_, s2) ← scavengeQueueHeads 4 (Some 20%nat) s1;
   Some (callbacks (trace s1), callbacks (trace s2)))
  = Some ([EvComplete 7 0 119], [EvComplete 7 0 119]).
Proof. by vm_compute. Qed.

(** ** Two interrupts in a row *)

Section Interrupt.
Context `{Header}.
#[local] Opaque kScavengeBound.

(** The isochronous pass over the news [news] returns with nothing new
    left for the next pass, and with the list of the endpoints as it
    was. *)
Lemma scavengeIsochTransactions_pass fuel s news eps :
  isochNews fuel s news →
  endpointList (isochEPs s) (_isochEPList s) eps → (length eps ≤ fuel)%nat →
  ∃ s', scavengeIsochTransactions fuel s = Some (kIOReturnSuccess, s')
    ∧ (_savedDoneQueueHead s' = None ∨ _consumerCount s' = _producerCount s')
    ∧ endpointList (isochEPs s') (_isochEPList s') eps.
Proof.
  intros Hnews Heps Hfuel'. destruct news as [|p l0].
  { cbn in Hnews. rewrite (scavengeIsochTransactions_round fuel s eps Hnews Heps Hfuel').
    eexists. split; [done|]. by split. }
  destruct Hnews as (Hhead & HP & Hlen & Hpath & Hnd & Hk & Hfuel).
  set (l := p :: l0) in *. assert (l ≠ []) as Hne by done. clearbody l.
  (* the reversal *)
  destruct (reverseITDs_Some l (Some p) None s Hpath Hk) as (s1 & Es1 & H1 & Etr1).
  destruct (last l) as [pl|] eqn:Hlast; [|by apply last_None in Hlast].
  pose proof (reverseITDs_links l None s s1 [] Es1 Hnd) as Hlist.
  rewrite app_nil_r, (head_rev_last _ _ Hlast) in Hlist.
  specialize (Hlist (λ x _, not_elem_of_nil x) eq_refl).
  pose proof (step_fields _ _ _ H1) as G1. injection G1 as EP1 _ EL1 _ _.
  (* the hand-over *)
  set (sc := set_consumerCount (_producerCount s) s1).
  assert (endpointsKnown s1 (rev l)) as Hk1.
  { eapply endpointsKnown_step; [exact H1|]. intros x e Hx. apply Hk.
    by apply elem_of_rev. }
  destruct (deliverITDs_Some (rev l) (Some pl) sc Hlist Hk1) as (s2 & Es2 & H2 & Etr2).
  pose proof (step_fields _ _ _ H2) as G2. cbn in G2. injection G2 as EP2 EC2 EL2 _ _.
  (* the endpoints *)
  assert (endpointList (isochEPs s2) (_isochEPList s2) eps) as Heps2.
  { eapply endpointList_step; [exact H2|]. rewrite EL2, EL1.
    change (isochEPs sc) with (isochEPs s1). by eapply endpointList_step. }
  destruct (isochEndpointLoop_Some eps fuel _ s2 Heps2 Hfuel')
    as (s3 & Es3 & H3 & Eeps3 & Etr3).
  pose proof (step_fields _ _ _ H3) as G3. injection G3 as EP3 EC3 EL3 _ _.
  exists s3. split; [|split].
  - unfold scavengeIsochTransactions. rewrite Hhead.
    assert (_consumerCount s ≠ _producerCount s) as Hcp.
    { intros E. rewrite E, Z.sub_diag in Hlen. destruct l; [done|]. cbn in Hlen.
      unfold wrap32 in Hlen. rewrite Z.mod_0_l in Hlen; lia. }
    apply Z.eqb_neq in Hcp. rewrite Hcp. cbn [negb].
    rewrite <- Hlen, Nat2Z.id.
    rewrite (reverseDoneQueue_spec _ l p None _ s Hpath Hne (count_meets _ _ _ HP Hlen)).
    rewrite Es1. cbn [mbind option_bind]. rewrite Hlast. cbn [mbind option_bind].
    fold sc.
    rewrite (drainDoneQueue_spec (rev l) fuel (Some pl) sc Hlist)
      by (by rewrite length_rev).
    rewrite Es2. cbn [mbind option_bind]. by rewrite Es3.
  - right. congruence.
  - by rewrite Eeps3, EL3.
Qed.

(** X24: a second interrupt right after the first reports nothing.  With
    the news [news] on the isochronous done queue, the endpoints [eps],
    and a schedule of queue heads [qs] from the last interrupt queue head
    on, each with a queue [C k] that has its end in it, where no
    descriptor is in two queues or in the pool [l] of free descriptors
    and the queue heads the dispatch looks at are there, two calls of
    [ProcessCompletedTransactions] in a row both return when the fuel
    covers the news, the endpoints and the descriptors of all queues.
    The second call makes its round of the endpoints, but hands no
    isochronous descriptor to an endpoint, fires no completion and
    returns no descriptor to the pool: it leaves the descriptors with all
    but their alignment buffers, the queue heads with all but their
    stalled flags, and the rest of the controller as the first call left
    them. *)
Theorem ProcessCompletedTransactions_second_interrupt fuel s news eps o qs C l :
  isochNews fuel s news →
  endpointList (isochEPs s) (_isochEPList s) eps → (length eps ≤ fuel)%nat →
  _intrQH s !! (kUHCI_NINTR_QHS - 1)%nat = Some o →
  qhList (heap s) o qs → (length qs ≤ kScavengeBound)%nat →
  (∀ k, k ∈ qs → readyAt s k (C k) ∧ (length (C k) ≤ kScavengeBound)%nat) →
  (∀ k1 k2 x, k1 ∈ qs → k2 ∈ qs → k1 ≠ k2 → x ∈ C k1 → x ∉ C k2) →
  (length (mjoin (C <$> qs)) ≤ fuel)%nat →
  tdPool s l → (∀ k x, k ∈ qs → x ∈ C k → x ∉ l) →
  (∀ k x td, k ∈ qs → x ∈ C k → getTD (heap s) x = Some td → is_Some (completionOf td) →
             ∃ q, td_pQH td = Some q ∧ is_Some (getQH (heap s) q)) →
  (∃ lq, _lastQH s = Some lq ∧ is_Some (getQH (heap s) lq)) →
  ∃ s1 s2,
    ProcessCompletedTransactions fuel s = Some s1
    ∧ ProcessCompletedTransactions fuel s1 = Some s2
    ∧ idlePass s1 s2.
Proof.
  intros Hnews Heps Hfe Ho Hl Hn Hready Hdis Hfuel [Hpool Hlast] Hfree Hknown HlastQH.
  destruct (scavengeIsochTransactions_pass fuel s news eps)
    as (sI & EI & Hcaught & HepsI); try done.
  pose proof (asyncSame_scavengeIsochTransactions _ _ _ _ EI) as [Atd Aqh Af].
  injection Af as Ef1 Ef2 Ef3 Ef4.
  destruct (scavengeQueueHeads_harvest fuel o qs C l sI)
    as (s1 & F & E1 & Hl1 & Hquiet & Eside); try done.
  - eapply linked_agree; [|exact Hl]. intros q t _ Ht. exists t. by rewrite Aqh.
  - intros k Hk. destruct (Hready k Hk) as [(qh & Hq & HC & Hend) Hb]. split; [|done].
    exists qh. rewrite Aqh. split; [done|]. split; [|done].
    eapply linked_agree; [|exact HC]. intros x t _ Ht. exists t. by rewrite Atd.
  - split; [|by rewrite Ef2]. rewrite Ef1.
    eapply linked_agree; [|exact Hpool]. intros x t _ Ht. exists t. by rewrite Atd.
  - intros k x td Hk Hx Htd Hcomp. rewrite Atd in Htd.
    destruct (Hknown k x td Hk Hx Htd Hcomp) as (q & Eq & Hq).
    exists q. by rewrite Aqh.
  - destruct HlastQH as (lq & E & Hq). exists lq. by rewrite Ef3, Aqh.
  - unfold interruptSide, isochFields in Eside. injection Eside as G1 G2 G3 G4 G5 G6.
    destruct (ProcessCompletedTransactions_idle fuel s1 eps o qs) as (s2 & E2 & Hidle);
      try done.
    + destruct Hcaught as [?|?]; [left|right]; congruence.
    + by rewrite G5, G4.
    + by rewrite G6, Ef4.
    + eauto.
    + exists s1, s2. split; [|done]. unfold ProcessCompletedTransactions.
      rewrite EI. cbn [mbind option_bind]. rewrite Ef4, Ho. cbn [mbind option_bind].
      by rewrite E1.
Qed.
End Interrupt.

(** The interrupt of [busyUHCI]: two isochronous descriptors are new, and
    the short transaction of the queue head 20 is complete. *)
Lemma ProcessCompletedTransactions_second_interrupt_witness :
  ∃ s1 s2,
    ProcessCompletedTransactions 4 busyUHCI = Some s1
    ∧ ProcessCompletedTransactions 4 s1 = Some s2
    ∧ idlePass s1 s2.
Proof.
  refine (ProcessCompletedTransactions_second_interrupt 4 busyUHCI [42%nat; 41%nat]
            [10%nat; 11%nat] (Some 20%nat) [20%nat] (λ _, [1%nat; 2%nat; 3%nat; 4%nat]) []
            _ _ _ _ _ _ _ _ _ _ _ _ _).
  - split; [reflexivity|]. split; [vm_compute; split; [discriminate|reflexivity]|].
    split; [reflexivity|]. split.
    { repeat (split; [reflexivity|]; eexists; split; [reflexivity|]). exact I. }
    split; [by apply (bool_decide_unpack _)|]. split; [|cbn; lia].
    intros x e Hx He.
    assert (e = 10%nat ∨ e = 11%nat) as [-> | ->]; [|by eexists..].
    repeat (apply elem_of_cons in Hx as [->|Hx]);
      [injection He as <-; auto..|by apply elem_of_nil in Hx].
  - repeat (split; [reflexivity|]; eexists; split; [reflexivity|]). reflexivity.
  - cbn. lia.
  - reflexivity.
  - split; [reflexivity|]. eexists. split; reflexivity.
  - cbn [length]. unfold kScavengeBound. lia.
  - intros k ->%list_elem_of_singleton. split.
    + exists haltedQH. split; [reflexivity|]. split.
      * repeat (split; [reflexivity|]; eexists; split; [reflexivity|]). reflexivity.
      * intros _. exists 4%nat. split; [reflexivity|].
        do 3 apply list_elem_of_further. apply list_elem_of_here.
    + cbn [length]. unfold kScavengeBound. lia.
  - intros k1 k2 x ->%list_elem_of_singleton ->%list_elem_of_singleton Hne.
    by destruct Hne.
  - cbn. lia.
  - split; reflexivity.
  - intros k x _ _ ?%elem_of_nil. done.
  - intros k x td ->%list_elem_of_singleton Hx Htd _. exists 20%nat.
    split; [|eexists; reflexivity].
    repeat (apply elem_of_cons in Hx as [->|Hx]); [..|by apply elem_of_nil in Hx];
      vm_compute in Htd; by injection Htd as <-.
  - exists 20%nat. split; [reflexivity|]. eexists. reflexivity.
Defined.

(** The first interrupt hands over the two isochronous descriptors and
    completes the short transaction; the second only makes the round of
    the endpoints. *)
Example ProcessCompletedTransactions_second_interrupt_trace :
  (s1 ← ProcessCompletedTransactions 4 busyUHCI;
   s2 ← ProcessCompletedTransactions 4 s1;
   Some (callbacks (trace s1), drop (length (trace s1)) (trace s2)))
  = Some ([EvPutTDonDoneQueue 10%nat 41%nat; EvPutTDonDoneQueue 11%nat 42%nat;
           EvComplete 7 0 119],
          [EvReturnIsochDoneQueue 10%nat; EvAddIsochFramesToSchedule 10%nat;
           EvReturnIsochDoneQueue 11%nat; EvAddIsochFramesToSchedule 11%nat]).
Proof. by vm_compute. Qed.
